(** * stackparse: a shallow embedding of the goroutine-dump parser and its
      query layer (package [stacks] in util/stack.go, package [main] in
      main.go), with the properties of spec.md stated over it.

    Conventions.
    - Go [string]s are byte strings: [string] of the Standard Library,
      one [ascii] per byte.
    - Go [int], [int64] and [time.Duration] are 64-bit two's-complement
      integers: [Z] with the wrap-around written out ([wrap64]).
    - Slice indices and lengths are [nat]; a Go slice never holds 2^63
      elements, so no wrap-around is involved there.
    - A run-time panic is a value of [RuntimeError]; functions that can
      panic return in the [Exec] monad.
    - [error] values built by [fmt.Errorf] are kept structured (format
      string and arguments) instead of being rendered. *)

From Stdlib Require Import ZArith Ascii String List Bool Lia Permutation.
From Stdlib Require Import DecimalString HexadecimalString.
From Stdlib Require DecimalPos HexadecimalPos DecimalFacts.
From stdpp Require Import base option list gmap strings.

Open Scope string_scope.
Open Scope list_scope.
Open Scope Z_scope.

(** ** Machine integers *)

Definition wrap64 (z : Z) : Z := (z + 2 ^ 63) mod 2 ^ 64 - 2 ^ 63.
Definition int64_min : Z := - 2 ^ 63.
Definition int64_max : Z := 2 ^ 63 - 1.
Definition in_int64 (z : Z) : Prop := int64_min <= z <= int64_max.

(** ** Byte strings *)

Module GoString.

Definition byteN (c : ascii) : N := N_of_ascii c.

Fixpoint firstn_s (n : nat) (s : string) : string :=
  match n, s with
  | S k, String c s' => String c (firstn_s k s')
  | _, _ => EmptyString
  end.

Fixpoint skipn_s (n : nat) (s : string) : string :=
  match n, s with
  | S k, String _ s' => skipn_s k s'
  | _, _ => s
  end.

(** [s[lo:hi]] for in-range bounds. *)
Definition slice (s : string) (lo hi : nat) : string := firstn_s (hi - lo) (skipn_s lo s).

Fixpoint mem (c : ascii) (set : string) : bool :=
  match set with
  | EmptyString => false
  | String d set' => Ascii.eqb c d || mem c set'
  end.

(** strings.HasPrefix *)
Definition HasPrefix (s p : string) : bool := String.prefix p s.

(** strings.TrimPrefix *)
Definition TrimPrefix (s p : string) : string :=
  if HasPrefix s p then skipn_s (String.length p) s else s.

(** strings.Contains: [Index(s, substr) >= 0]. *)
Fixpoint Contains (s sub : string) : bool :=
  String.prefix sub s ||
  match s with
  | EmptyString => false
  | String _ s' => Contains s' sub
  end.

(** strings.LastIndexByte; [None] stands for -1. *)
Fixpoint LastIndexByte (s : string) (c : ascii) : option nat :=
  match s with
  | EmptyString => None
  | String d s' =>
      match LastIndexByte s' c with
      | Some i => Some (S i)
      | None => if Ascii.eqb d c then Some O else None
      end
  end.

(** strings.Split for a non-empty separator (every call site passes a
    literal one): cut at the leftmost non-overlapping occurrences.
    [skip] counts the bytes of a separator still to be passed over and
    [acc] is the piece under construction. *)
Fixpoint split_aux (sep : string) (skip : nat) (acc : string) (s : string)
  : list string :=
  match s with
  | EmptyString => [acc]
  | String c s' =>
      match skip with
      | S k => split_aux sep k acc s'
      | O =>
          if String.prefix sep s
          then acc :: split_aux sep (String.length sep - 1) EmptyString s'
          else split_aux sep 0 (acc +:+ String c EmptyString) s'
      end
  end.

Definition Split (s sep : string) : list string := split_aux sep 0 EmptyString s.

(** strings.Join *)
Fixpoint Join (elems : list string) (sep : string) : string :=
  match elems with
  | [] => EmptyString
  | [e] => e
  | e :: rest => e +:+ sep +:+ Join rest sep
  end.

(** strings.Trim with an ASCII cutset: bytes of the cutset are removed
    from both ends. *)
Fixpoint trimLeftASCII (cutset : string) (s : string) : string :=
  match s with
  | EmptyString => EmptyString
  | String c s' => if mem c cutset then trimLeftASCII cutset s' else s
  end.

Fixpoint trimRightASCII (cutset : string) (s : string) : string :=
  match s with
  | EmptyString => EmptyString
  | String c s' =>
      match trimRightASCII cutset s' with
      | EmptyString => if mem c cutset then EmptyString else String c EmptyString
      | r => String c r
      end
  end.

Definition Trim (s cutset : string) : string :=
  trimLeftASCII cutset (trimRightASCII cutset s).

(** *** UTF-8 (package unicode/utf8) *)

Definition RuneError : N := 65533.

Definition between (b lo hi : N) : bool := ((lo <=? b) && (b <=? hi))%N.

(** The low six bits of a continuation byte. *)
Definition lo6 (b : N) : N := N.land b 63.

(** utf8.DecodeRuneInString: the first rune of [s] and its width; an
    invalid or truncated encoding is [(RuneError, 1)]. *)
Definition DecodeRuneInString (s : string) : N * nat :=
  match s with
  | EmptyString => (RuneError, 0%nat)
  | String c0 r0 =>
      let b0 := byteN c0 in
      if (b0 <? 128)%N then (b0, 1%nat)
      else if between b0 194 223 then
        match r0 with
        | String c1 _ =>
            let b1 := byteN c1 in
            if between b1 128 191
            then (N.lor (N.shiftl (N.land b0 31) 6) (lo6 b1), 2%nat)
            else (RuneError, 1%nat)
        | _ => (RuneError, 1%nat)
        end
      else if between b0 224 239 then
        let lo := if (b0 =? 224)%N then 160%N else 128%N in
        let hi := if (b0 =? 237)%N then 159%N else 191%N in
        match r0 with
        | String c1 (String c2 _) =>
            let b1 := byteN c1 in
            let b2 := byteN c2 in
            if between b1 lo hi && between b2 128 191
            then (N.lor (N.shiftl (N.land b0 15) 12)
                    (N.lor (N.shiftl (lo6 b1) 6) (lo6 b2)), 3%nat)
            else (RuneError, 1%nat)
        | _ => (RuneError, 1%nat)
        end
      else if between b0 240 244 then
        let lo := if (b0 =? 240)%N then 144%N else 128%N in
        let hi := if (b0 =? 244)%N then 143%N else 191%N in
        match r0 with
        | String c1 (String c2 (String c3 _)) =>
            let b1 := byteN c1 in
            let b2 := byteN c2 in
            let b3 := byteN c3 in
            if between b1 lo hi && between b2 128 191 && between b3 128 191
            then (N.lor (N.shiftl (N.land b0 7) 18)
                    (N.lor (N.shiftl (lo6 b1) 12)
                       (N.lor (N.shiftl (lo6 b2) 6) (lo6 b3))), 4%nat)
            else (RuneError, 1%nat)
        | _ => (RuneError, 1%nat)
        end
      else (RuneError, 1%nat)
  end.

(** utf8.RuneStart: not a continuation byte. *)
Definition RuneStart (c : ascii) : bool := negb (N.land (byteN c) 192 =? 128)%N.

(** The loop of DecodeLastRuneInString looking for the start of the last
    rune: [start] walks down from [end-2] while [start >= lim] and stops
    at a rune start; it may end at [lim-1].  At most four steps. *)
Fixpoint lastRuneStart (s : string) (lim : Z) (steps : nat) (start : Z) : Z :=
  match steps with
  | O => start
  | S k =>
      if start <? lim then start
      else match String.get (Z.to_nat start) s with
           | Some c => if RuneStart c then start else lastRuneStart s lim k (start - 1)
           | None => start
           end
  end.

(** utf8.DecodeLastRuneInString *)
Definition DecodeLastRuneInString (s : string) : N * nat :=
  let e := String.length s in
  match e with
  | O => (RuneError, 0%nat)
  | S last =>
      match String.get last s with
      | None => (RuneError, 0%nat)
      | Some c =>
          let r := byteN c in
          if (r <? 128)%N then (r, 1%nat)
          else
            let lim := Z.max 0 (Z.of_nat e - 4) in
            let start := lastRuneStart s lim 4 (Z.of_nat e - 2) in
            let start := Z.to_nat (Z.max 0 start) in
            let '(r', size) := DecodeRuneInString (slice s start e) in
            if (start + size =? e)%nat then (r', size) else (RuneError, 1%nat)
      end
  end.

(** unicode.IsSpace *)
Definition IsSpace (r : N) : bool :=
  if (r <=? 255)%N then
    (between r 9 13 || (r =? 32) || (r =? 133) || (r =? 160))%N
  else
    ((r =? 5760) || between r 8192 8202 || between r 8232 8233
     || (r =? 8239) || (r =? 8287) || (r =? 12288))%N.

(** strings.TrimLeftFunc(s, unicode.IsSpace): runes are decoded from the
    front; [skip] counts the remaining bytes of a rune found to be space. *)
Fixpoint trimLeftSpace (skip : nat) (s : string) : string :=
  match s with
  | EmptyString => EmptyString
  | String _ s' =>
      match skip with
      | S k => trimLeftSpace k s'
      | O =>
          let '(r, size) := DecodeRuneInString s in
          if IsSpace r then trimLeftSpace (size - 1) s' else s
      end
  end.

(** lastIndexFunc(s, unicode.IsSpace, false): the start of the last rune
    that is not a space, decoding from the back; [None] stands for -1.
    [i] only decreases, so [fuel >= i] is enough. *)
Fixpoint lastIndexNotSpace (fuel : nat) (s : string) (i : nat) : option nat :=
  match fuel with
  | O => None
  | S fuel' =>
      match i with
      | O => None
      | _ =>
          let '(r, size) := DecodeLastRuneInString (firstn_s i s) in
          let i' := (i - size)%nat in
          if IsSpace r then lastIndexNotSpace fuel' s i' else Some i'
      end
  end.

(** strings.TrimRightFunc(s, unicode.IsSpace) *)
Definition trimRightSpace (s : string) : string :=
  match lastIndexNotSpace (String.length s) s (String.length s) with
  | Some i =>
      match String.get i s with
      | Some c =>
          if (128 <=? byteN c)%N
          then firstn_s (i + snd (DecodeRuneInString (skipn_s i s))) s
          else firstn_s (S i) s
      | None => firstn_s (S i) s
      end
  | None => EmptyString
  end.

(** strings.TrimSpace *)
Definition TrimSpace (s : string) : string := trimRightSpace (trimLeftSpace 0 s).

(** strings.Fields: the maximal runs of non-space runes.  [skip] counts
    the remaining bytes of the rune being passed, [keep] tells whether
    that rune belongs to a field, [cur] is the field under construction. *)
Fixpoint fields_aux (skip : nat) (keep : bool) (cur : option string) (s : string)
  : list string :=
  match s with
  | EmptyString => match cur with Some f => [f] | None => [] end
  | String c s' =>
      let push := Some (default EmptyString cur +:+ String c EmptyString) in
      match skip with
      | S k => fields_aux k keep (if keep then push else cur) s'
      | O =>
          let '(r, size) := DecodeRuneInString s in
          if IsSpace r
          then match cur with
               | Some f => f :: fields_aux (size - 1) false None s'
               | None => fields_aux (size - 1) false None s'
               end
          else fields_aux (size - 1) true push s'
      end
  end.

Definition Fields (s : string) : list string := fields_aux 0 false None s.

End GoString.

Import GoString.

Definition tab : ascii := ascii_of_nat 9.
Definition newline : ascii := ascii_of_nat 10.

(** ** Panics, errors and the execution monad *)

(** The run-time errors the modelled code can raise. *)
Inductive RuntimeError : Type :=
  | IndexOutOfRange (i : Z) (len : Z)
  | SliceBoundsOutOfRange (lo hi : Z)
  | NilPointerDereference
  | IntegerDivideByZero.

(** strconv.ErrSyntax and strconv.ErrRange *)
Inductive NumErr : Type := ErrSyntax | ErrRange.

(** Arguments of a formatting call, and the errors made from them:
    [Errorf format args] is the value of [fmt.Errorf(format, args...)],
    [NumError] is a [*strconv.NumError]. *)
Inductive value : Type :=
  | VStr (s : string)
  | VInt (z : Z)
  | VErr (e : error)
  | VRecovered (r : RuntimeError)
with error : Type :=
  | Errorf (format : string) (args : list value)
  | NumError (func : string) (num : string) (err : NumErr).

(** The outcome of running a piece of code: a result, an error handed
    back with [return ..., err], or a panic. *)
Inductive Exec (A : Type) : Type :=
  | Ok (a : A)
  | Fail (e : error)
  | Panic (r : RuntimeError).
Arguments Ok {A} a.
Arguments Fail {A} e.
Arguments Panic {A} r.

#[global] Instance Exec_ret : MRet Exec := fun A a => Ok a.
#[global] Instance Exec_bind : MBind Exec := fun A B k m =>
  match m with
  | Ok a => k a
  | Fail e => Fail e
  | Panic r => Panic r
  end.

(** [l[i]] *)
Definition index {A} (l : list A) (i : nat) : Exec A :=
  match l !! i with
  | Some a => Ok a
  | None => Panic (IndexOutOfRange (Z.of_nat i) (Z.of_nat (length l)))
  end.

(** [l[i:]] *)
Definition sliceFrom {A} (l : list A) (i : nat) : Exec (list A) :=
  if (i <=? length l)%nat then Ok (drop i l)
  else Panic (SliceBoundsOutOfRange (Z.of_nat i) (Z.of_nat (length l))).

(** [s[lo:hi]] on a string *)
Definition substr (s : string) (lo hi : nat) : Exec string :=
  if (hi <=? String.length s)%nat && (lo <=? hi)%nat then Ok (slice s lo hi)
  else Panic (SliceBoundsOutOfRange (Z.of_nat lo) (Z.of_nat hi)).

(** ** Number parsing (package strconv) *)

Module strconv.

Definition lower (c : N) : N := N.lor c 32.

Definition maxUint64 : N := 2 ^ 64 - 1.

(** The digit loop of ParseUint for [bitSize = 64]; [base0] tells whether
    underscores are let through.  Yields the number and whether an
    underscore was seen. *)
Fixpoint digits (base : N) (base0 : bool) (s : string) (n : N) (underscores : bool)
  : (N * bool) + NumErr :=
  match s with
  | EmptyString => inl (n, underscores)
  | String c s' =>
      let b := byteN c in
      if (b =? 95)%N && base0 then digits base base0 s' n true
      else
        let d : option N :=
          if between b 48 57 then Some (b - 48)%N
          else if between (lower b) 97 122 then Some (lower b - 97 + 10)%N
          else None in
        match d with
        | None => inr ErrSyntax
        | Some d =>
            if (base <=? d)%N then inr ErrSyntax
            else if (maxUint64 / base + 1 <=? n)%N then inr ErrRange
            else
              let n1 := (n * base + d)%N in
              if (maxUint64 <? n1)%N then inr ErrRange
              else digits base base0 s' n1 underscores
        end
  end.

(** strconv.underscoreOK: underscores only between digits or between the
    base prefix and a digit.  [i] is the kind of the last byte seen. *)
Inductive lastKind : Type := KStart | KDigit | KUnderscore | KOther.

Fixpoint underscoreLoop (hex : bool) (i : lastKind) (s : string) : bool :=
  match s with
  | EmptyString => match i with KUnderscore => false | _ => true end
  | String c s' =>
      let b := byteN c in
      if between b 48 57 || (hex && between (lower b) 97 102)
      then underscoreLoop hex KDigit s'
      else if (b =? 95)%N then
        match i with
        | KDigit => underscoreLoop hex KUnderscore s'
        | _ => false
        end
      else
        match i with
        | KUnderscore => false
        | _ => underscoreLoop hex KOther s'
        end
  end.

Definition underscoreOK (s : string) : bool :=
  let s :=
    match s with
    | String c s' => if (byteN c =? 45)%N || (byteN c =? 43)%N then s' else s
    | _ => s
    end in
  match s with
  | String c0 (String c1 s') =>
      let l := lower (byteN c1) in
      if (byteN c0 =? 48)%N && ((l =? 98) || (l =? 111) || (l =? 120))%N
      then underscoreLoop (l =? 120)%N KDigit s'
      else underscoreLoop false KStart s
  | _ => underscoreLoop false KStart s
  end.

(** strconv.ParseUint(s, base, 64) for [base] 0 or 10. *)
Definition ParseUint (s : string) (base : N) : N + NumErr :=
  match s with
  | EmptyString => inr ErrSyntax
  | String c0 rest =>
      let base0 := (base =? 0)%N in
      let '(b, digs) :=
        if base0 then
          if (byteN c0 =? 48)%N then
            match rest with
            | String c1 ((String _ _) as rest') =>
                let l := lower (byteN c1) in
                if (l =? 98)%N then (2%N, rest')
                else if (l =? 111)%N then (8%N, rest')
                else if (l =? 120)%N then (16%N, rest')
                else (8%N, rest)
            | _ => (8%N, rest)
            end
          else (10%N, s)
        else (base, s) in
      match digits b base0 digs 0 false with
      | inr e => inr e
      | inl (n, underscores) =>
          if underscores && negb (underscoreOK s) then inr ErrSyntax else inl n
      end
  end.

(** strconv.ParseInt(s, base, 64) for [base] 0 or 10. *)
Definition ParseInt (s : string) (base : N) : Z + NumErr :=
  match s with
  | EmptyString => inr ErrSyntax
  | String c0 rest =>
      let '(neg, s') :=
        if (byteN c0 =? 43)%N then (false, rest)
        else if (byteN c0 =? 45)%N then (true, rest)
        else (false, s) in
      match ParseUint s' base with
      | inr ErrSyntax => inr ErrSyntax
      | r =>
          let un := match r with inl n => n | inr _ => maxUint64 end in
          let cutoff := (2 ^ 63)%N in
          if negb neg && (cutoff <=? un)%N then inr ErrRange
          else if neg && (cutoff <? un)%N then inr ErrRange
          else inl (if neg then - Z.of_N un else Z.of_N un)
      end
  end.

(** strconv.Atoi on a 64-bit platform: [ParseInt(s, 10, 0)]; its fast
    path for short inputs computes the same result.  The error is a
    [*NumError] naming the function and the input. *)
Definition Atoi (s : string) : Z + error :=
  match ParseInt s 10 with
  | inl n => inl n
  | inr e => inr (NumError "Atoi" s e)
  end.

End strconv.

(** ** Data model (util/stack.go) *)

(** time.Minute, in nanoseconds *)
Definition Minute : Z := 60000000000.

Record Frame : Type := mkFrame {
  Function : string;
  Params : list string;
  File : string;
  Line : Z;
  Entry : Z
}.

Record CreatedBy : Type := mkCreatedBy {
  cb_Function : string;
  cb_File : string;
  cb_Line : Z;
  cb_Entry : Z
}.

Record Stack : Type := mkStack {
  Number : Z;
  State : string;
  WaitTime : Z;
  Frames : list Frame;
  ThreadLocked : bool;
  Stack_CreatedBy : CreatedBy
}.

(** The zero value of [CreatedBy], which a [Stack] literal that does not
    name the field gets. *)
Definition CreatedBy_zero : CreatedBy := mkCreatedBy "" "" 0 0.

(** ** Entry-line parser *)

(** [parseEntryLine].  The named results [line] and [entry] are zero
    until assigned; the "expected a colon" error formats the result
    variable [line] (an [int64], still 0 there), not the argument [s]. *)
Definition parseEntryLine (s : string) : Exec (string * Z * Z) :=
  let line := 0 in
  let entry := 0 in
  let parts := Split s ":" in
  p0 ← index parts 0;
  let file := Trim p0 (String " " (String tab (String newline ""))) in
  if negb (length parts =? 2)%nat
  then Fail (Errorf "expected a colon: %q" [VInt line])
  else
    p1 ← index parts 1;
    let lineAndEntry := Split p1 " " in
    le0 ← index lineAndEntry 0;
    match strconv.ParseInt le0 0 with
    | inr _ => Fail (Errorf "error parsing line number: %s" [VStr le0])
    | inl line =>
        if (1 <? length lineAndEntry)%nat then
          le1 ← index lineAndEntry 1;
          match strconv.ParseInt le1 0 with
          | inr _ => Fail (Errorf "error parsing entry offset: %s" [VStr le1])
          | inl entry => Ok (file, line, entry)
          end
        else Ok (file, line, entry)
    end.

(** ** Stack parser *)

(** A compiled pattern, seen through its method [Find]: the leftmost
    match in the line, [None] for no match. *)
Definition Regexp : Type := string → option string.

(** The variables of the scanning loop of [ParseStacks]. *)
Record ParserState : Type := mkParserState {
  lineNo : nat;
  cur : option Stack;
  stacks : list Stack;
  frame : option Frame
}.

(** [if cur != nil { stacks = append(stacks, cur) }] *)
Definition emit (cur : option Stack) (stacks : list Stack) : list Stack :=
  match cur with
  | Some c => stacks ++ [c]
  | None => stacks
  end.

(** The prefix strip at the top of the loop body. *)
Definition stripPrefix (re : option Regexp) (line : string) : Exec string :=
  match re with
  | None => Ok line
  | Some find =>
      let n := match find line with Some pref => String.length pref | None => O end in
      if (n =? String.length line)%nat then Ok ""
      else
        rest ← substr line n (String.length line);
        Ok (TrimSpace rest)
  end.

(** The loop over [state[1:]] in the header branch: [segs] is what is
    left of [state[1:]]; the body reads [state[1]], not the loop
    variable, when it looks for the time. *)
Fixpoint headerSegments (state : list string) (segs : list string)
    (timev : Z) (locked : bool) : Exec (Z * bool) :=
  match segs with
  | [] => Ok (timev, locked)
  | s :: segs' =>
      if String.eqb s " locked to thread"
      then headerSegments state segs' timev true
      else
        s1 ← index state 1;
        let timeparts := Fields s1 in
        if negb (length timeparts =? 2)%nat
        then Fail (Errorf "weirdly formatted time string: %q" [VStr s1])
        else
          t0 ← index timeparts 0;
          match strconv.Atoi t0 with
          | inr err => Fail err
          | inl val => headerSegments state segs' (wrap64 (val * Minute)) locked
          end
  end.

(** The header branch after the open stack has been flushed: the new
    [cur]. *)
Definition parseHeader (line : string) : Exec Stack :=
  let parts := Split line " " in
  p1 ← index parts 1;
  match strconv.Atoi p1 with
  | inr _ => Fail (Errorf "unexpected formatting: %s" [VStr line])
  | inl num =>
      rest ← sliceFrom parts 2;
      let state := Split (Trim (Join rest " ") "[]:") "," in
      segs ← sliceFrom state 1;
      '(timev, locked) ← headerSegments state segs 0 false;
      s0 ← index state 0;
      Ok (mkStack num s0 timev [] locked CreatedBy_zero)
  end.

(** The function-line branch: the new pending frame. *)
Definition parseFunctionLine (line : string) : Exec Frame :=
  match LastIndexByte line "("%char with
  | Some n =>
      fn ← substr line 0 n;
      args ← substr line (n + 1) (String.length line - 1);
      Ok (mkFrame fn (Split args ", ") "" 0 0)
  | None => Ok (mkFrame line [] "" 0 0)
  end.

(** A write through [cur], which panics when [cur] is nil. *)
Definition withCur (cur : option Stack) (f : Stack → Stack) : Exec (option Stack) :=
  match cur with
  | Some c => Ok (Some (f c))
  | None => Panic NilPointerDereference
  end.

Definition setCreatedBy (cb : CreatedBy) (s : Stack) : Stack :=
  mkStack (Number s) (State s) (WaitTime s) (Frames s) (ThreadLocked s) cb.

Definition appendFrame (f : Frame) (s : Stack) : Stack :=
  mkStack (Number s) (State s) (WaitTime s) (Frames s ++ [f]) (ThreadLocked s)
    (Stack_CreatedBy s).

(** What one pass through the loop body does with the scanner: it goes
    on to the next line, or has taken one more line from the scanner
    (the entry line after "created by"). *)
Inductive Advance : Type := NextLine | SkipLine.

(** One pass through the body of the scanning loop, on the line [raw]
    just scanned; [next] is the line a further [scan.Scan()] would give.
    The first component is [lineNo] as the pass leaves it. *)
Definition processLine (re : option Regexp) (st : ParserState)
    (raw : string) (next : option string) : nat * Exec (ParserState * Advance) :=
  let lineNo := S (lineNo st) in
  (lineNo,
   line ← stripPrefix re raw;
   if HasPrefix line "goroutine" then
     let stacks := emit (cur st) (stacks st) in
     c ← parseHeader line;
     Ok (mkParserState lineNo (Some c) stacks (frame st), NextLine)
   else if String.eqb line "" then
     Ok (mkParserState lineNo None (emit (cur st) (stacks st)) (frame st), NextLine)
   else if HasPrefix line "created by" then
     let fn := TrimPrefix line "created by " in
     match next with
     | None =>
         Fail (Errorf "no file info after 'created by' line on line %d"
                 [VInt (Z.of_nat lineNo)])
     | Some text =>
         '(file, line, entry) ← parseEntryLine text;
         c ← withCur (cur st) (setCreatedBy (mkCreatedBy fn file line entry));
         Ok (mkParserState lineNo c (stacks st) (frame st), SkipLine)
     end
   else
     match frame st with
     | None =>
         f ← parseFunctionLine line;
         Ok (mkParserState lineNo (cur st) (stacks st) (Some f), NextLine)
     | Some f =>
         '(file, line, entry) ← parseEntryLine line;
         let f := mkFrame (Function f) (Params f) file line entry in
         c ← withCur (cur st) (appendFrame f);
         Ok (mkParserState lineNo c (stacks st) None, NextLine)
     end).

(** The scanning loop and the code after it, over the lines the scanner
    yields: [lineNo] at the point where the function is left, and how it
    is left. *)
Definition afterLoop (st : ParserState) : nat * Exec (list Stack) :=
  (lineNo st, Ok (emit (cur st) (stacks st))).

Fixpoint scanLoop (re : option Regexp) (st : ParserState) (lines : list string)
  : nat * Exec (list Stack) :=
  match lines with
  | [] => afterLoop st
  | raw :: rest =>
      match processLine re st raw (head rest) with
      | (_, Ok (st', NextLine)) => scanLoop re st' rest
      | (_, Ok (st', SkipLine)) =>
          match rest with
          | _ :: rest' => scanLoop re st' rest'
          | [] => afterLoop st'
          end
      | (n, Fail e) => (n, Fail e)
      | (n, Panic r) => (n, Panic r)
      end
  end.

Definition initialState : ParserState := mkParserState 0 None [] None.

Section ParseStacks.

(** regexp.Compile, [None] when the pattern does not compile. *)
Variable regexp_Compile : string → option Regexp.

(** The text of runtime/debug.Stack() at the point of recovery. *)
Variable debug_Stack : string.

(** The deferred function of [ParseStacks]: a panic is recovered into an
    error, an error is wrapped; both get the line number.  The first
    result is the one the [return] statement set, nil after a panic. *)
Definition recovered (lineNo : nat) (out : Exec (list Stack))
  : list Stack * option error :=
  match out with
  | Panic r =>
      ([], Some (Errorf "line %d: [panic] %s\n%s"
                   [VInt (Z.of_nat lineNo); VRecovered r; VStr debug_Stack]))
  | Fail e => ([], Some (Errorf "line %d: %w" [VInt (Z.of_nat lineNo); VErr e]))
  | Ok stacks => (stacks, None)
  end.

(** The compilation of the prefix pattern at the top of [ParseStacks],
    which comes before the deferred function is set up. *)
Definition compilePrefix (linePrefix : string) : error + option Regexp :=
  if negb (String.eqb linePrefix "") then
    match regexp_Compile linePrefix with
    | None => inl (Errorf "failed to compile line prefix regexp" [])
    | Some r => inr (Some r)
    end
  else inr None.

(** [ParseStacks(r, linePrefix)], [lines] being what the line scanner
    over [r] yields. *)
Definition ParseStacks (lines : list string) (linePrefix : string)
  : list Stack * option error :=
  match compilePrefix linePrefix with
  | inl e => ([], Some e)
  | inr re => let '(n, out) := scanLoop re initialState lines in recovered n out
  end.

End ParseStacks.

(** bufio.Scanner with the default split function (ScanLines), as
    [ParseStacks] sets it up, over a reader that hands over the bytes of
    [input] and then reports the end of the input, or an error, with a
    read of no bytes (as *os.File does): lines end at "\n", one trailing
    "\r" is dropped from each, a last line without "\n" counts if it is
    not empty.  The scanner's buffer grows to [MaxScanTokenSize] bytes and
    no further: when it is full and holds no "\n", [Scan] returns false
    (the scanner keeps the error ErrTooLong, which [ParseStacks] never
    asks for), so the lines end before the first line of 64 KiB or more.
    A read error ends the lines like the end of the input does. *)
Definition dropCR (rev_line : string) : string :=
  match rev_line with
  | String c r => if (byteN c =? 13)%N then r else rev_line
  | _ => rev_line
  end.

(** bufio.MaxScanTokenSize *)
Definition MaxScanTokenSize : N := 65536.

(** [rev_acc] is the line read so far, last byte first, and [held] the
    number of its bytes, all of them in the buffer. *)
Fixpoint scanLines_aux (rev_acc : string) (held : N) (s : string) : list string :=
  match s with
  | EmptyString =>
      match rev_acc with
      | EmptyString => []
      | _ => [String.rev (dropCR rev_acc)]
      end
  | String c s' =>
      if (byteN c =? 10)%N
      then String.rev (dropCR rev_acc) :: scanLines_aux EmptyString 0 s'
      else if (MaxScanTokenSize <=? held + 1)%N then []
      else scanLines_aux (String c rev_acc) (held + 1) s'
  end.

Definition ScanLines (input : string) : list string :=
  scanLines_aux EmptyString 0 input.

(** ** Rendering (the String methods) *)

(** The verb %d *)
Definition fmt_d (z : Z) : string :=
  DecimalString.NilZero.string_of_int (Z.to_int z).

(** The verb %+#x: sign, "0x", lower-case hexadecimal digits. *)
Definition fmt_plus_sharp_x (z : Z) : string :=
  (if z <? 0 then "-0x" else "+0x")
  +:+ HexadecimalString.NilZero.string_of_uint (N.to_hex_uint (Z.abs_N z)).

Definition nl : string := String newline "".

(** [CreatedBy.String] *)
Definition CreatedBy_String (c : CreatedBy) : string :=
  ("created by " +:+ cb_Function c +:+ nl)
  +:+ (String tab (cb_File c) +:+ ":" +:+ fmt_d (cb_Line c))
  +:+ (if negb (cb_Entry c =? 0) then " " +:+ fmt_plus_sharp_x (cb_Entry c) else "").

(** [Frame.String] *)
Definition Frame_String (f : Frame) : string :=
  (Function f +:+ "(" +:+ Join (Params f) ", " +:+ ")" +:+ nl)
  +:+ (String tab (File f) +:+ ":" +:+ fmt_d (Line f))
  +:+ (if negb (Entry f =? 0) then " " +:+ fmt_plus_sharp_x (Entry f) else "").

Section Rendering.

(** [int(d.Minutes())] goes through float64.  For a whole number of
    minutes the conversion is exact; for any other duration the rounded
    value is left to [inexact_minutes]. *)
Variable inexact_minutes : Z → Z.

Definition Duration_Minutes_int (d : Z) : Z :=
  if Z.rem d Minute =? 0 then Z.quot d Minute else inexact_minutes d.

(** The [for] loop of [Stack.String] over the frames. *)
Fixpoint frames_String (fs : list Frame) : string :=
  match fs with
  | [] => ""
  | f :: fs' => Frame_String f +:+ nl +:+ frames_String fs'
  end.

(** [Stack.String] *)
Definition Stack_String (s : Stack) : string :=
  let waitTime := Duration_Minutes_int (WaitTime s) in
  let state :=
    if negb (waitTime =? 0)
    then State s +:+ ", " +:+ (fmt_d waitTime +:+ " minutes")
    else State s in
  ("goroutine " +:+ fmt_d (Number s) +:+ " [" +:+ state +:+ "]:" +:+ nl)
  +:+ frames_String (Frames s)
  +:+ CreatedBy_String (Stack_CreatedBy s)
  +:+ nl.

End Rendering.

(** ** Filters *)

Definition Filter : Type := Stack → bool.

(** The loop of [HasFrameMatching] over the frames. *)
Fixpoint anyFrameMatches (pattern : string) (fs : list Frame) : bool :=
  match fs with
  | [] => false
  | f :: fs' =>
      if Contains (Function f) pattern
         || Contains (File f +:+ ":" +:+ fmt_d (Line f)) pattern
      then true
      else anyFrameMatches pattern fs'
  end.

Definition HasFrameMatching (pattern : string) : Filter :=
  fun s => anyFrameMatches pattern (Frames s).

Definition MatchState (st : string) : Filter :=
  fun s => String.eqb (State s) st.

Definition TimeGreaterThan (d : Z) : Filter :=
  fun s => d <=? WaitTime s.

Definition Negate (f : Filter) : Filter :=
  fun s => negb (f s).

(** The inner loop of [ApplyFilters]: [false] stands for [continue next]. *)
Fixpoint passesAll (filters : list Filter) (s : Stack) : bool :=
  match filters with
  | [] => true
  | f :: filters' => if negb (f s) then false else passesAll filters' s
  end.

(** The outer loop of [ApplyFilters], [out] being the slice built so far. *)
Fixpoint applyLoop (filters : list Filter) (stacks : list Stack) (out : list Stack)
  : list Stack :=
  match stacks with
  | [] => out
  | s :: stacks' =>
      if passesAll filters s
      then applyLoop filters stacks' (out ++ [s])
      else applyLoop filters stacks' out
  end.

Definition ApplyFilters (stacks : list Stack) (filters : list Filter) : list Stack :=
  applyLoop filters stacks [].

(** ** Comparators *)

Definition StackCompFunc : Type := Stack → Stack → bool.

Definition CompWaitTime : StackCompFunc := fun a b => WaitTime a <? WaitTime b.
Definition CompDepth : StackCompFunc :=
  fun a b => (length (Frames a) <? length (Frames b))%nat.
Definition CompGoroNum : StackCompFunc := fun a b => Number a <? Number b.

(** ** Sorting (package sort)

    The repository names no Go release, and the library's sort has
    two implementations in the releases that build this code.  First
    [sort.Sort] and [sort.Slice] as in the Go releases up to 1.18
    (src/sort/sort.go and its generated twin zfuncversion.go): a
    quicksort that falls back to heapsort when it recurses too deep, and
    finishes ranges of at most twelve elements with one Shell pass of
    gap 6 followed by insertion sort.  Then, further down, [sort.Sort]
    as in Go 1.19 and later.  Either algorithm sees the slice only
    through [Less] and [Swap].  Indices are Go [int]s, here [Z]; a
    slice is shorter than 2^62 elements, so index arithmetic does not
    wrap.  Each loop is a recursion on a count of rounds that bounds its
    iterations, given where the loop is entered. *)

Module sort.
Section Sort.

Context {A : Type}.

(** The comparison of two elements; it may panic (the closure that
    [summarize] passes indexes into the frames). *)
Variable less : A → A → Exec bool.

(** A computation over the slice being sorted. *)
Definition SortM (X : Type) : Type := list A → Exec (X * list A).

#[local] Instance SortM_ret : MRet SortM := fun X x l => Ok (x, l).
#[local] Instance SortM_bind : MBind SortM := fun X Y k m l =>
  match m l with
  | Ok (x, l') => k x l'
  | Fail e => Fail e
  | Panic r => Panic r
  end.

Definition len (l : list A) : Z := Z.of_nat (length l).

(** [l[i]] for an [int] index *)
Definition at_ (l : list A) (i : Z) : Exec A :=
  match (if 0 <=? i then l !! Z.to_nat i else None) with
  | Some x => Ok x
  | None => Panic (IndexOutOfRange i (len l))
  end.

(** [Len()]: [len(ss.Stacks)] *)
Definition Len : SortM Z := fun l => Ok (len l, l).

(** [Less(i, j)]: [ss.CompFunc(ss.Stacks[i], ss.Stacks[j])] *)
Definition Less (i j : Z) : SortM bool := fun l =>
  match at_ l i with
  | Ok x =>
      match at_ l j with
      | Ok y =>
          match less x y with
          | Ok c => Ok (c, l)
          | Fail e => Fail e
          | Panic r => Panic r
          end
      | Fail e => Fail e
      | Panic r => Panic r
      end
  | Fail e => Fail e
  | Panic r => Panic r
  end.

(** [Swap(i, j)]: [ss.Stacks[i], ss.Stacks[j] = ss.Stacks[j], ss.Stacks[i]] *)
Definition Swap (i j : Z) : SortM unit := fun l =>
  match at_ l j with
  | Ok y =>
      match at_ l i with
      | Ok x => Ok (tt, <[Z.to_nat j := x]> (<[Z.to_nat i := y]> l))
      | Fail e => Fail e
      | Panic r => Panic r
      end
  | Fail e => Fail e
  | Panic r => Panic r
  end.

(** The inner loop of insertionSort:
    [for j := i; j > a && Less(j, j-1); j-- { Swap(j, j-1) }];
    at most [j - a] rounds. *)
Fixpoint insertionInner (rounds : nat) (a j : Z) : SortM unit :=
  match rounds with
  | O => mret tt
  | S rounds' =>
      if a <? j then
        lt ← Less j (j - 1);
        if lt : bool
        then Swap j (j - 1) ≫= λ _, insertionInner rounds' a (j - 1)
        else mret tt
      else mret tt
  end.

(** The outer loop of insertionSort: [for i := ...; i < b; i++],
    [b - i] rounds. *)
Fixpoint insertionOuter (rounds : nat) (a i : Z) : SortM unit :=
  match rounds with
  | O => mret tt
  | S rounds' =>
      insertionInner (Z.to_nat (i - a)) a i ≫= λ _,
      insertionOuter rounds' a (i + 1)
  end.

Definition insertionSort (a b : Z) : SortM unit :=
  insertionOuter (Z.to_nat (b - (a + 1))) a (a + 1).

(** The loop of siftDown; [root] grows in every round and stays below
    [hi], so there are at most [hi - root] rounds. *)
Fixpoint siftDownLoop (rounds : nat) (root hi first : Z) : SortM unit :=
  match rounds with
  | O => mret tt
  | S rounds' =>
      let child := 2 * root + 1 in
      if hi <=? child then mret tt
      else
        up ← (if child + 1 <? hi
              then Less (first + child) (first + child + 1)
              else mret false);
        let child := if up : bool then child + 1 else child in
        lt ← Less (first + root) (first + child);
        if negb lt then mret tt
        else Swap (first + root) (first + child) ≫= λ _,
             siftDownLoop rounds' child hi first
  end.

Definition siftDown (lo hi first : Z) : SortM unit :=
  siftDownLoop (Z.to_nat (hi - lo)) lo hi first.

(** [for i := (hi - 1) / 2; i >= 0; i-- { siftDown(data, i, hi, first) }],
    [i + 1] rounds. *)
Fixpoint heapBuild (rounds : nat) (i hi first : Z) : SortM unit :=
  match rounds with
  | O => mret tt
  | S rounds' =>
      siftDown i hi first ≫= λ _, heapBuild rounds' (i - 1) hi first
  end.

(** [for i := hi - 1; i >= 0; i-- { Swap(first, first+i); siftDown(data, lo, i, first) }],
    [i + 1] rounds. *)
Fixpoint heapPop (rounds : nat) (i first : Z) : SortM unit :=
  match rounds with
  | O => mret tt
  | S rounds' =>
      Swap first (first + i) ≫= λ _,
      siftDown 0 i first ≫= λ _,
      heapPop rounds' (i - 1) first
  end.

Definition heapSort (a b : Z) : SortM unit :=
  let first := a in
  let lo := 0 in
  let hi := b - a in
  let i := Z.quot (hi - 1) 2 in
  heapBuild (Z.to_nat (i + 1)) i hi first ≫= λ _,
  heapPop (Z.to_nat hi) (hi - 1) first.

(** medianOfThree moves the median of [data[m0]], [data[m1]], [data[m2]]
    into [data[m1]]. *)
Definition medianOfThree (m1 m0 m2 : Z) : SortM unit :=
  c ← Less m1 m0;
  (if c : bool then Swap m1 m0 else mret tt) ≫= λ _,
  c ← Less m2 m1;
  if c : bool then
    Swap m2 m1 ≫= λ _,
    c ← Less m1 m0;
    if c : bool then Swap m1 m0 else mret tt
  else mret tt.

(** [for ; a < c && Less(a, pivot); a++ {}], yielding [a]; at most
    [c - a] rounds. *)
Fixpoint skipLess (rounds : nat) (pivot a c : Z) : SortM Z :=
  match rounds with
  | O => mret a
  | S rounds' =>
      if a <? c then
        lt ← Less a pivot;
        if lt : bool then skipLess rounds' pivot (a + 1) c else mret a
      else mret a
  end.

(** [for ; b < c && !Less(pivot, b); b++ {}], yielding [b]; at most
    [c - b] rounds. *)
Fixpoint skipNotGreater (rounds : nat) (pivot b c : Z) : SortM Z :=
  match rounds with
  | O => mret b
  | S rounds' =>
      if b <? c then
        gt ← Less pivot b;
        if negb gt then skipNotGreater rounds' pivot (b + 1) c else mret b
      else mret b
  end.

(** [for ; b < c && Less(pivot, c-1); c-- {}], yielding [c]; at most
    [c - b] rounds. *)
Fixpoint skipGreater (rounds : nat) (pivot b c : Z) : SortM Z :=
  match rounds with
  | O => mret c
  | S rounds' =>
      if b <? c then
        gt ← Less pivot (c - 1);
        if gt : bool then skipGreater rounds' pivot b (c - 1) else mret c
      else mret c
  end.

(** The partitioning loop of doPivot, yielding [(b, c)]; every round but
    the last moves [b] and [c] towards each other, so there are at most
    [c - b + 1] rounds. *)
Fixpoint partitionLoop (rounds : nat) (pivot b c : Z) : SortM (Z * Z) :=
  match rounds with
  | O => mret (b, c)
  | S rounds' =>
      b ← skipNotGreater (Z.to_nat (c - b)) pivot b c;
      c ← skipGreater (Z.to_nat (c - b)) pivot b c;
      if c <=? b then mret (b, c)
      else Swap b (c - 1) ≫= λ _, partitionLoop rounds' pivot (b + 1) (c - 1)
  end.

(** [for ; a < b && !Less(b-1, pivot); b-- {}], yielding [b]; at most
    [b - a] rounds. *)
Fixpoint skipEqualDown (rounds : nat) (pivot a b : Z) : SortM Z :=
  match rounds with
  | O => mret b
  | S rounds' =>
      if a <? b then
        lt ← Less (b - 1) pivot;
        if negb lt then skipEqualDown rounds' pivot a (b - 1) else mret b
      else mret b
  end.

(** The loop of doPivot that gathers the elements equal to the pivot,
    yielding [b]; at most [b - a + 1] rounds. *)
Fixpoint protectLoop (rounds : nat) (pivot a b : Z) : SortM Z :=
  match rounds with
  | O => mret b
  | S rounds' =>
      b ← skipEqualDown (Z.to_nat (b - a)) pivot a b;
      a ← skipLess (Z.to_nat (b - a)) pivot a b;
      if b <=? a then mret b
      else Swap a (b - 1) ≫= λ _, protectLoop rounds' pivot (a + 1) (b - 1)
  end.

(** The three tests of doPivot for elements equal to the pivot, yielding
    [(b, c, dups)]. *)
Definition countDups (pivot m hi b c : Z) : SortM (Z * Z * Z) :=
  gtHi ← Less pivot (hi - 1);
  '(c, dups) ←
    (if negb gtHi
     then Swap c (hi - 1) ≫= λ _, mret (c + 1, 1)
     else mret (c, 0));
  ltB ← Less (b - 1) pivot;
  let '(b, dups) := if negb ltB then (b - 1, dups + 1) else (b, dups) in
  ltM ← Less m pivot;
  '(b, dups) ←
    (if negb ltM
     then Swap m (b - 1) ≫= λ _, mret (b - 1, dups + 1)
     else mret (b, dups));
  mret (b, c, dups).

Definition doPivot (lo hi : Z) : SortM (Z * Z) :=
  let m := Z.shiftr (lo + hi) 1 in
  (if 40 <? hi - lo then
     let s := Z.quot (hi - lo) 8 in
     medianOfThree lo (lo + s) (lo + 2 * s) ≫= λ _,
     medianOfThree m (m - s) (m + s) ≫= λ _,
     medianOfThree (hi - 1) (hi - 1 - s) (hi - 1 - 2 * s)
   else mret tt) ≫= λ _,
  medianOfThree lo m (hi - 1) ≫= λ _,
  let pivot := lo in
  let a := lo + 1 in
  let c := hi - 1 in
  a ← skipLess (Z.to_nat (c - a)) pivot a c;
  let b := a in
  '(b, c) ← partitionLoop (Z.to_nat (c - b + 1)) pivot b c;
  let protect := hi - c <? 5 in
  '(b, c, protect) ←
    (if negb protect && (hi - c <? Z.quot (hi - lo) 4) then
       '(b, c, dups) ← countDups pivot m hi b c;
       mret (b, c, 1 <? dups)
     else mret (b, c, protect));
  b ← (if protect : bool
       then protectLoop (Z.to_nat (b - a + 1)) pivot a b
       else mret b);
  Swap pivot (b - 1) ≫= λ _,
  mret (b - 1, c).

(** [for i := a + 6; i < b; i++ { if Less(i, i-6) { Swap(i, i-6) } }],
    [b - i] rounds. *)
Fixpoint shellPass (rounds : nat) (i : Z) : SortM unit :=
  match rounds with
  | O => mret tt
  | S rounds' =>
      lt ← Less i (i - 6);
      (if lt : bool then Swap i (i - 6) else mret tt) ≫= λ _,
      shellPass rounds' (i + 1)
  end.

(** quickSort.  Its [for b-a > 12] loop lowers [maxDepth] in every
    round and goes on with one of the two parts, which is the function
    itself on that part. *)
Fixpoint quickSort (maxDepth : nat) (a b : Z) : SortM unit :=
  if 12 <? b - a then
    match maxDepth with
    | O => heapSort a b
    | S maxDepth' =>
        '(mlo, mhi) ← doPivot a b;
        if mlo - a <? b - mhi
        then quickSort maxDepth' a mlo ≫= λ _, quickSort maxDepth' mhi b
        else quickSort maxDepth' mhi b ≫= λ _, quickSort maxDepth' a mlo
    end
  else if 1 <? b - a then
    shellPass (Z.to_nat (b - (a + 6))) (a + 6) ≫= λ _, insertionSort a b
  else mret tt.

(** maxDepth(n): twice the number of binary digits of [n]. *)
Definition maxDepth (n : Z) : nat := 2 * N.size_nat (Z.to_N n).

(** [sort.Sort(data)], and [sort.Slice(x, less)] with [less] and the
    swapper acting on [x]: the slice as the call leaves it. *)
Definition Sort (data : list A) : Exec (list A) :=
  match (n ← Len; quickSort (maxDepth n) 0 n) data with
  | Ok (_, l) => Ok l
  | Fail e => Fail e
  | Panic r => Panic r
  end.


(** *** The implementation of Go 1.19 and later

    [sort.Sort] as src/sort/zsortinterface.go has it since Go 1.19: a
    pattern-defeating quicksort.  Ranges of at most twelve elements are
    sorted by insertion, [limit] unbalanced partitions lead to heapsort,
    and a range that looks sorted is tried by a partial insertion sort
    first. *)

(** order2(data, a, b, &swaps), yielding the two indices and [swaps] *)
Definition order2 (a b swaps : Z) : SortM (Z * Z * Z) :=
  lt ← Less b a;
  if lt : bool then mret (b, a, swaps + 1) else mret (a, b, swaps).

(** median(data, a, b, c, &swaps) *)
Definition median (a b c swaps : Z) : SortM (Z * Z) :=
  '(a, b, swaps) ← order2 a b swaps;
  '(b, c, swaps) ← order2 b c swaps;
  '(a, b, swaps) ← order2 a b swaps;
  mret (b, swaps).

(** medianAdjacent(data, a, &swaps) *)
Definition medianAdjacent (a swaps : Z) : SortM (Z * Z) :=
  median (a - 1) a (a + 1) swaps.

Inductive sortedHint : Type := unknownHint | increasingHint | decreasingHint.

(** choosePivot: shortestNinther = 50, maxSwaps = 4 * 3. *)
Definition choosePivot (a b : Z) : SortM (Z * sortedHint) :=
  let l := b - a in
  let i := a + Z.quot l 4 * 1 in
  let j := a + Z.quot l 4 * 2 in
  let k := a + Z.quot l 4 * 3 in
  '(j, swaps) ←
    (if 8 <=? l then
       '(i, j, k, swaps) ←
         (if 50 <=? l then
            '(i, swaps) ← medianAdjacent i 0;
            '(j, swaps) ← medianAdjacent j swaps;
            '(k, swaps) ← medianAdjacent k swaps;
            mret (i, j, k, swaps)
          else mret (i, j, k, 0));
       median i j k swaps
     else mret (j, 0));
  mret (j, if swaps =? 0 then increasingHint
           else if swaps =? 4 * 3 then decreasingHint
           else unknownHint).

(** The loop of reverseRange: [for i < j { Swap(i, j); i++; j-- }]; at
    most [(j - i + 1) / 2] rounds. *)
Fixpoint reverseLoop (rounds : nat) (i j : Z) : SortM unit :=
  match rounds with
  | O => mret tt
  | S rounds' =>
      if i <? j then Swap i j ≫= λ _, reverseLoop rounds' (i + 1) (j - 1)
      else mret tt
  end.

Definition reverseRange (a b : Z) : SortM unit :=
  reverseLoop (Z.to_nat (Z.quot (b - a) 2)) a (b - 1).

(** [xorshift.Next]: the step of the pseudo-random generator from which
    breakPatterns draws three positions, as a function of the state, a
    [uint64] (the new state is also the number returned).  It is a
    parameter: the positions are reduced into the range before they are
    used. *)
Variable xorshift_Next : Z → Z.

(** nextPowerOfTwo(length): [1 << bits.Len(uint(length))] *)
Definition nextPowerOfTwo (length : Z) : Z :=
  Z.shiftl 1 (Z.of_nat (N.size_nat (Z.to_N length))).

(** The loop of breakPatterns, [for i := 0; i < 3; i++]. *)
Fixpoint breakLoop (rounds : nat) (a length modulus idx i random : Z) : SortM unit :=
  match rounds with
  | O => mret tt
  | S rounds' =>
      let random := xorshift_Next random mod 2 ^ 64 in
      let other := Z.land random (modulus - 1) in
      let other := if length <=? other then other - length else other in
      Swap (idx - 1 + i) (a + other) ≫= λ _,
      breakLoop rounds' a length modulus idx (i + 1) random
  end.

Definition breakPatterns (a b : Z) : SortM unit :=
  let length := b - a in
  if 8 <=? length then
    breakLoop 3 a length (nextPowerOfTwo length) (a + Z.quot length 4 * 2 - 1) 0 length
  else mret tt.

(** [for i <= j && Less(i, a) { i++ }], yielding [i]; at most
    [j - i + 1] rounds. *)
Fixpoint skipBelow (rounds : nat) (a i j : Z) : SortM Z :=
  match rounds with
  | O => mret i
  | S rounds' =>
      if i <=? j then
        lt ← Less i a;
        if lt : bool then skipBelow rounds' a (i + 1) j else mret i
      else mret i
  end.

(** [for i <= j && !Less(j, a) { j-- }], yielding [j]; at most
    [j - i + 1] rounds. *)
Fixpoint skipNotBelow (rounds : nat) (a i j : Z) : SortM Z :=
  match rounds with
  | O => mret j
  | S rounds' =>
      if i <=? j then
        lt ← Less j a;
        if negb lt then skipNotBelow rounds' a i (j - 1) else mret j
      else mret j
  end.

(** The endless loop of partition, yielding [j]; every round but the
    last moves [i] and [j] towards each other. *)
Fixpoint partitionRounds (rounds : nat) (a i j : Z) : SortM Z :=
  match rounds with
  | O => mret j
  | S rounds' =>
      i ← skipBelow (Z.to_nat (j - i + 1)) a i j;
      j ← skipNotBelow (Z.to_nat (j - i + 1)) a i j;
      if j <? i then mret j
      else Swap i j ≫= λ _, partitionRounds rounds' a (i + 1) (j - 1)
  end.

(** partition(data, a, b, pivot), yielding [(newpivot, alreadyPartitioned)] *)
Definition partition (a b pivot : Z) : SortM (Z * bool) :=
  Swap a pivot ≫= λ _,
  let i := a + 1 in
  let j := b - 1 in
  i ← skipBelow (Z.to_nat (j - i + 1)) a i j;
  j ← skipNotBelow (Z.to_nat (j - i + 1)) a i j;
  if j <? i then
    Swap j a ≫= λ _, mret (j, true)
  else
    Swap i j ≫= λ _,
    j ← partitionRounds (Z.to_nat (j - i)) a (i + 1) (j - 1);
    Swap j a ≫= λ _, mret (j, false).

(** [for i <= j && !Less(a, i) { i++ }], yielding [i] *)
Fixpoint skipNotAbove (rounds : nat) (a i j : Z) : SortM Z :=
  match rounds with
  | O => mret i
  | S rounds' =>
      if i <=? j then
        gt ← Less a i;
        if negb gt then skipNotAbove rounds' a (i + 1) j else mret i
      else mret i
  end.

(** [for i <= j && Less(a, j) { j-- }], yielding [j] *)
Fixpoint skipAbove (rounds : nat) (a i j : Z) : SortM Z :=
  match rounds with
  | O => mret j
  | S rounds' =>
      if i <=? j then
        gt ← Less a j;
        if gt : bool then skipAbove rounds' a i (j - 1) else mret j
      else mret j
  end.

(** The loop of partitionEqual, yielding [i]. *)
Fixpoint partitionEqualRounds (rounds : nat) (a i j : Z) : SortM Z :=
  match rounds with
  | O => mret i
  | S rounds' =>
      i ← skipNotAbove (Z.to_nat (j - i + 1)) a i j;
      j ← skipAbove (Z.to_nat (j - i + 1)) a i j;
      if j <? i then mret i
      else Swap i j ≫= λ _, partitionEqualRounds rounds' a (i + 1) (j - 1)
  end.

(** partitionEqual(data, a, b, pivot), yielding [newpivot] *)
Definition partitionEqual (a b pivot : Z) : SortM Z :=
  Swap a pivot ≫= λ _,
  partitionEqualRounds (Z.to_nat (b - a)) a (a + 1) (b - 1).

(** [for i < b && !Less(i, i-1) { i++ }], yielding [i]; at most [b - i]
    rounds. *)
Fixpoint skipOrdered (rounds : nat) (i b : Z) : SortM Z :=
  match rounds with
  | O => mret i
  | S rounds' =>
      if i <? b then
        lt ← Less i (i - 1);
        if negb lt then skipOrdered rounds' (i + 1) b else mret i
      else mret i
  end.

(** [for j := ...; j >= 1; j-- { if !Less(j, j-1) { break }; Swap(j, j-1) }];
    at most [j] rounds. *)
Fixpoint shiftLeft (rounds : nat) (j : Z) : SortM unit :=
  match rounds with
  | O => mret tt
  | S rounds' =>
      if 1 <=? j then
        lt ← Less j (j - 1);
        if negb lt then mret tt
        else Swap j (j - 1) ≫= λ _, shiftLeft rounds' (j - 1)
      else mret tt
  end.

(** [for j := ...; j < b; j++ { if !Less(j, j-1) { break }; Swap(j, j-1) }];
    at most [b - j] rounds. *)
Fixpoint shiftRight (rounds : nat) (j b : Z) : SortM unit :=
  match rounds with
  | O => mret tt
  | S rounds' =>
      if j <? b then
        lt ← Less j (j - 1);
        if negb lt then mret tt
        else Swap j (j - 1) ≫= λ _, shiftRight rounds' (j + 1) b
      else mret tt
  end.

(** The loop of partialInsertionSort, [for j := 0; j < maxSteps; j++],
    with maxSteps = 5 and shortestShifting = 50; it yields whether the
    range is sorted. *)
Fixpoint partialSteps (steps : nat) (a b i : Z) : SortM bool :=
  match steps with
  | O => mret false
  | S steps' =>
      i ← skipOrdered (Z.to_nat (b - i)) i b;
      if i =? b then mret true
      else if b - a <? 50 then mret false
      else
        Swap i (i - 1) ≫= λ _,
        (if 2 <=? i - a then shiftLeft (Z.to_nat (i - 1)) (i - 1) else mret tt) ≫= λ _,
        (if 2 <=? b - i then shiftRight (Z.to_nat (b - (i + 1))) (i + 1) b else mret tt) ≫= λ _,
        partialSteps steps' a b i
  end.

Definition partialInsertionSort (a b : Z) : SortM bool :=
  partialSteps 5 a b (a + 1).

(** pdqsort(data, a, b, limit).  [wasBalanced] and [wasPartitioned] are
    the variables of its loop, true when the function is entered.  A
    round of the loop returns or goes on with a shorter range, and the
    call inside it is on a shorter range, so [b - a + 1] rounds are
    enough. *)
Fixpoint pdqsort (rounds : nat) (a b limit : Z) (wasBalanced wasPartitioned : bool)
  : SortM unit :=
  match rounds with
  | O => mret tt
  | S rounds' =>
      let length := b - a in
      if length <=? 12 then insertionSort a b
      else if limit =? 0 then heapSort a b
      else
        limit ← (if negb wasBalanced
                 then breakPatterns a b ≫= λ _, mret (limit - 1)
                 else mret limit);
        '(pivot, hint) ← choosePivot a b;
        '(pivot, hint) ←
          (match hint with
           | decreasingHint =>
               reverseRange a b ≫= λ _, mret ((b - 1) - (pivot - a), increasingHint)
           | _ => mret (pivot, hint)
           end);
        sorted ←
          (match hint with
           | increasingHint =>
               if wasBalanced && wasPartitioned then partialInsertionSort a b
               else mret false
           | _ => mret false
           end);
        if sorted : bool then mret tt
        else
          equal ← (if 0 <? a
                   then lt ← Less (a - 1) pivot; mret (negb lt)
                   else mret false);
          if equal : bool then
            mid ← partitionEqual a b pivot;
            pdqsort rounds' mid b limit wasBalanced wasPartitioned
          else
            '(mid, alreadyPartitioned) ← partition a b pivot;
            let leftLen := mid - a in
            let rightLen := b - mid in
            let balanceThreshold := Z.quot length 8 in
            if leftLen <? rightLen then
              pdqsort rounds' a mid limit true true ≫= λ _,
              pdqsort rounds' (mid + 1) b limit
                      (balanceThreshold <=? leftLen) alreadyPartitioned
            else
              pdqsort rounds' (mid + 1) b limit true true ≫= λ _,
              pdqsort rounds' a mid limit
                      (balanceThreshold <=? rightLen) alreadyPartitioned
  end.

(** [sort.Sort(data)] since Go 1.19: [limit] is [bits.Len(uint(n))]. *)
Definition Sort_pdqsort (data : list A) : Exec (list A) :=
  match (n ← Len;
         if n <=? 1 then mret tt
         else pdqsort (Z.to_nat (n + 1)) 0 n (Z.of_nat (N.size_nat (Z.to_N n))) true true)
        data with
  | Ok (_, l) => Ok l
  | Fail e => Fail e
  | Panic r => Panic r
  end.

End Sort.
End sort.

Definition pure_less {A} (f : A → A → bool) : A → A → Exec bool :=
  fun a b => Ok (f a b).

(** [sort.Sort(util.StackSorter{Stacks: stacks, CompFunc: compfunc})]:
    [stacks] as the call in [main] leaves it, with the library of Go up
    to 1.18. *)
Definition sortStacks (compfunc : StackCompFunc) (stacks : list Stack)
  : Exec (list Stack) :=
  sort.Sort (pure_less compfunc) stacks.

(** The same call with the library of Go 1.19 and later. *)
Definition sortStacks_pdqsort (xorshift_Next : Z → Z) (compfunc : StackCompFunc)
    (stacks : list Stack) : Exec (list Stack) :=
  sort.Sort_pdqsort (pure_less compfunc) xorshift_Next stacks.

(** ** Summarizer (main.go) *)

Record summary : Type := mkSummary {
  summary_Function : string;
  summary_Count : Z
}.

(** [counts[f]], zero for a key that is not in the map *)
Definition count_of (counts : gmap string Z) (f : string) : Z :=
  default 0 (counts !! f).

(** The first loop of [summarize]: the counts per function of frame 0 and
    the first stack seen for each. *)
Fixpoint countLoop (stacks : list Stack) (counts : gmap string Z)
    (filtered : list Stack) : Exec (gmap string Z * list Stack) :=
  match stacks with
  | [] => Ok (counts, filtered)
  | s :: stacks' =>
      f0 ← index (Frames s) 0;
      let f := Function f0 in
      let filtered := if count_of counts f =? 0 then filtered ++ [s] else filtered in
      countLoop stacks' (<[f := count_of counts f + 1]> counts) filtered
  end.

(** The comparison closure that [summarize] hands to the sorter. *)
Definition lessByCount (counts : gmap string Z) (a b : Stack) : Exec bool :=
  fa ← index (Frames a) 0;
  fb ← index (Frames b) 0;
  Ok (count_of counts (Function fa) <? count_of counts (Function fb)).

(** The last loop of [summarize]. *)
Fixpoint summaryLoop (counts : gmap string Z) (filtered : list Stack)
    (summaries : list summary) : Exec (list summary) :=
  match filtered with
  | [] => Ok summaries
  | s :: filtered' =>
      f0 ← index (Frames s) 0;
      f1 ← index (Frames s) 0;
      summaryLoop counts filtered'
        (summaries ++ [mkSummary (Function f0) (count_of counts (Function f1))])
  end.

Definition summarize (stacks : list Stack) : Exec (list summary) :=
  '(counts, filtered) ← countLoop stacks ∅ [];
  filtered ← sort.Sort (lessByCount counts) filtered;
  summaryLoop counts filtered [].

(** ** Wait-time statistics (main.go) *)

Record waitStats : Type := mkWaitStats {
  Average : Z;
  Max : Z;
  Min : Z;
  Median : Z
}.

(** The loop of [compWaitStats]; [min], [max] and [sum] start at 0. *)
Fixpoint waitLoop (stacks : list Stack) (min max sum : Z) (durations : list Z)
  : Z * Z * Z * list Z :=
  match stacks with
  | [] => (min, max, sum, durations)
  | s :: stacks' =>
      let min := if (min =? 0) || (WaitTime s <? min) then WaitTime s else min in
      let max := if max <? WaitTime s then WaitTime s else max in
      waitLoop stacks' min max (wrap64 (sum + WaitTime s)) (durations ++ [WaitTime s])
  end.

Definition compWaitStats (stacks : list Stack) : Exec waitStats :=
  let '(min, max, sum, durations) := waitLoop stacks 0 0 0 [] in
  durations ← sort.Sort (pure_less Z.ltb) durations;
  average ←
    (if (length durations =? 0)%nat then Panic IntegerDivideByZero
     else Ok (Z.quot sum (Z.of_nat (length durations))));
  median ← index durations (length durations / 2);
  Ok (mkWaitStats average max min median).

(** * The vocabulary of the properties *)

(** The number of occurrences of a byte in a string. *)
Fixpoint countByte (c : ascii) (s : string) : nat :=
  match s with
  | EmptyString => O
  | String d s' => (if Ascii.eqb d c then 1 else 0) + countByte c s'
  end.

(** The branch a stripped line takes in the loop body. *)
Inductive LineKind : Type := Header | Blank | CreatedByLine | FrameLine.

Definition lineKind (line : string) : LineKind :=
  if HasPrefix line "goroutine" then Header
  else if String.eqb line "" then Blank
  else if HasPrefix line "created by" then CreatedByLine
  else FrameLine.

(** Example 1 of the specification:
    "goroutine 5 [running]:\nfoo.Bar()\n\t/a/b.go:10\n\n". *)
Definition example1 : string :=
  "goroutine 5 [running]:" +:+ nl +:+ "foo.Bar()" +:+ nl
  +:+ String tab "/a/b.go:10" +:+ nl +:+ nl.

(** The lines of a text, whatever their length: what a line scanner
    whose buffer has no bound yields. *)
Fixpoint allLines_aux (rev_acc : string) (s : string) : list string :=
  match s with
  | EmptyString =>
      match rev_acc with
      | EmptyString => []
      | _ => [String.rev (dropCR rev_acc)]
      end
  | String c s' =>
      if (byteN c =? 10)%N
      then String.rev (dropCR rev_acc) :: allLines_aux EmptyString s'
      else allLines_aux (String c rev_acc) s'
  end.

Definition allLines (input : string) : list string := allLines_aux EmptyString input.

(** A line that the scanner's buffer holds together with its newline. *)
Definition fitsScanner (line : string) : bool :=
  (N.of_nat (String.length line) <? MaxScanTokenSize)%N.

(** Every line of the text, taken between its newlines, fits. *)
Definition linesFit (input : string) : bool :=
  forallb fitsScanner (Split input nl).

(** The stacks the parser holds have the zero creator record as long as
    no line takes the "created by" branch. *)
Definition noCreator (st : ParserState) : Prop :=
  (∀ s, In s (stacks st) → Stack_CreatedBy s = CreatedBy_zero)
  ∧ (∀ c, cur st = Some c → Stack_CreatedBy c = CreatedBy_zero).

(** No line of the input is a "created by" line once its prefix is
    stripped. *)
Definition noCreatedByLine (re : option Regexp) (lines : list string) : Prop :=
  ∀ raw line, In raw lines → stripPrefix re raw = Ok line →
              lineKind line ≠ CreatedByLine.

(** An error value that opens with the number of a line. *)
Inductive LineAnnotated : error → Prop :=
  | annotated_error (n : nat) (e : error) :
      LineAnnotated (Errorf "line %d: %w" [VInt (Z.of_nat n); VErr e])
  | annotated_panic (n : nat) (r : RuntimeError) (stack : string) :
      LineAnnotated (Errorf "line %d: [panic] %s\n%s"
                       [VInt (Z.of_nat n); VRecovered r; VStr stack]).

(** No stack is less than one that stands before it: the order that
    [sort.Sort] is to establish. *)
Definition ascendingBy (compfunc : StackCompFunc) (l : list Stack) : Prop :=
  ∀ (i j : nat) (x y : Stack),
    (i ≤ j)%nat → l !! i = Some x → l !! j = Some y → compfunc y x = false.

(** *** The vocabulary of the sorting proofs *)

(** The integer a comparison orders by. *)
Class SortKey (A : Type) : Type := sortKey : A → Z.

Section SortInvariants.

Context {A : Type} {K : SortKey A}.

(** The key at index [i]. *)
Definition keyAt (l : list A) (i : Z) : Z :=
  match l !! Z.to_nat i with
  | Some x => sortKey x
  | None => 0
  end.

(** The slice after [Swap(i, j)]. *)
Definition swapped (l : list A) (i j : Z) : list A :=
  match l !! Z.to_nat j, l !! Z.to_nat i with
  | Some y, Some x => <[Z.to_nat j := x]> (<[Z.to_nat i := y]> l)
  | _, _ => l
  end.

(** The slice after [if c { Swap(i, j) }]. *)
Definition swappedIf (c : bool) (l : list A) (i j : Z) : list A :=
  if c then swapped l i j else l.

(** [l'] is a rearrangement of [l] that touches only the indices in
    [[a, b)]. *)
Definition rearranged (a b : Z) (l l' : list A) : Prop :=
  l ≡ₚ l'
  ∧ (∀ i, 0 ≤ i → ¬ (a ≤ i < b) → keyAt l' i = keyAt l i)
  ∧ (∀ i, a ≤ i < b → ∃ j, a ≤ j < b ∧ keyAt l' i = keyAt l j).

(** The keys of [[a, b)] ascend. *)
Definition sortedIn (l : list A) (a b : Z) : Prop :=
  ∀ i j, a ≤ i → i ≤ j → j < b → keyAt l i ≤ keyAt l j.

(** In the heap of [hi] nodes laid out from index [first] on, every node
    from [lo] on is at least as large as its children. *)
Definition heapFrom (l : list A) (first lo hi : Z) : Prop :=
  ∀ i c, lo ≤ i → (c = 2 * i + 1 ∨ c = 2 * i + 2) → c < hi →
         keyAt l (first + c) ≤ keyAt l (first + i).

(** The same but for the node [r], whose children are instead bounded by
    its parent. *)
Definition heapBut (l : list A) (first lo hi r : Z) : Prop :=
  (∀ i c, lo ≤ i → i ≠ r → (c = 2 * i + 1 ∨ c = 2 * i + 2) → c < hi →
          keyAt l (first + c) ≤ keyAt l (first + i))
  ∧ (∀ p c, lo ≤ p → (r = 2 * p + 1 ∨ r = 2 * p + 2) →
            (c = 2 * r + 1 ∨ c = 2 * r + 2) → c < hi →
            keyAt l (first + c) ≤ keyAt l (first + p)).

(** The range [[a, b)] lies to the right of an element that is no larger
    than any of its own: the pivot of an earlier partition. *)
Definition lowerBound (l : list A) (a b : Z) : Prop :=
  0 < a → ∀ k, a ≤ k < b → keyAt l (a - 1) ≤ keyAt l k.

End SortInvariants.

(** *** The vocabulary of sorting under a change of element type *)

Section SortTransport.

Context {A B : Type}.

(** The outcome of a computation over a slice of [B], read over the
    slice of the images under [f]. *)
Definition transported {X : Type} (f : B → A) (r : Exec (X * list B))
  : Exec (X * list A) :=
  match r with
  | Ok (x, l) => Ok (x, f <$> l)
  | Fail e => Fail e
  | Panic r => Panic r
  end.

(** [mA] does on the images what [mB] does on the slice. *)
Definition natural {X : Type} (f : B → A)
    (mA : sort.SortM (A := A) X) (mB : sort.SortM (A := B) X) : Prop :=
  ∀ l, mA (f <$> l) = transported f (mB l).

End SortTransport.

(** *** The vocabulary of the summarizer's properties *)

(** The function of frame 0, which [summarize] groups by; the empty
    string stands in for a stack that has no frame. *)
Definition firstFunction (s : Stack) : string :=
  match Frames s with
  | f :: _ => Function f
  | [] => ""
  end.

(** How many of the stacks have [fn] as the function of frame 0. *)
Definition occurrences (fn : string) (stacks : list Stack) : Z :=
  Z.of_nat (length (filter (λ s, firstFunction s = fn) stacks)).

(** The sum of the counts of a summary list. *)
Definition totalCount (sums : list summary) : Z :=
  foldr (λ x acc, summary_Count x + acc) 0 sums.

(** A stack that has a frame 0. *)
Definition Framed : Type := { s : Stack | Frames s ≠ [] }.

(** The row [summarize] makes of a stack of [filtered]. *)
Definition summaryOf (counts : gmap string Z) (s : Stack) : summary :=
  mkSummary (firstFunction s) (count_of counts (firstFunction s)).

(** *** The vocabulary of the wait-time statistics *)

(** The sum of the wait times, as an integer that does not wrap. *)
Definition totalWait (stacks : list Stack) : Z :=
  foldr (λ s acc, WaitTime s + acc) 0 stacks.

(** *** The vocabulary of the parser's properties *)

(** The state in which the scanning loop ends on [lines], [None] when
    the function is left from inside the loop. *)
Fixpoint finalState (re : option Regexp) (st : ParserState) (lines : list string)
  : option ParserState :=
  match lines with
  | [] => Some st
  | raw :: rest =>
      match processLine re st raw (head rest) with
      | (_, Ok (st', NextLine)) => finalState re st' rest
      | (_, Ok (st', SkipLine)) =>
          match rest with
          | _ :: rest' => finalState re st' rest'
          | [] => Some st'
          end
      | _ => None
      end
  end.

(** The header lines that the loop reads as header lines, stripped of
    the prefix, in the order of the input.  A line that follows a
    "created by" line is taken as its entry line and is not read again:
    [skip] says that the line at hand is such a line. *)
Fixpoint headersRead (re : option Regexp) (skip : bool) (lines : list string)
  : list string :=
  match lines with
  | [] => []
  | raw :: rest =>
      if skip then headersRead re false rest
      else
        match stripPrefix re raw with
        | Ok line =>
            match lineKind line with
            | Header => line :: headersRead re false rest
            | CreatedByLine => headersRead re true rest
            | Blank | FrameLine => headersRead re false rest
            end
        | _ => []
        end
  end.

(** The stack [s] has what the header line [line] says: number, state,
    wait time and lock flag. *)
Definition fromHeader (line : string) (s : Stack) : Prop :=
  ∃ c, parseHeader line = Ok c
       ∧ Number s = Number c ∧ State s = State c
       ∧ WaitTime s = WaitTime c ∧ ThreadLocked s = ThreadLocked c.

(** The parser state [st] is [st0] with the stacks [before] in front of
    its finished stacks, at whatever line number. *)
Definition sameBut (before : list Stack) (st st0 : ParserState) : Prop :=
  cur st = cur st0 ∧ frame st = frame st0 ∧ stacks st = before ++ stacks st0.

(** The number of "created by" lines that the loop reads as such; each
    of them takes the line after it from the scanner.  [skip] is as in
    [headersRead]. *)
Fixpoint creatorsRead (re : option Regexp) (skip : bool) (lines : list string) : nat :=
  match lines with
  | [] => O
  | raw :: rest =>
      if skip then creatorsRead re false rest
      else
        match stripPrefix re raw with
        | Ok line =>
            match lineKind line with
            | CreatedByLine => S (creatorsRead re true rest)
            | Header | Blank | FrameLine => creatorsRead re false rest
            end
        | _ => O
        end
  end.

(** *** The vocabulary of the round trips *)

(** The number that the decimal digits [d] make when they follow the
    digits of [n]. *)
Fixpoint decimalValue (d : Decimal.uint) (n : N) : N :=
  match d with
  | Decimal.Nil => n
  | Decimal.D0 d => decimalValue d (n * 10 + 0)
  | Decimal.D1 d => decimalValue d (n * 10 + 1)
  | Decimal.D2 d => decimalValue d (n * 10 + 2)
  | Decimal.D3 d => decimalValue d (n * 10 + 3)
  | Decimal.D4 d => decimalValue d (n * 10 + 4)
  | Decimal.D5 d => decimalValue d (n * 10 + 5)
  | Decimal.D6 d => decimalValue d (n * 10 + 6)
  | Decimal.D7 d => decimalValue d (n * 10 + 7)
  | Decimal.D8 d => decimalValue d (n * 10 + 8)
  | Decimal.D9 d => decimalValue d (n * 10 + 9)
  end%N.

(** The same for hexadecimal digits. *)
Fixpoint hexValue (d : Hexadecimal.uint) (n : N) : N :=
  match d with
  | Hexadecimal.Nil => n
  | Hexadecimal.D0 d => hexValue d (n * 16 + 0)
  | Hexadecimal.D1 d => hexValue d (n * 16 + 1)
  | Hexadecimal.D2 d => hexValue d (n * 16 + 2)
  | Hexadecimal.D3 d => hexValue d (n * 16 + 3)
  | Hexadecimal.D4 d => hexValue d (n * 16 + 4)
  | Hexadecimal.D5 d => hexValue d (n * 16 + 5)
  | Hexadecimal.D6 d => hexValue d (n * 16 + 6)
  | Hexadecimal.D7 d => hexValue d (n * 16 + 7)
  | Hexadecimal.D8 d => hexValue d (n * 16 + 8)
  | Hexadecimal.D9 d => hexValue d (n * 16 + 9)
  | Hexadecimal.Da d => hexValue d (n * 16 + 10)
  | Hexadecimal.Db d => hexValue d (n * 16 + 11)
  | Hexadecimal.Dc d => hexValue d (n * 16 + 12)
  | Hexadecimal.Dd d => hexValue d (n * 16 + 13)
  | Hexadecimal.De d => hexValue d (n * 16 + 14)
  | Hexadecimal.Df d => hexValue d (n * 16 + 15)
  end%N.

(** Every byte of [s] is one of the bytes of [set]. *)
Fixpoint onlyBytes (set : string) (s : string) : bool :=
  match s with
  | EmptyString => true
  | String c s' => mem c set && onlyBytes set s'
  end.

(** The first byte of [s] is one of the bytes of [set]. *)
Definition firstByteIn (set s : string) : bool :=
  match s with
  | String c _ => mem c set
  | EmptyString => false
  end.

(** The last byte of [s] is one of the bytes of [set]. *)
Fixpoint lastByteIn (set s : string) : bool :=
  match s with
  | EmptyString => false
  | String c EmptyString => mem c set
  | String _ s' => lastByteIn set s'
  end.

(** The entry line as [Frame.String] and [CreatedBy.String] write it. *)
Definition entryText (file : string) (line entry : Z) : string :=
  String tab file +:+ ":" +:+ fmt_d line
  +:+ (if negb (entry =? 0) then " " +:+ fmt_plus_sharp_x entry else "").

(** The function line as [Frame.String] writes it. *)
Definition functionText (f : Frame) : string :=
  Function f +:+ "(" +:+ Join (Params f) ", " +:+ ")".

(** The creator line as [CreatedBy.String] writes it. *)
Definition creatorText (c : CreatedBy) : string := "created by " +:+ cb_Function c.

(** The header line as [Stack.String] writes it for a wait time of
    [minutes] whole minutes. *)
Definition headerText (number : Z) (state : string) (minutes : Z) : string :=
  "goroutine " +:+ fmt_d number +:+ " ["
  +:+ (if negb (minutes =? 0)
       then state +:+ ", " +:+ (fmt_d minutes +:+ " minutes") else state)
  +:+ "]:".

(** The byte "\r". *)
Definition cr : ascii := ascii_of_nat 13.

(** A text that the line scanner hands back as it is when it stands on a
    line of its own: no newline in it and no "\r" at its end. *)
Definition noNewline (s : string) : bool := (countByte newline s =? 0)%nat.

Definition oneLine (s : string) : bool :=
  noNewline s && negb (lastByteIn (String cr "") s).

(** [z] is a 64-bit integer. *)
Definition int64b (z : Z) : bool := (int64_min <=? z) && (z <=? int64_max).

(** The entry line of these values is read back as these values. *)
Definition entryRendersBack (file : string) (line entry : Z) : bool :=
  noNewline file && (countByte ":" file =? 0)%nat
  && String.eqb (Trim file (String " " (String tab (String newline "")))) file
  && int64b line && int64b entry.

(** The two lines of a frame are read back as the frame: the function
    name does not make the line a header or creator line, there is a
    parameter, and no parameter holds "(" or ", ". *)
Definition frameRendersBack (f : Frame) : bool :=
  noNewline (Function f)
  && negb (HasPrefix (Function f) "goroutine")
  && negb (HasPrefix (Function f) "created by")
  && negb (length (Params f) =? 0)%nat
  && forallb (λ p, noNewline p && (countByte "(" p =? 0)%nat && negb (Contains p ", "))
       (Params f)
  && entryRendersBack (File f) (Line f) (Entry f).

(** The rendering of a stack is read back as the stack. *)
Definition stackRendersBack (s : Stack) : bool :=
  int64b (Number s) && int64b (WaitTime s) && (Z.rem (WaitTime s) Minute =? 0)
  && noNewline (State s) && (countByte "," (State s) =? 0)%nat
  && negb (firstByteIn "[]:" (State s)) && negb (lastByteIn "[]:" (State s))
  && negb (ThreadLocked s)
  && forallb frameRendersBack (Frames s)
  && oneLine (cb_Function (Stack_CreatedBy s))
  && entryRendersBack (cb_File (Stack_CreatedBy s)) (cb_Line (Stack_CreatedBy s))
       (cb_Entry (Stack_CreatedBy s)).

(** The lines of the rendering of a stack whose wait time is a whole
    number of minutes. *)
Definition frameLines (f : Frame) : list string :=
  [functionText f; entryText (File f) (Line f) (Entry f)].

Definition stackLines (s : Stack) : list string :=
  headerText (Number s) (State s) (Z.quot (WaitTime s) Minute)
  :: flat_map frameLines (Frames s)
  ++ [creatorText (Stack_CreatedBy s);
      entryText (cb_File (Stack_CreatedBy s)) (cb_Line (Stack_CreatedBy s))
        (cb_Entry (Stack_CreatedBy s))].

(** The text made of lines, each ended by a newline. *)
Fixpoint unlines (ls : list string) : string :=
  match ls with
  | [] => ""
  | l :: ls' => l +:+ nl +:+ unlines ls'
  end.

(** The lines of the text that [formatStacks] writes: after each stack's
    lines the empty line that [Fprintln] makes. *)
Definition dumpLines (stacks : list Stack) : list string :=
  flat_map (λ s, stackLines s ++ [""]) stacks.

(** ** Output of the stacks (main.go) *)

Section Formatting.

Variable inexact_minutes : Z → Z.

(** [defaultFormatter.formatStacks]: what the loop writes to [w], each
    stack's [String()] followed by the newline of [Fprintln]. *)
Fixpoint formatStacks (stacks : list Stack) : string :=
  match stacks with
  | [] => ""
  | s :: stacks' => Stack_String inexact_minutes s +:+ nl +:+ formatStacks stacks'
  end.

End Formatting.

(** ** The pipeline of [main] (main.go) *)

(** What [main] does with the parsed stacks before it prints them: it
    sorts them with [sort.Sort] by [compfunc], then filters them. *)
Definition sortAndFilter (compfunc : StackCompFunc) (filters : list Filter)
    (stacks : list Stack) : Exec (list Stack) :=
  sorted ← sortStacks compfunc stacks;
  Ok (ApplyFilters sorted filters).

(** ** The command line of [main] (main.go) *)

(** [case n1, n2, ...:] of a switch on [key] *)
Definition keyIn (key : string) (names : list string) : bool :=
  existsb (String.eqb key) names.

Module main.

(** The variables the flag loop of [main] sets. *)
Record Options : Type := mkOptions {
  filters : list Filter;
  compfunc : StackCompFunc;
  outputType : string;
  formatType : string;
  fname : string;
  linePrefix : string;
  repl : bool
}.

(** Their initial values. *)
Definition defaults : Options :=
  mkOptions [] CompWaitTime "full" "default" "-" "" false.

(** How the start of [main] can end: it goes on with a value, it leaves
    through [os.Exit(code)], or it panics.  What is printed before an
    exit is not part of the model. *)
Inductive Run (A : Type) : Type :=
  | Running (a : A)
  | Exited (code : Z)
  | Crashed (r : RuntimeError).
Arguments Running {A} a.
Arguments Exited {A} code.
Arguments Crashed {A} r.

(** [l[i]], handed to the rest of the round *)
Definition at_index {A B : Type} (l : list A) (i : nat) (k : A → Run B) : Run B :=
  match l !! i with
  | Some a => k a
  | None => Crashed (IndexOutOfRange (Z.of_nat i) (Z.of_nat (length l)))
  end.

Definition addFilter (o : Options) (f : Filter) : Options :=
  mkOptions (filters o ++ [f]) (compfunc o) (outputType o) (formatType o)
            (fname o) (linePrefix o) (repl o).

Definition setCompfunc (o : Options) (c : StackCompFunc) : Options :=
  mkOptions (filters o) c (outputType o) (formatType o)
            (fname o) (linePrefix o) (repl o).

Definition setOutputType (o : Options) (t : string) : Options :=
  mkOptions (filters o) (compfunc o) t (formatType o)
            (fname o) (linePrefix o) (repl o).

Definition setFormatType (o : Options) (t : string) : Options :=
  mkOptions (filters o) (compfunc o) (outputType o) t
            (fname o) (linePrefix o) (repl o).

Definition setFname (o : Options) (f : string) : Options :=
  mkOptions (filters o) (compfunc o) (outputType o) (formatType o)
            f (linePrefix o) (repl o).

Definition setLinePrefix (o : Options) (p : string) : Options :=
  mkOptions (filters o) (compfunc o) (outputType o) (formatType o)
            (fname o) p (repl o).

Definition setRepl (o : Options) : Options :=
  mkOptions (filters o) (compfunc o) (outputType o) (formatType o)
            (fname o) (linePrefix o) true.

Section Flags.

(** [time.ParseDuration], [None] when it returns an error. *)
Variable time_ParseDuration : string → option Z.

(** One round of the flag loop, for the argument [a]. *)
Definition setFlag (o : Options) (a : string) : Run Options :=
  if HasPrefix a "-" then
    let parts := Split a "=" in
    at_index parts 0 (λ key,
        let val := match parts with [_; v] => v | _ => "" end in
        if keyIn key ["--frame-match"; "--fm"] then
          Running (addFilter o (HasFrameMatching val))
        else if keyIn key ["--wait-more-than"] then
          match time_ParseDuration val with
          | None => Exited 1
          | Some d => Running (addFilter o (TimeGreaterThan d))
          end
        else if keyIn key ["--wait-less-than"] then
          match time_ParseDuration val with
          | None => Exited 1
          | Some d => Running (addFilter o (Negate (TimeGreaterThan d)))
          end
        else if keyIn key ["--frame-not-match"; "--fnm"] then
          Running (addFilter o (Negate (HasFrameMatching val)))
        else if keyIn key ["--state-match"] then
          Running (addFilter o (MatchState val))
        else if keyIn key ["--state-not-match"] then
          Running (addFilter o (Negate (MatchState val)))
        else if keyIn key ["--sort"] then
          at_index parts 1 (λ p,
              if keyIn p ["goronum"] then Running (setCompfunc o CompGoroNum)
              else if keyIn p ["stacksize"] then Running (setCompfunc o CompDepth)
              else if keyIn p ["waittime"] then Running (setCompfunc o CompWaitTime)
              else Exited 1)
        else if keyIn key ["--line-prefix"] then
          Running (setLinePrefix o val)
        else if keyIn key ["--repl"] then
          Running (setRepl o)
        else if keyIn key ["--output"] then
          if keyIn val ["full"; "top"; "summary"] then Running (setOutputType o val)
          else
            (* the message prints [parts[1]] *)
            at_index parts 1 (λ _, Exited 1)
        else if keyIn key ["--summary"; "-s"] then
          Running (setOutputType o "summary")
        else if keyIn key ["--json"; "-j"] then
          Running (setFormatType o "json")
        else if keyIn key ["--suspicious"; "--sus"] then
          Running (setOutputType o "sus")
        else Running o)
  else Running (setFname o a).

(** The flag loop over [os.Args[1:]]. *)
Fixpoint flagLoop (o : Options) (args : list string) : Run Options :=
  match args with
  | [] => Running o
  | a :: args' =>
      match setFlag o a with
      | Running o' => flagLoop o' args'
      | Exited code => Exited code
      | Crashed r => Crashed r
      end
  end.

(** The start of [main]: with no argument, or with [-h] or [--help]
    first, the usage text is printed and [main] returns ([None]);
    otherwise the flags are read. *)
Definition readArgs (osArgs : list string) : Run (option Options) :=
  if (length osArgs <? 2)%nat then Running None
  else
    at_index osArgs 1 (λ a1,
      if String.eqb a1 "-h" || String.eqb a1 "--help" then Running None
      else
        match flagLoop defaults (drop 1 osArgs) with
        | Running o => Running (Some o)
        | Exited code => Exited code
        | Crashed r => Crashed r
        end).

End Flags.

End main.

(** What one round keeps: the comparator is one of the three, the output
    type one of four names, the format one of two. *)
Definition inRange (o : main.Options) : Prop :=
  (main.compfunc o = CompWaitTime ∨ main.compfunc o = CompDepth
   ∨ main.compfunc o = CompGoroNum)
  ∧ In (main.outputType o) ["full"; "top"; "summary"; "sus"]
  ∧ In (main.formatType o) ["default"; "json"].

(** ** Grouping look-alike stacks: [printUnique] (main.go) *)

Section Unique.

(** The method [Sameish] of [Stack] in package [stacks], a parameter here. *)
Variable Sameish : Stack → Stack → bool.

(** The inner loop of [printUnique], over the representatives from
    index [x] on: [s] is appended to the bucket of every representative
    it looks like. *)
Fixpoint bucketInner (s : Stack) (ftypes : list Stack) (x : nat)
    (bucketed : list (list Stack)) (found : bool) : Exec (list (list Stack) * bool) :=
  match ftypes with
  | [] => Ok (bucketed, found)
  | ft :: ftypes' =>
      if Sameish s ft then
        b ← index bucketed x;
        bucketInner s ftypes' (S x) (<[x := b ++ [s]]> bucketed) true
      else bucketInner s ftypes' (S x) bucketed found
  end.

(** The outer loop of [printUnique]. *)
Fixpoint bucketLoop (stacks : list Stack) (ftypes : list Stack)
    (bucketed : list (list Stack)) : Exec (list Stack * list (list Stack)) :=
  match stacks with
  | [] => Ok (ftypes, bucketed)
  | s :: stacks' =>
      '(bucketed, found) ← bucketInner s ftypes 0 bucketed false;
      if found : bool then bucketLoop stacks' ftypes bucketed
      else bucketLoop stacks' (ftypes ++ [s]) (bucketed ++ [[s]])
  end.

(** What [printUnique] prints for one representative: the size of its
    bucket, the wait statistics of the bucket, and the representative. *)
Record uniqueReport : Type := mkUniqueReport {
  ur_count : nat;
  ur_wait : waitStats;
  ur_stack : Stack
}.

(** The printing loop of [printUnique], from index [x] on. *)
Fixpoint reportLoop (ftypes : list Stack) (x : nat) (bucketed : list (list Stack))
  : Exec (list uniqueReport) :=
  match ftypes with
  | [] => Ok []
  | ft :: ftypes' =>
      b ← index bucketed x;
      ws ← compWaitStats b;
      rest ← reportLoop ftypes' (S x) bucketed;
      Ok (mkUniqueReport (length b) ws ft :: rest)
  end.

Definition printUnique (stacks : list Stack) : Exec (list uniqueReport) :=
  '(ftypes, bucketed) ← bucketLoop stacks [] [];
  reportLoop ftypes 0 bucketed.

End Unique.

(** The stacks counted by a report. *)
Definition reportTotal (report : list uniqueReport) : nat :=
  foldr (λ r n, (ur_count r + n)%nat) 0%nat report.

(** A bucket of the representative [ft]: [ft] first, then stacks that
    look like it. *)
Definition bucketOf (Sameish : Stack → Stack → bool) (ft : Stack) (b : list Stack) : Prop :=
  ∃ rest, b = ft :: rest ∧ ∀ s, In s rest → Sameish s ft = true.

(** No representative looks like an earlier one. *)
Definition apart (Sameish : Stack → Stack → bool) (ftypes : list Stack) : Prop :=
  ∀ (i j : nat) (fi fj : Stack),
    (i < j)%nat → ftypes !! i = Some fi → ftypes !! j = Some fj → Sameish fj fi = false.

(** ** The interactive loop: [runRepl] (main.go) *)

Module repl.

(** The variables of [runRepl]: the stacks by goroutine number, the
    views narrowed so far with the commands that made them, and the
    current view. *)
Record State : Type := mkState {
  bynumber : gmap Z Stack;
  stk : list (list Stack);
  ops : list string;
  cur : list Stack
}.

(** What a round writes or calls.  The calls of [suspiciousCheck],
    [frameStat] and [printUnique] are recorded with their argument, not
    run: a recorded call stands for a call that returned.  [frameStat]
    and [printUnique] always return; [suspiciousCheck] reads [fcs[i]] for
    every [i] below 20 and panics when the stacks have fewer frame keys
    than that, so a run that holds a [sus] command is followed only as
    long as that call returns.  Writing to standard output is taken to
    succeed. *)
Inductive Output : Type :=
  | Prompt
  | Summaries (sums : list summary)
  | Stacks (stacks : list Stack)
  | PrintErr (err : error)
  | NotFound
  | DiffLine (i : nat) (size : nat) (op : string)
  | SuspiciousCheck (stacks : list Stack)
  | FrameStat (stacks : list Stack)
  | PrintUnique (stacks : list Stack).

(** [for _, i := range input { bynumber[i.Number] = i }] *)
Fixpoint indexLoop (input : list Stack) (bynumber : gmap Z Stack) : gmap Z Stack :=
  match input with
  | [] => bynumber
  | i :: input' => indexLoop input' (<[Number i := i]> bynumber)
  end.

Definition start (input : list Stack) : State :=
  mkState (indexLoop input ∅) [input] ["."] input.

(** The loop of the [diff] command, from index [i] on. *)
Fixpoint diffLoop (stk : list (list Stack)) (ops : list string) (i : nat)
  : Exec (list Output) :=
  match ops with
  | [] => Ok []
  | op :: ops' =>
      view ← index stk i;
      rest ← diffLoop stk ops' (S i);
      Ok (DiffLine i (length view) op :: rest)
  end.

(** [l[:len(l)-1]] *)
Definition dropLast {A : Type} (l : list A) : Exec (list A) :=
  if (length l =? 0)%nat then Panic (SliceBoundsOutOfRange 0 (-1))
  else Ok (take (length l - 1) l).

(** The [switch] of one round on the line [text]; the prompt that ends
    the round is added by [round]. *)
Definition command (st : State) (text : string) : Exec (State * list Output) :=
  let parts := Split text " " in
  p0 ← index parts 0;
  if keyIn p0 ["fm"; "frame-match"] then
    rest ← sliceFrom parts 1;
    let filters := (λ p, HasFrameMatching (TrimSpace p)) <$> rest in
    let cur := ApplyFilters (cur st) filters in
    Ok (mkState (bynumber st) (stk st ++ [cur]) (ops st ++ [text]) cur, [])
  else if keyIn p0 ["fnm"; "frame-not-match"] then
    rest ← sliceFrom parts 1;
    let filters := (λ p, Negate (HasFrameMatching (TrimSpace p))) <$> rest in
    let cur := ApplyFilters (cur st) filters in
    Ok (mkState (bynumber st) (stk st ++ [cur]) (ops st ++ [text]) cur, [])
  else if keyIn p0 ["s"; "summary"; "sum"] then
    sums ← summarize (cur st);
    Ok (st, [Summaries sums])
  else if keyIn p0 ["show"; "p"; "print"] then
    if (1 <? length parts)%nat then
      p1 ← index parts 1;
      match strconv.Atoi p1 with
      | inr err => Ok (st, [PrintErr err])
      | inl num =>
          match bynumber st !! num with
          | None => Ok (st, [NotFound])
          | Some s => Ok (st, [Stacks [s]])
          end
      end
    else Ok (st, [Stacks (cur st)])
  else if keyIn p0 ["diff"] then
    out ← diffLoop (stk st) (ops st) 0;
    Ok (st, out)
  else if keyIn p0 ["pop"] then
    if (1 <? length (stk st))%nat then
      stk' ← dropLast (stk st);
      ops' ← dropLast (ops st);
      cur' ← index stk' (length stk' - 1);
      Ok (mkState (bynumber st) stk' ops' cur', [])
    else Ok (st, [])
  else if keyIn p0 ["sus"] then Ok (st, [SuspiciousCheck (cur st)])
  else if keyIn p0 ["framestat"] then Ok (st, [FrameStat (cur st)])
  else if keyIn p0 ["unique"; "uu"] then Ok (st, [PrintUnique (cur st)])
  else Ok (st, []).

(** One round of the loop. *)
Definition round (st : State) (text : string) : Exec (State * list Output) :=
  r ← command st text;
  Ok (r.1, r.2 ++ [Prompt]).

(** The rounds for the lines read from standard input. *)
Fixpoint rounds (st : State) (lines : list string) : Exec (State * list Output) :=
  match lines with
  | [] => Ok (st, [])
  | text :: lines' =>
      r ← round st text;
      r' ← rounds r.1 lines';
      Ok (r'.1, r.2 ++ r'.2)
  end.

Definition runRepl (input : list Stack) (lines : list string)
  : Exec (State * list Output) :=
  r ← rounds (start input) lines;
  Ok (r.1, Prompt :: r.2).

End repl.

(** The word a command line opens with, on which the round switches. *)
Definition commandWord (text : string) : string :=
  default "" (head (Split text " ")).

(** No line asks for the suspicious check. *)
Definition noSuspiciousCheck (lines : list string) : bool :=
  forallb (λ text, negb (String.eqb (commandWord text) "sus")) lines.

(** What [runRepl] keeps between rounds: a view for every recorded
    command, the input at the bottom, the current view on top, and every
    view cut out of the one below it. *)
Definition viewsKept (input : list Stack) (st : repl.State) : Prop :=
  length (repl.stk st) = length (repl.ops st)
  ∧ head (repl.stk st) = Some input
  ∧ last (repl.stk st) = Some (repl.cur st)
  ∧ (∀ (i : nat) (below above : list Stack),
       repl.stk st !! i = Some below → repl.stk st !! S i = Some above →
       above `sublist_of` below)
  ∧ repl.bynumber st = repl.indexLoop input ∅.

(** * Properties *)

(** ** Filters *)

Lemma passesAll_forallb (filters : list Filter) (s : Stack) :
  passesAll filters s = forallb (λ f, f s) filters.
Proof.
  induction filters as [|f filters IH]; simpl; [reflexivity|].
  rewrite IH. destruct (f s); reflexivity.
Qed.

Lemma applyLoop_filter (filters : list Filter) (stacks out : list Stack) :
  applyLoop filters stacks out = out ++ List.filter (passesAll filters) stacks.
Proof.
  revert out. induction stacks as [|s stacks IH]; intros out; simpl.
  - symmetry. apply app_nil_r.
  - destruct (passesAll filters s); rewrite IH; [|reflexivity].
    rewrite <- app_assoc. reflexivity.
Qed.

Lemma ApplyFilters_filter (stacks : list Stack) (filters : list Filter) :
  ApplyFilters stacks filters = List.filter (λ s, forallb (λ f, f s) filters) stacks.
Proof.
  unfold ApplyFilters. rewrite applyLoop_filter. simpl.
  apply List.filter_ext. intros s. apply passesAll_forallb.
Qed.

Lemma filter_filter_absorb (p q : Stack → bool) (l : list Stack) :
  (∀ s, p s = true → q s = true) →
  List.filter q (List.filter p l) = List.filter p l.
Proof.
  intros Hpq. induction l as [|s l IH]; simpl; [reflexivity|].
  destruct (p s) eqn:Hp; [|exact IH].
  simpl. rewrite (Hpq s Hp). f_equal. exact IH.
Qed.

(** Filtering by a list of filters that was already applied changes
    nothing, and the order of the filters in the list does not matter. *)
Lemma ApplyFilters_again (stacks : list Stack) (filters again : list Filter) :
  (∀ f, In f again → In f filters) →
  ApplyFilters (ApplyFilters stacks filters) again = ApplyFilters stacks filters.
Proof.
  intros Hsub. rewrite !ApplyFilters_filter.
  apply filter_filter_absorb. intros s Hs.
  rewrite forallb_forall in Hs. apply forallb_forall.
  intros f Hf. apply Hs, Hsub, Hf.
Qed.

Lemma ApplyFilters_Permutation (stacks : list Stack) (filters filters' : list Filter) :
  Permutation filters filters' →
  ApplyFilters stacks filters = ApplyFilters stacks filters'.
Proof.
  intros HP. rewrite !ApplyFilters_filter. apply List.filter_ext. intros s.
  destruct (forallb (λ f, f s) filters) eqn:H1; symmetry.
  - rewrite forallb_forall in H1. apply forallb_forall. intros f Hf.
    apply H1. eapply Permutation_in; [symmetry; exact HP|exact Hf].
  - destruct (forallb (λ f, f s) filters') eqn:H2; [|reflexivity].
    rewrite <- H1. symmetry. rewrite forallb_forall in H2. apply forallb_forall.
    intros f Hf. apply H2. eapply Permutation_in; [exact HP|exact Hf].
Qed.

(** C9. [ApplyFilters] keeps exactly the stacks that satisfy every
    filter, in their input order (it is [List.filter] by the conjunction
    of the filters: a surviving list is a subsequence of the input, and a
    stack is in it iff it is in the input and passes each filter);
    [[f1; f2]] and [[f2; f1]] give the same result; filtering the result
    by [f1] again changes nothing. *)
Theorem ApplyFilters_and_stable_idempotent_commutative :
  ∀ (stacks : list Stack) (filters : list Filter) (f1 f2 : Filter),
    ApplyFilters stacks filters
      = List.filter (λ s, forallb (λ f, f s) filters) stacks
    ∧ sublist (ApplyFilters stacks filters) stacks
    ∧ (∀ s, In s (ApplyFilters stacks filters)
            ↔ In s stacks ∧ ∀ f, In f filters → f s = true)
    ∧ ApplyFilters stacks [f1; f2] = ApplyFilters stacks [f2; f1]
    ∧ ApplyFilters (ApplyFilters stacks [f1; f2]) [f1] = ApplyFilters stacks [f1; f2]
    ∧ ApplyFilters (ApplyFilters stacks filters) filters = ApplyFilters stacks filters.
Proof.
  intros stacks filters f1 f2. repeat split.
  - apply ApplyFilters_filter.
  - rewrite ApplyFilters_filter.
    induction stacks as [|s stacks IH]; simpl; [constructor|].
    match goal with |- context [if ?b then _ else _] => destruct b end;
      [apply sublist_skip|apply sublist_cons]; exact IH.
  - rewrite ApplyFilters_filter in H. apply List.filter_In in H. tauto.
  - rewrite ApplyFilters_filter in H. apply List.filter_In in H.
    destruct H as [_ H]. rewrite forallb_forall in H. exact H.
  - intros [Hin Hall]. rewrite ApplyFilters_filter. apply List.filter_In.
    split; [exact Hin|]. apply forallb_forall. exact Hall.
  - apply ApplyFilters_Permutation. apply perm_swap.
  - apply ApplyFilters_again. intros f [<-|[]]. left. reflexivity.
  - apply ApplyFilters_again. auto.
Qed.

(** ** Entry-line parser *)

Lemma split_colon_length (acc s : string) :
  length (split_aux ":" 0 acc s) = S (countByte ":" s).
Proof.
  revert acc. induction s as [|d s IH]; intros acc; [reflexivity|].
  cbn [split_aux countByte String.prefix String.length].
  destruct (ascii_dec ":" d) as [<-|Hne].
  - assert (String.prefix "" s = true) as -> by (destruct s; reflexivity).
    cbn [Nat.sub length]. rewrite IH. reflexivity.
  - rewrite IH. destruct (Ascii.eqb_spec d ":") as [->|_]; [congruence|].
    reflexivity.
Qed.

Lemma Split_colon_length (s : string) :
  length (Split s ":") = S (countByte ":" s).
Proof. apply split_colon_length. Qed.

(** C7. On a line with no colon or with more than one colon
    [parseEntryLine] fails, and the error is the same for every such
    line: its format argument is the result variable [line] (the integer
    0), so the message does not contain the offending input. *)
Theorem parseEntryLine_colon_error_ignores_input :
  ∀ s : string,
    countByte ":" s ≠ 1%nat →
    parseEntryLine s = Fail (Errorf "expected a colon: %q" [VInt 0]).
Proof.
  intros s Hc. unfold parseEntryLine.
  pose proof (Split_colon_length s) as Hlen.
  destruct (Split s ":") as [|p0 parts] eqn:Hs; [discriminate|].
  cbn [index lookup list_lookup mbind Exec_bind].
  destruct (length (p0 :: parts) =? 2)%nat eqn:H2; [|reflexivity].
  apply Nat.eqb_eq in H2. rewrite H2 in Hlen. congruence.
Qed.

Lemma parseEntryLine_colon_error_witness :
  countByte ":" "/a/b.go 10" ≠ 1%nat
  ∧ parseEntryLine "/a/b.go 10" = Fail (Errorf "expected a colon: %q" [VInt 0])
  ∧ parseEntryLine "C:/a/b.go:10" = Fail (Errorf "expected a colon: %q" [VInt 0]).
Proof.
  split; [cbn; lia|].
  split; apply parseEntryLine_colon_error_ignores_input; cbn; lia.
Defined.

(** ** Stack parser: one pass through the loop body *)

Lemma processLine_fst (re : option Regexp) (st : ParserState) (raw : string)
    (next : option string) :
  fst (processLine re st raw next) = S (lineNo st).
Proof. reflexivity. Qed.

(** Every way a pass through the loop body can end normally. *)
Lemma processLine_Ok (re : option Regexp) (st st' : ParserState) (raw : string)
    (next : option string) (n : nat) (adv : Advance) :
  processLine re st raw next = (n, Ok (st', adv)) →
  ∃ line, stripPrefix re raw = Ok line ∧
    n = S (lineNo st) ∧ lineNo st' = S (lineNo st) ∧
    match lineKind line with
    | Header =>
        ∃ c, parseHeader line = Ok c ∧ adv = NextLine ∧
          st' = mkParserState n (Some c) (emit (cur st) (stacks st)) (frame st)
    | Blank =>
        adv = NextLine ∧
        st' = mkParserState n None (emit (cur st) (stacks st)) (frame st)
    | CreatedByLine =>
        ∃ text file ln entry c,
          next = Some text ∧ parseEntryLine text = Ok (file, ln, entry) ∧
          cur st = Some c ∧ adv = SkipLine ∧
          st' = mkParserState n
                  (Some (setCreatedBy
                           (mkCreatedBy (TrimPrefix line "created by ") file ln entry) c))
                  (stacks st) (frame st)
    | FrameLine =>
        match frame st with
        | None =>
            ∃ f, parseFunctionLine line = Ok f ∧ adv = NextLine ∧
              st' = mkParserState n (cur st) (stacks st) (Some f)
        | Some f =>
            ∃ file ln entry c,
              parseEntryLine line = Ok (file, ln, entry) ∧ cur st = Some c ∧
              adv = NextLine ∧
              st' = mkParserState n
                      (Some (appendFrame (mkFrame (Function f) (Params f) file ln entry) c))
                      (stacks st) None
        end
    end.
Proof.
  unfold processLine, lineKind. intros H. injection H as <- H.
  destruct (stripPrefix re raw) as [line|e|r] eqn:Hs; try discriminate.
  cbn [mbind Exec_bind] in H.
  exists line. split; [reflexivity|]. split; [reflexivity|].
  destruct (HasPrefix line "goroutine").
  { destruct (parseHeader line) as [c|e|r]; try discriminate.
    cbn [mbind Exec_bind] in H. injection H as <- <-.
    split; [reflexivity|]. exists c. auto. }
  destruct (String.eqb line "").
  { injection H as <- <-. auto. }
  destruct (HasPrefix line "created by").
  { destruct next as [text|]; [|discriminate].
    destruct (parseEntryLine text) as [[[file ln] entry]|e|r] eqn:He; try discriminate.
    cbn [mbind Exec_bind] in H.
    destruct (cur st) as [c|] eqn:Hc; [|discriminate].
    cbn [withCur mbind Exec_bind] in H. injection H as <- <-.
    split; [reflexivity|]. exists text, file, ln, entry, c. auto. }
  destruct (frame st) as [f|] eqn:Hf.
  - destruct (parseEntryLine line) as [[[file ln] entry]|e|r] eqn:He; try discriminate.
    cbn [mbind Exec_bind] in H.
    destruct (cur st) as [c|] eqn:Hc; [|discriminate].
    cbn [withCur mbind Exec_bind] in H. injection H as <- <-.
    split; [reflexivity|]. exists file, ln, entry, c. auto.
  - destruct (parseFunctionLine line) as [f|e|r] eqn:Hp; try discriminate.
    cbn [mbind Exec_bind] in H. injection H as <- <-.
    split; [reflexivity|]. exists f. auto.
Qed.

(** ** Stack parser: examples *)

(** C3. Parsing example 1 gives one stack, number 5, state "running",
    no wait time, and one frame with function "foo.Bar", file "/a/b.go"
    and line 10; but the parameter list of that frame is not empty: it
    holds one parameter, the empty string, which is what splitting the
    empty text between the parentheses on ", " yields. *)
Theorem ParseStacks_example1_has_one_empty_param :
  ∀ (regexp_Compile : string → option Regexp) (debug_Stack : string),
    ScanLines example1 = ["goroutine 5 [running]:"; "foo.Bar()"; String tab "/a/b.go:10"; ""]
    ∧ ParseStacks regexp_Compile debug_Stack (ScanLines example1) ""
      = ([mkStack 5 "running" 0 [mkFrame "foo.Bar" [""] "/a/b.go" 10 0]
            false CreatedBy_zero], None)
    ∧ parseFunctionLine "foo.Bar()" = Ok (mkFrame "foo.Bar" [""] "" 0 0)
    ∧ Split "" ", " = [""]
    ∧ [""] ≠ ([] : list string).
Proof.
  intros rc ds. repeat split; try reflexivity. discriminate.
Qed.

(** ** Stack parser: the pending frame *)

(** C10. A pass through the loop body that starts with a frame pending
    and ends normally leaves that frame pending unless the line was
    taken as its entry line, in which case the completed frame went to
    the open stack: a blank line, a header line and a "created by" line
    keep it.  So a function line of one block can be completed by an
    entry line of a later block, and a frame still pending when the
    lines run out is dropped without an error. *)
Theorem pending_frame_cleared_only_by_entry_line :
  (∀ (re : option Regexp) (st st' : ParserState) (raw : string)
     (next : option string) (n : nat) (adv : Advance) (f : Frame),
     frame st = Some f →
     processLine re st raw next = (n, Ok (st', adv)) →
     ∃ line, stripPrefix re raw = Ok line ∧
       match lineKind line with
       | FrameLine =>
           frame st' = None ∧
           ∃ file ln entry c,
             parseEntryLine line = Ok (file, ln, entry) ∧ cur st = Some c ∧
             cur st' = Some (appendFrame (mkFrame (Function f) (Params f) file ln entry) c)
       | Header | Blank | CreatedByLine => frame st' = Some f
       end)
  ∧ (∀ (re : option Regexp) (st : ParserState) (f : Frame),
       scanLoop re st [] = (lineNo st, Ok (emit (cur st) (stacks st)))
       ∧ scanLoop re (mkParserState (lineNo st) (cur st) (stacks st) (Some f)) []
         = scanLoop re st [])
  ∧ (∀ (regexp_Compile : string → option Regexp) (debug_Stack : string),
       ParseStacks regexp_Compile debug_Stack
         ["goroutine 1 [running]:"; "main.worker(0x1)"; "";
          "goroutine 2 [sleep]:"; String tab "/src/b.go:20 +0x2a"] ""
       = ([mkStack 1 "running" 0 [] false CreatedBy_zero;
           mkStack 2 "sleep" 0 [mkFrame "main.worker" ["0x1"] "/src/b.go" 20 42]
             false CreatedBy_zero], None)
       ∧ ParseStacks regexp_Compile debug_Stack
           ["goroutine 1 [running]:"; "main.worker(0x1)";
            "goroutine 2 [sleep]:"; String tab "/src/b.go:20 +0x2a"] ""
         = ([mkStack 1 "running" 0 [] false CreatedBy_zero;
             mkStack 2 "sleep" 0 [mkFrame "main.worker" ["0x1"] "/src/b.go" 20 42]
               false CreatedBy_zero], None)
       ∧ ParseStacks regexp_Compile debug_Stack
           ["goroutine 1 [running]:"; "main.worker(0x1)"] ""
         = ([mkStack 1 "running" 0 [] false CreatedBy_zero], None)).
Proof.
  split; [|split].
  - intros re st st' raw next n adv f Hf H.
    apply processLine_Ok in H as (line & Hs & -> & _ & H).
    exists line. split; [exact Hs|].
    destruct (lineKind line).
    + destruct H as (c & _ & _ & ->). exact Hf.
    + destruct H as (_ & ->). exact Hf.
    + destruct H as (text & file & ln & entry & c & _ & _ & _ & _ & ->). exact Hf.
    + rewrite Hf in H. destruct H as (file & ln & entry & c & He & Hc & _ & ->).
      split; [reflexivity|]. exists file, ln, entry, c. auto.
  - intros re st f. split; reflexivity.
  - intros rc ds. repeat split; reflexivity.
Qed.

Lemma pending_frame_cleared_only_by_entry_line_witness :
  let f := mkFrame "main.worker" ["0x1"] "" 0 0 in
  let s1 := mkStack 1 "running" 0 [] false CreatedBy_zero in
  processLine None (mkParserState 2 (Some s1) [] (Some f)) "" (Some "goroutine 2 [sleep]:")
  = (3%nat, Ok (mkParserState 3 None [s1] (Some f), NextLine))
  ∧ frame (mkParserState 3 None [s1] (Some f)) = Some f.
Proof.
  intros f s1. split; [reflexivity|].
  destruct pending_frame_cleared_only_by_entry_line as [H _].
  destruct (H None (mkParserState 2 (Some s1) [] (Some f))
              (mkParserState 3 None [s1] (Some f))
              "" (Some "goroutine 2 [sleep]:") 3%nat NextLine f eq_refl eq_refl)
    as (line & Hs & Hk).
  injection Hs as <-. exact Hk.
Defined.

(** ** Rendering *)

Lemma append_assoc (a b c : string) : (a +:+ b) +:+ c = a +:+ (b +:+ c).
Proof.
  induction a as [|x a IH]; [reflexivity|].
  change (String x ((a +:+ b) +:+ c) = String x (a +:+ (b +:+ c))).
  rewrite IH. reflexivity.
Qed.

(** C8 as stated fails: the stack parsed from example 1, whose block has
    no "created by" line, is rendered with a creator trailer, made from
    the zero-valued creator record. *)
Lemma Stack_String_example1_has_creator_trailer :
  ∃ s : Stack,
    (∀ regexp_Compile debug_Stack,
       ParseStacks regexp_Compile debug_Stack (ScanLines example1) "" = ([s], None))
    ∧ (∀ inexact_minutes,
         Stack_String inexact_minutes s
         = "goroutine 5 [running]:" +:+ nl +:+ "foo.Bar()" +:+ nl
           +:+ String tab "/a/b.go:10" +:+ nl
           +:+ "created by " +:+ nl +:+ String tab ":0" +:+ nl)
    ∧ (∀ inexact_minutes,
         Contains (Stack_String inexact_minutes s) "created by" = true).
Proof.
  exists (mkStack 5 "running" 0 [mkFrame "foo.Bar" [""] "/a/b.go" 10 0]
            false CreatedBy_zero).
  repeat split; reflexivity.
Qed.

Lemma noCreator_emit (st : ParserState) :
  noCreator st →
  ∀ s, In s (emit (cur st) (stacks st)) → Stack_CreatedBy s = CreatedBy_zero.
Proof.
  intros [Hs Hc] s. unfold emit. destruct (cur st) as [c|]; [|apply Hs].
  intros Hin. apply in_app_or in Hin as [Hin|[<-|[]]]; [apply Hs, Hin|].
  apply Hc. reflexivity.
Qed.

Lemma parseHeader_noCreator (line : string) (c : Stack) :
  parseHeader line = Ok c → Stack_CreatedBy c = CreatedBy_zero.
Proof.
  unfold parseHeader.
  destruct (index (Split line " ") 1) as [p1|e|r]; try discriminate.
  cbn [mbind Exec_bind].
  destruct (strconv.Atoi p1) as [num|e]; [|discriminate].
  destruct (sliceFrom (Split line " ") 2) as [rest|e|r]; try discriminate.
  cbn [mbind Exec_bind].
  destruct (sliceFrom _ 1) as [segs|e|r]; try discriminate.
  cbn [mbind Exec_bind].
  destruct (headerSegments _ segs 0 false) as [[timev locked]|e|r]; try discriminate.
  cbn [mbind Exec_bind].
  destruct (index _ 0) as [s0|e|r]; try discriminate.
  cbn [mbind Exec_bind]. intros [= <-]. reflexivity.
Qed.

Lemma processLine_noCreator (re : option Regexp) (st st' : ParserState)
    (raw : string) (next : option string) (n : nat) (adv : Advance) :
  (∀ line, stripPrefix re raw = Ok line → lineKind line ≠ CreatedByLine) →
  noCreator st →
  processLine re st raw next = (n, Ok (st', adv)) →
  noCreator st' ∧ adv = NextLine.
Proof.
  intros Hno Hst H. apply processLine_Ok in H as (line & Hs & -> & _ & H).
  specialize (Hno line Hs). destruct (lineKind line); [| |congruence|].
  - destruct H as (c & Hh & -> & ->). split; [|reflexivity]. split; cbn.
    + apply noCreator_emit, Hst.
    + intros c' [= <-]. eapply parseHeader_noCreator, Hh.
  - destruct H as (-> & ->). split; [|reflexivity]. split; cbn.
    + apply noCreator_emit, Hst.
    + discriminate.
  - destruct Hst as [Hss Hc]. destruct (frame st) as [f|].
    + destruct H as (file & ln & entry & c & _ & Hcur & -> & ->).
      split; [|reflexivity]. split; cbn; [exact Hss|].
      intros c' [= <-]. cbn. apply Hc, Hcur.
    + destruct H as (f & _ & -> & ->). split; [|reflexivity]. split; cbn; assumption.
Qed.

Lemma scanLoop_noCreator (re : option Regexp) (lines : list string) :
  noCreatedByLine re lines →
  ∀ st n out, noCreator st → scanLoop re st lines = (n, Ok out) →
              ∀ s, In s out → Stack_CreatedBy s = CreatedBy_zero.
Proof.
  induction lines as [|raw rest IH]; intros Hno st n out Hst.
  - cbn. intros [= <- <-]. apply noCreator_emit, Hst.
  - cbn [scanLoop].
    destruct (processLine re st raw (head rest)) as [m [[st' adv]|e|r]] eqn:Hp;
      try discriminate.
    apply processLine_noCreator in Hp as [Hst' ->]; [|
      intros line; apply Hno; left; reflexivity | exact Hst].
    apply IH; [|exact Hst'].
    intros raw' line Hin. apply Hno. right. exact Hin.
Qed.

(** C8, amended. The rendering of every stack ends with a creator
    trailer, "created by <function>" and the tab-indented
    "<file>:<line>" with the entry when it is not zero, made from the
    stack's creator record whatever it holds.  For a stack parsed from
    input without a "created by" line that record is the zero value and
    the trailer is "created by " followed by the entry line ":0". *)
Theorem Stack_String_always_ends_with_creator_trailer :
  (∀ (inexact_minutes : Z → Z) (s : Stack),
     ∃ body,
       Stack_String inexact_minutes s
       = body +:+ CreatedBy_String (Stack_CreatedBy s) +:+ nl)
  ∧ (∀ c : CreatedBy,
       CreatedBy_String c
       = "created by " +:+ cb_Function c +:+ nl +:+ String tab (cb_File c)
         +:+ ":" +:+ fmt_d (cb_Line c)
         +:+ (if cb_Entry c =? 0 then "" else " " +:+ fmt_plus_sharp_x (cb_Entry c)))
  ∧ CreatedBy_String CreatedBy_zero = "created by " +:+ nl +:+ String tab ":0"
  ∧ (∀ (regexp_Compile : string → option Regexp) (debug_Stack : string)
       (lines : list string) (linePrefix : string) (re : option Regexp)
       (out : list Stack),
       compilePrefix regexp_Compile linePrefix = inr re →
       noCreatedByLine re lines →
       ParseStacks regexp_Compile debug_Stack lines linePrefix = (out, None) →
       ∀ s, In s out →
         Stack_CreatedBy s = CreatedBy_zero
         ∧ ∀ inexact_minutes, ∃ body,
             Stack_String inexact_minutes s
             = body +:+ "created by " +:+ nl +:+ String tab ":0" +:+ nl).
Proof.
  assert (∀ (inexact_minutes : Z → Z) (s : Stack),
     ∃ body,
       Stack_String inexact_minutes s
       = body +:+ CreatedBy_String (Stack_CreatedBy s) +:+ nl) as Hall.
  { intros inexact s. unfold Stack_String.
    match goal with
    | |- ∃ body, ?h +:+ ?fs +:+ ?t = _ => exists (h +:+ fs); apply eq_sym, append_assoc
    end. }
  split; [exact Hall|]. split; [|split; [reflexivity|]].
  - intros c. unfold CreatedBy_String.
    repeat rewrite append_assoc.
    destruct (cb_Entry c =? 0); reflexivity.
  - intros rc ds lines prefix re out Hre Hno. unfold ParseStacks. rewrite Hre.
    destruct (scanLoop re initialState lines) as [n [o|e|r]] eqn:Hl;
      cbn [recovered]; try discriminate.
    intros [= ->] s Hin.
    assert (Stack_CreatedBy s = CreatedBy_zero) as Hz.
    { eapply scanLoop_noCreator; [exact Hno| |exact Hl|exact Hin].
      split; [intros ? []|discriminate]. }
    split; [exact Hz|]. intros inexact.
    destruct (Hall inexact s) as [body Hb]. exists body.
    rewrite Hb, Hz. reflexivity.
Qed.

Lemma Stack_String_always_ends_with_creator_trailer_witness :
  noCreatedByLine None (ScanLines example1)
  ∧ ∀ s, In s [mkStack 5 "running" 0 [mkFrame "foo.Bar" [""] "/a/b.go" 10 0]
                 false CreatedBy_zero] →
      Stack_CreatedBy s = CreatedBy_zero
      ∧ ∀ inexact_minutes, ∃ body,
          Stack_String inexact_minutes s
          = body +:+ "created by " +:+ nl +:+ String tab ":0" +:+ nl.
Proof.
  assert (noCreatedByLine None (ScanLines example1)) as Hno.
  { intros raw line Hin [= <-].
    destruct Hin as [<-|[<-|[<-|[<-|[]]]]]; discriminate. }
  split; [exact Hno|].
  destruct Stack_String_always_ends_with_creator_trailer as (_ & _ & _ & H).
  exact (H (λ _, None) "" (ScanLines example1) "" None _ eq_refl Hno eq_refl).
Defined.

(** ** Stack parser: stray lines *)

(** C6 as stated fails: one stray line in front of a well-formed block
    is not passed over.  It stays as a pending function line, the
    function line of the block is then read as its entry line, and the
    parse of a block that parses on its own fails. *)
Lemma stray_line_before_block_fails_parse :
  let block := ["goroutine 1 [running]:"; "main.worker(0x1)";
                String tab "/src/b.go:20"] in
  (∀ regexp_Compile debug_Stack,
     ParseStacks regexp_Compile debug_Stack block ""
     = ([mkStack 1 "running" 0 [mkFrame "main.worker" ["0x1"] "/src/b.go" 20 0]
           false CreatedBy_zero], None))
  ∧ (∀ regexp_Compile debug_Stack,
       ParseStacks regexp_Compile debug_Stack ("stray text" :: block) ""
       = ([], Some (Errorf "line %d: %w"
                      [VInt 3; VErr (Errorf "expected a colon: %q" [VInt 0])])))
  ∧ processLine None initialState "stray text" (Some "goroutine 1 [running]:")
    = (1%nat, Ok (mkParserState 1 None []
                    (Some (mkFrame "stray text" [] "" 0 0)), NextLine)).
Proof. repeat split; reflexivity. Qed.

Lemma split_aux_not_nil (sep : string) (skip : nat) (acc s : string) :
  split_aux sep skip acc s ≠ [].
Proof.
  revert skip acc. induction s as [|c s IH]; intros skip acc; cbn [split_aux].
  - discriminate.
  - destruct skip; [|apply IH].
    destruct (String.prefix sep (String c s)); [discriminate|apply IH].
Qed.

(** [parseEntryLine] never panics: every index it uses is in range. *)
Lemma parseEntryLine_not_Panic (s : string) (r : RuntimeError) :
  parseEntryLine s ≠ Panic r.
Proof.
  unfold parseEntryLine, Split.
  destruct (split_aux ":" 0 "" s) as [|p0 [|p1 parts]] eqn:Hsp.
  - exfalso. exact (split_aux_not_nil _ _ _ _ Hsp).
  - discriminate.
  - cbn [index lookup list_lookup mbind Exec_bind].
    destruct (length (p0 :: p1 :: parts) =? 2)%nat; cbn [negb]; [|discriminate].
    destruct (split_aux " " 0 "" p1) as [|le0 [|le1 les]] eqn:Hle;
      cbn [index lookup list_lookup mbind Exec_bind length Nat.ltb Nat.leb].
    + exfalso. exact (split_aux_not_nil _ _ _ _ Hle).
    + destruct (strconv.ParseInt le0 0); discriminate.
    + destruct (strconv.ParseInt le0 0); [|discriminate].
      destruct (strconv.ParseInt le1 0); discriminate.
Qed.

(** With no stack open, a line that is taken as an entry line or as a
    creator trailer cannot be processed: it fails to parse, or the write
    through the nil [cur] panics. *)
Lemma processLine_pending_without_stack (re : option Regexp) (st : ParserState)
    (raw line : string) (next : option string) (f : Frame) :
  cur st = None → frame st = Some f →
  stripPrefix re raw = Ok line →
  lineKind line = FrameLine ∨ lineKind line = CreatedByLine →
  (∃ e, processLine re st raw next = (S (lineNo st), Fail e))
  ∨ processLine re st raw next = (S (lineNo st), Panic NilPointerDereference).
Proof.
  intros Hc Hf Hs Hk. unfold processLine. rewrite Hs, Hc, Hf.
  cbn [mbind Exec_bind]. unfold lineKind in Hk.
  destruct (HasPrefix line "goroutine"); [destruct Hk; discriminate|].
  destruct (String.eqb line ""); [destruct Hk; discriminate|].
  destruct (HasPrefix line "created by").
  - destruct next as [text|]; [|left; eexists; reflexivity].
    destruct (parseEntryLine text) as [[[file ln] entry]|e|r] eqn:He;
      cbn [mbind Exec_bind withCur].
    + right. reflexivity.
    + left. eexists; reflexivity.
    + exfalso. exact (parseEntryLine_not_Panic _ _ He).
  - destruct (parseEntryLine line) as [[[file ln] entry]|e|r] eqn:He;
      cbn [mbind Exec_bind withCur].
    + right. reflexivity.
    + left. eexists; reflexivity.
    + exfalso. exact (parseEntryLine_not_Panic _ _ He).
Qed.

(** C6, amended. With no stack open and no frame pending, a line that
    is not blank, not a header and not a "created by" line is read as a
    function line: it opens a pending frame (or panics, when the text
    after its last parenthesis cannot be sliced), and leaves the emitted
    stacks as they are and no stack open.  If the next line is again
    neither blank nor a header, the parse ends there with an error: the
    line fails to parse as an entry line, or the write through the nil
    current stack panics. *)
Theorem stray_line_in_Idle_becomes_pending_frame :
  (∀ (re : option Regexp) (st : ParserState) (raw line : string)
     (next : option string),
     cur st = None → frame st = None →
     stripPrefix re raw = Ok line → lineKind line = FrameLine →
     processLine re st raw next
     = (S (lineNo st),
        f ← parseFunctionLine line;
        Ok (mkParserState (S (lineNo st)) None (stacks st) (Some f), NextLine)))
  ∧ (∀ (re : option Regexp) (st : ParserState) (raw1 line1 raw2 line2 : string)
       (f : Frame) (rest : list string),
       cur st = None → frame st = None →
       stripPrefix re raw1 = Ok line1 → lineKind line1 = FrameLine →
       parseFunctionLine line1 = Ok f →
       stripPrefix re raw2 = Ok line2 →
       lineKind line2 = FrameLine ∨ lineKind line2 = CreatedByLine →
       (∃ e, scanLoop re st (raw1 :: raw2 :: rest) = (S (S (lineNo st)), Fail e))
       ∨ scanLoop re st (raw1 :: raw2 :: rest)
         = (S (S (lineNo st)), Panic NilPointerDereference)).
Proof.
  assert (∀ (re : option Regexp) (st : ParserState) (raw line : string)
     (next : option string),
     cur st = None → frame st = None →
     stripPrefix re raw = Ok line → lineKind line = FrameLine →
     processLine re st raw next
     = (S (lineNo st),
        f ← parseFunctionLine line;
        Ok (mkParserState (S (lineNo st)) None (stacks st) (Some f), NextLine)))
    as Hfirst.
  { intros re st raw line next Hc Hf Hs Hk.
    unfold processLine. rewrite Hs, Hc, Hf. cbn [mbind Exec_bind].
    unfold lineKind in Hk.
    destruct (HasPrefix line "goroutine"); [discriminate|].
    destruct (String.eqb line ""); [discriminate|].
    destruct (HasPrefix line "created by"); [discriminate|]. reflexivity. }
  split; [exact Hfirst|].
  intros re st raw1 line1 raw2 line2 f rest Hc Hf Hs1 Hk1 Hp Hs2 Hk2.
  cbn [scanLoop]. rewrite (Hfirst re st raw1 line1 _ Hc Hf Hs1 Hk1), Hp.
  cbn [mbind Exec_bind].
  destruct (processLine_pending_without_stack re
              (mkParserState (S (lineNo st)) None (stacks st) (Some f))
              raw2 line2 (head rest) f eq_refl eq_refl Hs2 Hk2) as [[e He]|He];
    cbn [lineNo] in He; rewrite He; [left; exists e|right]; reflexivity.
Qed.

Lemma stray_line_in_Idle_becomes_pending_frame_witness :
  processLine None initialState "stray text" (Some "more text")
  = (1%nat, Ok (mkParserState 1 None [] (Some (mkFrame "stray text" [] "" 0 0)), NextLine))
  ∧ ((∃ e, scanLoop None initialState ["stray text"; "more text"] = (2%nat, Fail e))
     ∨ scanLoop None initialState ["stray text"; "more text"]
       = (2%nat, Panic NilPointerDereference)).
Proof.
  destruct stray_line_in_Idle_becomes_pending_frame as [H1 H2]. split.
  - exact (H1 None initialState "stray text" "stray text" (Some "more text")
             eq_refl eq_refl eq_refl eq_refl).
  - exact (H2 None initialState "stray text" "stray text" "more text" "more text"
             (mkFrame "stray text" [] "" 0 0) [] eq_refl eq_refl eq_refl eq_refl
             eq_refl eq_refl (or_introl eq_refl)).
Defined.

(** ** Stack parser: errors *)

(** C2 as stated fails for a prefix pattern that does not compile, such
    as "(" (regexp.Compile reports the missing closing parenthesis): the
    function returns before its deferred function exists, and the error
    names no line. *)
Lemma ParseStacks_bad_pattern_error_names_no_line :
  ∃ (regexp_Compile : string → option Regexp) (e : error),
    regexp_Compile "(" = None
    ∧ (∀ debug_Stack lines,
         ParseStacks regexp_Compile debug_Stack lines "(" = ([], Some e))
    ∧ ¬ LineAnnotated e.
Proof.
  exists (λ _, None), (Errorf "failed to compile line prefix regexp" []).
  split; [reflexivity|]. split; [reflexivity|]. intros H. inversion H.
Qed.

(** Where the scanning loop is left with an error or a panic, the line
    counter stands at one of the lines it was given. *)
Lemma scanLoop_lineNo (re : option Regexp) (k : nat) :
  ∀ (lines : list string) (st : ParserState) (n : nat) (out : Exec (list Stack)),
    (length lines ≤ k)%nat →
    scanLoop re st lines = (n, out) →
    (∃ o, out = Ok o) ∨ (lineNo st < n ≤ lineNo st + length lines)%nat.
Proof.
  induction k as [|k IH]; intros lines st n out Hk H.
  - destruct lines; [|cbn in Hk; lia]. injection H as <- <-. left. eauto.
  - destruct lines as [|raw rest]; [injection H as <- <-; left; eauto|].
    cbn [scanLoop] in H. cbn [length] in Hk |- *.
    pose proof (processLine_fst re st raw (head rest)) as Hfst.
    destruct (processLine re st raw (head rest)) as [m [[st' adv]|e|r]] eqn:Hp;
      cbn [fst] in Hfst; subst m.
    + apply processLine_Ok in Hp as (line & _ & _ & Hn & _).
      destruct adv.
      * apply IH in H as [H|H]; [left; exact H|right; lia|lia].
      * destruct rest as [|raw' rest'].
        -- injection H as <- <-. left. eauto.
        -- apply IH in H as [H|H]; [left; exact H|right; cbn [length]; lia|].
           cbn [length] in Hk. lia.
    + injection H as <- <-. right. lia.
    + injection H as <- <-. right. lia.
Qed.

(** Over the lines the scanner yields, whatever they are: the stacks of
    the loop that read them all and no error, or no stacks and one error
    that carries the number the line counter had; for a pattern that
    does not compile, no stacks and an error that names no line. *)
Lemma ParseStacks_over_lines :
  ∀ (regexp_Compile : string → option Regexp) (debug_Stack : string)
    (lines : list string) (linePrefix : string),
    match compilePrefix regexp_Compile linePrefix with
    | inl e =>
        e = Errorf "failed to compile line prefix regexp" []
        ∧ ParseStacks regexp_Compile debug_Stack lines linePrefix = ([], Some e)
    | inr re =>
        (∃ n out,
            scanLoop re initialState lines = (n, Ok out)
            ∧ ParseStacks regexp_Compile debug_Stack lines linePrefix = (out, None))
        ∨ (∃ n e,
              (1 ≤ n ≤ length lines)%nat
              ∧ scanLoop re initialState lines = (n, Fail e)
              ∧ ParseStacks regexp_Compile debug_Stack lines linePrefix
                = ([], Some (Errorf "line %d: %w" [VInt (Z.of_nat n); VErr e])))
        ∨ (∃ n r,
              (1 ≤ n ≤ length lines)%nat
              ∧ scanLoop re initialState lines = (n, Panic r)
              ∧ ParseStacks regexp_Compile debug_Stack lines linePrefix
                = ([], Some (Errorf "line %d: [panic] %s\n%s"
                               [VInt (Z.of_nat n); VRecovered r; VStr debug_Stack])))
    end.
Proof.
  intros rc ds lines prefix. unfold ParseStacks.
  destruct (compilePrefix rc prefix) as [e|re] eqn:Hc.
  - split; [|reflexivity]. unfold compilePrefix in Hc.
    destruct (negb (String.eqb prefix "")); [|discriminate].
    destruct (rc prefix); [discriminate|]. injection Hc as <-. reflexivity.
  - destruct (scanLoop re initialState lines) as [n out] eqn:Hl.
    pose proof (scanLoop_lineNo re (length lines) lines initialState n out
                  (Nat.le_refl _) Hl) as Hn.
    cbn [lineNo initialState] in Hn.
    destruct out as [o|e|r]; cbn [recovered].
    + left. exists n, o. auto.
    + right. left. exists n, e. destruct Hn as [[o Ho]|Hn]; [discriminate|].
      split; [lia|auto].
    + right. right. exists n, r. destruct Hn as [[o Ho]|Hn]; [discriminate|].
      split; [lia|auto].
Qed.

(** *** The line scanner and the length of lines *)

Lemma newline_byte (c : ascii) : (byteN c =? 10)%N = Ascii.eqb c newline.
Proof.
  destruct (Ascii.eqb_spec c newline) as [->|Hne]; [reflexivity|].
  apply N.eqb_neq. intros H. apply Hne. unfold byteN in H.
  rewrite <- (ascii_N_embedding c), H. reflexivity.
Qed.

Lemma length_snoc (acc : string) (c : ascii) :
  String.length (acc +:+ String c "") = S (String.length acc).
Proof.
  induction acc as [|d acc IH]; [reflexivity|].
  change (S (String.length (acc +:+ String c "")) = S (S (String.length acc))).
  rewrite IH. reflexivity.
Qed.

(** The first piece that [Split] cuts holds the piece under construction. *)
Lemma split_newline_first (s : string) :
  ∀ acc : string,
    ∃ piece pieces,
      split_aux nl 0 acc s = piece :: pieces
      ∧ (String.length acc ≤ String.length piece)%nat.
Proof.
  induction s as [|c s IH]; intros acc; cbn [split_aux].
  - exists acc, []. split; [reflexivity|lia].
  - destruct (String.prefix nl (String c s)).
    + eexists _, _. split; [reflexivity|lia].
    + destruct (IH (acc +:+ String c "")) as (piece & pieces & -> & Hlen).
      exists piece, pieces. split; [reflexivity|]. rewrite length_snoc in Hlen. lia.
Qed.

(** On a text whose lines fit the buffer the scanner yields every line. *)
Lemma scanLines_aux_fit (s : string) :
  ∀ (rev_acc acc : string),
    forallb fitsScanner (split_aux nl 0 acc s) = true →
    scanLines_aux rev_acc (N.of_nat (String.length acc)) s = allLines_aux rev_acc s.
Proof.
  induction s as [|c s IH]; intros rev_acc acc Hfit; [reflexivity|].
  cbn [scanLines_aux allLines_aux]. rewrite newline_byte.
  cbn [split_aux] in Hfit. unfold nl in Hfit. cbn [String.prefix] in Hfit.
  destruct (Ascii.eqb_spec c newline) as [->|Hne].
  - destruct (ascii_dec newline newline) as [_|Hn]; [|congruence].
    assert (String.prefix "" s = true) as Hp by (destruct s; reflexivity).
    rewrite Hp in Hfit. cbn [forallb String.length Nat.sub] in Hfit.
    apply andb_true_iff in Hfit as [_ Hfit].
    f_equal. apply (IH "" "" Hfit).
  - destruct (ascii_dec newline c) as [Heq|_]; [congruence|].
    fold nl in Hfit.
    destruct (split_newline_first s (acc +:+ String c "")) as (piece & pieces & Hs & Hlen).
    rewrite length_snoc in Hlen.
    pose proof Hfit as Hfit'. rewrite Hs in Hfit'. cbn [forallb] in Hfit'.
    apply andb_true_iff in Hfit' as [Hpiece _].
    unfold fitsScanner in Hpiece. apply N.ltb_lt in Hpiece.
    destruct (N.leb_spec MaxScanTokenSize (N.of_nat (String.length acc) + 1)) as [Hle|_];
      [lia|].
    replace (N.of_nat (String.length acc) + 1)%N
      with (N.of_nat (String.length (acc +:+ String c "")))
      by (rewrite length_snoc; lia).
    apply IH, Hfit.
Qed.

Lemma ScanLines_allLines (input : string) :
  linesFit input = true → ScanLines input = allLines input.
Proof. intros H. apply (scanLines_aux_fit input "" "" H). Qed.

(** At a line of [MaxScanTokenSize] bytes or more the scanner stops, and
    what comes after the line is not read. *)
Lemma scanLines_aux_long (long : string) :
  ∀ (rev_acc rest : string) (held : N),
    countByte newline long = 0%nat →
    (MaxScanTokenSize ≤ held + N.of_nat (String.length long))%N →
    (held < MaxScanTokenSize)%N →
    scanLines_aux rev_acc held (long +:+ rest) = [].
Proof.
  induction long as [|c long IH]; intros rev_acc rest held Hn Hlen Hheld.
  - cbn [String.length] in Hlen. lia.
  - change (String c long +:+ rest) with (String c (long +:+ rest)).
    cbn [scanLines_aux]. rewrite newline_byte.
    cbn [countByte] in Hn.
    destruct (Ascii.eqb_spec c newline) as [->|_]; [discriminate|].
    destruct (N.leb_spec MaxScanTokenSize (held + 1)) as [_|Hlt]; [reflexivity|].
    apply IH; [exact Hn| |exact Hlt]. cbn [String.length] in Hlen. lia.
Qed.

(** The scanner's lines of a text that goes on after a newline. *)
Lemma scanLines_aux_newline (line : string) :
  ∀ (rev_acc rest : string) (held : N),
    countByte newline line = 0%nat →
    (held + N.of_nat (String.length line) < MaxScanTokenSize)%N →
    scanLines_aux rev_acc held (line +:+ String newline rest)
    = String.rev (dropCR (String.rev_app line rev_acc)) :: scanLines_aux "" 0 rest.
Proof.
  induction line as [|c line IH]; intros rev_acc rest held Hn Hlen.
  - change ("" +:+ ?t) with t. cbn [scanLines_aux String.rev_app].
    rewrite newline_byte, Ascii.eqb_refl. reflexivity.
  - change (String c line +:+ ?t) with (String c (line +:+ t)).
    cbn [scanLines_aux String.rev_app]. rewrite newline_byte.
    cbn [countByte] in Hn. cbn [String.length] in Hlen.
    destruct (Ascii.eqb_spec c newline) as [->|_]; [discriminate|].
    destruct (N.leb_spec MaxScanTokenSize (held + 1)) as [Hle|_]; [lia|].
    apply IH; [exact Hn|lia].
Qed.

(** What the unchecked scanner error lets through: after one whole stack
    a line of 64 KiB or more ends the scan, and [ParseStacks] returns the
    stack read so far and no error, whatever stood on that line and
    after it. *)
Lemma ParseStacks_stops_at_long_line :
  ∀ (regexp_Compile : string → option Regexp) (debug_Stack : string)
    (long rest : string),
    countByte newline long = 0%nat →
    (MaxScanTokenSize ≤ N.of_nat (String.length long))%N →
    ParseStacks regexp_Compile debug_Stack
      (ScanLines ("goroutine 5 [running]:" +:+ String newline
                    ("foo.Bar(0x1)" +:+ String newline
                       (String tab "/a/b.go:10 +0x2" +:+ String newline
                          (long +:+ rest))))) ""
    = ([mkStack 5 "running" 0 [mkFrame "foo.Bar" ["0x1"] "/a/b.go" 10 2]
                false CreatedBy_zero], None).
Proof.
  intros rc ds long rest Hn Hlen. unfold ScanLines.
  rewrite scanLines_aux_newline by (vm_compute; reflexivity).
  rewrite scanLines_aux_newline by (vm_compute; reflexivity).
  rewrite scanLines_aux_newline by (vm_compute; reflexivity).
  rewrite scanLines_aux_long by (assumption || lia || reflexivity).
  reflexivity.
Qed.

(** C2, amended. For every input whose lines are all shorter than the
    64 KiB of the scanner's buffer, so that the scan reaches the end of
    the input, and for every prefix pattern: when the pattern is empty
    or compiles, [ParseStacks] returns the stacks of the scan of all
    lines and no error, or no stacks and one error that carries the
    number the line counter had (the error a line was rejected with,
    wrapped, or the panic raised while a line was processed, recovered);
    when the pattern does not compile, it returns no stacks and the
    error "failed to compile line prefix regexp", which names no line. *)
Theorem ParseStacks_stacks_or_one_error :
  ∀ (regexp_Compile : string → option Regexp) (debug_Stack : string)
    (input : string) (linePrefix : string),
    linesFit input = true →
    ScanLines input = allLines input
    ∧ match compilePrefix regexp_Compile linePrefix with
      | inl e =>
          e = Errorf "failed to compile line prefix regexp" []
          ∧ ParseStacks regexp_Compile debug_Stack (ScanLines input) linePrefix
            = ([], Some e)
      | inr re =>
          (∃ n out,
              scanLoop re initialState (allLines input) = (n, Ok out)
              ∧ ParseStacks regexp_Compile debug_Stack (ScanLines input) linePrefix
                = (out, None))
          ∨ (∃ n e,
                (1 ≤ n ≤ length (allLines input))%nat
                ∧ scanLoop re initialState (allLines input) = (n, Fail e)
                ∧ ParseStacks regexp_Compile debug_Stack (ScanLines input) linePrefix
                  = ([], Some (Errorf "line %d: %w" [VInt (Z.of_nat n); VErr e])))
          ∨ (∃ n r,
                (1 ≤ n ≤ length (allLines input))%nat
                ∧ scanLoop re initialState (allLines input) = (n, Panic r)
                ∧ ParseStacks regexp_Compile debug_Stack (ScanLines input) linePrefix
                  = ([], Some (Errorf "line %d: [panic] %s\n%s"
                                 [VInt (Z.of_nat n); VRecovered r; VStr debug_Stack])))
      end.
Proof.
  intros rc ds input prefix Hfit.
  pose proof (ScanLines_allLines input Hfit) as Hall.
  split; [exact Hall|]. rewrite Hall.
  apply ParseStacks_over_lines.
Qed.

Lemma ParseStacks_stacks_or_one_error_witness :
  linesFit example1 = true
  ∧ ScanLines example1 = allLines example1
  ∧ ((∃ n out,
         scanLoop None initialState (allLines example1) = (n, Ok out)
         ∧ ParseStacks (λ _, None) "" (ScanLines example1) "" = (out, None))
     ∨ (∃ n e,
           (1 ≤ n ≤ length (allLines example1))%nat
           ∧ scanLoop None initialState (allLines example1) = (n, Fail e)
           ∧ ParseStacks (λ _, None) "" (ScanLines example1) ""
             = ([], Some (Errorf "line %d: %w" [VInt (Z.of_nat n); VErr e])))
     ∨ (∃ n r,
           (1 ≤ n ≤ length (allLines example1))%nat
           ∧ scanLoop None initialState (allLines example1) = (n, Panic r)
           ∧ ParseStacks (λ _, None) "" (ScanLines example1) ""
             = ([], Some (Errorf "line %d: [panic] %s\n%s"
                            [VInt (Z.of_nat n); VRecovered r; VStr ""])))).
Proof.
  assert (linesFit example1 = true) as Hfit by reflexivity.
  split; [exact Hfit|].
  exact (ParseStacks_stacks_or_one_error (λ _, None) "" example1 "" Hfit).
Defined.

(** The panics of the loop body at work: a header line without a second
    field, a function line that ends in its last parenthesis, a creator
    trailer with no stack open. *)
Lemma ParseStacks_recovers_panics :
  ∀ (regexp_Compile : string → option Regexp) (debug_Stack : string),
    ParseStacks regexp_Compile debug_Stack ["goroutine"] ""
    = ([], Some (Errorf "line %d: [panic] %s\n%s"
                   [VInt 1; VRecovered (IndexOutOfRange 1 1); VStr debug_Stack]))
    ∧ ParseStacks regexp_Compile debug_Stack ["goroutine 1 [running]:"; "main.f("] ""
      = ([], Some (Errorf "line %d: [panic] %s\n%s"
                     [VInt 2; VRecovered (SliceBoundsOutOfRange 7 6); VStr debug_Stack]))
    ∧ ParseStacks regexp_Compile debug_Stack
        [""; "created by main.f"; String tab "/src/b.go:20"] ""
      = ([], Some (Errorf "line %d: [panic] %s\n%s"
                     [VInt 2; VRecovered NilPointerDereference; VStr debug_Stack])).
Proof. intros rc ds. repeat split; reflexivity. Qed.

(** ** Summarizer *)

Lemma countLoop_panics_on_frameless (stacks : list Stack) :
  (∃ s, In s stacks ∧ Frames s = []) →
  ∀ counts filtered, countLoop stacks counts filtered = Panic (IndexOutOfRange 0 0).
Proof.
  induction stacks as [|s stacks IH]; intros (s0 & Hin & Hs0) counts filtered.
  - destruct Hin.
  - cbn [countLoop]. destruct (Frames s) as [|f0 fs] eqn:Hf; [reflexivity|].
    cbn [index lookup list_lookup mbind Exec_bind].
    apply IH. exists s0. split; [|exact Hs0].
    destruct Hin as [->|Hin]; [congruence|exact Hin].
Qed.

(** C1. [summarize] does not guard the read of frame 0: on every
    collection that holds a stack without frames it panics with an
    index out of range, and no summary list is returned.  The parser
    produces such stacks, for instance from a header line followed by a
    blank line. *)
Theorem summarize_panics_on_frameless_stack :
  ∀ stacks : list Stack,
    (∃ s, In s stacks ∧ Frames s = []) →
    summarize stacks = Panic (IndexOutOfRange 0 0).
Proof.
  intros stacks H. unfold summarize.
  rewrite (countLoop_panics_on_frameless stacks H). reflexivity.
Qed.

Lemma summarize_panics_on_frameless_stack_witness :
  (∀ regexp_Compile debug_Stack,
     ParseStacks regexp_Compile debug_Stack
       ["goroutine 1 [running]:"; "main.f()"; String tab "/src/a.go:7"; "";
        "goroutine 2 [select]:"; ""] ""
     = ([mkStack 1 "running" 0 [mkFrame "main.f" [""] "/src/a.go" 7 0] false CreatedBy_zero;
         mkStack 2 "select" 0 [] false CreatedBy_zero], None))
  ∧ summarize
      [mkStack 1 "running" 0 [mkFrame "main.f" [""] "/src/a.go" 7 0] false CreatedBy_zero;
       mkStack 2 "select" 0 [] false CreatedBy_zero]
    = Panic (IndexOutOfRange 0 0).
Proof.
  split; [reflexivity|].
  apply summarize_panics_on_frameless_stack.
  exists (mkStack 2 "select" 0 [] false CreatedBy_zero).
  split; [right; left; reflexivity|reflexivity].
Defined.

(** ** Wait-time statistics *)

(** C5. [compWaitStats] takes a minimum of 0 for "not set yet", so a
    wait time of 0 is forgotten as soon as the next stack is read.  For
    the wait times 0 and 5 minutes the reported minimum is 5 minutes and
    lies above the mean of 2.5 minutes; for 5, 0 and 7 minutes the
    reported minimum is 7 minutes and lies above the median of 5
    minutes. *)
Theorem compWaitStats_min_above_mean_and_median :
  let st (w : Z) := mkStack 1 "select" w [] false CreatedBy_zero in
  compWaitStats [st 0; st (5 * Minute)]
  = Ok (mkWaitStats 150000000000 300000000000 300000000000 300000000000)
  ∧ (∃ ws, compWaitStats [st 0; st (5 * Minute)] = Ok ws ∧ Average ws < Min ws)
  ∧ compWaitStats [st (5 * Minute); st 0; st (7 * Minute)]
    = Ok (mkWaitStats 240000000000 420000000000 420000000000 300000000000)
  ∧ (∃ ws, compWaitStats [st (5 * Minute); st 0; st (7 * Minute)] = Ok ws
           ∧ Median ws < Min ws ∧ Average ws < Min ws).
Proof.
  intros st. split; [reflexivity|]. split.
  - exists (mkWaitStats 150000000000 300000000000 300000000000 300000000000).
    split; reflexivity.
  - split; [reflexivity|].
    exists (mkWaitStats 240000000000 420000000000 420000000000 300000000000).
    repeat split; reflexivity.
Qed.

(** ** Sorting: the library routine sorts *)

Section SortCorrect.

Import sort.
#[local] Existing Instance sort.SortM_bind.
#[local] Existing Instance sort.SortM_ret.

Context {A : Type} {K : SortKey A}.

(** The comparison orders by an integer key and does not panic: the
    three comparators of the package are of this kind. *)
Variable less : A → A → Exec bool.
Hypothesis less_key : ∀ x y, less x y = Ok (sortKey x <? sortKey y).

Lemma lookup_in_range (l : list A) (i : Z) :
  0 ≤ i < len l → ∃ x, l !! Z.to_nat i = Some x.
Proof.
  unfold len. intros H. apply lookup_lt_is_Some. lia.
Qed.

Lemma at_run (l : list A) (i : Z) (x : A) :
  0 ≤ i → l !! Z.to_nat i = Some x → at_ l i = Ok x.
Proof.
  intros H0 Hx. unfold at_. destruct (Z.leb_spec 0 i); [|lia].
  rewrite Hx. reflexivity.
Qed.

Lemma Less_run (l : list A) (i j : Z) :
  0 ≤ i < len l → 0 ≤ j < len l →
  Less less i j l = Ok (keyAt l i <? keyAt l j, l).
Proof.
  intros Hi Hj.
  destruct (lookup_in_range l i Hi) as [x Hx].
  destruct (lookup_in_range l j Hj) as [y Hy].
  unfold Less, keyAt.
  rewrite (at_run l i x), (at_run l j y), less_key, Hx, Hy by (lia || assumption).
  reflexivity.
Qed.

Lemma Swap_run (l : list A) (i j : Z) :
  0 ≤ i < len l → 0 ≤ j < len l →
  Swap i j l = Ok (tt, swapped l i j).
Proof.
  intros Hi Hj.
  destruct (lookup_in_range l i Hi) as [x Hx].
  destruct (lookup_in_range l j Hj) as [y Hy].
  unfold Swap, swapped.
  rewrite (at_run l i x), (at_run l j y), Hx, Hy by (lia || assumption).
  reflexivity.
Qed.

Lemma len_swapped (l : list A) (i j : Z) : len (swapped l i j) = len l.
Proof.
  unfold swapped, len.
  destruct (l !! Z.to_nat j), (l !! Z.to_nat i); rewrite ?length_insert; reflexivity.
Qed.

Lemma keyAt_swapped (l : list A) (i j k : Z) :
  0 ≤ i < len l → 0 ≤ j < len l → 0 ≤ k →
  keyAt (swapped l i j) k
  = if k =? j then keyAt l i else if k =? i then keyAt l j else keyAt l k.
Proof.
  intros Hi Hj Hk.
  destruct (lookup_in_range l i Hi) as [x Hx].
  destruct (lookup_in_range l j Hj) as [y Hy].
  unfold swapped, keyAt, len in *. rewrite Hx, Hy.
  destruct (Z.eqb_spec k j) as [->|Hkj].
  - rewrite list_lookup_insert_eq by (rewrite length_insert; lia). reflexivity.
  - rewrite list_lookup_insert_ne by lia.
    destruct (Z.eqb_spec k i) as [->|Hki].
    + rewrite list_lookup_insert_eq by lia. reflexivity.
    + rewrite list_lookup_insert_ne by lia. reflexivity.
Qed.

Lemma insert_head_Permutation (l : list A) (n : nat) (x y : A) :
  l !! n = Some y → y :: <[n := x]> l ≡ₚ x :: l.
Proof.
  revert n. induction l as [|z l IH]; intros [|n] H; try discriminate.
  - injection H as ->. cbn. apply Permutation_swap.
  - cbn in H |- *. rewrite (Permutation_swap z y), (IH n H).
    apply Permutation_swap.
Qed.

Lemma swap_insert_Permutation (l : list A) (n m : nat) (x y : A) :
  l !! n = Some x → l !! m = Some y → <[m := x]> (<[n := y]> l) ≡ₚ l.
Proof.
  revert n m. induction l as [|z l IH]; intros [|n] [|m] Hn Hm; try discriminate.
  - injection Hn as ->. injection Hm as ->. reflexivity.
  - injection Hn as ->. cbn in Hm |- *. apply insert_head_Permutation, Hm.
  - injection Hm as ->. cbn in Hn |- *. apply insert_head_Permutation, Hn.
  - cbn in Hn, Hm |- *. rewrite (IH n m Hn Hm). reflexivity.
Qed.

Lemma swapped_Permutation (l : list A) (i j : Z) : l ≡ₚ swapped l i j.
Proof.
  unfold swapped.
  destruct (l !! Z.to_nat j) as [y|] eqn:Hy; [|reflexivity].
  destruct (l !! Z.to_nat i) as [x|] eqn:Hx; [|reflexivity].
  symmetry. apply swap_insert_Permutation; assumption.
Qed.

Lemma rearranged_len (a b : Z) (l l' : list A) : rearranged a b l l' → len l' = len l.
Proof. intros [H _]. unfold len. rewrite H. reflexivity. Qed.

Lemma rearranged_refl (a b : Z) (l : list A) : rearranged a b l l.
Proof. split; [reflexivity|]. split; [reflexivity|]. intros i Hi. exists i. auto. Qed.

Lemma rearranged_trans (a b : Z) (l1 l2 l3 : list A) :
  0 ≤ a → rearranged a b l1 l2 → rearranged a b l2 l3 → rearranged a b l1 l3.
Proof.
  intros Ha (P1 & O1 & I1) (P2 & O2 & I2). split; [etransitivity; eassumption|]. split.
  - intros i Hi Hn. rewrite O2, O1 by assumption. reflexivity.
  - intros i Hi. destruct (I2 i Hi) as (j & Hj & ->). apply I1, Hj.
Qed.

Lemma rearranged_weaken (a b a' b' : Z) (l l' : list A) :
  0 ≤ a' ≤ a → b ≤ b' → rearranged a b l l' → rearranged a' b' l l'.
Proof.
  intros Ha Hb (P & O & I). split; [exact P|]. split.
  - intros i Hi Hn. apply O; lia.
  - intros i Hi. destruct (Z_le_dec a i) as [H1|H1]; [destruct (Z_lt_dec i b) as [H2|H2]|].
    + destruct (I i (conj H1 H2)) as (j & Hj & E). exists j. split; [lia|exact E].
    + exists i. split; [lia|]. apply O; lia.
    + exists i. split; [lia|]. apply O; lia.
Qed.

Lemma rearranged_swapped (a b : Z) (l : list A) (i j : Z) :
  0 ≤ a → b ≤ len l → a ≤ i < b → a ≤ j < b → rearranged a b l (swapped l i j).
Proof.
  intros Ha Hb Hi Hj. split; [apply swapped_Permutation|]. split.
  - intros k Hk Hn. rewrite keyAt_swapped by lia.
    destruct (Z.eqb_spec k j); [lia|]. destruct (Z.eqb_spec k i); [lia|]. reflexivity.
  - intros k Hk. rewrite keyAt_swapped by lia.
    destruct (Z.eqb_spec k j); [exists i; auto|].
    destruct (Z.eqb_spec k i); [exists j; auto|]. exists k; auto.
Qed.

(** A bound on the keys of a range holds after a rearrangement of it. *)
Lemma rearranged_bound (a b : Z) (l l' : list A) (P : Z → Prop) :
  rearranged a b l l' →
  (∀ i, a ≤ i < b → P (keyAt l i)) → ∀ i, a ≤ i < b → P (keyAt l' i).
Proof.
  intros (_ & _ & I) H i Hi. destruct (I i Hi) as (j & Hj & ->). apply H, Hj.
Qed.

Lemma bind_run {X Y : Type} (m : SortM X) (k : X → SortM Y) (l l1 : list A) (x : X) :
  m l = Ok (x, l1) → (m ≫= k) l = k x l1.
Proof. intros H. unfold mbind, SortM_bind. rewrite H. reflexivity. Qed.

(** *** Insertion sort *)

Lemma insertionInner_sorts (i : Z) (rounds : nat) :
  ∀ (a j : Z) (l : list A),
    0 ≤ a ≤ j → j ≤ i < len l → j - a ≤ Z.of_nat rounds →
    (∀ p q, a ≤ p → p ≤ q → q ≤ i → p ≠ j → q ≠ j → keyAt l p ≤ keyAt l q) →
    (∀ q, j < q → q ≤ i → keyAt l j ≤ keyAt l q) →
    ∃ l', insertionInner less rounds a j l = Ok (tt, l')
          ∧ rearranged a (i + 1) l l' ∧ sortedIn l' a (i + 1).
Proof.
  induction rounds as [|rounds IH]; intros a j l Ha Hj Hr HA HB.
  - exists l. split; [reflexivity|]. split; [apply rearranged_refl|].
    assert (j = a) as -> by lia. intros p q Hp Hpq Hq.
    destruct (Z.eq_dec p a) as [->|Hpa].
    + destruct (Z.eq_dec q a) as [->|Hqa]; [lia|]. apply HB; lia.
    + apply HA; lia.
  - cbn [insertionInner]. destruct (Z.ltb_spec a j) as [Haj|Haj].
    + rewrite (bind_run _ _ l l (keyAt l j <? keyAt l (j - 1)))
        by (apply Less_run; lia).
      destruct (Z.ltb_spec (keyAt l j) (keyAt l (j - 1))) as [Hlt|Hge].
      * rewrite (bind_run _ _ l (swapped l j (j - 1)) tt) by (apply Swap_run; lia).
        assert (∀ k, 0 ≤ k → keyAt (swapped l j (j - 1)) k
                  = if k =? j - 1 then keyAt l j
                    else if k =? j then keyAt l (j - 1) else keyAt l k) as HK
          by (intros k Hk; apply keyAt_swapped; lia).
        destruct (IH a (j - 1) (swapped l j (j - 1))) as (l' & Hrun & Hre & Hso).
        -- lia.
        -- rewrite len_swapped. lia.
        -- lia.
        -- intros p q Hp Hpq Hq Hpj Hqj. rewrite !HK by lia.
           destruct (Z.eqb_spec p (j - 1)); [lia|]. destruct (Z.eqb_spec q (j - 1)); [lia|].
           destruct (Z.eqb_spec p j) as [->|Hp'], (Z.eqb_spec q j) as [->|Hq'];
             try lia; apply HA; lia.
        -- intros q Hq1 Hq2. rewrite !HK by lia.
           rewrite Z.eqb_refl. destruct (Z.eqb_spec q (j - 1)); [lia|].
           destruct (Z.eqb_spec q j) as [->|Hq']; [lia|]. apply HB; lia.
        -- exists l'. split; [exact Hrun|]. split; [|exact Hso].
           eapply rearranged_trans; [lia| |exact Hre].
           apply rearranged_swapped; lia.
      * exists l. split; [reflexivity|]. split; [apply rearranged_refl|].
        intros p q Hp Hpq Hq.
        destruct (Z.eq_dec p j) as [->|Hpj].
        -- destruct (Z.eq_dec q j) as [->|Hqj]; [lia|]. apply HB; lia.
        -- destruct (Z.eq_dec q j) as [->|Hqj]; [|apply HA; lia].
           transitivity (keyAt l (j - 1)); [|lia].
           destruct (Z.eq_dec p (j - 1)) as [->|]; [lia|]. apply HA; lia.
    + exists l. split; [reflexivity|]. split; [apply rearranged_refl|].
      assert (j = a) as -> by lia. intros p q Hp Hpq Hq.
      destruct (Z.eq_dec p a) as [->|Hpa].
      * destruct (Z.eq_dec q a) as [->|Hqa]; [lia|]. apply HB; lia.
      * apply HA; lia.
Qed.

Lemma insertionOuter_sorts (a b : Z) (rounds : nat) :
  ∀ (i : Z) (l : list A),
    0 ≤ a → a ≤ i ≤ b → b ≤ len l → Z.of_nat rounds = b - i →
    sortedIn l a i →
    ∃ l', insertionOuter less rounds a i l = Ok (tt, l')
          ∧ rearranged a b l l' ∧ sortedIn l' a b.
Proof.
  induction rounds as [|rounds IH]; intros i l Ha Hi Hb Hr Hs.
  - exists l. split; [reflexivity|]. split; [apply rearranged_refl|].
    assert (i = b) as -> by lia. exact Hs.
  - cbn [insertionOuter].
    destruct (insertionInner_sorts i (Z.to_nat (i - a)) a i l) as (l1 & Hrun & Hre & Hso);
      try lia.
    { intros p q Hp Hpq Hq Hpi Hqi. apply Hs; lia. }
    rewrite (bind_run _ _ l l1 tt Hrun).
    destruct (IH (i + 1) l1) as (l' & Hrun' & Hre' & Hso'); try lia.
    { rewrite (rearranged_len _ _ _ _ Hre). lia. }
    { exact Hso. }
    exists l'. split; [exact Hrun'|]. split; [|exact Hso'].
    eapply rearranged_trans; [lia| |exact Hre'].
    eapply rearranged_weaken; [| |exact Hre]; lia.
Qed.

Lemma insertionSort_sorts (a b : Z) (l : list A) :
  0 ≤ a ≤ b → b ≤ len l →
  ∃ l', insertionSort less a b l = Ok (tt, l')
        ∧ rearranged a b l l' ∧ sortedIn l' a b.
Proof.
  intros Ha Hb. unfold insertionSort.
  destruct (Z.eq_dec a b) as [->|Hab].
  - replace (Z.to_nat (b - (b + 1))) with O by lia.
    exists l. split; [reflexivity|]. split; [apply rearranged_refl|].
    intros i j. lia.
  - apply insertionOuter_sorts; try lia.
    intros i j. intros. assert (i = j) as -> by lia. lia.
Qed.

Lemma shellPass_rearranges (a b : Z) (rounds : nat) :
  ∀ (i : Z) (l : list A),
    0 ≤ a → a + 6 ≤ i → b ≤ len l → Z.of_nat rounds = Z.max 0 (b - i) →
    ∃ l', shellPass less rounds i l = Ok (tt, l') ∧ rearranged a b l l'.
Proof.
  induction rounds as [|rounds IH]; intros i l Ha Hi Hb Hr.
  - exists l. split; [reflexivity|apply rearranged_refl].
  - cbn [shellPass].
    rewrite (bind_run _ _ l l (keyAt l i <? keyAt l (i - 6))) by (apply Less_run; lia).
    destruct (keyAt l i <? keyAt l (i - 6)).
    + rewrite (bind_run _ _ l (swapped l i (i - 6)) tt) by (apply Swap_run; lia).
      destruct (IH (i + 1) (swapped l i (i - 6))) as (l' & Hrun & Hre); try lia.
      { rewrite len_swapped. lia. }
      exists l'. split; [exact Hrun|].
      eapply rearranged_trans; [lia| |exact Hre]. apply rearranged_swapped; lia.
    + rewrite (bind_run _ _ l l tt) by reflexivity.
      destruct (IH (i + 1) l) as (l' & Hrun & Hre); try lia.
      exists l'. split; [exact Hrun|exact Hre].
Qed.

Lemma bind_Less {Y : Type} (i j : Z) (k : bool → SortM Y) (l : list A) :
  0 ≤ i < len l → 0 ≤ j < len l →
  (Less less i j ≫= k) l = k (keyAt l i <? keyAt l j) l.
Proof. intros Hi Hj. apply bind_run, Less_run; assumption. Qed.

Lemma bind_Swap {Y : Type} (i j : Z) (k : unit → SortM Y) (l : list A) :
  0 ≤ i < len l → 0 ≤ j < len l →
  (Swap i j ≫= k) l = k tt (swapped l i j).
Proof. intros Hi Hj. apply bind_run, Swap_run; assumption. Qed.

Lemma swapIf_run (c : bool) (i j : Z) (l : list A) :
  0 ≤ i < len l → 0 ≤ j < len l →
  (if c then Swap i j else mret tt) l = Ok (tt, swappedIf c l i j).
Proof. intros Hi Hj. destruct c; [apply Swap_run; assumption|reflexivity]. Qed.

Lemma len_swappedIf (c : bool) (l : list A) (i j : Z) : len (swappedIf c l i j) = len l.
Proof. destruct c; [apply len_swapped|reflexivity]. Qed.

Lemma rearranged_swappedIf (c : bool) (a b : Z) (l : list A) (i j : Z) :
  0 ≤ a → b ≤ len l → a ≤ i < b → a ≤ j < b → rearranged a b l (swappedIf c l i j).
Proof.
  intros. destruct c; [apply rearranged_swapped; assumption|apply rearranged_refl].
Qed.

(** Rewrites the keys of swapped slices and decides the index tests. *)
Ltac keys :=
  unfold swappedIf in *; cbv beta iota in *;
  repeat rewrite keyAt_swapped in * by (rewrite ?len_swapped; lia);
  repeat match goal with
         | |- context [?x =? ?y] => destruct (Z.eqb_spec x y); try lia
         | H : context [?x =? ?y] |- _ => destruct (Z.eqb_spec x y); try lia
         end;
  try reflexivity; try lia.

(** *** Choosing the pivot *)

Lemma medianOfThree_run (a b m1 m0 m2 : Z) (l : list A) :
  0 ≤ a → b ≤ len l → a ≤ m1 < b → a ≤ m0 < b → a ≤ m2 < b →
  ∃ l', medianOfThree less m1 m0 m2 l = Ok (tt, l')
        ∧ rearranged a b l l'
        ∧ (m0 ≠ m1 → m1 ≠ m2 → m0 ≠ m2 → keyAt l' m1 ≤ keyAt l' m2).
Proof.
  intros Ha Hb H1 H0 H2. unfold medianOfThree.
  rewrite bind_Less by lia.
  rewrite (bind_run _ _ l _ tt (swapIf_run _ m1 m0 l ltac:(lia) ltac:(lia))).
  set (c1 := keyAt l m1 <? keyAt l m0). set (l1 := swappedIf c1 l m1 m0).
  assert (len l1 = len l) as Hl1 by apply len_swappedIf.
  assert (rearranged a b l l1) as Hr1 by (apply rearranged_swappedIf; lia).
  rewrite bind_Less by lia.
  destruct (Z.ltb_spec (keyAt l1 m2) (keyAt l1 m1)) as [C2|C2].
  - rewrite bind_Swap by lia. set (l2 := swapped l1 m2 m1).
    assert (len l2 = len l) as Hl2 by (unfold l2; rewrite len_swapped; exact Hl1).
    assert (rearranged a b l1 l2) as Hr2 by (apply rearranged_swapped; lia).
    rewrite bind_Less by lia.
    rewrite swapIf_run by lia.
    set (c3 := keyAt l2 m1 <? keyAt l2 m0).
    eexists. split; [reflexivity|]. split.
    + eapply rearranged_trans; [lia|exact Hr1|].
      eapply rearranged_trans; [lia|exact Hr2|]. apply rearranged_swappedIf; lia.
    + intros N1 N2 N3. subst c3 l2 l1 c1.
      destruct (Z.ltb_spec (keyAt l m1) (keyAt l m0)) as [C1|C1];
        unfold swappedIf in *;
        match goal with
        | |- context [if ?c then _ else _] => destruct c eqn:C3
        end;
        try apply Z.ltb_lt in C3; try apply Z.ltb_ge in C3; keys.
  - exists l1. split; [reflexivity|]. split; [exact Hr1|]. intros. exact C2.
Qed.

(** *** The scans of doPivot *)

Lemma skipLess_run (rounds : nat) :
  ∀ (pivot a c : Z) (l : list A),
    0 ≤ pivot < len l → 0 ≤ a → c ≤ len l → c - a ≤ Z.of_nat rounds →
    ∃ a', skipLess less rounds pivot a c l = Ok (a', l)
          ∧ a ≤ a' ∧ (a ≤ c → a' ≤ c)
          ∧ (∀ i, a ≤ i < a' → keyAt l i < keyAt l pivot)
          ∧ (a' < c → keyAt l pivot ≤ keyAt l a').
Proof.
  induction rounds as [|rounds IH]; intros pivot a c l Hp Ha Hc Hr.
  - exists a. split; [reflexivity|]. repeat split; lia.
  - cbn [skipLess]. destruct (Z.ltb_spec a c) as [Hac|Hac].
    + rewrite bind_Less by lia.
      destruct (Z.ltb_spec (keyAt l a) (keyAt l pivot)) as [Hlt|Hge].
      * destruct (IH pivot (a + 1) c l) as (a' & Hrun & H1 & H2 & H3 & H4); try lia.
        exists a'. split; [exact Hrun|]. repeat split; try lia.
        intros i Hi. destruct (Z.eq_dec i a) as [->|]; [exact Hlt|apply H3; lia].
      * exists a. split; [reflexivity|]. repeat split; lia.
    + exists a. split; [reflexivity|]. repeat split; lia.
Qed.

Lemma skipNotGreater_run (rounds : nat) :
  ∀ (pivot b c : Z) (l : list A),
    0 ≤ pivot < len l → 0 ≤ b → c ≤ len l → c - b ≤ Z.of_nat rounds →
    ∃ b', skipNotGreater less rounds pivot b c l = Ok (b', l)
          ∧ b ≤ b' ∧ (b ≤ c → b' ≤ c)
          ∧ (∀ i, b ≤ i < b' → keyAt l i ≤ keyAt l pivot)
          ∧ (b' < c → keyAt l pivot < keyAt l b').
Proof.
  induction rounds as [|rounds IH]; intros pivot b c l Hp Hb Hc Hr.
  - exists b. split; [reflexivity|]. repeat split; lia.
  - cbn [skipNotGreater]. destruct (Z.ltb_spec b c) as [Hbc|Hbc].
    + rewrite bind_Less by lia.
      destruct (Z.ltb_spec (keyAt l pivot) (keyAt l b)) as [Hlt|Hge]; cbn [negb].
      * exists b. split; [reflexivity|]. repeat split; lia.
      * destruct (IH pivot (b + 1) c l) as (b' & Hrun & H1 & H2 & H3 & H4); try lia.
        exists b'. split; [exact Hrun|]. repeat split; try lia.
        intros i Hi. destruct (Z.eq_dec i b) as [->|]; [exact Hge|apply H3; lia].
    + exists b. split; [reflexivity|]. repeat split; lia.
Qed.

Lemma skipGreater_run (rounds : nat) :
  ∀ (pivot b c : Z) (l : list A),
    0 ≤ pivot < len l → 0 ≤ b → c ≤ len l → c - b ≤ Z.of_nat rounds →
    ∃ c', skipGreater less rounds pivot b c l = Ok (c', l)
          ∧ c' ≤ c ∧ (b ≤ c → b ≤ c')
          ∧ (∀ i, c' ≤ i < c → keyAt l pivot < keyAt l i)
          ∧ (b < c' → keyAt l (c' - 1) ≤ keyAt l pivot).
Proof.
  induction rounds as [|rounds IH]; intros pivot b c l Hp Hb Hc Hr.
  - exists c. split; [reflexivity|]. repeat split; lia.
  - cbn [skipGreater]. destruct (Z.ltb_spec b c) as [Hbc|Hbc].
    + rewrite bind_Less by lia.
      destruct (Z.ltb_spec (keyAt l pivot) (keyAt l (c - 1))) as [Hlt|Hge].
      * destruct (IH pivot b (c - 1) l) as (c' & Hrun & H1 & H2 & H3 & H4); try lia.
        exists c'. split; [exact Hrun|]. repeat split; try lia.
        intros i Hi. destruct (Z.eq_dec i (c - 1)) as [->|]; [exact Hlt|apply H3; lia].
      * exists c. split; [reflexivity|]. repeat split; lia.
    + exists c. split; [reflexivity|]. repeat split; lia.
Qed.

Lemma skipEqualDown_run (rounds : nat) :
  ∀ (pivot a b : Z) (l : list A),
    0 ≤ pivot < len l → 0 ≤ a → b ≤ len l → b - a ≤ Z.of_nat rounds →
    ∃ b', skipEqualDown less rounds pivot a b l = Ok (b', l)
          ∧ b' ≤ b ∧ (a ≤ b → a ≤ b')
          ∧ (∀ i, b' ≤ i < b → keyAt l pivot ≤ keyAt l i)
          ∧ (a < b' → keyAt l (b' - 1) < keyAt l pivot).
Proof.
  induction rounds as [|rounds IH]; intros pivot a b l Hp Ha Hb Hr.
  - exists b. split; [reflexivity|]. repeat split; lia.
  - cbn [skipEqualDown]. destruct (Z.ltb_spec a b) as [Hab|Hab].
    + rewrite bind_Less by lia.
      destruct (Z.ltb_spec (keyAt l (b - 1)) (keyAt l pivot)) as [Hlt|Hge]; cbn [negb].
      * exists b. split; [reflexivity|]. repeat split; lia.
      * destruct (IH pivot a (b - 1) l) as (b' & Hrun & H1 & H2 & H3 & H4); try lia.
        exists b'. split; [exact Hrun|]. repeat split; try lia.
        intros i Hi. destruct (Z.eq_dec i (b - 1)) as [->|]; [exact Hge|apply H3; lia].
    + exists b. split; [reflexivity|]. repeat split; lia.
Qed.

(** *** Partitioning *)

Lemma partitionLoop_run (hi : Z) (rounds : nat) :
  ∀ (pivot b c : Z) (l : list A),
    0 ≤ pivot < b → b ≤ c → c < hi → hi ≤ len l →
    c - b + 1 ≤ Z.of_nat rounds →
    (∀ i, pivot < i < b → keyAt l i ≤ keyAt l pivot) →
    (∀ i, c ≤ i < hi → keyAt l pivot ≤ keyAt l i) →
    ∃ b' l', partitionLoop less rounds pivot b c l = Ok ((b', b'), l')
             ∧ b ≤ b' ≤ c ∧ rearranged b c l l'
             ∧ (∀ i, pivot < i < b' → keyAt l' i ≤ keyAt l pivot)
             ∧ (∀ i, b' ≤ i < hi → keyAt l pivot ≤ keyAt l' i).
Proof.
  induction rounds as [|rounds IH]; intros pivot b c l Hp Hbc Hc Hhi Hr HL HR; [lia|].
  cbn [partitionLoop].
  destruct (skipNotGreater_run (Z.to_nat (c - b)) pivot b c l)
    as (b1 & Hrun1 & B1 & B2 & B3 & B4); try lia.
  rewrite (bind_run _ _ l l b1 Hrun1).
  destruct (skipGreater_run (Z.to_nat (c - b1)) pivot b1 c l)
    as (c1 & Hrun2 & C1 & C2 & C3 & C4); try lia.
  rewrite (bind_run _ _ l l c1 Hrun2).
  destruct (Z.leb_spec c1 b1) as [Hcb|Hcb].
  - assert (c1 = b1) as -> by lia.
    exists b1, l. split; [reflexivity|]. split; [lia|]. split; [apply rearranged_refl|].
    split.
    + intros i Hi. destruct (Z_lt_dec i b); [apply HL; lia|apply B3; lia].
    + intros i Hi. destruct (Z_lt_dec i c); [|apply HR; lia].
      apply Z.lt_le_incl, C3. lia.
  - specialize (B4 ltac:(lia)). specialize (C4 ltac:(lia)).
    assert (b1 < c1 - 1) as Hlt
      by (destruct (Z.eq_dec b1 (c1 - 1)) as [E|E]; [rewrite <- E in C4|]; lia).
    rewrite bind_Swap by lia.
    assert (∀ k, 0 ≤ k → keyAt (swapped l b1 (c1 - 1)) k
              = if k =? c1 - 1 then keyAt l b1
                else if k =? b1 then keyAt l (c1 - 1) else keyAt l k) as HK
      by (intros k Hk; apply keyAt_swapped; lia).
    destruct (IH pivot (b1 + 1) (c1 - 1) (swapped l b1 (c1 - 1)))
      as (b' & l' & Hrun & Hb' & Hre & HL' & HR'); try lia.
    { rewrite len_swapped. lia. }
    { intros i Hi. rewrite !HK by lia.
      destruct (Z.eqb_spec i (c1 - 1)); [lia|]. destruct (Z.eqb_spec pivot (c1 - 1)); [lia|].
      destruct (Z.eqb_spec pivot b1); [lia|].
      destruct (Z.eqb_spec i b1); [lia|].
      destruct (Z_lt_dec i b); [apply HL; lia|apply B3; lia]. }
    { intros i Hi. rewrite !HK by lia.
      destruct (Z.eqb_spec pivot (c1 - 1)); [lia|]. destruct (Z.eqb_spec pivot b1); [lia|].
      destruct (Z.eqb_spec i (c1 - 1)); [lia|]. destruct (Z.eqb_spec i b1); [lia|].
      destruct (Z_lt_dec i c); [|apply HR; lia]. apply Z.lt_le_incl, C3. lia. }
    assert (keyAt (swapped l b1 (c1 - 1)) pivot = keyAt l pivot) as HP.
    { rewrite HK by lia. destruct (Z.eqb_spec pivot (c1 - 1)); [lia|].
      destruct (Z.eqb_spec pivot b1); [lia|]. reflexivity. }
    rewrite HP in HL', HR'.
    exists b', l'. split; [exact Hrun|]. split; [lia|]. split; [|split; assumption].
    eapply rearranged_trans; [lia| |eapply rearranged_weaken; [| |exact Hre]; lia].
    apply rearranged_swapped; lia.
Qed.

Lemma protectLoop_run (lo c : Z) (rounds : nat) :
  ∀ (a b : Z) (l : list A),
    0 ≤ lo < a → a ≤ b → b ≤ c → c ≤ len l →
    b - a + 1 ≤ Z.of_nat rounds →
    (∀ i, lo < i < b → keyAt l i ≤ keyAt l lo) →
    (∀ i, b ≤ i < c → keyAt l i = keyAt l lo) →
    ∃ b' l', protectLoop less rounds lo a b l = Ok (b', l')
             ∧ a ≤ b' ≤ b ∧ rearranged a b l l'
             ∧ (∀ i, lo < i < b' → keyAt l' i ≤ keyAt l lo)
             ∧ (∀ i, b' ≤ i < c → keyAt l' i = keyAt l lo).
Proof.
  induction rounds as [|rounds IH]; intros a b l Hlo Hab Hbc Hc Hr HL HE; [lia|].
  cbn [protectLoop].
  destruct (skipEqualDown_run (Z.to_nat (b - a)) lo a b l)
    as (b1 & Hrun1 & B1 & B2 & B3 & B4); try lia.
  rewrite (bind_run _ _ l l b1 Hrun1).
  destruct (skipLess_run (Z.to_nat (b1 - a)) lo a b1 l)
    as (a1 & Hrun2 & A1 & A2 & A3 & A4); try lia.
  rewrite (bind_run _ _ l l a1 Hrun2).
  assert (∀ i, b1 ≤ i < c → keyAt l i = keyAt l lo) as HE1.
  { intros i Hi. destruct (Z_lt_dec i b); [|apply HE; lia].
    apply Z.le_antisymm; [apply HL; lia|apply B3; lia]. }
  destruct (Z.leb_spec b1 a1) as [Hba|Hba].
  - exists b1, l. split; [reflexivity|]. split; [lia|]. split; [apply rearranged_refl|].
    split; [|exact HE1]. intros i Hi. apply HL. lia.
  - specialize (B4 ltac:(lia)). specialize (A4 ltac:(lia)).
    assert (a1 < b1 - 1) as Hlt
      by (destruct (Z.eq_dec a1 (b1 - 1)) as [E|E]; [rewrite <- E in B4|]; lia).
    rewrite bind_Swap by lia.
    assert (∀ k, 0 ≤ k → keyAt (swapped l a1 (b1 - 1)) k
              = if k =? b1 - 1 then keyAt l a1
                else if k =? a1 then keyAt l (b1 - 1) else keyAt l k) as HK
      by (intros k Hk; apply keyAt_swapped; lia).
    assert (keyAt (swapped l a1 (b1 - 1)) lo = keyAt l lo) as HP.
    { rewrite HK by lia. destruct (Z.eqb_spec lo (b1 - 1)); [lia|].
      destruct (Z.eqb_spec lo a1); [lia|]. reflexivity. }
    destruct (IH (a1 + 1) (b1 - 1) (swapped l a1 (b1 - 1)))
      as (b' & l' & Hrun & Hb' & Hre & HL' & HE'); try lia.
    { rewrite len_swapped. lia. }
    { intros i Hi. rewrite HP, HK by lia.
      destruct (Z.eqb_spec i (b1 - 1)); [lia|].
      destruct (Z.eqb_spec i a1); [lia|]. apply HL; lia. }
    { intros i Hi. rewrite HP, HK by lia.
      destruct (Z.eqb_spec i (b1 - 1)) as [->|].
      - apply Z.le_antisymm; [apply HL; lia|exact A4].
      - destruct (Z.eqb_spec i a1); [lia|]. apply HE1; lia. }
    rewrite HP in HL', HE'.
    exists b', l'. split; [exact Hrun|]. split; [lia|]. split; [|split; assumption].
    eapply rearranged_trans; [lia| |eapply rearranged_weaken; [| |exact Hre]; lia].
    apply rearranged_swapped; lia.
Qed.

Lemma countDups_run (lo hi m a b : Z) (l : list A) :
  0 ≤ lo < m → m ≤ b - 2 → lo < a ≤ b → b + 2 ≤ hi → hi ≤ len l →
  (∀ i, lo < i < a → keyAt l i < keyAt l lo) →
  (∀ i, lo < i < b → keyAt l i ≤ keyAt l lo) →
  (∀ i, b ≤ i < hi → keyAt l lo ≤ keyAt l i) →
  ∃ b' c' dups l',
    countDups less lo m hi b b l = Ok ((b', c', dups), l')
    ∧ a ≤ b' ≤ b ∧ m ≤ b' ∧ b ≤ c' ≤ hi
    ∧ rearranged (lo + 1) hi l l'
    ∧ (∀ i, lo < i < b' → keyAt l' i ≤ keyAt l lo)
    ∧ (∀ i, b' ≤ i < c' → keyAt l' i = keyAt l lo)
    ∧ (∀ i, c' ≤ i < hi → keyAt l lo ≤ keyAt l' i).
Proof.
  intros Hlo Hm Ha Hb Hhi HS HL HR. unfold countDups.
  rewrite bind_Less by lia.
  (* the test of data[hi-1] *)
  set (gtHi := keyAt l lo <? keyAt l (hi - 1)).
  set (l1 := swappedIf (negb gtHi) l b (hi - 1)).
  set (c1 := if negb gtHi then b + 1 else b).
  assert ((if negb gtHi
           then Swap b (hi - 1) ≫= λ _, mret (b + 1, 1)
           else mret (b, 0)) l
          = Ok ((c1, if negb gtHi then 1 else 0), l1)) as Hstep1.
  { unfold c1, l1. destruct (negb gtHi); [|reflexivity].
    rewrite bind_Swap by lia. reflexivity. }
  rewrite (bind_run _ _ l l1 _ Hstep1).
  assert (len l1 = len l) as Hl1 by apply len_swappedIf.
  assert (rearranged (lo + 1) hi l l1) as Hr1 by (apply rearranged_swappedIf; lia).
  assert (keyAt l1 lo = keyAt l lo) as HP1 by (destruct Hr1 as (_ & O & _); apply O; lia).
  assert (∀ i, lo < i < b → keyAt l1 i = keyAt l i) as HL1.
  { intros i Hi. unfold l1. destruct (negb gtHi); keys. }
  assert (∀ i, b ≤ i < c1 → keyAt l1 i = keyAt l lo) as HE1.
  { intros i Hi. unfold c1, l1, gtHi in *.
    destruct (Z.ltb_spec (keyAt l lo) (keyAt l (hi - 1))) as [G|G]; cbn [negb] in *; [lia|].
    assert (i = b) as -> by lia. keys.
    apply Z.le_antisymm; [exact G|apply HR; lia]. }
  assert (∀ i, c1 ≤ i < hi → keyAt l lo ≤ keyAt l1 i) as HR1.
  { intros i Hi. unfold c1, l1, gtHi in *.
    destruct (Z.ltb_spec (keyAt l lo) (keyAt l (hi - 1))) as [G|G]; cbn [negb] in *.
    - apply HR; lia.
    - keys; apply HR; lia. }
  cbn beta iota.
  rewrite bind_Less by lia.
  (* the test of data[b-1] *)
  set (ltB := keyAt l1 (b - 1) <? keyAt l1 lo).
  set (b1 := if negb ltB then b - 1 else b).
  assert (a ≤ b1 ≤ b ∧ b - 1 ≤ b1) as Hb1.
  { unfold b1, ltB. destruct (Z.ltb_spec (keyAt l1 (b - 1)) (keyAt l1 lo)) as [G|G];
      cbn [negb]; [lia|].
    destruct (Z.eq_dec a b) as [->|]; [|lia].
    rewrite HP1, HL1 in G by lia. specialize (HS (b - 1) ltac:(lia)). lia. }
  assert (∀ i, b1 ≤ i < c1 → keyAt l1 i = keyAt l lo) as HE2.
  { intros i Hi. destruct (Z_le_dec b i); [apply HE1; lia|].
    unfold b1, ltB in *.
    destruct (Z.ltb_spec (keyAt l1 (b - 1)) (keyAt l1 lo)) as [G|G]; cbn [negb] in *; [lia|].
    assert (i = b - 1) as -> by lia.
    apply Z.le_antisymm; [rewrite HL1 by lia; apply HL; lia|lia]. }
  set (d1 := if negb gtHi then 1 else 0).
  replace (if negb ltB then (b - 1, d1 + 1) else (b, d1))
    with (b1, if negb ltB then d1 + 1 else d1)
    by (unfold b1; destruct (negb ltB); reflexivity).
  cbv beta iota. rewrite bind_Less by lia.
  (* the test of data[m] *)
  set (d2 := if negb ltB then d1 + 1 else d1).
  set (ltM := keyAt l1 m <? keyAt l1 lo).
  set (l2 := swappedIf (negb ltM) l1 m (b1 - 1)).
  set (b2 := if negb ltM then b1 - 1 else b1).
  assert (((if negb ltM
            then Swap m (b1 - 1) ≫= λ _, mret (b1 - 1, d2 + 1)
            else mret (b1, d2)) ≫= λ '(b0, dups), mret (b0, c1, dups)) l1
          = Ok ((b2, c1, if negb ltM then d2 + 1 else d2), l2)) as Hstep3.
  { unfold b2, l2, swappedIf. destruct (negb ltM); [|reflexivity].
    rewrite (bind_run _ _ l1 (swapped l1 m (b1 - 1)) (b1 - 1, d2 + 1));
      [reflexivity|rewrite bind_Swap by lia; reflexivity]. }
  rewrite Hstep3.
  exists b2, c1, (if negb ltM then d2 + 1 else d2), l2. split; [reflexivity|].
  assert (rearranged (lo + 1) hi l1 l2) as Hr2 by (apply rearranged_swappedIf; lia).
  assert (negb ltM = true → keyAt l1 m = keyAt l lo ∧ a ≤ m) as HM.
  { unfold ltM. destruct (Z.ltb_spec (keyAt l1 m) (keyAt l1 lo)) as [G|G];
      cbn [negb]; [discriminate|]. intros _.
    rewrite HP1, HL1 in G by lia. pose proof (HL m ltac:(lia)) as G'.
    rewrite HL1 by lia. split; [lia|].
    destruct (Z_le_dec a m); [assumption|]. specialize (HS m ltac:(lia)). lia. }
  assert (a ≤ b2 ≤ b ∧ m ≤ b2 ∧ b2 ≤ b1) as Hb2.
  { unfold b2. destruct (negb ltM); [|lia]. destruct (HM eq_refl). lia. }
  split; [lia|]. split; [lia|]. split; [unfold c1; destruct (negb gtHi); lia|].
  split; [eapply rearranged_trans; [lia|exact Hr1|exact Hr2]|].
  assert (∀ k, 0 ≤ k → keyAt l2 k
            = if negb ltM
              then if k =? b1 - 1 then keyAt l1 m
                   else if k =? m then keyAt l1 (b1 - 1) else keyAt l1 k
              else keyAt l1 k) as HK
    by (intros k Hk; unfold l2, swappedIf; destruct (negb ltM);
        [apply keyAt_swapped; lia|reflexivity]).
  assert (c1 ≤ hi ∧ b ≤ c1) as Hc1 by (unfold c1; destruct (negb gtHi); lia).
  split; [|split]; intros i Hi; rewrite HK by lia; unfold b2 in *;
    destruct (negb ltM) eqn:EM.
  - destruct (HM eq_refl) as [HM1 HM2].
    destruct (Z.eqb_spec i (b1 - 1)); [lia|].
    destruct (Z.eqb_spec i m) as [->|].
    + destruct (Z_lt_dec (b1 - 1) b); [rewrite HL1 by lia; apply HL; lia|lia].
    + rewrite HL1 by lia. apply HL; lia.
  - destruct (Z_lt_dec i b); [rewrite HL1 by lia; apply HL; lia|].
    rewrite HE2 by lia. lia.
  - destruct (HM eq_refl) as [HM1 HM2].
    destruct (Z.eqb_spec i (b1 - 1)); [exact HM1|].
    destruct (Z.eqb_spec i m); [lia|]. apply HE2; lia.
  - apply HE2; lia.
  - destruct (Z.eqb_spec i (b1 - 1)); [lia|].
    destruct (Z.eqb_spec i m); [lia|]. apply HR1; lia.
  - apply HR1; lia.
Qed.

Lemma doPivot_run (lo hi : Z) (l : list A) :
  0 ≤ lo → hi ≤ len l → 12 < hi - lo →
  ∃ mlo mhi l' P,
    doPivot less lo hi l = Ok ((mlo, mhi), l')
    ∧ lo ≤ mlo < mhi ∧ mhi ≤ hi
    ∧ rearranged lo hi l l'
    ∧ (∀ i, lo ≤ i < mlo → keyAt l' i ≤ P)
    ∧ (∀ i, mlo ≤ i < mhi → keyAt l' i = P)
    ∧ (∀ i, mhi ≤ i < hi → P ≤ keyAt l' i).
Proof.
  intros Hlo Hhi Hn. unfold doPivot.
  assert (Z.shiftr (lo + hi) 1 = (lo + hi) / 2) as ->
    by (rewrite Z.shiftr_div_pow2 by lia; reflexivity).
  set (m := (lo + hi) / 2).
  assert (lo + 6 ≤ m ≤ hi - 7 ∧ lo + hi - 1 ≤ 2 * m ≤ lo + hi) as Hm
    by (unfold m; Z.div_mod_to_equations; lia).
  (* the ninther *)
  assert (∃ l0, (if 40 <? hi - lo
                 then
                   let s := Z.quot (hi - lo) 8 in
                   medianOfThree less lo (lo + s) (lo + 2 * s) ≫= λ _,
                   medianOfThree less m (m - s) (m + s) ≫= λ _,
                   medianOfThree less (hi - 1) (hi - 1 - s) (hi - 1 - 2 * s)
                 else mret tt) l = Ok (tt, l0)
                ∧ rearranged lo hi l l0) as (l0 & Hrun0 & Hr0).
  { destruct (Z.ltb_spec 40 (hi - lo)) as [H40|H40];
      [|exists l; split; [reflexivity|apply rearranged_refl]].
    rewrite Z.quot_div_nonneg by lia. set (s := (hi - lo) / 8). cbv zeta.
    assert (5 ≤ s ∧ 8 * s ≤ hi - lo) as Hs by (unfold s; Z.div_mod_to_equations; lia).
    destruct (medianOfThree_run lo hi lo (lo + s) (lo + 2 * s) l)
      as (la & Hra & Hpa & _); try lia.
    pose proof (rearranged_len _ _ _ _ Hpa) as Hla.
    destruct (medianOfThree_run lo hi m (m - s) (m + s) la)
      as (lb & Hrb & Hpb & _); try lia.
    pose proof (rearranged_len _ _ _ _ Hpb) as Hlb.
    destruct (medianOfThree_run lo hi (hi - 1) (hi - 1 - s) (hi - 1 - 2 * s) lb)
      as (lc & Hrc & Hpc & _); try lia.
    exists lc. split.
    - rewrite (bind_run _ _ l la tt Hra), (bind_run _ _ la lb tt Hrb). exact Hrc.
    - eapply rearranged_trans; [lia|exact Hpa|].
      eapply rearranged_trans; [lia|exact Hpb|exact Hpc]. }
  rewrite (bind_run _ _ l l0 tt Hrun0).
  pose proof (rearranged_len _ _ _ _ Hr0) as Hl0.
  (* the median of three *)
  destruct (medianOfThree_run lo hi lo m (hi - 1) l0)
    as (l1 & Hrun1 & Hr1 & Hmed); try lia.
  specialize (Hmed ltac:(lia) ltac:(lia) ltac:(lia)).
  rewrite (bind_run _ _ l0 l1 tt Hrun1).
  pose proof (rearranged_len _ _ _ _ Hr1) as Hl1.
  set (P := keyAt l1 lo) in *.
  (* the first scan *)
  destruct (skipLess_run (Z.to_nat (hi - 1 - (lo + 1))) lo (lo + 1) (hi - 1) l1)
    as (a & Hrun2 & A1 & A2 & A3 & _); try lia.
  specialize (A2 ltac:(lia)). fold P in A3.
  rewrite (bind_run _ _ l1 l1 a Hrun2).
  (* the partitioning loop *)
  destruct (partitionLoop_run hi (Z.to_nat (hi - 1 - a + 1)) lo a (hi - 1) l1)
    as (b & l2 & Hrun3 & Hb & Hr3 & HL3 & HR3); try lia.
  { intros i Hi. apply Z.lt_le_incl, A3. lia. }
  { intros i Hi. assert (i = hi - 1) as -> by lia. exact Hmed. }
  fold P in HL3, HR3.
  rewrite (bind_run _ _ l1 l2 (b, b) Hrun3). cbv beta iota.
  pose proof (rearranged_len _ _ _ _ Hr3) as Hl2.
  assert (keyAt l2 lo = P) as HP2 by (destruct Hr3 as (_ & O & _); apply O; lia).
  assert (∀ i, lo < i < a → keyAt l2 i < keyAt l2 lo) as HS2.
  { intros i Hi. rewrite HP2. destruct Hr3 as (_ & O & _). rewrite O by lia.
    apply A3. lia. }
  (* the tests for duplicates *)
  assert (∃ b' c' pr l3,
             (if negb (hi - b <? 5) && (hi - b <? Z.quot (hi - lo) 4)
              then
                countDups less lo m hi b b ≫= λ '(b0, c0, dups), mret (b0, c0, 1 <? dups)
              else mret (b, b, hi - b <? 5)) l2 = Ok ((b', c', pr), l3)
             ∧ a ≤ b' ≤ c' ∧ c' ≤ hi
             ∧ rearranged (lo + 1) hi l2 l3
             ∧ (∀ i, lo < i < b' → keyAt l3 i ≤ P)
             ∧ (∀ i, b' ≤ i < c' → keyAt l3 i = P)
             ∧ (∀ i, c' ≤ i < hi → P ≤ keyAt l3 i))
    as (b' & c' & pr & l3 & Hrun4 & Hb' & Hc' & Hr4 & HL4 & HE4 & HR4).
  { destruct (negb (hi - b <? 5) && (hi - b <? Z.quot (hi - lo) 4)) eqn:Hcond.
    - apply andb_true_iff in Hcond as [H5 Hq]. apply negb_true_iff, Z.ltb_ge in H5.
      apply Z.ltb_lt in Hq. rewrite Z.quot_div_nonneg in Hq by lia.
      destruct (countDups_run lo hi m a b l2)
        as (b' & c' & dups & l3 & Hrun & Ha' & Hm' & Hc' & Hr' & HL' & HE' & HR');
        try lia.
      { unfold m in *. Z.div_mod_to_equations. lia. }
      { exact HS2. }
      { intros i Hi. rewrite HP2. apply HL3. lia. }
      { intros i Hi. rewrite HP2. apply HR3. lia. }
      rewrite HP2 in HL', HE', HR'.
      exists b', c', (1 <? dups), l3.
      split; [rewrite (bind_run _ _ l2 l3 (b', c', dups) Hrun); reflexivity|].
      split; [lia|]. split; [lia|]. auto.
    - exists b, b, (hi - b <? 5), l2. split; [reflexivity|].
      split; [lia|]. split; [lia|]. split; [apply rearranged_refl|].
      split; [exact HL3|]. split; [intros i Hi; lia|exact HR3]. }
  rewrite (bind_run _ _ l2 l3 (b', c', pr) Hrun4). cbv beta iota.
  pose proof (rearranged_len _ _ _ _ Hr4) as Hl3.
  assert (keyAt l3 lo = P) as HP3
    by (rewrite <- HP2; destruct Hr4 as (_ & O & _); apply O; lia).
  (* the loop that gathers the duplicates *)
  assert (∃ b'' l4,
             (if pr : bool
              then protectLoop less (Z.to_nat (b' - a + 1)) lo a b'
              else mret b') l3 = Ok (b'', l4)
             ∧ a ≤ b'' ≤ b'
             ∧ rearranged (lo + 1) hi l3 l4
             ∧ (∀ i, lo < i < b'' → keyAt l4 i ≤ P)
             ∧ (∀ i, b'' ≤ i < c' → keyAt l4 i = P)
             ∧ (∀ i, c' ≤ i < hi → P ≤ keyAt l4 i))
    as (b'' & l4 & Hrun5 & Hb'' & Hr5 & HL5 & HE5 & HR5).
  { destruct pr.
    - destruct (protectLoop_run lo c' (Z.to_nat (b' - a + 1)) a b' l3)
        as (b'' & l4 & Hrun & Hb'' & Hr' & HL' & HE'); try lia.
      { intros i Hi. rewrite HP3. apply HL4. lia. }
      { intros i Hi. rewrite HP3. apply HE4. lia. }
      rewrite HP3 in HL', HE'.
      exists b'', l4. split; [exact Hrun|]. split; [lia|].
      split; [eapply rearranged_weaken; [| |exact Hr']; lia|].
      split; [exact HL'|]. split; [exact HE'|].
      intros i Hi. destruct Hr' as (_ & O & _). rewrite O by lia. apply HR4. lia.
    - exists b', l3. split; [reflexivity|]. split; [lia|].
      split; [apply rearranged_refl|]. auto. }
  rewrite (bind_run _ _ l3 l4 b'' Hrun5).
  pose proof (rearranged_len _ _ _ _ Hr5) as Hl4.
  assert (keyAt l4 lo = P) as HP4
    by (rewrite <- HP3; destruct Hr5 as (_ & O & _); apply O; lia).
  (* the pivot goes to the middle *)
  rewrite bind_Swap by lia.
  exists (b'' - 1), c', (swapped l4 lo (b'' - 1)), P.
  split; [reflexivity|]. split; [lia|]. split; [lia|].
  assert (∀ k, 0 ≤ k → keyAt (swapped l4 lo (b'' - 1)) k
            = if k =? b'' - 1 then keyAt l4 lo
              else if k =? lo then keyAt l4 (b'' - 1) else keyAt l4 k) as HK
    by (intros k Hk; apply keyAt_swapped; lia).
  split.
  { eapply rearranged_trans; [lia|exact Hr0|].
    eapply rearranged_trans; [lia|exact Hr1|].
    eapply rearranged_trans; [lia|eapply rearranged_weaken; [| |exact Hr3]; lia|].
    eapply rearranged_trans; [lia|eapply rearranged_weaken; [| |exact Hr4]; lia|].
    eapply rearranged_trans; [lia|eapply rearranged_weaken; [| |exact Hr5]; lia|].
    apply rearranged_swapped; lia. }
  split; [|split]; intros i Hi; rewrite HK by lia.
  - destruct (Z.eqb_spec i (b'' - 1)); [lia|].
    destruct (Z.eqb_spec i lo); apply HL5; lia.
  - destruct (Z.eqb_spec i (b'' - 1)); [exact HP4|].
    destruct (Z.eqb_spec i lo); [lia|]. apply HE5; lia.
  - destruct (Z.eqb_spec i (b'' - 1)); [lia|].
    destruct (Z.eqb_spec i lo); [lia|]. apply HR5; lia.
Qed.

(** *** Heapsort *)

Lemma keyAt_swapped_from (l : list A) (first i j k : Z) :
  0 ≤ first → 0 ≤ i → 0 ≤ j → first + i < len l → first + j < len l → 0 ≤ k →
  keyAt (swapped l (first + i) (first + j)) (first + k)
  = if k =? j then keyAt l (first + i)
    else if k =? i then keyAt l (first + j) else keyAt l (first + k).
Proof.
  intros Hf Hi Hj Hil Hjl Hk. rewrite keyAt_swapped by lia.
  assert ((first + k =? first + j) = (k =? j)) as ->
    by (destruct (Z.eqb_spec k j), (Z.eqb_spec (first + k) (first + j));
        (reflexivity || lia)).
  assert ((first + k =? first + i) = (k =? i)) as ->
    by (destruct (Z.eqb_spec k i), (Z.eqb_spec (first + k) (first + i));
        (reflexivity || lia)).
  reflexivity.
Qed.

Lemma siftDownLoop_run (first lo hi : Z) (rounds : nat) :
  ∀ (root : Z) (l : list A),
    0 ≤ first → 0 ≤ lo ≤ root → first + hi ≤ len l →
    hi - root ≤ Z.of_nat rounds →
    heapBut l first lo hi root →
    ∃ l', siftDownLoop less rounds root hi first l = Ok (tt, l')
          ∧ rearranged (first + lo) (first + hi) l l'
          ∧ heapFrom l' first lo hi.
Proof.
  induction rounds as [|rounds IH]; intros root l Hf Hlo Hhi Hr [HA HB].
  - exists l. split; [reflexivity|]. split; [apply rearranged_refl|].
    intros i c Hi Hc Hch. destruct (Z.eq_dec i root) as [->|Hne]; [lia|].
    apply HA; assumption.
  - cbn [siftDownLoop]. destruct (Z.leb_spec hi (2 * root + 1)) as [Hleaf|Hchild].
    { exists l. split; [reflexivity|]. split; [apply rearranged_refl|].
      intros i c Hi Hc Hch. destruct (Z.eq_dec i root) as [->|Hne]; [lia|].
      apply HA; assumption. }
    (* the larger child *)
    set (up := if 2 * root + 1 + 1 <? hi
               then keyAt l (first + (2 * root + 1)) <? keyAt l (first + (2 * root + 1) + 1)
               else false).
    assert ((if 2 * root + 1 + 1 <? hi
             then Less less (first + (2 * root + 1)) (first + (2 * root + 1) + 1)
             else mret false) l = Ok (up, l)) as Hup.
    { unfold up. destruct (Z.ltb_spec (2 * root + 1 + 1) hi); [|reflexivity].
      apply Less_run; lia. }
    rewrite (bind_run _ _ l l up Hup).
    set (child := if up then 2 * root + 1 + 1 else 2 * root + 1).
    assert ((child = 2 * root + 1 ∨ child = 2 * root + 2) ∧ child < hi
            ∧ ∀ c, (c = 2 * root + 1 ∨ c = 2 * root + 2) → c < hi →
                   keyAt l (first + c) ≤ keyAt l (first + child)) as (Hch & Hchi & Hmax).
    { unfold child, up.
      destruct (Z.ltb_spec (2 * root + 1 + 1) hi) as [H2|H2].
      - replace (first + (2 * root + 1) + 1) with (first + (2 * root + 2)) by lia.
        destruct (Z.ltb_spec (keyAt l (first + (2 * root + 1)))
                    (keyAt l (first + (2 * root + 2)))) as [G|G].
        + split; [lia|]. split; [lia|]. intros c [->| ->] Hc.
          * replace (2 * root + 1 + 1) with (2 * root + 2) by lia. lia.
          * replace (2 * root + 1 + 1) with (2 * root + 2) by lia. lia.
        + split; [lia|]. split; [lia|]. intros c [->| ->] Hc; lia.
      - split; [lia|]. split; [lia|]. intros c [->| ->] Hc; lia. }
    rewrite bind_Less by lia.
    destruct (Z.ltb_spec (keyAt l (first + root)) (keyAt l (first + child))) as [Hlt|Hge];
      cbn [negb].
    + rewrite bind_Swap by lia.
      set (l1 := swapped l (first + root) (first + child)).
      assert (∀ k, 0 ≤ k → keyAt l1 (first + k)
                = if k =? child then keyAt l (first + root)
                  else if k =? root then keyAt l (first + child)
                       else keyAt l (first + k)) as HK.
      { intros k Hk. unfold l1. apply keyAt_swapped_from; lia. }
      destruct (IH child l1) as (l' & Hrun & Hre & Hheap); try lia.
      { unfold l1. rewrite len_swapped. lia. }
      { split.
        - intros i c Hi Hne Hc Hchi'. rewrite !HK by lia.
          destruct (Z.eqb_spec c child) as [->|Hcc].
          + (* the child that moved up is the child of [root] *)
            assert (i = root) as -> by lia.
            destruct (Z.eqb_spec root child); [lia|]. rewrite Z.eqb_refl. lia.
          + destruct (Z.eqb_spec i child); [lia|].
            destruct (Z.eqb_spec c root) as [->|Hcr].
            * destruct (Z.eqb_spec i root); [lia|].
              apply (HB i child); try lia.
            * destruct (Z.eqb_spec i root) as [->|Hir].
              -- apply Hmax; assumption.
              -- apply HA; assumption.
        - intros p c Hp Hpc Hc Hchi'. assert (p = root) as -> by lia.
          rewrite !HK by lia.
          destruct (Z.eqb_spec c child); [lia|]. destruct (Z.eqb_spec c root); [lia|].
          destruct (Z.eqb_spec root child); [lia|]. rewrite Z.eqb_refl.
          apply HA; try lia. }
      exists l'. split; [exact Hrun|]. split; [|exact Hheap].
      eapply rearranged_trans; [lia| |exact Hre].
      apply rearranged_swapped; lia.
    + exists l. split; [reflexivity|]. split; [apply rearranged_refl|].
      intros i c Hi Hc Hchi'. destruct (Z.eq_dec i root) as [->|Hne].
      * specialize (Hmax c Hc Hchi'). lia.
      * apply HA; assumption.
Qed.

Lemma siftDown_run (first lo hi : Z) (l : list A) :
  0 ≤ first → 0 ≤ lo → first + hi ≤ len l →
  heapFrom l first (lo + 1) hi →
  ∃ l', siftDown less lo hi first l = Ok (tt, l')
        ∧ rearranged (first + lo) (first + hi) l l'
        ∧ heapFrom l' first lo hi.
Proof.
  intros Hf Hlo Hhi Hheap. unfold siftDown.
  apply siftDownLoop_run; try lia. split.
  - intros i c Hi Hne Hc Hchi. apply Hheap; try assumption. lia.
  - intros p c Hp Hpc. lia.
Qed.

Lemma heapBuild_run (first hi : Z) (rounds : nat) :
  ∀ (i : Z) (l : list A),
    0 ≤ first → first + hi ≤ len l → Z.of_nat rounds = i + 1 →
    heapFrom l first (i + 1) hi →
    ∃ l', heapBuild less rounds i hi first l = Ok (tt, l')
          ∧ rearranged first (first + hi) l l'
          ∧ heapFrom l' first 0 hi.
Proof.
  induction rounds as [|rounds IH]; intros i l Hf Hhi Hr Hheap.
  - exists l. split; [reflexivity|]. split; [apply rearranged_refl|].
    replace 0 with (i + 1) by lia. exact Hheap.
  - cbn [heapBuild].
    destruct (siftDown_run first i hi l) as (l1 & Hrun1 & Hre1 & Hh1); try lia; [exact Hheap|].
    rewrite (bind_run _ _ l l1 tt Hrun1).
    destruct (IH (i - 1) l1) as (l' & Hrun & Hre & Hh); try lia.
    { rewrite (rearranged_len _ _ _ _ Hre1). lia. }
    { replace (i - 1 + 1) with i by lia. exact Hh1. }
    exists l'. split; [exact Hrun|]. split; [|exact Hh].
    eapply rearranged_trans; [lia| |exact Hre].
    eapply rearranged_weaken; [| |exact Hre1]; lia.
Qed.

(** The root of a heap is its largest node. *)
Lemma heap_root_max (l : list A) (first n : Z) :
  heapFrom l first 0 n →
  ∀ x, 0 ≤ x < n → keyAt l (first + x) ≤ keyAt l (first + 0).
Proof.
  intros Hheap x Hx.
  assert (∀ k : nat, ∀ x, 0 ≤ x < n → x ≤ Z.of_nat k →
                          keyAt l (first + x) ≤ keyAt l (first + 0)) as H.
  { induction k as [|k IH]; intros y Hy Hk.
    - assert (y = 0) as -> by lia. lia.
    - destruct (Z.eq_dec y 0) as [->|Hne]; [lia|].
      set (p := (y - 1) / 2).
      assert (0 ≤ p < y ∧ (y = 2 * p + 1 ∨ y = 2 * p + 2)) as [Hp Hc]
        by (unfold p; Z.div_mod_to_equations; lia).
      transitivity (keyAt l (first + p)).
      + apply Hheap; lia.
      + apply IH; lia. }
  apply (H (Z.to_nat x)); lia.
Qed.

Lemma heapPop_run (first hi : Z) (rounds : nat) :
  ∀ (i : Z) (l : list A),
    0 ≤ first → first + hi ≤ len l → Z.of_nat rounds = i + 1 → i < hi →
    heapFrom l first 0 (i + 1) →
    sortedIn l (first + i + 1) (first + hi) →
    (∀ x y, 0 ≤ x ≤ i → i < y < hi → keyAt l (first + x) ≤ keyAt l (first + y)) →
    ∃ l', heapPop less rounds i first l = Ok (tt, l')
          ∧ rearranged first (first + hi) l l'
          ∧ sortedIn l' first (first + hi).
Proof.
  induction rounds as [|rounds IH]; intros i l Hf Hhi Hr Hi Hheap Hsorted Hle.
  - exists l. split; [reflexivity|]. split; [apply rearranged_refl|].
    replace first with (first + i + 1) at 1 by lia. exact Hsorted.
  - cbn [heapPop]. rewrite bind_Swap by lia.
    set (l1 := swapped l first (first + i)).
    assert (len l1 = len l) as Hl1 by apply len_swapped.
    assert (∀ k, 0 ≤ k → keyAt l1 (first + k)
              = if k =? i then keyAt l (first + 0)
                else if k =? 0 then keyAt l (first + i) else keyAt l (first + k)) as HK.
    { intros k Hk. unfold l1.
      replace (swapped l first (first + i)) with (swapped l (first + 0) (first + i))
        by (f_equal; lia).
      apply keyAt_swapped_from; lia. }
    pose proof (heap_root_max l first (i + 1) Hheap) as Hmax.
    destruct (siftDown_run first 0 i l1) as (l2 & Hrun2 & Hre2 & Hh2); try lia.
    { intros j c Hj Hc Hci. rewrite !HK by lia.
      destruct (Z.eqb_spec c i); [lia|]. destruct (Z.eqb_spec c 0); [lia|].
      destruct (Z.eqb_spec j i); [lia|]. destruct (Z.eqb_spec j 0); [lia|].
      apply Hheap; lia. }
    rewrite (bind_run _ _ l1 l2 tt Hrun2).
    pose proof (rearranged_len _ _ _ _ Hre2) as Hl2.
    assert (∀ y, i ≤ y < hi → keyAt l2 (first + y) = keyAt l1 (first + y)) as Hout.
    { intros y Hy. destruct Hre2 as (_ & O & _). apply O; lia. }
    assert (∀ x, 0 ≤ x < i → ∃ x', 0 ≤ x' ≤ i ∧ keyAt l2 (first + x) = keyAt l (first + x'))
      as Hin.
    { intros x Hx. destruct Hre2 as (_ & _ & I).
      destruct (I (first + x) ltac:(lia)) as (j & Hj & E).
      rewrite E. replace j with (first + (j - first)) by lia. rewrite HK by lia.
      destruct (Z.eqb_spec (j - first) i); [lia|].
      destruct (Z.eqb_spec (j - first) 0); [exists i|exists (j - first)]; split; (lia || reflexivity). }
    destruct (IH (i - 1) l2) as (l' & Hrun & Hre & Hs); try lia.
    { replace (i - 1 + 1) with i by lia. exact Hh2. }
    { replace (first + (i - 1) + 1) with (first + i) by lia.
      intros p q Hp Hpq Hq.
      replace p with (first + (p - first)) by lia.
      replace q with (first + (q - first)) by lia.
      rewrite !Hout, !HK by lia.
      destruct (Z.eqb_spec (p - first) i) as [Ep|Ep].
      - destruct (Z.eqb_spec (q - first) i) as [Eq|Eq]; [lia|].
        destruct (Z.eqb_spec (q - first) 0); [lia|]. apply Hle; lia.
      - destruct (Z.eqb_spec (p - first) 0); [lia|].
        destruct (Z.eqb_spec (q - first) i); [lia|].
        destruct (Z.eqb_spec (q - first) 0); [lia|].
        replace (first + (p - first)) with p by lia.
        replace (first + (q - first)) with q by lia.
        apply Hsorted; lia. }
    { intros x y Hx Hy. destruct (Hin x ltac:(lia)) as (x' & Hx' & ->).
      rewrite Hout, HK by lia.
      destruct (Z.eqb_spec y i) as [->|].
      - apply Hmax. lia.
      - destruct (Z.eqb_spec y 0); [lia|].
        destruct (Z.eq_dec x' i) as [->|]; [|apply Hle; lia].
        transitivity (keyAt l (first + 0)); [apply Hmax; lia|apply Hle; lia]. }
    exists l'. split; [exact Hrun|]. split; [|exact Hs].
    eapply rearranged_trans;
      [lia|apply (rearranged_swapped first (first + hi) l first (first + i)); lia|].
    fold l1.
    eapply rearranged_trans; [lia|eapply rearranged_weaken; [| |exact Hre2]; lia|exact Hre].
Qed.

Lemma heapSort_sorts (a b : Z) (l : list A) :
  0 ≤ a < b → b ≤ len l →
  ∃ l', heapSort less a b l = Ok (tt, l')
        ∧ rearranged a b l l' ∧ sortedIn l' a b.
Proof.
  intros Ha Hb. unfold heapSort.
  rewrite Z.quot_div_nonneg by lia. set (i := (b - a - 1) / 2).
  assert (0 ≤ i ∧ b - a - 2 ≤ 2 * i ≤ b - a - 1) as Hi
    by (unfold i; Z.div_mod_to_equations; lia).
  destruct (heapBuild_run a (b - a) (Z.to_nat (i + 1)) i l) as (l1 & Hrun1 & Hre1 & Hh1);
    try lia.
  { intros j c Hj Hc Hcb. lia. }
  rewrite (bind_run _ _ l l1 tt Hrun1).
  pose proof (rearranged_len _ _ _ _ Hre1) as Hl1.
  destruct (heapPop_run a (b - a) (Z.to_nat (b - a)) (b - a - 1) l1)
    as (l' & Hrun & Hre & Hs); try lia.
  { replace (b - a - 1 + 1) with (b - a) by lia. exact Hh1. }
  { intros p q Hp Hpq Hq. lia. }
  replace (a + (b - a)) with b in * by lia.
  exists l'. split; [exact Hrun|]. split; [|exact Hs].
  eapply rearranged_trans; [lia|exact Hre1|exact Hre].
Qed.

(** *** Quicksort *)

Lemma sortedIn_glue (l : list A) (a mlo mhi b P : Z) :
  (∀ i, a ≤ i < mlo → keyAt l i ≤ P) →
  (∀ i, mlo ≤ i < mhi → keyAt l i = P) →
  (∀ i, mhi ≤ i < b → P ≤ keyAt l i) →
  sortedIn l a mlo → sortedIn l mhi b → sortedIn l a b.
Proof.
  intros HL HE HR Hs1 Hs2 i j Hi Hij Hj.
  destruct (Z_lt_dec i mlo) as [Hi1|Hi1]; [|destruct (Z_lt_dec i mhi) as [Hi2|Hi2]];
    (destruct (Z_lt_dec j mlo) as [Hj1|Hj1]; [|destruct (Z_lt_dec j mhi) as [Hj2|Hj2]]);
    try lia.
  - apply Hs1; lia.
  - rewrite (HE j) by lia. apply HL; lia.
  - transitivity P; [apply HL|apply HR]; lia.
  - rewrite (HE i), (HE j) by lia. lia.
  - rewrite (HE i) by lia. apply HR; lia.
  - apply Hs2; lia.
Qed.

Lemma sortedIn_outside (a b a' b' : Z) (l l' : list A) :
  0 ≤ a → rearranged a' b' l l' → (b ≤ a' ∨ b' ≤ a) →
  sortedIn l a b → sortedIn l' a b.
Proof.
  intros Ha (_ & O & _) Hd Hs i j Hi Hij Hj. rewrite !O by lia. apply Hs; lia.
Qed.

Lemma quickSort_sorts (maxDepth : nat) :
  ∀ (a b : Z) (l : list A),
    0 ≤ a ≤ b → b ≤ len l →
    ∃ l', quickSort less maxDepth a b l = Ok (tt, l')
          ∧ rearranged a b l l' ∧ sortedIn l' a b.
Proof.
  assert (∀ d a b l, 0 ≤ a ≤ b → b ≤ len l → b - a ≤ 12 →
     ∃ l', quickSort less d a b l = Ok (tt, l')
           ∧ rearranged a b l l' ∧ sortedIn l' a b) as Hsmall.
  { intros d a b l Ha Hb Hn.
    assert (quickSort less d a b l
            = (if 1 <? b - a
               then shellPass less (Z.to_nat (b - (a + 6))) (a + 6) ≫= λ _,
                    insertionSort less a b
               else mret tt) l) as ->.
    { destruct d; cbn [quickSort]; destruct (Z.ltb_spec 12 (b - a)); try lia; reflexivity. }
    destruct (Z.ltb_spec 1 (b - a)) as [H1|H1].
    - destruct (shellPass_rearranges a b (Z.to_nat (b - (a + 6))) (a + 6) l)
        as (l1 & Hrun1 & Hre1); try lia.
      rewrite (bind_run _ _ l l1 tt Hrun1).
      destruct (insertionSort_sorts a b l1) as (l' & Hrun & Hre & Hs); try lia.
      { rewrite (rearranged_len _ _ _ _ Hre1). lia. }
      exists l'. split; [exact Hrun|]. split; [|exact Hs].
      eapply rearranged_trans; [lia|exact Hre1|exact Hre].
    - exists l. split; [reflexivity|]. split; [apply rearranged_refl|].
      intros i j Hi Hij Hj. assert (i = j) as -> by lia. lia. }
  induction maxDepth as [|d IH]; intros a b l Ha Hb;
    destruct (Z_le_dec (b - a) 12) as [Hn|Hn]; try (apply Hsmall; assumption).
  - cbn [quickSort]. destruct (Z.ltb_spec 12 (b - a)); [|lia].
    apply heapSort_sorts; lia.
  - cbn [quickSort]. destruct (Z.ltb_spec 12 (b - a)); [|lia].
    destruct (doPivot_run a b l) as (mlo & mhi & l1 & P & Hrun1 & Hmlo & Hmhi & Hre1
                                     & HL & HE & HR); try lia.
    rewrite (bind_run _ _ l l1 (mlo, mhi) Hrun1). cbv beta iota.
    pose proof (rearranged_len _ _ _ _ Hre1) as Hl1.
    destruct (Z.ltb_spec (mlo - a) (b - mhi)) as [Hord|Hord].
    + destruct (IH a mlo l1) as (l2 & Hrun2 & Hre2 & Hs2); try lia.
      rewrite (bind_run _ _ l1 l2 tt Hrun2).
      pose proof (rearranged_len _ _ _ _ Hre2) as Hl2.
      destruct (IH mhi b l2) as (l3 & Hrun3 & Hre3 & Hs3); try lia.
      exists l3. split; [exact Hrun3|]. split.
      * eapply rearranged_trans; [lia|exact Hre1|].
        eapply rearranged_trans; [lia| |];
          (eapply rearranged_weaken; [| |eassumption]; lia).
      * apply (sortedIn_glue l3 a mlo mhi b P).
        -- intros i Hi. destruct Hre3 as (_ & O3 & _). rewrite O3 by lia.
           apply (rearranged_bound a mlo l1 l2 (λ k, k ≤ P) Hre2 HL i Hi).
        -- intros i Hi. destruct Hre3 as (_ & O3 & _), Hre2 as (_ & O2 & _).
           rewrite O3, O2 by lia. apply HE, Hi.
        -- assert (∀ i, mhi ≤ i < b → P ≤ keyAt l2 i) as HR2.
           { intros i Hi. destruct Hre2 as (_ & O2 & _). rewrite O2 by lia. apply HR, Hi. }
           intros i Hi.
           apply (rearranged_bound mhi b l2 l3 (λ k, P ≤ k) Hre3 HR2 i Hi).
        -- eapply sortedIn_outside; [|exact Hre3| |exact Hs2]; lia.
        -- exact Hs3.
    + destruct (IH mhi b l1) as (l2 & Hrun2 & Hre2 & Hs2); try lia.
      rewrite (bind_run _ _ l1 l2 tt Hrun2).
      pose proof (rearranged_len _ _ _ _ Hre2) as Hl2.
      destruct (IH a mlo l2) as (l3 & Hrun3 & Hre3 & Hs3); try lia.
      exists l3. split; [exact Hrun3|]. split.
      * eapply rearranged_trans; [lia|exact Hre1|].
        eapply rearranged_trans; [lia| |];
          (eapply rearranged_weaken; [| |eassumption]; lia).
      * apply (sortedIn_glue l3 a mlo mhi b P).
        -- assert (∀ i, a ≤ i < mlo → keyAt l2 i ≤ P) as HL2.
           { intros i Hi. destruct Hre2 as (_ & O2 & _). rewrite O2 by lia. apply HL, Hi. }
           intros i Hi.
           apply (rearranged_bound a mlo l2 l3 (λ k, k ≤ P) Hre3 HL2 i Hi).
        -- intros i Hi. destruct Hre3 as (_ & O3 & _), Hre2 as (_ & O2 & _).
           rewrite O3, O2 by lia. apply HE, Hi.
        -- intros i Hi. destruct Hre3 as (_ & O3 & _). rewrite O3 by lia.
           apply (rearranged_bound mhi b l1 l2 (λ k, P ≤ k) Hre2 HR i Hi).
        -- exact Hs3.
        -- eapply sortedIn_outside; [|exact Hre3| |exact Hs2]; lia.
Qed.

(** [sort.Sort] returns, and the slice it leaves is a rearrangement of
    its argument with ascending keys. *)
Lemma Sort_sorts (l : list A) :
  ∃ l', Sort less l = Ok l' ∧ l ≡ₚ l' ∧ sortedIn l' 0 (len l').
Proof.
  destruct (quickSort_sorts (maxDepth (len l)) 0 (len l) l) as (l' & Hrun & Hre & Hs).
  { unfold len. lia. }
  { lia. }
  exists l'. unfold Sort.
  rewrite (bind_run _ _ l l (len l) eq_refl), Hrun.
  split; [reflexivity|]. split; [apply Hre|].
  rewrite (rearranged_len _ _ _ _ Hre). exact Hs.
Qed.

(** *** The pattern-defeating quicksort: choosing the pivot *)

Variable xorshift_Next : Z → Z.

Lemma order2_run (a b swaps : Z) (l : list A) :
  0 ≤ a < len l → 0 ≤ b < len l →
  ∃ x y s, order2 less a b swaps l = Ok ((x, y, s), l)
           ∧ ((x = a ∧ y = b) ∨ (x = b ∧ y = a)).
Proof.
  intros Ha Hb. unfold order2. rewrite bind_Less by lia.
  destruct (keyAt l b <? keyAt l a); eexists _, _, _; (split; [reflexivity|]); auto.
Qed.

Lemma median_run (a b c swaps : Z) (l : list A) :
  0 ≤ a < len l → 0 ≤ b < len l → 0 ≤ c < len l →
  ∃ m s, median less a b c swaps l = Ok ((m, s), l) ∧ (m = a ∨ m = b ∨ m = c).
Proof.
  intros Ha Hb Hc. unfold median.
  destruct (order2_run a b swaps l Ha Hb) as (a1 & b1 & s1 & Hrun1 & H1).
  rewrite (bind_run _ _ l l _ Hrun1). cbv beta iota.
  destruct (order2_run b1 c s1 l) as (b2 & c2 & s2 & Hrun2 & H2); [lia..|].
  rewrite (bind_run _ _ l l _ Hrun2). cbv beta iota.
  destruct (order2_run a1 b2 s2 l) as (a3 & b3 & s3 & Hrun3 & H3); [lia..|].
  rewrite (bind_run _ _ l l _ Hrun3). cbv beta iota.
  eexists _, _. split; [reflexivity|]. lia.
Qed.

(** Opens the binds of a computation so that the runs of its parts can
    be rewritten in. *)
Ltac open_binds := unfold mbind, mret, SortM_bind, SortM_ret; cbv beta iota.

Lemma choosePivot_run (a b : Z) (l : list A) :
  0 ≤ a → a < b → b ≤ len l →
  ∃ pivot hint, choosePivot less a b l = Ok ((pivot, hint), l) ∧ a ≤ pivot < b.
Proof.
  intros Ha Hab Hb. unfold choosePivot, medianAdjacent.
  rewrite Z.quot_div_nonneg by lia.
  set (q := (b - a) / 4).
  assert (0 ≤ q ∧ 4 * q ≤ b - a ∧ b - a < 4 * q + 4) as Hq
    by (unfold q; Z.div_mod_to_equations; lia).
  destruct (Z.leb_spec 8 (b - a)) as [H8|H8].
  - destruct (Z.leb_spec 50 (b - a)) as [H50|H50].
    + destruct (median_run (a + q * 1 - 1) (a + q * 1) (a + q * 1 + 1) 0 l)
        as (i & s1 & Hrun1 & Hi); [lia..|].
      destruct (median_run (a + q * 2 - 1) (a + q * 2) (a + q * 2 + 1) s1 l)
        as (j & s2 & Hrun2 & Hj); [lia..|].
      destruct (median_run (a + q * 3 - 1) (a + q * 3) (a + q * 3 + 1) s2 l)
        as (k & s3 & Hrun3 & Hk); [lia..|].
      destruct (median_run i j k s3 l) as (m & s4 & Hrun4 & Hm); [lia..|].
      open_binds. rewrite Hrun1. cbv beta iota. rewrite Hrun2. cbv beta iota.
      rewrite Hrun3. cbv beta iota. rewrite Hrun4. cbv beta iota.
      eexists _, _. split; [reflexivity|]. lia.
    + destruct (median_run (a + q * 1) (a + q * 2) (a + q * 3) 0 l)
        as (m & s4 & Hrun4 & Hm); [lia..|].
      open_binds. rewrite Hrun4. cbv beta iota.
      eexists _, _. split; [reflexivity|]. lia.
  - open_binds. eexists _, _. split; [reflexivity|]. lia.
Qed.

(** *** Reversing a range and breaking patterns *)

Lemma reverseLoop_run (a b : Z) (rounds : nat) :
  ∀ (i j : Z) (l : list A),
    0 ≤ a ≤ i → j < b → b ≤ len l →
    ∃ l', reverseLoop rounds i j l = Ok (tt, l') ∧ rearranged a b l l'.
Proof.
  induction rounds as [|rounds IH]; intros i j l Hi Hj Hb; cbn [reverseLoop].
  - exists l. split; [reflexivity|apply rearranged_refl].
  - destruct (Z.ltb_spec i j) as [Hij|Hij].
    + rewrite bind_Swap by lia.
      destruct (IH (i + 1) (j - 1) (swapped l i j)) as (l' & Hrun & Hre); try lia.
      { rewrite len_swapped. lia. }
      exists l'. split; [exact Hrun|].
      eapply rearranged_trans; [lia| |exact Hre]. apply rearranged_swapped; lia.
    + exists l. split; [reflexivity|apply rearranged_refl].
Qed.

Lemma reverseRange_run (a b : Z) (l : list A) :
  0 ≤ a → b ≤ len l →
  ∃ l', reverseRange a b l = Ok (tt, l') ∧ rearranged a b l l'.
Proof.
  intros Ha Hb. unfold reverseRange. apply reverseLoop_run; lia.
Qed.

Lemma pow2_size_nat (p : positive) :
  2 ^ Z.of_nat (Pos.size_nat p) ≤ 2 * Z.pos p.
Proof.
  induction p as [p IH|p IH|]; cbn [Pos.size_nat];
    rewrite ?Nat2Z.inj_succ, ?Z.pow_succ_r by lia; lia.
Qed.

Lemma nextPowerOfTwo_run (n : Z) :
  0 < n →
  ∃ k, 0 ≤ k ∧ nextPowerOfTwo n = 2 ^ k ∧ 2 ^ k ≤ 2 * n.
Proof.
  intros Hn. unfold nextPowerOfTwo. destruct n as [|p|p]; try lia.
  exists (Z.of_nat (Pos.size_nat p)). split; [lia|].
  split; [|apply pow2_size_nat]. cbn [Z.to_N N.size_nat].
  rewrite Z.shiftl_1_l. reflexivity.
Qed.

Lemma breakLoop_run (a b modulus idx : Z) (rounds : nat) :
  ∀ (i random : Z) (l : list A),
    0 ≤ a → b ≤ len l →
    (∃ k, 0 ≤ k ∧ modulus = 2 ^ k ∧ 2 ^ k ≤ 2 * (b - a)) →
    0 ≤ i → a ≤ idx - 1 → idx - 1 + i + Z.of_nat rounds ≤ b →
    ∃ l', breakLoop xorshift_Next rounds a (b - a) modulus idx i random l = Ok (tt, l')
          ∧ rearranged a b l l'.
Proof.
  induction rounds as [|rounds IH]; intros i random l Ha Hb Hm Hi Hidx Hr;
    cbn [breakLoop].
  - exists l. split; [reflexivity|apply rearranged_refl].
  - destruct Hm as (k & Hk & -> & Hle).
    replace (2 ^ k - 1) with (Z.ones k) by (rewrite Z.ones_equiv; lia).
    rewrite Z.land_ones by exact Hk.
    set (r := xorshift_Next random mod 2 ^ 64).
    assert (0 ≤ r mod 2 ^ k < 2 ^ k) as Ho by (apply Z.mod_pos_bound; lia).
    set (other := if b - a <=? r mod 2 ^ k then r mod 2 ^ k - (b - a) else r mod 2 ^ k).
    assert (0 ≤ other < b - a) as Hother
      by (unfold other; destruct (Z.leb_spec (b - a) (r mod 2 ^ k)); lia).
    rewrite bind_Swap by lia.
    destruct (IH (i + 1) r (swapped l (idx - 1 + i) (a + other)))
      as (l' & Hrun & Hre); try lia.
    { rewrite len_swapped. lia. }
    { exists k. auto. }
    exists l'. split; [exact Hrun|].
    eapply rearranged_trans; [lia| |exact Hre]. apply rearranged_swapped; lia.
Qed.

Lemma breakPatterns_run (a b : Z) (l : list A) :
  0 ≤ a → a ≤ b → b ≤ len l →
  ∃ l', breakPatterns xorshift_Next a b l = Ok (tt, l') ∧ rearranged a b l l'.
Proof.
  intros Ha Hab Hb. unfold breakPatterns.
  destruct (Z.leb_spec 8 (b - a)) as [H8|H8].
  - rewrite Z.quot_div_nonneg by lia.
    assert (2 ≤ (b - a) / 4 ∧ 4 * ((b - a) / 4) ≤ b - a) as Hq
      by (Z.div_mod_to_equations; lia).
    apply breakLoop_run; try lia.
    apply nextPowerOfTwo_run. lia.
  - exists l. split; [reflexivity|apply rearranged_refl].
Qed.

(** *** The scans of partition and partitionEqual *)

Lemma skipBelow_run (rounds : nat) :
  ∀ (a i j : Z) (l : list A),
    0 ≤ a < len l → 0 ≤ i → j < len l → j - i + 1 ≤ Z.of_nat rounds →
    ∃ i', skipBelow less rounds a i j l = Ok (i', l)
          ∧ i ≤ i' ∧ (i ≤ j + 1 → i' ≤ j + 1)
          ∧ (∀ k, i ≤ k < i' → keyAt l k < keyAt l a)
          ∧ (i' ≤ j → keyAt l a ≤ keyAt l i').
Proof.
  induction rounds as [|rounds IH]; intros a i j l Ha Hi Hj Hr.
  - exists i. split; [reflexivity|]. repeat split; lia.
  - cbn [skipBelow]. destruct (Z.leb_spec i j) as [Hij|Hij].
    + rewrite bind_Less by lia.
      destruct (Z.ltb_spec (keyAt l i) (keyAt l a)) as [Hlt|Hge].
      * destruct (IH a (i + 1) j l) as (i' & Hrun & H1 & H2 & H3 & H4); try lia.
        exists i'. split; [exact Hrun|]. repeat split; try lia.
        intros k Hk. destruct (Z.eq_dec k i) as [->|]; [exact Hlt|apply H3; lia].
      * exists i. split; [reflexivity|]. repeat split; lia.
    + exists i. split; [reflexivity|]. repeat split; lia.
Qed.

Lemma skipNotBelow_run (rounds : nat) :
  ∀ (a i j : Z) (l : list A),
    0 ≤ a < len l → 0 ≤ i → j < len l → j - i + 1 ≤ Z.of_nat rounds →
    ∃ j', skipNotBelow less rounds a i j l = Ok (j', l)
          ∧ j' ≤ j ∧ (i - 1 ≤ j → i - 1 ≤ j')
          ∧ (∀ k, j' < k ≤ j → keyAt l a ≤ keyAt l k)
          ∧ (i ≤ j' → keyAt l j' < keyAt l a).
Proof.
  induction rounds as [|rounds IH]; intros a i j l Ha Hi Hj Hr.
  - exists j. split; [reflexivity|]. repeat split; lia.
  - cbn [skipNotBelow]. destruct (Z.leb_spec i j) as [Hij|Hij].
    + rewrite bind_Less by lia.
      destruct (Z.ltb_spec (keyAt l j) (keyAt l a)) as [Hlt|Hge]; cbn [negb].
      * exists j. split; [reflexivity|]. repeat split; lia.
      * destruct (IH a i (j - 1) l) as (j' & Hrun & H1 & H2 & H3 & H4); try lia.
        exists j'. split; [exact Hrun|]. repeat split; try lia.
        intros k Hk. destruct (Z.eq_dec k j) as [->|]; [exact Hge|apply H3; lia].
    + exists j. split; [reflexivity|]. repeat split; lia.
Qed.

Lemma skipNotAbove_run (rounds : nat) :
  ∀ (a i j : Z) (l : list A),
    0 ≤ a < len l → 0 ≤ i → j < len l → j - i + 1 ≤ Z.of_nat rounds →
    ∃ i', skipNotAbove less rounds a i j l = Ok (i', l)
          ∧ i ≤ i' ∧ (i ≤ j + 1 → i' ≤ j + 1)
          ∧ (∀ k, i ≤ k < i' → keyAt l k ≤ keyAt l a)
          ∧ (i' ≤ j → keyAt l a < keyAt l i').
Proof.
  induction rounds as [|rounds IH]; intros a i j l Ha Hi Hj Hr.
  - exists i. split; [reflexivity|]. repeat split; lia.
  - cbn [skipNotAbove]. destruct (Z.leb_spec i j) as [Hij|Hij].
    + rewrite bind_Less by lia.
      destruct (Z.ltb_spec (keyAt l a) (keyAt l i)) as [Hlt|Hge]; cbn [negb].
      * exists i. split; [reflexivity|]. repeat split; lia.
      * destruct (IH a (i + 1) j l) as (i' & Hrun & H1 & H2 & H3 & H4); try lia.
        exists i'. split; [exact Hrun|]. repeat split; try lia.
        intros k Hk. destruct (Z.eq_dec k i) as [->|]; [exact Hge|apply H3; lia].
    + exists i. split; [reflexivity|]. repeat split; lia.
Qed.

Lemma skipAbove_run (rounds : nat) :
  ∀ (a i j : Z) (l : list A),
    0 ≤ a < len l → 0 ≤ i → j < len l → j - i + 1 ≤ Z.of_nat rounds →
    ∃ j', skipAbove less rounds a i j l = Ok (j', l)
          ∧ j' ≤ j ∧ (i - 1 ≤ j → i - 1 ≤ j')
          ∧ (∀ k, j' < k ≤ j → keyAt l a < keyAt l k)
          ∧ (i ≤ j' → keyAt l j' ≤ keyAt l a).
Proof.
  induction rounds as [|rounds IH]; intros a i j l Ha Hi Hj Hr.
  - exists j. split; [reflexivity|]. repeat split; lia.
  - cbn [skipAbove]. destruct (Z.leb_spec i j) as [Hij|Hij].
    + rewrite bind_Less by lia.
      destruct (Z.ltb_spec (keyAt l a) (keyAt l j)) as [Hlt|Hge].
      * destruct (IH a i (j - 1) l) as (j' & Hrun & H1 & H2 & H3 & H4); try lia.
        exists j'. split; [exact Hrun|]. repeat split; try lia.
        intros k Hk. destruct (Z.eq_dec k j) as [->|]; [exact Hlt|apply H3; lia].
      * exists j. split; [reflexivity|]. repeat split; lia.
    + exists j. split; [reflexivity|]. repeat split; lia.
Qed.

(** *** partition *)

Lemma partitionRounds_run (b : Z) (rounds : nat) :
  ∀ (a i j : Z) (l : list A),
    0 ≤ a < i → i ≤ j + 1 → j < b → b ≤ len l →
    j - i + 1 ≤ Z.of_nat rounds →
    (∀ k, a < k < i → keyAt l k < keyAt l a) →
    (∀ k, j < k < b → keyAt l a ≤ keyAt l k) →
    ∃ j' l', partitionRounds less rounds a i j l = Ok (j', l')
             ∧ i - 1 ≤ j' ≤ j ∧ rearranged i (j + 1) l l'
             ∧ (∀ k, a < k ≤ j' → keyAt l' k < keyAt l a)
             ∧ (∀ k, j' < k < b → keyAt l a ≤ keyAt l' k).
Proof.
  induction rounds as [|rounds IH]; intros a i j l Ha Hij Hj Hb Hr HL HR.
  - assert (j = i - 1) as -> by lia.
    exists (i - 1), l. split; [reflexivity|]. split; [lia|].
    split; [apply rearranged_refl|]. split; intros k Hk; [apply HL|apply HR]; lia.
  - cbn [partitionRounds].
    destruct (skipBelow_run (Z.to_nat (j - i + 1)) a i j l)
      as (i1 & Hrun1 & I1 & I2 & I3 & I4); try lia.
    rewrite (bind_run _ _ l l i1 Hrun1).
    destruct (skipNotBelow_run (Z.to_nat (j - i1 + 1)) a i1 j l)
      as (j1 & Hrun2 & J1 & J2 & J3 & J4); try lia.
    rewrite (bind_run _ _ l l j1 Hrun2).
    destruct (Z.ltb_spec j1 i1) as [Hji|Hji].
    + assert (j1 = i1 - 1) as -> by lia.
      exists (i1 - 1), l. split; [reflexivity|]. split; [lia|].
      split; [apply rearranged_refl|]. split.
      * intros k Hk. destruct (Z_lt_dec k i); [apply HL; lia|apply I3; lia].
      * intros k Hk. destruct (Z_le_dec k j); [apply J3; lia|apply HR; lia].
    + specialize (I4 ltac:(lia)). specialize (J4 ltac:(lia)).
      assert (i1 < j1) as Hlt
        by (destruct (Z.eq_dec i1 j1) as [E|E]; [rewrite E in I4|]; lia).
      rewrite bind_Swap by lia.
      assert (∀ k, 0 ≤ k → keyAt (swapped l i1 j1) k
                = if k =? j1 then keyAt l i1
                  else if k =? i1 then keyAt l j1 else keyAt l k) as HK
        by (intros k Hk; apply keyAt_swapped; lia).
      assert (keyAt (swapped l i1 j1) a = keyAt l a) as HP.
      { rewrite HK by lia. destruct (Z.eqb_spec a j1); [lia|].
        destruct (Z.eqb_spec a i1); [lia|]. reflexivity. }
      destruct (IH a (i1 + 1) (j1 - 1) (swapped l i1 j1))
        as (j' & l' & Hrun & Hj' & Hre & HL' & HR'); try lia.
      { rewrite len_swapped. lia. }
      { intros k Hk. rewrite HP, HK by lia.
        destruct (Z.eqb_spec k j1); [lia|].
        destruct (Z.eqb_spec k i1) as [->|]; [exact J4|].
        destruct (Z_lt_dec k i); [apply HL; lia|apply I3; lia]. }
      { intros k Hk. rewrite HP, HK by lia.
        destruct (Z.eqb_spec k j1) as [->|]; [exact I4|].
        destruct (Z.eqb_spec k i1); [lia|].
        destruct (Z_le_dec k j); [apply J3; lia|apply HR; lia]. }
      rewrite HP in HL', HR'.
      exists j', l'. split; [exact Hrun|]. split; [lia|]. split; [|split; assumption].
      eapply rearranged_trans; [lia| |eapply rearranged_weaken; [| |exact Hre]; lia].
      apply rearranged_swapped; lia.
Qed.

Lemma partition_run (a b pivot : Z) (l : list A) :
  0 ≤ a → a ≤ pivot < b → b ≤ len l →
  ∃ mid ap l', partition less a b pivot l = Ok ((mid, ap), l')
               ∧ rearranged a b l l' ∧ a ≤ mid < b
               ∧ (∀ k, a ≤ k < mid → keyAt l' k ≤ keyAt l' mid)
               ∧ (∀ k, mid < k < b → keyAt l' mid ≤ keyAt l' k).
Proof.
  intros Ha Hp Hb. unfold partition.
  rewrite bind_Swap by lia.
  set (l0 := swapped l a pivot).
  assert (len l0 = len l) as Hl0 by apply len_swapped.
  assert (rearranged a b l l0) as Hre0 by (apply rearranged_swapped; lia).
  destruct (skipBelow_run (Z.to_nat (b - 1 - (a + 1) + 1)) a (a + 1) (b - 1) l0)
    as (i1 & Hrun1 & I1 & I2 & I3 & I4); try lia.
  rewrite (bind_run _ _ l0 l0 i1 Hrun1).
  destruct (skipNotBelow_run (Z.to_nat (b - 1 - i1 + 1)) a i1 (b - 1) l0)
    as (j1 & Hrun2 & J1 & J2 & J3 & J4); try lia.
  rewrite (bind_run _ _ l0 l0 j1 Hrun2).
  destruct (Z.ltb_spec j1 i1) as [Hji|Hji].
  - assert (j1 = i1 - 1) as -> by lia.
    rewrite bind_Swap by lia.
    assert (∀ k, 0 ≤ k → keyAt (swapped l0 (i1 - 1) a) k
              = if k =? a then keyAt l0 (i1 - 1)
                else if k =? i1 - 1 then keyAt l0 a else keyAt l0 k) as HK
      by (intros k Hk; apply keyAt_swapped; lia).
    exists (i1 - 1), true, (swapped l0 (i1 - 1) a). split; [reflexivity|].
    split.
    { eapply rearranged_trans; [lia|exact Hre0|]. apply rearranged_swapped; lia. }
    split; [lia|]. split.
    + intros k Hk. rewrite !HK by lia.
      destruct (Z.eqb_spec (i1 - 1) a) as [E|E]; [lia|]. rewrite Z.eqb_refl.
      destruct (Z.eqb_spec k a) as [->|]; [apply Z.lt_le_incl, I3; lia|].
      destruct (Z.eqb_spec k (i1 - 1)); [lia|]. apply Z.lt_le_incl, I3. lia.
    + intros k Hk. rewrite !HK by lia.
      destruct (Z.eqb_spec k a); [lia|]. destruct (Z.eqb_spec k (i1 - 1)); [lia|].
      destruct (Z.eqb_spec (i1 - 1) a) as [E|E]; [rewrite E; apply J3; lia|].
      rewrite Z.eqb_refl. apply J3. lia.
  - specialize (I4 ltac:(lia)). specialize (J4 ltac:(lia)).
    assert (i1 < j1) as Hlt
      by (destruct (Z.eq_dec i1 j1) as [E|E]; [rewrite E in I4|]; lia).
    rewrite bind_Swap by lia.
    set (l1 := swapped l0 i1 j1).
    assert (len l1 = len l) as Hl1 by (unfold l1; rewrite len_swapped; exact Hl0).
    assert (∀ k, 0 ≤ k → keyAt l1 k
              = if k =? j1 then keyAt l0 i1
                else if k =? i1 then keyAt l0 j1 else keyAt l0 k) as HK
      by (intros k Hk; apply keyAt_swapped; lia).
    assert (keyAt l1 a = keyAt l0 a) as HP.
    { rewrite HK by lia. destruct (Z.eqb_spec a j1); [lia|].
      destruct (Z.eqb_spec a i1); [lia|]. reflexivity. }
    destruct (partitionRounds_run b (Z.to_nat (j1 - i1)) a (i1 + 1) (j1 - 1) l1)
      as (j' & l2 & Hrun3 & Hj' & Hre2 & HL & HR); try lia.
    { intros k Hk. rewrite HP, HK by lia.
      destruct (Z.eqb_spec k j1); [lia|].
      destruct (Z.eqb_spec k i1) as [->|]; [exact J4|]. apply I3. lia. }
    { intros k Hk. rewrite HP, HK by lia.
      destruct (Z.eqb_spec k j1) as [->|]; [exact I4|].
      destruct (Z.eqb_spec k i1); [lia|]. apply J3. lia. }
    rewrite (bind_run _ _ l1 l2 j' Hrun3).
    pose proof (rearranged_len _ _ _ _ Hre2) as Hl2.
    assert (keyAt l2 a = keyAt l1 a) as HP2
      by (destruct Hre2 as (_ & O & _); apply O; lia).
    rewrite bind_Swap by lia.
    assert (∀ k, 0 ≤ k → keyAt (swapped l2 j' a) k
              = if k =? a then keyAt l2 j'
                else if k =? j' then keyAt l2 a else keyAt l2 k) as HK3
      by (intros k Hk; apply keyAt_swapped; lia).
    exists j', false, (swapped l2 j' a). split; [reflexivity|].
    split.
    { eapply rearranged_trans; [lia|exact Hre0|].
      apply (rearranged_trans a b l0 l1); [lia|apply rearranged_swapped; lia|].
      apply (rearranged_trans a b l1 l2); [lia| |apply rearranged_swapped; lia].
      eapply rearranged_weaken; [| |exact Hre2]; lia. }
    split; [lia|]. split.
    + intros k Hk. rewrite !HK3 by lia.
      destruct (Z.eqb_spec j' a) as [E|E]; [lia|]. rewrite Z.eqb_refl, HP2.
      destruct (Z.eqb_spec k a) as [->|]; [apply Z.lt_le_incl, HL; lia|].
      destruct (Z.eqb_spec k j'); [lia|]. apply Z.lt_le_incl, HL. lia.
    + intros k Hk. rewrite !HK3 by lia.
      destruct (Z.eqb_spec k a); [lia|]. destruct (Z.eqb_spec k j'); [lia|].
      destruct (Z.eqb_spec j' a) as [E|E]; [lia|]. rewrite Z.eqb_refl, HP2.
      apply HR. lia.
Qed.

(** *** partitionEqual *)

Lemma partitionEqualRounds_run (b : Z) (rounds : nat) :
  ∀ (a i j : Z) (l : list A),
    0 ≤ a < i → i ≤ j + 1 → j < b → b ≤ len l →
    j - i + 1 ≤ Z.of_nat rounds →
    (∀ k, a < k < i → keyAt l k ≤ keyAt l a) →
    (∀ k, j < k < b → keyAt l a < keyAt l k) →
    ∃ i' l', partitionEqualRounds less rounds a i j l = Ok (i', l')
             ∧ i ≤ i' ≤ j + 1 ∧ rearranged i (j + 1) l l'
             ∧ (∀ k, a < k < i' → keyAt l' k ≤ keyAt l a)
             ∧ (∀ k, i' ≤ k < b → keyAt l a < keyAt l' k).
Proof.
  induction rounds as [|rounds IH]; intros a i j l Ha Hij Hj Hb Hr HL HR.
  - assert (j = i - 1) as -> by lia.
    exists i, l. split; [reflexivity|]. split; [lia|].
    split; [apply rearranged_refl|]. split; intros k Hk; [apply HL|apply HR]; lia.
  - cbn [partitionEqualRounds].
    destruct (skipNotAbove_run (Z.to_nat (j - i + 1)) a i j l)
      as (i1 & Hrun1 & I1 & I2 & I3 & I4); try lia.
    rewrite (bind_run _ _ l l i1 Hrun1).
    destruct (skipAbove_run (Z.to_nat (j - i1 + 1)) a i1 j l)
      as (j1 & Hrun2 & J1 & J2 & J3 & J4); try lia.
    rewrite (bind_run _ _ l l j1 Hrun2).
    destruct (Z.ltb_spec j1 i1) as [Hji|Hji].
    + assert (j1 = i1 - 1) as -> by lia.
      exists i1, l. split; [reflexivity|]. split; [lia|].
      split; [apply rearranged_refl|]. split.
      * intros k Hk. destruct (Z_lt_dec k i); [apply HL; lia|apply I3; lia].
      * intros k Hk. destruct (Z_le_dec k j); [apply J3; lia|apply HR; lia].
    + specialize (I4 ltac:(lia)). specialize (J4 ltac:(lia)).
      assert (i1 < j1) as Hlt
        by (destruct (Z.eq_dec i1 j1) as [E|E]; [rewrite E in I4|]; lia).
      rewrite bind_Swap by lia.
      assert (∀ k, 0 ≤ k → keyAt (swapped l i1 j1) k
                = if k =? j1 then keyAt l i1
                  else if k =? i1 then keyAt l j1 else keyAt l k) as HK
        by (intros k Hk; apply keyAt_swapped; lia).
      assert (keyAt (swapped l i1 j1) a = keyAt l a) as HP.
      { rewrite HK by lia. destruct (Z.eqb_spec a j1); [lia|].
        destruct (Z.eqb_spec a i1); [lia|]. reflexivity. }
      destruct (IH a (i1 + 1) (j1 - 1) (swapped l i1 j1))
        as (i' & l' & Hrun & Hi' & Hre & HL' & HR'); try lia.
      { rewrite len_swapped. lia. }
      { intros k Hk. rewrite HP, HK by lia.
        destruct (Z.eqb_spec k j1); [lia|].
        destruct (Z.eqb_spec k i1) as [->|]; [exact J4|].
        destruct (Z_lt_dec k i); [apply HL; lia|apply I3; lia]. }
      { intros k Hk. rewrite HP, HK by lia.
        destruct (Z.eqb_spec k j1) as [->|]; [exact I4|].
        destruct (Z.eqb_spec k i1); [lia|].
        destruct (Z_le_dec k j); [apply J3; lia|apply HR; lia]. }
      rewrite HP in HL', HR'.
      exists i', l'. split; [exact Hrun|]. split; [lia|]. split; [|split; assumption].
      eapply rearranged_trans; [lia| |eapply rearranged_weaken; [| |exact Hre]; lia].
      apply rearranged_swapped; lia.
Qed.

Lemma partitionEqual_run (a b pivot : Z) (l : list A) :
  0 ≤ a → a ≤ pivot < b → b ≤ len l →
  ∃ mid l', partitionEqual less a b pivot l = Ok (mid, l')
            ∧ rearranged a b l l' ∧ a < mid ≤ b
            ∧ (∀ k, a ≤ k < mid → keyAt l' k ≤ keyAt l pivot)
            ∧ (∀ k, mid ≤ k < b → keyAt l pivot < keyAt l' k).
Proof.
  intros Ha Hp Hb. unfold partitionEqual.
  rewrite bind_Swap by lia.
  set (l0 := swapped l a pivot).
  assert (len l0 = len l) as Hl0 by apply len_swapped.
  assert (rearranged a b l l0) as Hre0 by (apply rearranged_swapped; lia).
  assert (keyAt l0 a = keyAt l pivot) as HP.
  { unfold l0. rewrite keyAt_swapped by lia.
    destruct (Z.eqb_spec a pivot) as [->|]; [reflexivity|]. rewrite Z.eqb_refl.
    reflexivity. }
  destruct (partitionEqualRounds_run b (Z.to_nat (b - a)) a (a + 1) (b - 1) l0)
    as (mid & l' & Hrun & Hmid & Hre & HL & HR); try lia.
  exists mid, l'. split; [exact Hrun|].
  split.
  { eapply rearranged_trans; [lia|exact Hre0|].
    eapply rearranged_weaken; [| |exact Hre]; lia. }
  split; [lia|]. rewrite <- HP. split; [|exact HR].
  intros k Hk. destruct (Z.eq_dec k a) as [->|]; [|apply HL; lia].
  destruct Hre as (_ & O & _). rewrite O by lia. lia.
Qed.

(** *** partialInsertionSort *)

Lemma lowerBound_rearranged (a b : Z) (l l' : list A) :
  0 ≤ a → rearranged a b l l' → lowerBound l a b → lowerBound l' a b.
Proof.
  intros Ha Hre Hlb H0 k Hk. destruct Hre as (_ & O & I).
  rewrite O by lia. destruct (I k Hk) as (j & Hj & ->). apply Hlb; lia.
Qed.

Lemma sortedIn_snoc (l : list A) (a i : Z) :
  a < i → sortedIn l a i → keyAt l (i - 1) ≤ keyAt l i → sortedIn l a (i + 1).
Proof.
  intros Hai Hs Hk p q Hp Hpq Hq.
  destruct (Z.eq_dec q i) as [->|Hqi]; [|apply Hs; lia].
  destruct (Z.eq_dec p i) as [->|Hpi]; [lia|].
  transitivity (keyAt l (i - 1)); [apply Hs; lia|exact Hk].
Qed.

Lemma skipOrdered_run (rounds : nat) :
  ∀ (a i b : Z) (l : list A),
    0 ≤ a < i → b ≤ len l → b - i ≤ Z.of_nat rounds → sortedIn l a i →
    ∃ i', skipOrdered less rounds i b l = Ok (i', l)
          ∧ i ≤ i' ∧ (i ≤ b → i' ≤ b)
          ∧ sortedIn l a i'
          ∧ (i' < b → keyAt l i' < keyAt l (i' - 1)).
Proof.
  induction rounds as [|rounds IH]; intros a i b l Ha Hb Hr Hs.
  - exists i. split; [reflexivity|]. repeat split; (lia || exact Hs).
  - cbn [skipOrdered]. destruct (Z.ltb_spec i b) as [Hib|Hib].
    + rewrite bind_Less by lia.
      destruct (Z.ltb_spec (keyAt l i) (keyAt l (i - 1))) as [Hlt|Hge]; cbn [negb].
      * exists i. split; [reflexivity|]. repeat split; (lia || exact Hs).
      * destruct (IH a (i + 1) b l) as (i' & Hrun & H1 & H2 & H3 & H4); try lia.
        { apply sortedIn_snoc; (lia || assumption). }
        exists i'. split; [exact Hrun|]. repeat split; (lia || assumption).
    + exists i. split; [reflexivity|]. repeat split; (lia || exact Hs).
Qed.

(** The shift to the left stops at the start of the range, as the inner
    loop of insertionSort does: below the range lies a lower bound. *)
Lemma shiftLeft_insertionInner (a : Z) (rounds : nat) :
  ∀ (j : Z) (l : list A),
    0 ≤ a ≤ j → j < len l →
    (0 < a → ∀ k, a ≤ k ≤ j → keyAt l (a - 1) ≤ keyAt l k) →
    j - a + (if 0 <? a then 1 else 0) ≤ Z.of_nat rounds →
    shiftLeft less rounds j l = insertionInner less (Z.to_nat (j - a)) a j l.
Proof.
  induction rounds as [|rounds IH]; intros j l Ha Hj Hlb Hr.
  - destruct (Z.ltb_spec 0 a); [lia|]. assert (j = a) as -> by lia.
    replace (Z.to_nat (a - a)) with O by lia. reflexivity.
  - cbn [shiftLeft]. destruct (Z.eq_dec j a) as [->|Hja].
    + replace (Z.to_nat (a - a)) with O by lia. cbn [insertionInner].
      destruct (Z.leb_spec 1 a) as [H1|H1]; [|reflexivity].
      rewrite bind_Less by lia.
      destruct (Z.ltb_spec (keyAt l a) (keyAt l (a - 1))) as [Hlt|Hge]; [|reflexivity].
      specialize (Hlb ltac:(lia) a ltac:(lia)). lia.
    + replace (Z.to_nat (j - a)) with (S (Z.to_nat (j - 1 - a))) by lia.
      cbn [insertionInner].
      destruct (Z.leb_spec 1 j) as [_|H1]; [|lia].
      destruct (Z.ltb_spec a j) as [_|H2]; [|lia].
      rewrite !bind_Less by lia.
      destruct (Z.ltb_spec (keyAt l j) (keyAt l (j - 1))) as [Hlt|Hge]; cbn [negb];
        [|reflexivity].
      rewrite !bind_Swap by lia.
      apply IH; [lia|rewrite len_swapped; lia| |destruct (0 <? a); lia].
      intros H0 k Hk. rewrite !keyAt_swapped by lia.
      destruct (Z.eqb_spec (a - 1) (j - 1)); [lia|].
      destruct (Z.eqb_spec (a - 1) j); [lia|].
      destruct (Z.eqb_spec k (j - 1)); [apply Hlb; lia|].
      destruct (Z.eqb_spec k j); [lia|]. apply Hlb; lia.
Qed.

Lemma shiftRight_run (b : Z) (rounds : nat) :
  ∀ (j : Z) (l : list A),
    1 ≤ j → b ≤ len l →
    ∃ l', shiftRight less rounds j b l = Ok (tt, l') ∧ rearranged (j - 1) b l l'.
Proof.
  induction rounds as [|rounds IH]; intros j l Hj Hb; cbn [shiftRight].
  - exists l. split; [reflexivity|apply rearranged_refl].
  - destruct (Z.ltb_spec j b) as [Hjb|Hjb].
    + rewrite bind_Less by lia.
      destruct (keyAt l j <? keyAt l (j - 1)); cbn [negb].
      * rewrite bind_Swap by lia.
        destruct (IH (j + 1) (swapped l j (j - 1))) as (l' & Hrun & Hre); try lia.
        { rewrite len_swapped. lia. }
        exists l'. split; [exact Hrun|].
        apply (rearranged_trans (j - 1) b l (swapped l j (j - 1)));
          [lia|apply rearranged_swapped; lia|].
        eapply rearranged_weaken; [| |exact Hre]; lia.
      * exists l. split; [reflexivity|apply rearranged_refl].
    + exists l. split; [reflexivity|apply rearranged_refl].
Qed.

Lemma partialSteps_run (steps : nat) :
  ∀ (a b i : Z) (l : list A),
    0 ≤ a < i → i ≤ b → b ≤ len l →
    lowerBound l a b → sortedIn l a i →
    ∃ sorted l', partialSteps less steps a b i l = Ok (sorted, l')
                 ∧ rearranged a b l l'
                 ∧ (sorted = true → sortedIn l' a b).
Proof.
  induction steps as [|steps IH]; intros a b i l Ha Hi Hb Hlb Hs; cbn [partialSteps].
  - exists false, l. split; [reflexivity|]. split; [apply rearranged_refl|discriminate].
  - destruct (skipOrdered_run (Z.to_nat (b - i)) a i b l)
      as (i1 & Hrun1 & I1 & I2 & I3 & I4); try (lia || assumption).
    rewrite (bind_run _ _ l l i1 Hrun1).
    destruct (Z.eqb_spec i1 b) as [->|Hne].
    { exists true, l. split; [reflexivity|]. split; [apply rearranged_refl|].
      intros _. exact I3. }
    destruct (Z.ltb_spec (b - a) 50) as [H50|H50].
    { exists false, l. split; [reflexivity|]. split; [apply rearranged_refl|discriminate]. }
    specialize (I4 ltac:(lia)).
    rewrite bind_Swap by lia.
    set (l1 := swapped l i1 (i1 - 1)).
    assert (len l1 = len l) as Hl1 by apply len_swapped.
    assert (rearranged a b l l1) as Hre1 by (apply rearranged_swapped; lia).
    assert (∀ k, 0 ≤ k → keyAt l1 k
              = if k =? i1 - 1 then keyAt l i1
                else if k =? i1 then keyAt l (i1 - 1) else keyAt l k) as HK
      by (intros k Hk; apply keyAt_swapped; lia).
    pose proof (lowerBound_rearranged a b l l1 ltac:(lia) Hre1 Hlb) as Hlb1.
    (* the smaller one goes to the left *)
    assert (∃ l2, (if 2 <=? i1 - a
                   then shiftLeft less (Z.to_nat (i1 - 1)) (i1 - 1)
                   else mret tt) l1 = Ok (tt, l2)
                  ∧ rearranged a i1 l1 l2 ∧ sortedIn l2 a i1) as (l2 & Hrun2 & Hre2 & Hs2).
    { destruct (Z.leb_spec 2 (i1 - a)) as [H2|H2].
      - rewrite (shiftLeft_insertionInner a) by
          first [lia | intros H0 k Hk; apply Hlb1; lia | destruct (Z.ltb_spec 0 a); lia].
        destruct (insertionInner_sorts (i1 - 1) (Z.to_nat (i1 - 1 - a)) a (i1 - 1) l1)
          as (l2 & Hrun2 & Hre2 & Hs2); try lia.
        { intros p q Hp Hpq Hq Hpj Hqj. rewrite !HK by lia.
          destruct (Z.eqb_spec p (i1 - 1)); [lia|]. destruct (Z.eqb_spec q (i1 - 1)); [lia|].
          destruct (Z.eqb_spec p i1); [lia|]. destruct (Z.eqb_spec q i1); [lia|].
          apply I3; lia. }
        replace (i1 - 1 + 1) with i1 in * by lia.
        exists l2. auto.
      - exists l1. split; [reflexivity|]. split; [apply rearranged_refl|].
        intros p q Hp Hpq Hq. assert (p = q) as -> by lia. lia. }
    rewrite (bind_run _ _ l1 l2 tt Hrun2).
    pose proof (rearranged_len _ _ _ _ Hre2) as Hl2.
    (* the greater one goes to the right *)
    assert (∃ l3, (if 2 <=? b - i1
                   then shiftRight less (Z.to_nat (b - (i1 + 1))) (i1 + 1) b
                   else mret tt) l2 = Ok (tt, l3)
                  ∧ rearranged i1 b l2 l3) as (l3 & Hrun3 & Hre3).
    { destruct (Z.leb_spec 2 (b - i1)) as [H2|H2].
      - destruct (shiftRight_run b (Z.to_nat (b - (i1 + 1))) (i1 + 1) l2)
          as (l3 & Hrun3 & Hre3); try lia.
        replace (i1 + 1 - 1) with i1 in Hre3 by lia. exists l3. auto.
      - exists l2. split; [reflexivity|apply rearranged_refl]. }
    rewrite (bind_run _ _ l2 l3 tt Hrun3).
    pose proof (rearranged_len _ _ _ _ Hre3) as Hl3.
    assert (rearranged a b l l3) as Hre.
    { eapply rearranged_trans; [lia|exact Hre1|].
      eapply rearranged_trans; [lia| |];
        (eapply rearranged_weaken; [| |eassumption]; lia). }
    destruct (IH a b i1 l3) as (sorted & l' & Hrun & Hre' & Hsorted); try lia.
    { eapply lowerBound_rearranged; [|exact Hre|exact Hlb]. lia. }
    { eapply sortedIn_outside; [|exact Hre3| |exact Hs2]; lia. }
    exists sorted, l'. split; [exact Hrun|]. split; [|exact Hsorted].
    eapply rearranged_trans; [lia|exact Hre|exact Hre'].
Qed.

Lemma partialInsertionSort_run (a b : Z) (l : list A) :
  0 ≤ a < b → b ≤ len l → lowerBound l a b →
  ∃ sorted l', partialInsertionSort less a b l = Ok (sorted, l')
               ∧ rearranged a b l l'
               ∧ (sorted = true → sortedIn l' a b).
Proof.
  intros Ha Hb Hlb. unfold partialInsertionSort.
  apply partialSteps_run; try (lia || assumption).
  intros p q Hp Hpq Hq. assert (p = q) as -> by lia. lia.
Qed.

(** *** pdqsort *)

Lemma sortedIn_short (l : list A) (a b : Z) : b ≤ a + 1 → sortedIn l a b.
Proof. intros H p q Hp Hpq Hq. assert (p = q) as -> by lia. lia. Qed.

Lemma pdqsort_sorts (rounds : nat) :
  ∀ (a b limit : Z) (wasBalanced wasPartitioned : bool) (l : list A),
    0 ≤ a ≤ b → b ≤ len l → b - a < Z.of_nat rounds →
    lowerBound l a b →
    ∃ l', pdqsort less xorshift_Next rounds a b limit wasBalanced wasPartitioned l
          = Ok (tt, l')
          ∧ rearranged a b l l' ∧ sortedIn l' a b.
Proof.
  induction rounds as [|rounds IH]; intros a b limit wb wp l Ha Hb Hr Hlb; [lia|].
  cbn [pdqsort].
  destruct (Z.leb_spec (b - a) 12) as [H12|H12]; [apply insertionSort_sorts; lia|].
  destruct (Z.eqb_spec limit 0) as [_|_]; [apply heapSort_sorts; lia|].
  (* breakPatterns *)
  assert (∃ limit' l1,
            (if negb wb
             then breakPatterns xorshift_Next a b ≫= λ _, mret (limit - 1)
             else mret limit) l = Ok (limit', l1)
            ∧ rearranged a b l l1) as (limit' & l1 & Hrun1 & Hre1).
  { destruct wb; cbn [negb].
    - exists limit, l. split; [reflexivity|apply rearranged_refl].
    - destruct (breakPatterns_run a b l) as (l1 & Hrun1 & Hre1); try lia.
      rewrite (bind_run _ _ l l1 tt Hrun1). exists (limit - 1), l1.
      split; [reflexivity|exact Hre1]. }
  rewrite (bind_run _ _ l l1 limit' Hrun1).
  pose proof (rearranged_len _ _ _ _ Hre1) as Hl1.
  (* choosePivot *)
  destruct (choosePivot_run a b l1) as (pivot0 & hint0 & Hrun2 & Hp0); try lia.
  rewrite (bind_run _ _ l1 l1 (pivot0, hint0) Hrun2). cbv beta iota.
  (* reverseRange *)
  assert (∃ pivot hint l2,
            (match hint0 with
             | decreasingHint =>
                 reverseRange a b ≫= λ _, mret (b - 1 - (pivot0 - a), increasingHint)
             | _ => mret (pivot0, hint0)
             end) l1 = Ok ((pivot, hint), l2)
            ∧ rearranged a b l1 l2 ∧ a ≤ pivot < b)
    as (pivot & hint & l2 & Hrun3 & Hre2 & Hp).
  { destruct hint0.
    - exists pivot0, unknownHint, l1.
      split; [reflexivity|]. split; [apply rearranged_refl|lia].
    - exists pivot0, increasingHint, l1.
      split; [reflexivity|]. split; [apply rearranged_refl|lia].
    - destruct (reverseRange_run a b l1) as (l2 & Hrun3 & Hre2); try lia.
      rewrite (bind_run _ _ l1 l2 tt Hrun3).
      exists (b - 1 - (pivot0 - a)), increasingHint, l2.
      split; [reflexivity|]. split; [exact Hre2|lia]. }
  rewrite (bind_run _ _ l1 l2 (pivot, hint) Hrun3). cbv beta iota.
  pose proof (rearranged_len _ _ _ _ Hre2) as Hl2.
  assert (rearranged a b l l2) as Hre02
    by (eapply rearranged_trans; [lia|exact Hre1|exact Hre2]).
  (* partialInsertionSort *)
  assert (∃ sorted l3,
            (match hint with
             | increasingHint =>
                 if wb && wp then partialInsertionSort less a b else mret false
             | _ => mret false
             end) l2 = Ok (sorted, l3)
            ∧ rearranged a b l2 l3 ∧ (sorted = true → sortedIn l3 a b))
    as (sorted & l3 & Hrun4 & Hre3 & Hsorted).
  { assert (∃ sorted l3, (mret false : SortM bool) l2 = Ok (sorted, l3)
                         ∧ rearranged a b l2 l3 ∧ (sorted = true → sortedIn l3 a b))
      as Hno.
    { exists false, l2. split; [reflexivity|]. split; [apply rearranged_refl|discriminate]. }
    destruct hint; try exact Hno.
    destruct (wb && wp); [|exact Hno].
    apply partialInsertionSort_run; try lia.
    eapply lowerBound_rearranged; [|exact Hre02|exact Hlb]. lia. }
  rewrite (bind_run _ _ l2 l3 sorted Hrun4).
  pose proof (rearranged_len _ _ _ _ Hre3) as Hl3.
  assert (rearranged a b l l3) as Hre03
    by (eapply rearranged_trans; [lia|exact Hre02|exact Hre3]).
  destruct sorted.
  { exists l3. split; [reflexivity|]. split; [exact Hre03|apply Hsorted; reflexivity]. }
  clear Hsorted.
  pose proof (lowerBound_rearranged a b l l3 ltac:(lia) Hre03 Hlb) as Hlb3.
  (* the test for a range of duplicates *)
  assert (∃ equal,
            (if 0 <? a then lt ← Less less (a - 1) pivot; mret (negb lt) else mret false) l3
            = Ok (equal, l3)
            ∧ (equal = true → 0 < a ∧ keyAt l3 pivot ≤ keyAt l3 (a - 1)))
    as (equal & Hrun5 & Hequal).
  { destruct (Z.ltb_spec 0 a) as [H0|H0].
    - rewrite bind_Less by lia.
      exists (negb (keyAt l3 (a - 1) <? keyAt l3 pivot)). split; [reflexivity|].
      destruct (Z.ltb_spec (keyAt l3 (a - 1)) (keyAt l3 pivot)); [discriminate|].
      intros _. lia.
    - exists false. split; [reflexivity|discriminate]. }
  rewrite (bind_run _ _ l3 l3 equal Hrun5).
  destruct equal.
  - (* partitionEqual *)
    destruct (Hequal eq_refl) as [H0 Hle].
    assert (keyAt l3 (a - 1) = keyAt l3 pivot) as HP
      by (specialize (Hlb3 H0 pivot ltac:(lia)); lia).
    destruct (partitionEqual_run a b pivot l3)
      as (mid & l4 & Hrun6 & Hre4 & Hmid & HL & HR); try lia.
    rewrite (bind_run _ _ l3 l4 mid Hrun6).
    pose proof (rearranged_len _ _ _ _ Hre4) as Hl4.
    pose proof (lowerBound_rearranged a b l3 l4 ltac:(lia) Hre4 Hlb3) as Hlb4.
    assert (keyAt l4 (a - 1) = keyAt l3 pivot) as HP4
      by (destruct Hre4 as (_ & O & _); rewrite O by lia; exact HP).
    assert (∀ k, a ≤ k < mid → keyAt l4 k = keyAt l3 pivot) as HE.
    { intros k Hk. specialize (HL k Hk). specialize (Hlb4 H0 k ltac:(lia)). lia. }
    destruct (IH mid b limit' wb wp l4) as (l5 & Hrun7 & Hre5 & Hs5); try lia.
    { intros _ k Hk. rewrite (HE (mid - 1)) by lia. apply Z.lt_le_incl, HR, Hk. }
    exists l5. split; [exact Hrun7|]. split.
    + eapply rearranged_trans; [lia|exact Hre03|].
      eapply rearranged_trans; [lia|exact Hre4|].
      eapply rearranged_weaken; [| |exact Hre5]; lia.
    + apply (sortedIn_glue l5 a a mid b (keyAt l3 pivot)).
      * intros i Hi. lia.
      * intros i Hi. destruct Hre5 as (_ & O5 & _). rewrite O5 by lia. apply HE, Hi.
      * assert (∀ i, mid ≤ i < b → keyAt l3 pivot ≤ keyAt l4 i) as HR4
          by (intros i Hi; apply Z.lt_le_incl, HR, Hi).
        intros i Hi.
        apply (rearranged_bound mid b l4 l5 (λ k, keyAt l3 pivot ≤ k) Hre5 HR4 i Hi).
      * apply sortedIn_short. lia.
      * exact Hs5.
  - (* partition *)
    clear Hequal.
    destruct (partition_run a b pivot l3)
      as (mid & ap & l4 & Hrun6 & Hre4 & Hmid & HL & HR); try lia.
    rewrite (bind_run _ _ l3 l4 (mid, ap) Hrun6). cbv beta iota zeta.
    pose proof (rearranged_len _ _ _ _ Hre4) as Hl4.
    pose proof (lowerBound_rearranged a b l3 l4 ltac:(lia) Hre4 Hlb3) as Hlb4.
    assert (rearranged a b l l4) as Hre04
      by (eapply rearranged_trans; [lia|exact Hre03|exact Hre4]).
    set (P := keyAt l4 mid) in *.
    destruct (Z.ltb_spec (mid - a) (b - mid)) as [Hord|Hord].
    + destruct (IH a mid limit' true true l4) as (l5 & Hrun7 & Hre5 & Hs5); try lia.
      { intros H0 k Hk. apply Hlb4; lia. }
      rewrite (bind_run _ _ l4 l5 tt Hrun7).
      pose proof (rearranged_len _ _ _ _ Hre5) as Hl5.
      assert (keyAt l5 mid = P) as HP5
        by (destruct Hre5 as (_ & O5 & _); apply O5; lia).
      assert (∀ i, mid < i < b → P ≤ keyAt l5 i) as HR5.
      { intros i Hi. destruct Hre5 as (_ & O5 & _). rewrite O5 by lia. apply HR, Hi. }
      destruct (IH (mid + 1) b limit' (Z.quot (b - a) 8 <=? mid - a) ap l5)
        as (l6 & Hrun8 & Hre6 & Hs6); try lia.
      { intros _ k Hk. replace (mid + 1 - 1) with mid by lia. rewrite HP5.
        apply HR5. lia. }
      exists l6. split; [exact Hrun8|]. split.
      * eapply rearranged_trans; [lia|exact Hre04|].
        eapply rearranged_trans; [lia| |];
          (eapply rearranged_weaken; [| |eassumption]; lia).
      * apply (sortedIn_glue l6 a mid (mid + 1) b P).
        -- intros i Hi. destruct Hre6 as (_ & O6 & _). rewrite O6 by lia.
           apply (rearranged_bound a mid l4 l5 (λ k, k ≤ P) Hre5 HL i Hi).
        -- intros i Hi. assert (i = mid) as -> by lia.
           destruct Hre6 as (_ & O6 & _). rewrite O6 by lia. exact HP5.
        -- assert (∀ i, mid + 1 ≤ i < b → P ≤ keyAt l5 i) as HR5'
             by (intros i Hi; apply HR5; lia).
           intros i Hi.
           apply (rearranged_bound (mid + 1) b l5 l6 (λ k, P ≤ k) Hre6 HR5' i Hi).
        -- eapply sortedIn_outside; [|exact Hre6| |exact Hs5]; lia.
        -- exact Hs6.
    + destruct (IH (mid + 1) b limit' true true l4) as (l5 & Hrun7 & Hre5 & Hs5); try lia.
      { intros _ k Hk. replace (mid + 1 - 1) with mid by lia. apply HR. lia. }
      rewrite (bind_run _ _ l4 l5 tt Hrun7).
      pose proof (rearranged_len _ _ _ _ Hre5) as Hl5.
      assert (keyAt l5 mid = P) as HP5
        by (destruct Hre5 as (_ & O5 & _); apply O5; lia).
      assert (∀ i, a ≤ i < mid → keyAt l5 i ≤ P) as HL5.
      { intros i Hi. destruct Hre5 as (_ & O5 & _). rewrite O5 by lia. apply HL, Hi. }
      destruct (IH a mid limit' (Z.quot (b - a) 8 <=? b - mid) ap l5)
        as (l6 & Hrun8 & Hre6 & Hs6); try lia.
      { intros H0 k Hk. destruct Hre5 as (_ & O5 & _). rewrite !O5 by lia.
        apply Hlb4; lia. }
      exists l6. split; [exact Hrun8|]. split.
      * eapply rearranged_trans; [lia|exact Hre04|].
        eapply rearranged_trans; [lia| |];
          (eapply rearranged_weaken; [| |eassumption]; lia).
      * apply (sortedIn_glue l6 a mid (mid + 1) b P).
        -- intros i Hi.
           apply (rearranged_bound a mid l5 l6 (λ k, k ≤ P) Hre6 HL5 i Hi).
        -- intros i Hi. assert (i = mid) as -> by lia.
           destruct Hre6 as (_ & O6 & _). rewrite O6 by lia. exact HP5.
        -- intros i Hi. destruct Hre6 as (_ & O6 & _). rewrite O6 by lia.
           assert (∀ i, mid + 1 ≤ i < b → P ≤ keyAt l4 i) as HR4
             by (intros i' Hi'; apply HR; lia).
           apply (rearranged_bound (mid + 1) b l4 l5 (λ k, P ≤ k) Hre5 HR4 i Hi).
        -- exact Hs6.
        -- eapply sortedIn_outside; [|exact Hre6| |exact Hs5]; lia.
Qed.

(** [sort.Sort] of Go 1.19 and later returns, and the slice it leaves is
    a rearrangement of its argument with ascending keys. *)
Lemma Sort_pdqsort_sorts (l : list A) :
  ∃ l', Sort_pdqsort less xorshift_Next l = Ok l' ∧ l ≡ₚ l' ∧ sortedIn l' 0 (len l').
Proof.
  unfold Sort_pdqsort. rewrite (bind_run _ _ l l (len l) eq_refl).
  destruct (Z.leb_spec (len l) 1) as [H1|H1].
  - exists l. split; [reflexivity|]. split; [reflexivity|]. apply sortedIn_short. lia.
  - destruct (pdqsort_sorts (Z.to_nat (len l + 1)) 0 (len l)
                (Z.of_nat (N.size_nat (Z.to_N (len l)))) true true l)
      as (l' & Hrun & Hre & Hs); try lia.
    { intros H0. lia. }
    exists l'. rewrite Hrun. split; [reflexivity|]. split; [apply Hre|].
    rewrite (rearranged_len _ _ _ _ Hre). exact Hs.
Qed.

End SortCorrect.

Lemma Sort_ascending {A : Type} (key : A → Z) (less : A → A → Exec bool)
    (l : list A) :
  (∀ x y, less x y = Ok (key x <? key y)) →
  ∃ l', sort.Sort less l = Ok l' ∧ l ≡ₚ l'
        ∧ ∀ (i j : nat) (x y : A),
            (i ≤ j)%nat → l' !! i = Some x → l' !! j = Some y → key x ≤ key y.
Proof.
  intros Hless. destruct (Sort_sorts (K := key) less Hless l) as (l' & Hrun & HP & Hs).
  exists l'. split; [exact Hrun|]. split; [exact HP|].
  intros i j x y Hij Hx Hy.
  specialize (Hs (Z.of_nat i) (Z.of_nat j)). unfold keyAt, sortKey in Hs.
  rewrite !Nat2Z.id, Hx, Hy in Hs. apply Hs; [lia|lia|].
  apply lookup_lt_Some in Hy. unfold sort.len. lia.
Qed.

Lemma Sort_pdqsort_ascending {A : Type} (key : A → Z) (less : A → A → Exec bool)
    (xorshift_Next : Z → Z) (l : list A) :
  (∀ x y, less x y = Ok (key x <? key y)) →
  ∃ l', sort.Sort_pdqsort less xorshift_Next l = Ok l' ∧ l ≡ₚ l'
        ∧ ∀ (i j : nat) (x y : A),
            (i ≤ j)%nat → l' !! i = Some x → l' !! j = Some y → key x ≤ key y.
Proof.
  intros Hless.
  destruct (Sort_pdqsort_sorts (K := key) less Hless xorshift_Next l)
    as (l' & Hrun & HP & Hs).
  exists l'. split; [exact Hrun|]. split; [exact HP|].
  intros i j x y Hij Hx Hy.
  specialize (Hs (Z.of_nat i) (Z.of_nat j)). unfold keyAt, sortKey in Hs.
  rewrite !Nat2Z.id, Hx, Hy in Hs. apply Hs; [lia|lia|].
  apply lookup_lt_Some in Hy. unfold sort.len. lia.
Qed.

(** ** Sorting the stacks *)

Lemma sortStacks_pdqsort_by_key (compfunc : StackCompFunc) (key : Stack → Z) :
  (∀ a b, compfunc a b = (key a <? key b)) →
  ∀ xorshift_Next stacks, ∃ sorted,
    sortStacks_pdqsort xorshift_Next compfunc stacks = Ok sorted
    ∧ stacks ≡ₚ sorted
    ∧ ascendingBy compfunc sorted.
Proof.
  intros Hkey next stacks.
  destruct (Sort_pdqsort_ascending key (pure_less compfunc) next stacks)
    as (sorted & Hrun & HP & Hs).
  { intros x y. unfold pure_less. rewrite Hkey. reflexivity. }
  exists sorted. split; [exact Hrun|]. split; [exact HP|].
  intros i j x y Hij Hx Hy. rewrite Hkey. apply Z.ltb_ge. eapply Hs; eassumption.
Qed.

Lemma sortStacks_by_key (compfunc : StackCompFunc) (key : Stack → Z) :
  (∀ a b, compfunc a b = (key a <? key b)) →
  ∀ stacks, ∃ sorted,
    sortStacks compfunc stacks = Ok sorted
    ∧ stacks ≡ₚ sorted
    ∧ ascendingBy compfunc sorted.
Proof.
  intros Hkey stacks.
  destruct (Sort_ascending key (pure_less compfunc) stacks) as (sorted & Hrun & HP & Hs).
  { intros x y. unfold pure_less. rewrite Hkey. reflexivity. }
  exists sorted. split; [exact Hrun|]. split; [exact HP|].
  intros i j x y Hij Hx Hy. rewrite Hkey. apply Z.ltb_ge. eapply Hs; eassumption.
Qed.

Lemma CompDepth_key (a b : Stack) :
  CompDepth a b = (Z.of_nat (length (Frames a)) <? Z.of_nat (length (Frames b))).
Proof.
  unfold CompDepth.
  destruct (Nat.ltb_spec (length (Frames a)) (length (Frames b))),
           (Z.ltb_spec (Z.of_nat (length (Frames a))) (Z.of_nat (length (Frames b))));
    (reflexivity || lia).
Qed.

(** C4 as stated fails, with the library of Go up to 1.18 and with the
    one of Go 1.19 and later alike: thirteen stacks of which the first
    twelve have waited two minutes and the last one minute.  Both
    implementations partition a range of more than twelve elements
    around the middle stack, the seventh, which they first swap to the
    front of the range: it ends up second, ahead of the third to sixth
    stacks, and the first two stacks end up behind stacks they stood in
    front of.  The same happens by frame count and by number. *)
Lemma sortStacks_reorders_equal_keys :
  let s (n w : Z) := mkStack n "select" (w * Minute) [] false CreatedBy_zero in
  let d (n : Z) (fs : list Frame) := mkStack n "select" 0 fs false CreatedBy_zero in
  let f := mkFrame "main.f" [] "/src/a.go" 1 0 in
  let byWait := [s 1 2; s 2 2; s 3 2; s 4 2; s 5 2; s 6 2; s 7 2; s 8 2; s 9 2;
                 s 10 2; s 11 2; s 12 2; s 13 1] in
  let byDepth := [d 1 [f]; d 2 [f]; d 3 [f]; d 4 [f]; d 5 [f]; d 6 [f]; d 7 [f];
                  d 8 [f]; d 9 [f]; d 10 [f]; d 11 [f]; d 12 [f]; d 13 []] in
  let byNumber := [s 2 1; s 2 2; s 2 3; s 2 4; s 2 5; s 2 6; s 2 7; s 2 8; s 2 9;
                   s 2 10; s 2 11; s 2 12; s 1 13] in
  (sortStacks CompWaitTime byWait
   = Ok [s 13 1; s 7 2; s 3 2; s 4 2; s 5 2; s 6 2; s 2 2; s 8 2; s 9 2;
         s 10 2; s 11 2; s 12 2; s 1 2]
   ∧ ∀ xorshift_Next,
       sortStacks_pdqsort xorshift_Next CompWaitTime byWait
       = Ok [s 13 1; s 7 2; s 3 2; s 4 2; s 5 2; s 6 2; s 1 2; s 8 2; s 9 2;
             s 10 2; s 11 2; s 12 2; s 2 2])
  ∧ WaitTime (s 3 2) = WaitTime (s 7 2)
  ∧ (sortStacks CompDepth byDepth
     = Ok [d 13 []; d 7 [f]; d 3 [f]; d 4 [f]; d 5 [f]; d 6 [f]; d 2 [f]; d 8 [f];
           d 9 [f]; d 10 [f]; d 11 [f]; d 12 [f]; d 1 [f]]
     ∧ ∀ xorshift_Next,
         sortStacks_pdqsort xorshift_Next CompDepth byDepth
         = Ok [d 13 []; d 7 [f]; d 3 [f]; d 4 [f]; d 5 [f]; d 6 [f]; d 1 [f]; d 8 [f];
               d 9 [f]; d 10 [f]; d 11 [f]; d 12 [f]; d 2 [f]])
  ∧ (sortStacks CompGoroNum byNumber
     = Ok [s 1 13; s 2 7; s 2 3; s 2 4; s 2 5; s 2 6; s 2 2; s 2 8; s 2 9;
           s 2 10; s 2 11; s 2 12; s 2 1]
     ∧ ∀ xorshift_Next,
         sortStacks_pdqsort xorshift_Next CompGoroNum byNumber
         = Ok [s 1 13; s 2 7; s 2 3; s 2 4; s 2 5; s 2 6; s 2 1; s 2 8; s 2 9;
               s 2 10; s 2 11; s 2 12; s 2 2]).
Proof. repeat split; reflexivity. Qed.

(** C4, amended. Sorting a stack collection by wait time, by frame
    count or by stack number returns the same stacks (a permutation of
    the input) in ascending order of the key: no stack is less than one
    before it.  That holds with the library of Go up to 1.18 and with
    the one of Go 1.19 and later, whatever generator the latter draws
    from.  Stacks with equal keys may change their relative order. *)
Theorem sortStacks_ascending_permutation :
  (∀ stacks, ∃ sorted,
      sortStacks CompWaitTime stacks = Ok sorted
      ∧ stacks ≡ₚ sorted ∧ ascendingBy CompWaitTime sorted)
  ∧ (∀ stacks, ∃ sorted,
        sortStacks CompDepth stacks = Ok sorted
        ∧ stacks ≡ₚ sorted ∧ ascendingBy CompDepth sorted)
  ∧ (∀ stacks, ∃ sorted,
        sortStacks CompGoroNum stacks = Ok sorted
        ∧ stacks ≡ₚ sorted ∧ ascendingBy CompGoroNum sorted)
  ∧ (∀ xorshift_Next stacks, ∃ sorted,
        sortStacks_pdqsort xorshift_Next CompWaitTime stacks = Ok sorted
        ∧ stacks ≡ₚ sorted ∧ ascendingBy CompWaitTime sorted)
  ∧ (∀ xorshift_Next stacks, ∃ sorted,
        sortStacks_pdqsort xorshift_Next CompDepth stacks = Ok sorted
        ∧ stacks ≡ₚ sorted ∧ ascendingBy CompDepth sorted)
  ∧ (∀ xorshift_Next stacks, ∃ sorted,
        sortStacks_pdqsort xorshift_Next CompGoroNum stacks = Ok sorted
        ∧ stacks ≡ₚ sorted ∧ ascendingBy CompGoroNum sorted).
Proof.
  repeat split.
  - apply (sortStacks_by_key CompWaitTime WaitTime). reflexivity.
  - apply (sortStacks_by_key CompDepth (λ s, Z.of_nat (length (Frames s)))).
    apply CompDepth_key.
  - apply (sortStacks_by_key CompGoroNum Number). reflexivity.
  - apply (sortStacks_pdqsort_by_key CompWaitTime WaitTime). reflexivity.
  - apply (sortStacks_pdqsort_by_key CompDepth (λ s, Z.of_nat (length (Frames s)))).
    apply CompDepth_key.
  - apply (sortStacks_pdqsort_by_key CompGoroNum Number). reflexivity.
Qed.

Lemma sortStacks_ascending_permutation_witness :
  let s (n w : Z) := mkStack n "select" (w * Minute) [] false CreatedBy_zero in
  ∃ sorted,
    sortStacks CompWaitTime [s 1 2; s 2 2; s 3 2; s 4 2; s 5 2; s 6 2; s 7 1] = Ok sorted
    ∧ [s 1 2; s 2 2; s 3 2; s 4 2; s 5 2; s 6 2; s 7 1] ≡ₚ sorted
    ∧ ascendingBy CompWaitTime sorted.
Proof.
  intros s. exact (proj1 sortStacks_ascending_permutation _).
Defined.

(** ** Sorting: the routine commutes with a change of element type *)

Section SortNatural.

Import sort.
#[local] Existing Instance sort.SortM_bind.
#[local] Existing Instance sort.SortM_ret.

Context {A B : Type} (f : B → A).

(** Two comparisons that agree through [f]. *)
Variable lessA : A → A → Exec bool.
Variable lessB : B → B → Exec bool.
Hypothesis less_f : ∀ x y, lessB x y = lessA (f x) (f y).

Lemma natural_ret {X : Type} (x : X) : natural f (mret x) (mret x).
Proof. intros l. reflexivity. Qed.

Lemma natural_bind {X Y : Type} (mA : SortM X) (mB : SortM X)
    (kA : X → SortM Y) (kB : X → SortM Y) :
  natural f mA mB → (∀ x, natural f (kA x) (kB x)) →
  natural f (mA ≫= kA) (mB ≫= kB).
Proof.
  intros Hm Hk l. unfold mbind, SortM_bind. rewrite Hm.
  destruct (mB l) as [[x l']|e|r]; cbn; [apply Hk|reflexivity|reflexivity].
Qed.

Lemma at_fmap (l : list B) (i : Z) :
  at_ (f <$> l) i
  = match at_ l i with Ok x => Ok (f x) | Fail e => Fail e | Panic r => Panic r end.
Proof.
  unfold at_, len. rewrite length_fmap.
  destruct (0 <=? i); [|reflexivity].
  rewrite list_lookup_fmap. destruct (l !! Z.to_nat i); reflexivity.
Qed.

Lemma natural_Len : natural f Len Len.
Proof. intros l. unfold Len, len. cbn. rewrite length_fmap. reflexivity. Qed.

Lemma natural_Less (i j : Z) : natural f (Less lessA i j) (Less lessB i j).
Proof.
  intros l. unfold Less. rewrite !at_fmap.
  destruct (at_ l i) as [x|e|r]; [|reflexivity|reflexivity].
  destruct (at_ l j) as [y|e|r]; [|reflexivity|reflexivity].
  rewrite less_f. destruct (lessA (f x) (f y)); reflexivity.
Qed.

Lemma natural_Swap (i j : Z) : natural f (Swap i j) (Swap i j).
Proof.
  intros l. unfold Swap. rewrite !at_fmap.
  destruct (at_ l j) as [y|e|r]; [|reflexivity|reflexivity].
  destruct (at_ l i) as [x|e|r]; [|reflexivity|reflexivity].
  cbn. rewrite !list_fmap_insert. reflexivity.
Qed.

(** One step through a computation made of [Len], [Less], [Swap],
    sequencing and tests on what they yield. *)
Ltac natural_step :=
  first
    [ apply natural_ret
    | apply natural_Len
    | apply natural_Less
    | apply natural_Swap
    | apply natural_bind; [|intros ?]
    | match goal with
      | |- natural _ (if ?c then _ else _) (if ?c then _ else _) => destruct c
      | |- natural _ (let '(_, _) := ?p in _) _ => destruct p
      end ].

Lemma natural_insertionInner (rounds : nat) (a j : Z) :
  natural f (insertionInner lessA rounds a j) (insertionInner lessB rounds a j).
Proof.
  revert j. induction rounds as [|rounds IH]; intros j; cbn [insertionInner];
    repeat natural_step. apply IH.
Qed.

Lemma natural_insertionOuter (rounds : nat) (a i : Z) :
  natural f (insertionOuter lessA rounds a i) (insertionOuter lessB rounds a i).
Proof.
  revert i. induction rounds as [|rounds IH]; intros i; cbn [insertionOuter];
    repeat natural_step; [apply natural_insertionInner|apply IH].
Qed.

Lemma natural_siftDownLoop (rounds : nat) (root hi first : Z) :
  natural f (siftDownLoop lessA rounds root hi first)
            (siftDownLoop lessB rounds root hi first).
Proof.
  revert root. induction rounds as [|rounds IH]; intros root; cbn [siftDownLoop];
    repeat natural_step; apply IH.
Qed.

Lemma natural_heapBuild (rounds : nat) (i hi first : Z) :
  natural f (heapBuild lessA rounds i hi first) (heapBuild lessB rounds i hi first).
Proof.
  revert i. induction rounds as [|rounds IH]; intros i; cbn [heapBuild];
    repeat natural_step; [apply natural_siftDownLoop|apply IH].
Qed.

Lemma natural_heapPop (rounds : nat) (i first : Z) :
  natural f (heapPop lessA rounds i first) (heapPop lessB rounds i first).
Proof.
  revert i. induction rounds as [|rounds IH]; intros i; cbn [heapPop];
    repeat natural_step; [apply natural_siftDownLoop|apply IH].
Qed.

Lemma natural_medianOfThree (m1 m0 m2 : Z) :
  natural f (medianOfThree lessA m1 m0 m2) (medianOfThree lessB m1 m0 m2).
Proof. unfold medianOfThree. repeat natural_step. Qed.

Lemma natural_skipLess (rounds : nat) (pivot a c : Z) :
  natural f (skipLess lessA rounds pivot a c) (skipLess lessB rounds pivot a c).
Proof.
  revert a. induction rounds as [|rounds IH]; intros a; cbn [skipLess];
    repeat natural_step. apply IH.
Qed.

Lemma natural_skipNotGreater (rounds : nat) (pivot b c : Z) :
  natural f (skipNotGreater lessA rounds pivot b c)
            (skipNotGreater lessB rounds pivot b c).
Proof.
  revert b. induction rounds as [|rounds IH]; intros b; cbn [skipNotGreater];
    repeat natural_step. apply IH.
Qed.

Lemma natural_skipGreater (rounds : nat) (pivot b c : Z) :
  natural f (skipGreater lessA rounds pivot b c) (skipGreater lessB rounds pivot b c).
Proof.
  revert c. induction rounds as [|rounds IH]; intros c; cbn [skipGreater];
    repeat natural_step. apply IH.
Qed.

Lemma natural_skipEqualDown (rounds : nat) (pivot a b : Z) :
  natural f (skipEqualDown lessA rounds pivot a b)
            (skipEqualDown lessB rounds pivot a b).
Proof.
  revert b. induction rounds as [|rounds IH]; intros b; cbn [skipEqualDown];
    repeat natural_step. apply IH.
Qed.

Lemma natural_partitionLoop (rounds : nat) (pivot b c : Z) :
  natural f (partitionLoop lessA rounds pivot b c)
            (partitionLoop lessB rounds pivot b c).
Proof.
  revert b c. induction rounds as [|rounds IH]; intros b c; cbn [partitionLoop];
    repeat natural_step;
    [apply natural_skipNotGreater|apply natural_skipGreater|apply IH].
Qed.

Lemma natural_protectLoop (rounds : nat) (pivot a b : Z) :
  natural f (protectLoop lessA rounds pivot a b) (protectLoop lessB rounds pivot a b).
Proof.
  revert a b. induction rounds as [|rounds IH]; intros a b; cbn [protectLoop];
    repeat natural_step;
    [apply natural_skipEqualDown|apply natural_skipLess|apply IH].
Qed.

Lemma natural_countDups (pivot m hi b c : Z) :
  natural f (countDups lessA pivot m hi b c) (countDups lessB pivot m hi b c).
Proof. unfold countDups. repeat natural_step. Qed.

Lemma natural_doPivot (lo hi : Z) :
  natural f (doPivot lessA lo hi) (doPivot lessB lo hi).
Proof.
  unfold doPivot.
  repeat first
    [ apply natural_medianOfThree | apply natural_skipLess
    | apply natural_partitionLoop | apply natural_countDups
    | apply natural_protectLoop | natural_step ].
Qed.

Lemma natural_shellPass (rounds : nat) (i : Z) :
  natural f (shellPass lessA rounds i) (shellPass lessB rounds i).
Proof.
  revert i. induction rounds as [|rounds IH]; intros i; cbn [shellPass];
    repeat natural_step. apply IH.
Qed.

Lemma natural_quickSort (depth : nat) (a b : Z) :
  natural f (quickSort lessA depth a b) (quickSort lessB depth a b).
Proof.
  revert a b. induction depth as [|depth IH]; intros a b; cbn [quickSort].
  - destruct (12 <? b - a).
    + unfold heapSort. repeat natural_step; [apply natural_heapBuild|apply natural_heapPop].
    + repeat natural_step; [apply natural_shellPass|apply natural_insertionOuter].
  - destruct (12 <? b - a).
    + repeat first [apply natural_doPivot | apply IH | natural_step].
    + repeat natural_step; [apply natural_shellPass|apply natural_insertionOuter].
Qed.

(** Sorting the images under [f] by [lessA] is sorting by [lessB] and
    taking the images. *)
Lemma Sort_natural (l : list B) :
  Sort lessA (f <$> l)
  = match Sort lessB l with
    | Ok l' => Ok (f <$> l')
    | Fail e => Fail e
    | Panic r => Panic r
    end.
Proof.
  unfold Sort.
  assert (natural f (n ← Len; quickSort lessA (maxDepth n) 0 n)
                    (n ← Len; quickSort lessB (maxDepth n) 0 n)) as H.
  { apply natural_bind; [apply natural_Len|]. intros n. apply natural_quickSort. }
  rewrite H. destruct ((n ← Len; quickSort lessB (maxDepth n) 0 n) l) as [[[] l']|e|r];
    reflexivity.
Qed.

End SortNatural.

(** ** Summarizer: what it returns when every stack has a frame *)

Lemma occurrences_snoc (fn : string) (done : list Stack) (s : Stack) :
  occurrences fn (done ++ [s])
  = occurrences fn done + (if decide (firstFunction s = fn) then 1 else 0).
Proof.
  unfold occurrences. rewrite filter_app, length_app.
  rewrite filter_cons, filter_nil.
  destruct (decide (firstFunction s = fn)); cbn; lia.
Qed.

Lemma occurrences_cons (fn : string) (s : Stack) (l : list Stack) :
  occurrences fn (s :: l)
  = (if decide (firstFunction s = fn) then 1 else 0) + occurrences fn l.
Proof.
  unfold occurrences. rewrite filter_cons.
  destruct (decide (firstFunction s = fn)); cbn [length]; lia.
Qed.

Lemma occurrences_pos (fn : string) (l : list Stack) :
  occurrences fn l ≠ 0 → ∃ s, s ∈ l ∧ firstFunction s = fn.
Proof.
  unfold occurrences. intros H.
  destruct (filter (λ s, firstFunction s = fn) l) as [|s k] eqn:Hf; [cbn in H; lia|].
  assert (s ∈ filter (λ s, firstFunction s = fn) l) as Hin by (rewrite Hf; left).
  apply list_elem_of_filter in Hin as [Hs Hin]. exists s. auto.
Qed.

Lemma occurrences_zero (fn : string) (l : list Stack) (s : Stack) :
  occurrences fn l = 0 → s ∈ l → firstFunction s ≠ fn.
Proof.
  unfold occurrences. intros H Hin Hs.
  assert (s ∈ filter (λ s, firstFunction s = fn) l) as Hf
    by (apply list_elem_of_filter; auto).
  destruct (filter (λ s, firstFunction s = fn) l); [inversion Hf|cbn in H; lia].
Qed.

Lemma count_of_insert (counts : gmap string Z) (f fn : string) (z : Z) :
  count_of (<[f := z]> counts) fn = if decide (f = fn) then z else count_of counts fn.
Proof.
  unfold count_of. destruct (decide (f = fn)) as [->|Hne].
  - rewrite lookup_insert_eq. reflexivity.
  - rewrite lookup_insert_ne by exact Hne. reflexivity.
Qed.

(** The first loop: the counts are the numbers of occurrences, and
    [filtered] holds one stack for each function of frame 0, in the order
    of the input. *)
Lemma countLoop_run (stacks : list Stack) :
  (∀ s, s ∈ stacks → Frames s ≠ []) →
  ∀ (done : list Stack) (counts : gmap string Z) (filtered : list Stack),
    (∀ fn, count_of counts fn = occurrences fn done) →
    sublist filtered done →
    NoDup (firstFunction <$> filtered) →
    (∀ s, s ∈ done → firstFunction s ∈ firstFunction <$> filtered) →
    ∃ counts' filtered',
      countLoop stacks counts filtered = Ok (counts', filtered')
      ∧ (∀ fn, count_of counts' fn = occurrences fn (done ++ stacks))
      ∧ sublist filtered' (done ++ stacks)
      ∧ NoDup (firstFunction <$> filtered')
      ∧ (∀ s, s ∈ done ++ stacks → firstFunction s ∈ firstFunction <$> filtered').
Proof.
  induction stacks as [|s stacks IH]; intros Hfr done counts filtered Hc Hsub Hnd Hcov.
  - exists counts, filtered. rewrite app_nil_r. auto.
  - cbn [countLoop].
    destruct (Frames s) as [|f0 fs] eqn:Hf.
    { exfalso. apply (Hfr s); [left|exact Hf]. }
    cbn [index lookup list_lookup mbind Exec_bind].
    assert (Function f0 = firstFunction s) as Hff by (unfold firstFunction; rewrite Hf; reflexivity).
    rewrite Hff.
    replace (done ++ s :: stacks) with ((done ++ [s]) ++ stacks)
      by (rewrite <- app_assoc; reflexivity).
    apply IH.
    + intros s' Hs'. apply Hfr. right. exact Hs'.
    + intros fn. rewrite count_of_insert, occurrences_snoc, <- !Hc.
      destruct (decide (firstFunction s = fn)) as [->|Hne]; lia.
    + destruct (count_of counts (firstFunction s) =? 0).
      * apply sublist_app; [exact Hsub|reflexivity].
      * apply sublist_inserts_r, Hsub.
    + destruct (Z.eqb_spec (count_of counts (firstFunction s)) 0) as [H0|H0]; [|exact Hnd].
      rewrite fmap_app. apply NoDup_app. split; [exact Hnd|]. split; [|apply NoDup_singleton].
      intros fn Hin Hfn. apply list_elem_of_singleton in Hfn as ->.
      apply list_elem_of_fmap in Hin as (s' & Hs' & Hin).
      rewrite Hc in H0.
      apply (occurrences_zero _ _ s' H0); [|symmetry; exact Hs'].
      eapply elem_of_sublist; eassumption.
    + intros s' Hs'. apply elem_of_app in Hs' as [Hs'|Hs'].
      * specialize (Hcov s' Hs').
        destruct (count_of counts (firstFunction s) =? 0); [|exact Hcov].
        rewrite fmap_app. apply elem_of_app. left. exact Hcov.
      * apply list_elem_of_singleton in Hs' as ->.
        destruct (Z.eqb_spec (count_of counts (firstFunction s)) 0) as [H0|H0].
        -- rewrite fmap_app. apply elem_of_app. right. left.
        -- rewrite Hc in H0. apply occurrences_pos in H0 as (s' & Hin & <-).
           apply Hcov, Hin.
Qed.

(** The last loop makes one row of each stack of [filtered]. *)
Lemma summaryLoop_run (counts : gmap string Z) (filtered : list Stack) :
  (∀ s, s ∈ filtered → Frames s ≠ []) →
  ∀ summaries,
    summaryLoop counts filtered summaries
    = Ok (summaries ++ (summaryOf counts <$> filtered)).
Proof.
  induction filtered as [|s filtered IH]; intros Hfr summaries.
  - cbn. rewrite app_nil_r. reflexivity.
  - cbn [summaryLoop]. destruct (Frames s) as [|f0 fs] eqn:Hf.
    { exfalso. apply (Hfr s); [left|exact Hf]. }
    cbn [index lookup list_lookup mbind Exec_bind].
    rewrite IH by (intros s' Hs'; apply Hfr; right; exact Hs').
    assert (summaryOf counts s
            = mkSummary (Function f0) (count_of counts (Function f0))) as Hrow
      by (unfold summaryOf, firstFunction; rewrite Hf; reflexivity).
    rewrite <- app_assoc, fmap_cons, Hrow. reflexivity.
Qed.

(** A list of stacks that all have a frame is the list of the stacks of
    a list of [Framed]. *)
Lemma Framed_list (l : list Stack) :
  (∀ s, s ∈ l → Frames s ≠ []) → ∃ lB : list Framed, proj1_sig <$> lB = l.
Proof.
  induction l as [|s l IH]; intros Hfr; [exists []; reflexivity|].
  destruct IH as [lB HlB]; [intros s' Hs'; apply Hfr; right; exact Hs'|].
  exists (exist _ s (Hfr s (list_elem_of_here s l)) :: lB). cbn. rewrite HlB. reflexivity.
Qed.

(** On stacks with a frame the comparison closure of [summarize] orders
    by the count of the function of frame 0. *)
Lemma lessByCount_Framed (counts : gmap string Z) (a b : Framed) :
  lessByCount counts (`a) (`b)
  = Ok (count_of counts (firstFunction (`a)) <? count_of counts (firstFunction (`b))).
Proof.
  destruct a as [a Ha], b as [b Hb]. unfold lessByCount, firstFunction. cbn [proj1_sig].
  destruct (Frames a); [congruence|]. destruct (Frames b); [congruence|]. reflexivity.
Qed.

(** The sort of [summarize] returns, and leaves a rearrangement of
    [filtered] in ascending order of the counts. *)
Lemma summarize_sort (counts : gmap string Z) (filtered : list Stack) :
  (∀ s, s ∈ filtered → Frames s ≠ []) →
  ∃ sorted,
    sort.Sort (lessByCount counts) filtered = Ok sorted
    ∧ filtered ≡ₚ sorted
    ∧ ∀ (i j : nat) (x y : Stack),
        (i ≤ j)%nat → sorted !! i = Some x → sorted !! j = Some y →
        count_of counts (firstFunction x) ≤ count_of counts (firstFunction y).
Proof.
  intros Hfr. destruct (Framed_list filtered Hfr) as [lB <-].
  destruct (Sort_ascending (λ b : Framed, count_of counts (firstFunction (`b)))
              (λ a b : Framed, lessByCount counts (`a) (`b)) lB)
    as (lB' & Hrun & HP & Hs).
  { intros x y. apply lessByCount_Framed. }
  exists (proj1_sig <$> lB').
  rewrite (Sort_natural proj1_sig (lessByCount counts)
             (λ a b : Framed, lessByCount counts (`a) (`b))) by reflexivity.
  unfold Framed in *. rewrite Hrun.
  split; [reflexivity|]. split; [rewrite HP; reflexivity|].
  intros i j x y Hij Hx Hy.
  rewrite list_lookup_fmap in Hx, Hy.
  destruct (lB' !! i) as [bx|] eqn:Hbx; [|discriminate].
  destruct (lB' !! j) as [by'|] eqn:Hby; [|discriminate].
  cbn in Hx, Hy. injection Hx as <-. injection Hy as <-.
  exact (Hs i j bx by' Hij Hbx Hby).
Qed.

Lemma totalCount_app (a b : list summary) :
  totalCount (a ++ b) = totalCount a + totalCount b.
Proof.
  unfold totalCount. induction a as [|x a IH]; cbn; [reflexivity|]. rewrite IH. lia.
Qed.

Lemma totalCount_Permutation (a b : list summary) :
  a ≡ₚ b → totalCount a = totalCount b.
Proof.
  unfold totalCount. induction 1; cbn; lia.
Qed.

(** The occurrences of the functions of a duplicate-free list that
    covers the stacks add up to the number of stacks. *)
Lemma occurrences_total (stacks : list Stack) (fns : list string) :
  NoDup fns → (∀ s, s ∈ stacks → firstFunction s ∈ fns) →
  foldr (λ fn acc, occurrences fn stacks + acc) 0 fns = Z.of_nat (length stacks).
Proof.
  intros Hnd. induction stacks as [|s stacks IH]; intros Hcov.
  - clear. induction fns as [|fn fns IH]; cbn; [reflexivity|]. rewrite IH. reflexivity.
  - assert (foldr (λ fn acc, occurrences fn (s :: stacks) + acc) 0 fns
            = foldr (λ fn acc, (if decide (firstFunction s = fn) then 1 else 0) + acc) 0 fns
              + foldr (λ fn acc, occurrences fn stacks + acc) 0 fns) as ->.
    { clear. induction fns as [|fn fns IH]; cbn [foldr]; [reflexivity|].
      rewrite IH, occurrences_cons. lia. }
    rewrite IH by (intros s' Hs'; apply Hcov; right; exact Hs').
    assert (foldr (λ fn acc, (if decide (firstFunction s = fn) then 1 else 0) + acc) 0 fns
            = 1) as ->; [|cbn [length]; lia].
    specialize (Hcov s (list_elem_of_here _ _)). revert Hcov. clear IH.
    induction Hnd as [|fn fns Hnin Hnd IHn]; intros Hin; [inversion Hin|].
    cbn [foldr]. destruct (decide (firstFunction s = fn)) as [Heq|Hne].
    + rewrite <- Heq in Hnin. assert (foldr (λ fn0 acc, (if decide (firstFunction s = fn0) then 1 else 0) + acc) 0 fns
              = 0) as ->; [|reflexivity].
      clear -Hnin. induction fns as [|g fns IH]; cbn [foldr]; [reflexivity|].
      destruct (decide (firstFunction s = g)) as [<-|_].
      * exfalso. apply Hnin. left.
      * rewrite IH; [reflexivity|]. intros H. apply Hnin. right. exact H.
    + rewrite IHn; [reflexivity|]. inversion Hin; subst; [congruence|assumption].
Qed.

(** X1. When every stack has a frame, [summarize] returns: one row for each
    function that stands in frame 0 of some stack, no function twice,
    each with the number of stacks that have it in frame 0, rows in
    ascending order of the count; the counts add up to the number of
    stacks. *)
Theorem summarize_counts_by_first_function :
  ∀ stacks : list Stack,
    (∀ s, In s stacks → Frames s ≠ []) →
    ∃ sums,
      summarize stacks = Ok sums
      ∧ NoDup (summary_Function <$> sums)
      ∧ (∀ fn, In fn (summary_Function <$> sums)
               ↔ ∃ s, In s stacks ∧ firstFunction s = fn)
      ∧ (∀ x, In x sums → summary_Count x = occurrences (summary_Function x) stacks)
      ∧ (∀ (i j : nat) (x y : summary),
           (i ≤ j)%nat → sums !! i = Some x → sums !! j = Some y →
           summary_Count x ≤ summary_Count y)
      ∧ totalCount sums = Z.of_nat (length stacks).
Proof.
  intros stacks Hfr.
  assert (∀ s, s ∈ stacks → Frames s ≠ []) as Hfr'
    by (intros s Hs; apply Hfr, list_elem_of_In, Hs).
  destruct (countLoop_run stacks Hfr' [] ∅ [])
    as (counts & filtered & Hrun & Hc & Hsub & Hnd & Hcov).
  { intros fn. reflexivity. }
  { constructor. }
  { constructor. }
  { intros s Hs. inversion Hs. }
  cbn [app] in Hc, Hsub, Hcov.
  assert (∀ s, s ∈ filtered → Frames s ≠ []) as Hfrf
    by (intros s Hs; apply Hfr'; eapply elem_of_sublist; eassumption).
  destruct (summarize_sort counts filtered Hfrf) as (sorted & Hsort & HP & Hasc).
  assert (∀ s, s ∈ sorted → Frames s ≠ []) as Hfrs
    by (intros s Hs; apply Hfrf; rewrite HP; exact Hs).
  exists (summaryOf counts <$> sorted).
  assert (summary_Function <$> (summaryOf counts <$> sorted) = firstFunction <$> sorted)
    as Hfns by (rewrite <- list_fmap_compose; reflexivity).
  split.
  { unfold summarize. rewrite Hrun. cbn [mbind Exec_bind]. rewrite Hsort.
    cbn [mbind Exec_bind]. rewrite summaryLoop_run by exact Hfrs. reflexivity. }
  split; [rewrite Hfns, <- HP; exact Hnd|].
  split.
  { intros fn. rewrite Hfns, <- list_elem_of_In, <- HP. split.
    - intros Hin. apply list_elem_of_fmap in Hin as (s & -> & Hs).
      exists s. split; [|reflexivity]. apply list_elem_of_In.
      eapply elem_of_sublist; eassumption.
    - intros (s & Hs & <-). apply Hcov, list_elem_of_In, Hs. }
  split.
  { intros x Hx. apply list_elem_of_In, list_elem_of_fmap in Hx as (s & -> & _).
    cbn. apply Hc. }
  split.
  { intros i j x y Hij Hx Hy. rewrite list_lookup_fmap in Hx, Hy.
    destruct (sorted !! i) as [sx|] eqn:Hsx; [|discriminate].
    destruct (sorted !! j) as [sy|] eqn:Hsy; [|discriminate].
    cbn in Hx, Hy. injection Hx as <-. injection Hy as <-. cbn.
    exact (Hasc i j sx sy Hij Hsx Hsy). }
  rewrite <- (occurrences_total stacks (firstFunction <$> sorted)).
  - clear -Hc. unfold totalCount. induction sorted as [|s sorted IH]; cbn; [reflexivity|].
    unfold totalCount in IH. rewrite IH, Hc. reflexivity.
  - rewrite <- HP. exact Hnd.
  - intros s Hs. rewrite <- HP. apply Hcov, Hs.
Qed.

Lemma summarize_counts_by_first_function_witness :
  let st (n : Z) (fn : string) :=
    mkStack n "select" 0 [mkFrame fn [] "/src/a.go" 7 0] false CreatedBy_zero in
  ∃ sums,
    summarize [st 1 "main.f"; st 2 "main.g"; st 3 "main.f"] = Ok sums
    ∧ NoDup (summary_Function <$> sums)
    ∧ (∀ fn, In fn (summary_Function <$> sums)
             ↔ ∃ s, In s [st 1 "main.f"; st 2 "main.g"; st 3 "main.f"]
                    ∧ firstFunction s = fn)
    ∧ (∀ x, In x sums → summary_Count x
            = occurrences (summary_Function x)
                [st 1 "main.f"; st 2 "main.g"; st 3 "main.f"])
    ∧ (∀ (i j : nat) (x y : summary),
         (i ≤ j)%nat → sums !! i = Some x → sums !! j = Some y →
         summary_Count x ≤ summary_Count y)
    ∧ totalCount sums = 3.
Proof.
  intros st.
  apply (summarize_counts_by_first_function
           [st 1 "main.f"; st 2 "main.g"; st 3 "main.f"]).
  intros s [<-|[<-|[<-|[]]]]; discriminate.
Defined.

(** ** Wait-time statistics: what they are when every wait time is positive *)

Lemma wrap64_in_range (z : Z) : in_int64 z → wrap64 z = z.
Proof.
  unfold in_int64, int64_min, int64_max, wrap64. intros H.
  rewrite Z.mod_small by lia. lia.
Qed.

Lemma totalWait_app (a b : list Stack) : totalWait (a ++ b) = totalWait a + totalWait b.
Proof.
  unfold totalWait. induction a as [|s a IH]; cbn; [reflexivity|]. rewrite IH. lia.
Qed.

Lemma totalWait_snoc (a : list Stack) (s : Stack) :
  totalWait (a ++ [s]) = totalWait a + WaitTime s.
Proof. rewrite totalWait_app. unfold totalWait at 2. cbn. lia. Qed.

Lemma totalWait_nonneg (l : list Stack) :
  (∀ s, In s l → 0 < WaitTime s) → 0 ≤ totalWait l.
Proof.
  unfold totalWait. induction l as [|s l IH]; intros H; cbn; [lia|].
  specialize (H s (or_introl eq_refl)) as Hs.
  specialize (IH (λ s' Hs', H s' (or_intror Hs'))). lia.
Qed.

Lemma totalWait_bounds (l : list Stack) (lo hi : Z) :
  (∀ s, In s l → lo ≤ WaitTime s ≤ hi) →
  lo * Z.of_nat (length l) ≤ totalWait l ≤ hi * Z.of_nat (length l).
Proof.
  unfold totalWait. induction l as [|s l IH]; intros H; cbn [foldr length]; [lia|].
  specialize (H s (or_introl eq_refl)) as Hs.
  specialize (IH (λ s' Hs', H s' (or_intror Hs'))). lia.
Qed.

(** The loop of [compWaitStats] over positive wait times that add up
    without overflow: after a non-empty run, [min] and [max] are the
    least and the largest wait time seen. *)
Lemma waitLoop_run (stacks : list Stack) :
  ∀ (done : list Stack) (min max : Z),
    (∀ s, In s (done ++ stacks) → 0 < WaitTime s) →
    totalWait (done ++ stacks) ≤ int64_max →
    (done = [] ∧ min = 0 ∧ max = 0
     ∨ (∃ s, In s done ∧ WaitTime s = min) ∧ (∀ s, In s done → min ≤ WaitTime s)
       ∧ (∃ s, In s done ∧ WaitTime s = max) ∧ (∀ s, In s done → WaitTime s ≤ max)) →
    ∃ min' max',
      waitLoop stacks min max (totalWait done) (WaitTime <$> done)
      = (min', max', totalWait (done ++ stacks), WaitTime <$> (done ++ stacks))
      ∧ (done ++ stacks = [] ∧ min' = 0 ∧ max' = 0
         ∨ (∃ s, In s (done ++ stacks) ∧ WaitTime s = min')
           ∧ (∀ s, In s (done ++ stacks) → min' ≤ WaitTime s)
           ∧ (∃ s, In s (done ++ stacks) ∧ WaitTime s = max')
           ∧ (∀ s, In s (done ++ stacks) → WaitTime s ≤ max')).
Proof.
  induction stacks as [|s stacks IH]; intros done min max Hpos Htot Hinv.
  - exists min, max. rewrite app_nil_r in *. split; [reflexivity|exact Hinv].
  - cbn [waitLoop].
    assert (done ++ s :: stacks = (done ++ [s]) ++ stacks) as Happ
      by (rewrite <- app_assoc; reflexivity).
    rewrite Happ in *.
    assert (0 < WaitTime s) as Hs by (apply Hpos, in_or_app; left; apply in_or_app; right; left; reflexivity).
    assert (0 ≤ totalWait done) as Hd.
    { apply totalWait_nonneg. intros s' Hs'. apply Hpos, in_or_app. left.
      apply in_or_app. left. exact Hs'. }
    assert (0 ≤ totalWait stacks) as Hr.
    { apply totalWait_nonneg. intros s' Hs'. apply Hpos, in_or_app. right. exact Hs'. }
    assert (wrap64 (totalWait done + WaitTime s) = totalWait (done ++ [s])) as ->.
    { rewrite totalWait_app, totalWait_snoc in Htot. rewrite totalWait_snoc.
      apply wrap64_in_range. unfold in_int64, int64_min. lia. }
    assert ((WaitTime <$> done) ++ [WaitTime s] = WaitTime <$> (done ++ [s])) as ->
      by (rewrite fmap_app; reflexivity).
    apply IH; [exact Hpos|exact Htot|]. right.
    destruct Hinv as [(-> & -> & ->)|(Hmin & Hle & Hmax & Hge)].
    + cbn [Z.eqb orb app]. destruct (Z.ltb_spec 0 (WaitTime s)); [|lia].
      repeat split.
      * exists s. split; [left|]; reflexivity.
      * intros s' [<-|[]]. lia.
      * exists s. split; [left|]; reflexivity.
      * intros s' [<-|[]]. lia.
    + assert (0 < min) as Hmin0.
      { destruct Hmin as (s' & Hin & <-). apply Hpos, in_or_app. left.
        apply in_or_app. left. exact Hin. }
      destruct (Z.eqb_spec min 0) as [|_]; [lia|]. cbn [orb].
      repeat split.
      * destruct (Z.ltb_spec (WaitTime s) min).
        -- exists s. split; [apply in_or_app; right; left|]; reflexivity.
        -- destruct Hmin as (s' & Hin & E). exists s'. split; [apply in_or_app; left|]; assumption.
      * intros s' Hs'. apply in_app_or in Hs' as [Hs'|[<-|[]]].
        -- specialize (Hle s' Hs'). destruct (Z.ltb_spec (WaitTime s) min); lia.
        -- destruct (Z.ltb_spec (WaitTime s) min); lia.
      * destruct (Z.ltb_spec max (WaitTime s)).
        -- exists s. split; [apply in_or_app; right; left|]; reflexivity.
        -- destruct Hmax as (s' & Hin & E). exists s'. split; [apply in_or_app; left|]; assumption.
      * intros s' Hs'. apply in_app_or in Hs' as [Hs'|[<-|[]]].
        -- specialize (Hge s' Hs'). destruct (Z.ltb_spec max (WaitTime s)); lia.
        -- destruct (Z.ltb_spec max (WaitTime s)); lia.
Qed.

(** The sort of [compWaitStats] returns an ascending rearrangement of
    the wait times, whatever they are. *)
Lemma durations_sort (durations : list Z) :
  ∃ sorted,
    sort.Sort (pure_less Z.ltb) durations = Ok sorted
    ∧ durations ≡ₚ sorted
    ∧ ∀ (i j : nat) (x y : Z),
        (i ≤ j)%nat → sorted !! i = Some x → sorted !! j = Some y → x ≤ y.
Proof.
  apply (Sort_ascending (λ z : Z, z) (pure_less Z.ltb) durations).
  intros x y. reflexivity.
Qed.

Lemma half_in_range (n : nat) : n ≠ 0%nat → (n / 2 < n)%nat.
Proof. intros H. apply Nat.div_lt; lia. Qed.

(** X2. For a non-empty collection whose wait times are positive and add
    up without overflow, [compWaitStats] returns the least and the largest
    wait time, the truncated mean, and as the median the element at
    index [n / 2] of the wait times in ascending order; mean and median
    lie between the minimum and the maximum. *)
Theorem compWaitStats_positive_waits :
  ∀ stacks : list Stack,
    stacks ≠ [] →
    (∀ s, In s stacks → 0 < WaitTime s) →
    totalWait stacks ≤ int64_max →
    ∃ ws sorted,
      compWaitStats stacks = Ok ws
      ∧ (∃ s, In s stacks ∧ WaitTime s = Min ws)
      ∧ (∀ s, In s stacks → Min ws ≤ WaitTime s)
      ∧ (∃ s, In s stacks ∧ WaitTime s = Max ws)
      ∧ (∀ s, In s stacks → WaitTime s ≤ Max ws)
      ∧ Average ws = totalWait stacks / Z.of_nat (length stacks)
      ∧ (WaitTime <$> stacks) ≡ₚ sorted
      ∧ (∀ (i j : nat) (x y : Z),
           (i ≤ j)%nat → sorted !! i = Some x → sorted !! j = Some y → x ≤ y)
      ∧ sorted !! (length stacks / 2)%nat = Some (Median ws)
      ∧ Min ws ≤ Average ws ≤ Max ws
      ∧ Min ws ≤ Median ws ≤ Max ws.
Proof.
  intros stacks Hne Hpos Htot.
  destruct (waitLoop_run stacks [] 0 0) as (min & max & Hloop & Hinv); auto.
  cbn [app totalWait foldr fmap list_fmap] in Hloop, Hinv.
  destruct Hinv as [(-> & _)|(Hmin & Hle & Hmax & Hge)]; [congruence|].
  destruct (durations_sort (WaitTime <$> stacks)) as (sorted & Hsort & HP & Hasc).
  assert (length sorted = length stacks) as Hlen by (rewrite <- HP, length_fmap; reflexivity).
  assert (length stacks ≠ 0%nat) as Hn by (destruct stacks; [congruence|discriminate]).
  destruct (lookup_lt_is_Some_2 sorted (length stacks / 2)) as [median Hmed].
  { rewrite Hlen. apply half_in_range, Hn. }
  assert (0 ≤ totalWait stacks) as H0 by (apply totalWait_nonneg, Hpos).
  assert (min * Z.of_nat (length stacks) ≤ totalWait stacks
          ≤ max * Z.of_nat (length stacks)) as Hb.
  { apply totalWait_bounds. intros s Hs. split; [apply Hle|apply Hge]; exact Hs. }
  assert (∃ s, In s stacks ∧ WaitTime s = median) as (sm & Hsm & Hsme).
  { assert (median ∈ WaitTime <$> stacks) as Hin.
    { rewrite HP. eapply list_elem_of_lookup_2, Hmed. }
    apply list_elem_of_fmap in Hin as (s & -> & Hs). exists s.
    split; [apply list_elem_of_In, Hs|reflexivity]. }
  exists (mkWaitStats (Z.quot (totalWait stacks) (Z.of_nat (length stacks))) max min median),
         sorted.
  assert (Z.quot (totalWait stacks) (Z.of_nat (length stacks))
          = totalWait stacks / Z.of_nat (length stacks)) as Hq
    by (apply Z.quot_div_nonneg; lia).
  split.
  { unfold compWaitStats. fold (totalWait stacks) in Hloop. rewrite Hloop, Hsort.
    cbn [mbind Exec_bind]. rewrite Hlen.
    destruct (Nat.eqb_spec (length stacks) 0) as [|_]; [congruence|].
    cbn [mbind Exec_bind]. unfold index. rewrite Hmed. reflexivity. }
  cbn [Min Max Average Median].
  split; [exact Hmin|]. split; [exact Hle|]. split; [exact Hmax|]. split; [exact Hge|].
  split; [exact Hq|]. split; [exact HP|]. split; [exact Hasc|]. split; [exact Hmed|].
  split.
  - rewrite Hq. split.
    + apply Z.div_le_lower_bound; lia.
    + apply Z.div_le_upper_bound; lia.
  - rewrite <- Hsme. split; [apply Hle|apply Hge]; exact Hsm.
Qed.

Lemma compWaitStats_positive_waits_witness :
  let st (w : Z) := mkStack 1 "select" (w * Minute) [] false CreatedBy_zero in
  ∃ ws sorted,
    compWaitStats [st 5; st 2; st 9] = Ok ws
    ∧ (∃ s, In s [st 5; st 2; st 9] ∧ WaitTime s = Min ws)
    ∧ (∀ s, In s [st 5; st 2; st 9] → Min ws ≤ WaitTime s)
    ∧ (∃ s, In s [st 5; st 2; st 9] ∧ WaitTime s = Max ws)
    ∧ (∀ s, In s [st 5; st 2; st 9] → WaitTime s ≤ Max ws)
    ∧ Average ws = totalWait [st 5; st 2; st 9] / 3
    ∧ (WaitTime <$> [st 5; st 2; st 9]) ≡ₚ sorted
    ∧ (∀ (i j : nat) (x y : Z),
         (i ≤ j)%nat → sorted !! i = Some x → sorted !! j = Some y → x ≤ y)
    ∧ sorted !! 1%nat = Some (Median ws)
    ∧ Min ws ≤ Average ws ≤ Max ws
    ∧ Min ws ≤ Median ws ≤ Max ws.
Proof.
  intros st. apply (compWaitStats_positive_waits [st 5; st 2; st 9]).
  - discriminate.
  - intros s [<-|[<-|[<-|[]]]]; reflexivity.
  - vm_compute. discriminate.
Defined.

(** ** Wait-time statistics: when they are returned *)

(** The loop of [compWaitStats] on any wait times: [durations] collects
    them, [max] is no less than any of them, and [min] is one of them as
    soon as one was read. *)
Lemma waitLoop_any (stacks : list Stack) :
  ∀ (done : list Stack) (min max sum : Z),
    (done = [] ∧ min = 0 ∨ ∃ s, In s done ∧ WaitTime s = min) →
    (∀ s, In s done → WaitTime s ≤ max) →
    ∃ min' max' sum',
      waitLoop stacks min max sum (WaitTime <$> done)
      = (min', max', sum', WaitTime <$> (done ++ stacks))
      ∧ (done ++ stacks = [] ∧ min' = 0 ∨ ∃ s, In s (done ++ stacks) ∧ WaitTime s = min')
      ∧ (∀ s, In s (done ++ stacks) → WaitTime s ≤ max').
Proof.
  induction stacks as [|s stacks IH]; intros done min max sum Hmin Hmax.
  - exists min, max, sum. rewrite app_nil_r. auto.
  - cbn [waitLoop].
    replace (done ++ s :: stacks) with ((done ++ [s]) ++ stacks)
      by (rewrite <- app_assoc; reflexivity).
    replace ((WaitTime <$> done) ++ [WaitTime s]) with (WaitTime <$> (done ++ [s]))
      by (rewrite fmap_app; reflexivity).
    apply IH.
    + right. destruct ((min =? 0) || (WaitTime s <? min)) eqn:Hc.
      * exists s. split; [apply in_or_app; right; left|]; reflexivity.
      * apply orb_false_iff in Hc as [H0 _]. apply Z.eqb_neq in H0.
        destruct Hmin as [[_ ->]|(s' & Hin & E)]; [congruence|].
        exists s'. split; [apply in_or_app; left; exact Hin|exact E].
    + intros s' Hin. apply in_app_or in Hin as [Hin|[<-|[]]].
      * specialize (Hmax s' Hin). destruct (max <? WaitTime s) eqn:Hc; [|exact Hmax].
        apply Z.ltb_lt in Hc. lia.
      * destruct (Z.ltb_spec max (WaitTime s)); lia.
Qed.

(** X18. [compWaitStats] panics with a division by zero on an empty
    collection and returns on every other one; what it returns then has
    as [Min] and as [Median] the wait time of one of the stacks, and a
    [Max] that no wait time exceeds.  (That [Min] is the least wait time
    needs more; see the positive case.) *)
Theorem compWaitStats_returns_unless_empty :
  ∀ stacks : list Stack,
    match stacks with
    | [] => compWaitStats stacks = Panic IntegerDivideByZero
    | _ :: _ =>
        ∃ ws,
          compWaitStats stacks = Ok ws
          ∧ (∃ s, In s stacks ∧ WaitTime s = Min ws)
          ∧ (∀ s, In s stacks → WaitTime s ≤ Max ws)
          ∧ (∃ s, In s stacks ∧ WaitTime s = Median ws)
    end.
Proof.
  intros stacks. destruct stacks as [|s0 stacks']; [reflexivity|].
  set (stacks := s0 :: stacks').
  destruct (waitLoop_any stacks [] 0 0 0) as (min & max & sum & Hloop & Hmin & Hmax).
  { left. auto. }
  { intros s []. }
  cbn [app fmap list_fmap] in Hloop, Hmin, Hmax.
  destruct Hmin as [[Hnil _]|Hmin]; [discriminate|].
  destruct (durations_sort (WaitTime <$> stacks)) as (sorted & Hsort & HP & _).
  assert (length sorted = length stacks) as Hlen by (rewrite <- HP, length_fmap; reflexivity).
  assert (length stacks ≠ 0%nat) as Hn by discriminate.
  destruct (lookup_lt_is_Some_2 sorted (length stacks / 2)) as [median Hmed].
  { rewrite Hlen. apply half_in_range, Hn. }
  exists (mkWaitStats (Z.quot sum (Z.of_nat (length stacks))) max min median).
  split.
  { unfold compWaitStats. rewrite Hloop, Hsort.
    cbn [mbind Exec_bind]. rewrite Hlen.
    destruct (Nat.eqb_spec (length stacks) 0) as [|_]; [congruence|].
    cbn [mbind Exec_bind]. unfold index. rewrite Hmed. reflexivity. }
  cbn [Min Max Median]. split; [exact Hmin|]. split; [exact Hmax|].
  assert (median ∈ WaitTime <$> stacks) as Hin.
  { rewrite HP. eapply list_elem_of_lookup_2, Hmed. }
  apply list_elem_of_fmap in Hin as (s & -> & Hs). exists s.
  split; [apply list_elem_of_In, Hs|reflexivity].
Qed.

(** ** Filters: how they compose *)

Lemma prefix_spec (p s : string) :
  String.prefix p s = true ↔ ∃ rest, s = p +:+ rest.
Proof.
  revert s. induction p as [|c p IH]; intros s.
  - split; [intros _; exists s; reflexivity|intros _; destruct s; reflexivity].
  - destruct s as [|d s]; cbn.
    + split; [discriminate|intros [rest H]; discriminate].
    + destruct (ascii_dec c d) as [->|Hne].
      * rewrite IH. split; intros [rest H]; exists rest; [rewrite H; reflexivity|].
        injection H as ->. reflexivity.
      * split; [discriminate|]. intros [rest H]. injection H as -> _. congruence.
Qed.

Lemma Contains_spec (s sub : string) :
  Contains s sub = true ↔ ∃ a b, s = a +:+ sub +:+ b.
Proof.
  induction s as [|c s IH].
  - cbn [Contains]. rewrite orb_false_r, prefix_spec. split.
    + intros [rest H]. exists "", rest. exact H.
    + intros (a & b & H). destruct a as [|x a]; [exists b; exact H|discriminate].
  - cbn [Contains]. rewrite orb_true_iff, prefix_spec, IH. split.
    + intros [[rest H]|(a & b & H)].
      * exists "", rest. exact H.
      * exists (String c a), b. rewrite H. reflexivity.
    + intros (a & b & H). destruct a as [|x a].
      * left. exists b. exact H.
      * right. injection H as -> H. exists a, b. exact H.
Qed.

(** A string that holds [q] holds every string that [q] holds. *)
Lemma Contains_trans (s q p : string) :
  Contains s q = true → Contains q p = true → Contains s p = true.
Proof.
  rewrite !Contains_spec. intros (a & b & ->) (a' & b' & ->).
  exists (a +:+ a'), (b' +:+ b). repeat rewrite append_assoc. reflexivity.
Qed.

Lemma Contains_empty (s : string) : Contains s "" = true.
Proof. apply Contains_spec. exists "", s. reflexivity. Qed.

Lemma anyFrameMatches_spec (pattern : string) (fs : list Frame) :
  anyFrameMatches pattern fs = true
  ↔ ∃ f, In f fs
         ∧ (Contains (Function f) pattern = true
            ∨ Contains (File f +:+ ":" +:+ fmt_d (Line f)) pattern = true).
Proof.
  induction fs as [|f fs IH]; cbn [anyFrameMatches].
  - split; [discriminate|intros (f & [] & _)].
  - destruct (Contains (Function f) pattern
              || Contains (File f +:+ ":" +:+ fmt_d (Line f)) pattern) eqn:Hm.
    + split; [intros _|reflexivity]. exists f. split; [left; reflexivity|].
      apply orb_true_iff, Hm.
    + rewrite IH. split; intros (g & Hin & Hg).
      * exists g. split; [right; exact Hin|exact Hg].
      * destruct Hin as [<-|Hin]; [|exists g; auto].
        apply orb_true_iff in Hg. congruence.
Qed.

Lemma filter_sublist_of_filter (p q : Stack → bool) (l : list Stack) :
  (∀ s, q s = true → p s = true) → sublist (List.filter q l) (List.filter p l).
Proof.
  intros Hqp. induction l as [|s l IH]; cbn; [constructor|].
  destruct (q s) eqn:Hq.
  - rewrite (Hqp s Hq). apply sublist_skip, IH.
  - destruct (p s); [apply sublist_cons|]; exact IH.
Qed.

Lemma filter_filter_and (p q : Stack → bool) (l : list Stack) :
  List.filter q (List.filter p l) = List.filter (λ s, p s && q s) l.
Proof.
  induction l as [|s l IH]; cbn [List.filter]; [reflexivity|].
  destruct (p s); cbn [andb List.filter]; [|exact IH].
  destruct (q s); rewrite IH; reflexivity.
Qed.

(** X3. A pattern that is part of another matches at least the stacks
    the other one matches: filtering by the longer pattern gives a
    sublist of what filtering by the shorter one gives. *)
Theorem HasFrameMatching_narrower_pattern :
  ∀ (p q : string) (stacks : list Stack),
    Contains q p = true →
    (∀ s, HasFrameMatching q s = true → HasFrameMatching p s = true)
    ∧ sublist (ApplyFilters stacks [HasFrameMatching q])
              (ApplyFilters stacks [HasFrameMatching p]).
Proof.
  intros p q stacks Hqp.
  assert (∀ s, HasFrameMatching q s = true → HasFrameMatching p s = true) as Himp.
  { intros s. unfold HasFrameMatching. rewrite !anyFrameMatches_spec.
    intros (f & Hin & [H|H]); exists f; (split; [exact Hin|]);
      [left|right]; eapply Contains_trans; eassumption. }
  split; [exact Himp|].
  rewrite !ApplyFilters_filter. apply filter_sublist_of_filter.
  intros s. cbn. rewrite !andb_true_r. apply Himp.
Qed.

Lemma HasFrameMatching_narrower_pattern_witness :
  let s := mkStack 1 "select" 0 [mkFrame "main.worker" [] "/src/a.go" 7 0]
             false CreatedBy_zero in
  Contains "main.worker" "main" = true
  ∧ (HasFrameMatching "main.worker" s = true → HasFrameMatching "main" s = true)
  ∧ sublist (ApplyFilters [s] [HasFrameMatching "main.worker"])
            (ApplyFilters [s] [HasFrameMatching "main"]).
Proof.
  intros s. split; [reflexivity|].
  destruct (HasFrameMatching_narrower_pattern "main" "main.worker" [s] eq_refl)
    as [H1 H2].
  split; [apply H1|exact H2].
Defined.

(** X4. The empty pattern, which is what --frame-match gets from a flag
    without a value, matches exactly the stacks that have a frame: the
    filter keeps those, and its negation keeps the stacks without
    frames. *)
Theorem HasFrameMatching_empty_pattern :
  ∀ stacks : list Stack,
    (∀ s, HasFrameMatching "" s = negb (length (Frames s) =? 0)%nat)
    ∧ ApplyFilters stacks [HasFrameMatching ""]
      = List.filter (λ s, negb (length (Frames s) =? 0)%nat) stacks
    ∧ ApplyFilters stacks [Negate (HasFrameMatching "")]
      = List.filter (λ s, (length (Frames s) =? 0)%nat) stacks.
Proof.
  intros stacks.
  assert (∀ s, HasFrameMatching "" s = negb (length (Frames s) =? 0)%nat) as H.
  { intros s. unfold HasFrameMatching. destruct (Frames s) as [|f fs]; [reflexivity|].
    cbn [anyFrameMatches]. rewrite Contains_empty. reflexivity. }
  split; [exact H|].
  rewrite !ApplyFilters_filter.
  split; apply List.filter_ext; intros s; cbn; unfold Negate; rewrite H, andb_true_r;
    [reflexivity|apply negb_involutive].
Qed.

(** X5. Filtering in two passes is filtering once by both lists of
    filters, and filtering by no filter changes nothing: the passes of
    the interactive loop add up to one [ApplyFilters] call. *)
Theorem ApplyFilters_in_passes :
  ∀ (stacks : list Stack) (first second : list Filter),
    ApplyFilters (ApplyFilters stacks first) second
    = ApplyFilters stacks (first ++ second)
    ∧ ApplyFilters stacks [] = stacks.
Proof.
  intros stacks first second. rewrite !ApplyFilters_filter. split.
  - rewrite filter_filter_and. apply List.filter_ext. intros s.
    symmetry. apply forallb_app.
  - induction stacks as [|s stacks IH]; cbn; [reflexivity|]. cbn in IH. rewrite IH.
    reflexivity.
Qed.

(** X6. A filter and its negation split a collection: every stack is
    kept by exactly one of the two, so the two results together are a
    rearrangement of the input, and no stack passes both.  Negating
    twice gives the filter back. *)
Theorem ApplyFilters_Negate_splits :
  ∀ (stacks : list Stack) (f : Filter),
    ApplyFilters stacks [f] ++ ApplyFilters stacks [Negate f] ≡ₚ stacks
    ∧ ApplyFilters stacks [f; Negate f] = []
    ∧ (length (ApplyFilters stacks [f]) + length (ApplyFilters stacks [Negate f])
       = length stacks)%nat
    ∧ (∀ s, Negate (Negate f) s = f s).
Proof.
  intros stacks f.
  assert (ApplyFilters stacks [f] ++ ApplyFilters stacks [Negate f] ≡ₚ stacks) as HP.
  { rewrite !ApplyFilters_filter. unfold Negate.
    induction stacks as [|s stacks IH]; cbn [List.filter forallb]; [reflexivity|].
    cbn beta. destruct (f s); cbn [negb andb app].
    - constructor. exact IH.
    - rewrite <- Permutation_middle. constructor. exact IH. }
  split; [exact HP|]. split; [|split].
  - rewrite ApplyFilters_filter. unfold Negate. clear HP.
    induction stacks as [|s stacks IH]; cbn [List.filter forallb]; [reflexivity|].
    cbn beta. destruct (f s); cbn [negb andb]; exact IH.
  - rewrite <- length_app, HP. reflexivity.
  - intros s. unfold Negate. apply negb_involutive.
Qed.

(** ** Stack parser: blocks and header lines *)

(** A pass that ends normally without a line to follow ends the same way
    with one: only the "created by" branch looks at the next line, and
    it fails when there is none. *)
Lemma processLine_next (re : option Regexp) (st st' : ParserState) (raw : string)
    (n : nat) (adv : Advance) (next : option string) :
  processLine re st raw None = (n, Ok (st', adv)) →
  processLine re st raw next = (n, Ok (st', adv)).
Proof.
  unfold processLine. intros H. injection H as <- H. f_equal.
  destruct (stripPrefix re raw) as [line|e|r]; try discriminate.
  cbn [mbind Exec_bind] in H |- *.
  destruct (HasPrefix line "goroutine"); [exact H|].
  destruct (String.eqb line ""); [exact H|].
  destruct (HasPrefix line "created by"); [discriminate|exact H].
Qed.

Lemma scanLoop_finalState (re : option Regexp) (k : nat) :
  ∀ (lines : list string) (st : ParserState),
    (length lines ≤ k)%nat →
    match finalState re st lines with
    | Some st' => scanLoop re st lines = afterLoop st'
    | None => ∃ n, (∃ e, scanLoop re st lines = (n, Fail e))
                   ∨ (∃ r, scanLoop re st lines = (n, Panic r))
    end.
Proof.
  induction k as [|k IH]; intros lines st Hlen.
  - destruct lines; [reflexivity|cbn in Hlen; lia].
  - destruct lines as [|raw rest]; [reflexivity|].
    cbn [finalState scanLoop]. cbn [length] in Hlen.
    destruct (processLine re st raw (head rest)) as [n [[st' [|]]|e|r]].
    + apply IH. lia.
    + destruct rest as [|x rest']; [reflexivity|]. apply IH. cbn [length] in Hlen. lia.
    + exists n. left. exists e. reflexivity.
    + exists n. right. exists r. reflexivity.
Qed.

(** The loop over a list of lines that it gets through, followed by more
    lines, goes on from the state it reached. *)
Lemma scanLoop_app (re : option Regexp) (k : nat) :
  ∀ (lines more : list string) (st st1 : ParserState),
    (length lines ≤ k)%nat →
    finalState re st lines = Some st1 →
    scanLoop re st (lines ++ more) = scanLoop re st1 more.
Proof.
  induction k as [|k IH]; intros lines more st st1 Hlen Hfin.
  - destruct lines; [|cbn in Hlen; lia]. injection Hfin as ->. reflexivity.
  - destruct lines as [|raw rest]; [injection Hfin as ->; reflexivity|].
    cbn [length] in Hlen. cbn [finalState] in Hfin. cbn [app scanLoop].
    destruct rest as [|x rest'].
    + cbn [head] in Hfin.
      destruct (processLine re st raw None) as [n [[st' adv]|e|r]] eqn:Hp;
        try (destruct adv; discriminate); try discriminate.
      rewrite (processLine_next re st st' raw n adv (head ([] ++ more)) Hp).
      destruct adv.
      * cbn [app]. apply (IH [] more st' st1); [cbn; lia|exact Hfin].
      * exfalso. clear -Hp. unfold processLine in Hp. injection Hp as _ Hp.
        destruct (stripPrefix re raw) as [line|e|r]; try discriminate.
        cbn [mbind Exec_bind] in Hp.
        destruct (HasPrefix line "goroutine").
        { destruct (parseHeader line); discriminate. }
        destruct (String.eqb line ""); [discriminate|].
        destruct (HasPrefix line "created by"); [discriminate|].
        destruct (frame st).
        -- destruct (parseEntryLine line) as [[[? ?] ?]|?|?]; try discriminate.
           cbn [mbind Exec_bind] in Hp. destruct (cur st); discriminate.
        -- destruct (parseFunctionLine line); discriminate.
    + cbn [head app] in Hfin |- *.
      destruct (processLine re st raw (Some x)) as [n [[st' [|]]|e|r]]; try discriminate.
      * apply (IH (x :: rest') more st' st1); [cbn [length] in Hlen |- *; lia|exact Hfin].
      * apply (IH rest' more st' st1); [cbn [length] in Hlen; lia|exact Hfin].
Qed.

Lemma emit_app (before : list Stack) (c : option Stack) (l : list Stack) :
  emit c (before ++ l) = before ++ emit c l.
Proof. destruct c; cbn; [rewrite app_assoc|]; reflexivity. Qed.

(** A pass through the loop body does not look at the finished stacks
    nor, when it ends normally, at the line number. *)
Lemma processLine_sameBut (re : option Regexp) (before : list Stack)
    (st st0 st0' : ParserState) (raw : string) (next : option string)
    (n0 : nat) (adv : Advance) :
  sameBut before st st0 →
  processLine re st0 raw next = (n0, Ok (st0', adv)) →
  ∃ st', processLine re st raw next = (S (lineNo st), Ok (st', adv))
         ∧ sameBut before st' st0'.
Proof.
  intros (Hc & Hf & Hs) H. unfold processLine in *. injection H as _ H.
  destruct (stripPrefix re raw) as [line|e|r]; try discriminate.
  cbn [mbind Exec_bind] in H |- *.
  rewrite Hc, Hf, Hs.
  destruct (HasPrefix line "goroutine").
  { destruct (parseHeader line) as [c|e|r]; try discriminate.
    cbn [mbind Exec_bind] in H |- *. injection H as <- <-.
    eexists. split; [reflexivity|]. split; [|split]; cbn; [reflexivity|reflexivity|].
    apply emit_app. }
  destruct (String.eqb line "").
  { injection H as <- <-.
    eexists. split; [reflexivity|]. split; [|split]; cbn; [reflexivity|reflexivity|].
    apply emit_app. }
  destruct (HasPrefix line "created by").
  { destruct next as [text|]; [|discriminate].
    destruct (parseEntryLine text) as [[[file ln] entry]|e|r]; try discriminate.
    cbn [mbind Exec_bind] in H |- *.
    destruct (cur st0) as [c|]; [|discriminate].
    cbn [withCur mbind Exec_bind] in H |- *. injection H as <- <-.
    eexists. split; [reflexivity|]. split; [|split]; reflexivity. }
  destruct (frame st0) as [f|].
  - destruct (parseEntryLine line) as [[[file ln] entry]|e|r]; try discriminate.
    cbn [mbind Exec_bind] in H |- *.
    destruct (cur st0) as [c|]; [|discriminate].
    cbn [withCur mbind Exec_bind] in H |- *. injection H as <- <-.
    eexists. split; [reflexivity|]. split; [|split]; reflexivity.
  - destruct (parseFunctionLine line) as [f|e|r]; try discriminate.
    cbn [mbind Exec_bind] in H |- *. injection H as <- <-.
    eexists. split; [reflexivity|]. split; [|split]; reflexivity.
Qed.

Lemma afterLoop_sameBut (before : list Stack) (st st0 : ParserState) :
  sameBut before st st0 →
  afterLoop st = (lineNo st, Ok (before ++ emit (cur st0) (stacks st0))).
Proof.
  intros (Hc & _ & Hs). unfold afterLoop. rewrite Hc, Hs, emit_app. reflexivity.
Qed.

Lemma scanLoop_sameBut (re : option Regexp) (before : list Stack) (k : nat) :
  ∀ (lines : list string) (st st0 : ParserState) (n0 : nat) (out : list Stack),
    (length lines ≤ k)%nat →
    sameBut before st st0 →
    scanLoop re st0 lines = (n0, Ok out) →
    ∃ n, scanLoop re st lines = (n, Ok (before ++ out)).
Proof.
  induction k as [|k IH]; intros lines st st0 n0 out Hlen Hsame Hrun.
  - destruct lines; [|cbn in Hlen; lia]. cbn [scanLoop] in Hrun |- *.
    injection Hrun as <- <-. exists (lineNo st). apply afterLoop_sameBut, Hsame.
  - destruct lines as [|raw rest].
    + cbn [scanLoop] in Hrun |- *.
      injection Hrun as <- <-. exists (lineNo st). apply afterLoop_sameBut, Hsame.
    + cbn [scanLoop] in Hrun |- *. cbn [length] in Hlen.
      destruct (processLine re st0 raw (head rest)) as [m [[st0' adv]|e|r]] eqn:Hp;
        try discriminate.
      destruct (processLine_sameBut re before st st0 st0' raw (head rest) m adv Hsame Hp)
        as (st' & -> & Hsame').
      destruct adv.
      * eapply IH; [|exact Hsame'|exact Hrun]. lia.
      * destruct rest as [|x rest'].
        -- injection Hrun as <- <-. exists (lineNo st').
           apply afterLoop_sameBut, Hsame'.
        -- eapply IH; [|exact Hsame'|exact Hrun]. cbn [length] in Hlen. lia.
Qed.

(** X7. Blocks are parsed independently.  If the loop gets through
    [lines1] and ends with no frame pending, then [lines1] alone parses
    to the stacks collected there, and [lines1], a blank line and
    [lines2] parse to those stacks followed by the stacks of [lines2],
    whenever [lines2] parses on its own.  With [lines2] empty: a blank
    line at the end changes nothing. *)
Theorem ParseStacks_blocks_are_independent :
  ∀ (regexp_Compile : string → option Regexp) (debug_Stack : string)
    (linePrefix : string) (re : option Regexp)
    (lines1 lines2 : list string) (blank : string)
    (st1 : ParserState) (stacks2 : list Stack),
    compilePrefix regexp_Compile linePrefix = inr re →
    finalState re initialState lines1 = Some st1 →
    frame st1 = None →
    stripPrefix re blank = Ok "" →
    ParseStacks regexp_Compile debug_Stack lines2 linePrefix = (stacks2, None) →
    ∃ stacks1,
      ParseStacks regexp_Compile debug_Stack lines1 linePrefix = (stacks1, None)
      ∧ ParseStacks regexp_Compile debug_Stack (lines1 ++ blank :: lines2) linePrefix
        = (stacks1 ++ stacks2, None).
Proof.
  intros rc ds linePrefix re lines1 lines2 blank st1 stacks2 Hre Hfin Hfr Hblank H2.
  exists (emit (cur st1) (stacks st1)).
  unfold ParseStacks in *. rewrite Hre in *.
  pose proof (scanLoop_finalState re (length lines1) lines1 initialState (le_n _)) as H1.
  rewrite Hfin in H1. split; [rewrite H1; reflexivity|].
  rewrite (scanLoop_app re (length lines1) lines1 (blank :: lines2) initialState st1
             (le_n _) Hfin).
  destruct (scanLoop re initialState lines2) as [n2 [out2| |]] eqn:Hrun2;
    try discriminate.
  cbn in H2. injection H2 as ->.
  cbn [scanLoop]. unfold processLine. rewrite Hblank. cbn [mbind Exec_bind].
  change (HasPrefix "" "goroutine") with false. change (String.eqb "" "") with true.
  cbv iota.
  destruct (scanLoop_sameBut re (emit (cur st1) (stacks st1)) (length lines2) lines2
              (mkParserState (S (lineNo st1)) None (emit (cur st1) (stacks st1)) (frame st1))
              initialState n2 stacks2 (le_n _)) as (n & ->); [|exact Hrun2|reflexivity].
  split; [reflexivity|]. split; [exact Hfr|]. cbn. symmetry. apply app_nil_r.
Qed.

Lemma ParseStacks_blocks_are_independent_witness :
  ∃ stacks1,
    ParseStacks (λ _, None) ""
      ["goroutine 1 [running]:"; "main.f(0x1)"; String tab "/src/a.go:7 +0x1d"] ""
    = (stacks1, None)
    ∧ ParseStacks (λ _, None) ""
        (["goroutine 1 [running]:"; "main.f(0x1)"; String tab "/src/a.go:7 +0x1d"]
         ++ "" :: ["goroutine 2 [select, 3 minutes]:"; "main.g(0x2)";
                   String tab "/src/b.go:9 +0x2a"]) ""
      = (stacks1
         ++ [mkStack 2 "select" (3 * Minute) [mkFrame "main.g" ["0x2"] "/src/b.go" 9 42]
               false CreatedBy_zero], None).
Proof.
  apply (ParseStacks_blocks_are_independent (λ _, None) "" "" None
           ["goroutine 1 [running]:"; "main.f(0x1)"; String tab "/src/a.go:7 +0x1d"]
           ["goroutine 2 [select, 3 minutes]:"; "main.g(0x2)";
            String tab "/src/b.go:9 +0x2a"]
           ""
           (mkParserState 3
              (Some (mkStack 1 "running" 0 [mkFrame "main.f" ["0x1"] "/src/a.go" 7 29]
                       false CreatedBy_zero)) [] None));
    reflexivity.
Defined.

Lemma Forall2_snoc_update {X Y : Type} (P : X → Y → Prop) (hs : list X) (l : list Y)
    (c c' : Y) :
  Forall2 P hs (l ++ [c]) → (∀ h, P h c → P h c') → Forall2 P hs (l ++ [c']).
Proof.
  intros H Hc. apply Forall2_app_inv_r in H as (hs1 & hs2 & H1 & H2 & ->).
  apply Forall2_app; [exact H1|].
  inversion H2 as [|h c0 hs' l' Hh Hnil]; subst. inversion Hnil; subst.
  constructor; [apply Hc, Hh|constructor].
Qed.

Lemma fromHeader_same (line : string) (c c' : Stack) :
  Number c' = Number c → State c' = State c → WaitTime c' = WaitTime c →
  ThreadLocked c' = ThreadLocked c →
  fromHeader line c → fromHeader line c'.
Proof.
  intros H1 H2 H3 H4 (h & Hh & E1 & E2 & E3 & E4). exists h.
  split; [exact Hh|]. repeat split; congruence.
Qed.

(** What a pass that ends normally does to the stacks that are finished
    or open, seen through their header lines. *)
Lemma processLine_headers (re : option Regexp) (st st' : ParserState) (raw : string)
    (next : option string) (n : nat) (adv : Advance) (hs : list string) :
  processLine re st raw next = (n, Ok (st', adv)) →
  Forall2 fromHeader hs (emit (cur st) (stacks st)) →
  ∃ line, stripPrefix re raw = Ok line ∧
    match lineKind line with
    | Header =>
        adv = NextLine
        ∧ Forall2 fromHeader (hs ++ [line]) (emit (cur st') (stacks st'))
    | CreatedByLine =>
        adv = SkipLine ∧ Forall2 fromHeader hs (emit (cur st') (stacks st'))
    | Blank | FrameLine =>
        adv = NextLine ∧ Forall2 fromHeader hs (emit (cur st') (stacks st'))
    end.
Proof.
  intros H Hinv. apply processLine_Ok in H as (line & Hs & -> & _ & H).
  exists line. split; [exact Hs|].
  destruct (lineKind line).
  - destruct H as (c & Hh & -> & ->). split; [reflexivity|]. cbn [cur stacks emit].
    apply Forall2_app; [exact Hinv|]. constructor; [|constructor].
    exists c. auto.
  - destruct H as (-> & ->). split; [reflexivity|]. exact Hinv.
  - destruct H as (text & file & ln & entry & c & _ & _ & Hc & -> & ->).
    split; [reflexivity|]. rewrite Hc in Hinv. cbn [cur stacks emit] in Hinv |- *.
    eapply Forall2_snoc_update; [exact Hinv|]. intros h.
    apply fromHeader_same; reflexivity.
  - destruct (frame st) as [f|].
    + destruct H as (file & ln & entry & c & _ & Hc & -> & ->).
      split; [reflexivity|]. rewrite Hc in Hinv. cbn [cur stacks emit] in Hinv |- *.
      eapply Forall2_snoc_update; [exact Hinv|]. intros h.
      apply fromHeader_same; reflexivity.
    + destruct H as (f & _ & -> & ->). split; [reflexivity|]. exact Hinv.
Qed.

Lemma scanLoop_headers (re : option Regexp) (k : nat) :
  ∀ (lines : list string) (st : ParserState) (hs : list string) (n : nat)
    (out : list Stack),
    (length lines ≤ k)%nat →
    Forall2 fromHeader hs (emit (cur st) (stacks st)) →
    scanLoop re st lines = (n, Ok out) →
    Forall2 fromHeader (hs ++ headersRead re false lines) out.
Proof.
  induction k as [|k IH]; intros lines st hs n out Hlen Hinv Hrun.
  - destruct lines; [|cbn in Hlen; lia]. cbn [scanLoop afterLoop] in Hrun.
    injection Hrun as <- <-. cbn [headersRead]. rewrite app_nil_r. exact Hinv.
  - destruct lines as [|raw rest].
    { cbn [scanLoop afterLoop] in Hrun.
      injection Hrun as <- <-. cbn [headersRead]. rewrite app_nil_r. exact Hinv. }
    cbn [scanLoop] in Hrun. cbn [length] in Hlen.
    destruct (processLine re st raw (head rest)) as [m [[st' adv]|e|r]] eqn:Hp;
      try discriminate.
    destruct (processLine_headers re st st' raw (head rest) m adv hs Hp Hinv)
      as (line & Hs & Hk).
    cbn [headersRead]. rewrite Hs.
    destruct (lineKind line).
    + destruct Hk as (-> & Hinv').
      replace (hs ++ line :: headersRead re false rest)
        with ((hs ++ [line]) ++ headersRead re false rest)
        by (rewrite <- app_assoc; reflexivity).
      eapply IH; [|exact Hinv'|exact Hrun]. lia.
    + destruct Hk as (-> & Hinv'). eapply IH; [|exact Hinv'|exact Hrun]. lia.
    + destruct Hk as (-> & Hinv'). destruct rest as [|x rest'].
      * cbn [scanLoop afterLoop] in Hrun. injection Hrun as <- <-.
        cbn [headersRead]. rewrite app_nil_r. exact Hinv'.
      * cbn [headersRead]. eapply IH; [|exact Hinv'|exact Hrun].
        cbn [length] in Hlen. lia.
    + destruct Hk as (-> & Hinv'). eapply IH; [|exact Hinv'|exact Hrun]. lia.
Qed.

(** X8. A parse that succeeds returns one stack for each header line
    the loop has read, in the order of the input, with the number, the
    state, the wait time and the lock flag that the header line gives;
    the lines in between only add frames and the creator. *)
Theorem ParseStacks_one_stack_per_header :
  ∀ (regexp_Compile : string → option Regexp) (debug_Stack : string)
    (lines : list string) (linePrefix : string) (re : option Regexp)
    (out : list Stack),
    compilePrefix regexp_Compile linePrefix = inr re →
    ParseStacks regexp_Compile debug_Stack lines linePrefix = (out, None) →
    Forall2 fromHeader (headersRead re false lines) out
    ∧ length out = length (headersRead re false lines).
Proof.
  intros rc ds lines linePrefix re out Hre H.
  unfold ParseStacks in H. rewrite Hre in H.
  destruct (scanLoop re initialState lines) as [n [out'| |]] eqn:Hrun; try discriminate.
  cbn in H. injection H as ->.
  assert (Forall2 fromHeader (headersRead re false lines) out) as HF.
  { apply (scanLoop_headers re (length lines) lines initialState [] n out (le_n _));
      [constructor|exact Hrun]. }
  split; [exact HF|]. symmetry. eapply Forall2_length, HF.
Qed.

Lemma ParseStacks_one_stack_per_header_witness :
  let lines :=
    ["goroutine 7 [chan receive, 2 minutes, locked to thread]:"; "main.f(0x1)";
     String tab "/src/a.go:7 +0x1d"; "created by main.start";
     String tab "/src/a.go:3 +0x5"; ""; "goroutine 9 [running]:"] in
  let out :=
    [mkStack 7 "chan receive" (2 * Minute) [mkFrame "main.f" ["0x1"] "/src/a.go" 7 29]
       true (mkCreatedBy "main.start" "/src/a.go" 3 5);
     mkStack 9 "running" 0 [] false CreatedBy_zero] in
  ParseStacks (λ _, None) "" lines "" = (out, None)
  ∧ headersRead None false lines
    = ["goroutine 7 [chan receive, 2 minutes, locked to thread]:";
       "goroutine 9 [running]:"]
  ∧ Forall2 fromHeader (headersRead None false lines) out
  ∧ length out = length (headersRead None false lines).
Proof.
  intros lines out. split; [reflexivity|]. split; [reflexivity|].
  apply (ParseStacks_one_stack_per_header (λ _, None) "" lines "" None out);
    reflexivity.
Defined.

(** ** Stack parser: the fields of the header *)

(** X14. The loop over the fields that follow the state reads the wait
    time from the second field of the header ([state[1]]) whichever
    field it is at, and only the number of that field: when every field
    is " locked to thread" nothing else is read; otherwise the result is
    what the second field gives, an error if it is not two words or its
    first word is not a number.  So a lock flag in second place followed
    by a time is an error, the unit word is not looked at, and a third
    field is never read as a time. *)
Theorem headerSegments_reads_second_field :
  ∀ (state segs : list string) (timev : Z) (locked : bool) (s1 : string),
    state !! 1%nat = Some s1 →
    headerSegments state segs timev locked
    = if forallb (λ s, String.eqb s " locked to thread") segs
      then Ok (timev, locked || negb (length segs =? 0)%nat)
      else
        match Fields s1 with
        | [t0; _] =>
            match strconv.Atoi t0 with
            | inl val =>
                Ok (wrap64 (val * Minute),
                    locked || existsb (λ s, String.eqb s " locked to thread") segs)
            | inr err => Fail err
            end
        | _ => Fail (Errorf "weirdly formatted time string: %q" [VStr s1])
        end.
Proof.
  intros state segs timev locked s1 Hs1. revert timev locked.
  induction segs as [|s segs IH]; intros timev locked.
  - cbn. rewrite orb_false_r. reflexivity.
  - cbn [headerSegments forallb existsb length Nat.eqb negb].
    destruct (String.eqb s " locked to thread") eqn:Hs.
    + rewrite IH. cbn [andb orb].
      destruct (forallb (λ s, String.eqb s " locked to thread") segs).
      * rewrite !orb_true_r. reflexivity.
      * destruct (Fields s1) as [|t0 [|t1 [|t2 ts]]]; try reflexivity.
        destruct (strconv.Atoi t0); [|reflexivity]. rewrite !orb_true_r. reflexivity.
    + cbn [andb orb]. unfold index. rewrite Hs1. cbn [mbind Exec_bind].
      destruct (Fields s1) as [|t0 [|t1 [|t2 ts]]]; try reflexivity.
      cbn [length Nat.eqb negb lookup list_lookup mbind Exec_bind].
      destruct (strconv.Atoi t0) as [val|err]; [|reflexivity].
      rewrite IH.
      destruct (forallb (λ s, String.eqb s " locked to thread") segs) eqn:Hall.
      * assert (existsb (λ s, String.eqb s " locked to thread") segs
                = negb (length segs =? 0)%nat) as ->; [|reflexivity].
        clear -Hall. destruct segs as [|x segs]; [reflexivity|].
        cbn [forallb] in Hall. apply andb_true_iff in Hall as [Hx _].
        cbn [existsb length Nat.eqb negb]. rewrite Hx. reflexivity.
      * reflexivity.
Qed.

Lemma headerSegments_reads_second_field_witness :
  headerSegments ["select"; " locked to thread"; " 5 minutes"]
    [" locked to thread"; " 5 minutes"] 0 false
  = Fail (Errorf "weirdly formatted time string: %q" [VStr " locked to thread"])
  ∧ parseHeader "goroutine 1 [select, locked to thread, 5 minutes]:"
    = Fail (Errorf "weirdly formatted time string: %q" [VStr " locked to thread"])
  ∧ parseHeader "goroutine 1 [select, 5 minutes, locked to thread]:"
    = Ok (mkStack 1 "select" (5 * Minute) [] true CreatedBy_zero)
  ∧ parseHeader "goroutine 1 [select, 3 hours]:"
    = Ok (mkStack 1 "select" (3 * Minute) [] false CreatedBy_zero)
  ∧ parseHeader "goroutine 1 [select, 3 minutes, 7 minutes]:"
    = Ok (mkStack 1 "select" (3 * Minute) [] false CreatedBy_zero).
Proof.
  split; [|repeat split; reflexivity].
  rewrite (headerSegments_reads_second_field
             ["select"; " locked to thread"; " 5 minutes"]
             [" locked to thread"; " 5 minutes"] 0 false " locked to thread" eq_refl).
  reflexivity.
Defined.

(** ** Entry-line parser: every way it can end *)

Lemma ParseInt_in_int64 (s : string) (base : N) (z : Z) :
  strconv.ParseInt s base = inl z → in_int64 z.
Proof.
  unfold strconv.ParseInt, in_int64, int64_min, int64_max.
  destruct s as [|c0 rest]; [discriminate|].
  destruct (if (byteN c0 =? 43)%N then (false, rest)
            else if (byteN c0 =? 45)%N then (true, rest) else (false, String c0 rest))
    as [neg s'].
  destruct (strconv.ParseUint s' base) as [n|[|]]; [| discriminate |];
    destruct neg; cbn [negb andb];
    repeat match goal with
           | |- context [(?a <=? ?b)%N] => destruct (N.leb_spec a b)
           | |- context [(?a <? ?b)%N] => destruct (N.ltb_spec a b)
           end; try discriminate; intros [= <-]; try lia.
  all: unfold strconv.maxUint64 in *; lia.
Qed.

(** X15. [parseEntryLine] never panics, although it indexes into what
    its splits return.  It returns a file, a line and an entry, both
    64-bit integers, only for a text with exactly one colon; it fails
    with "expected a colon" exactly for the texts with another number of
    colons, and else with an error that names the word that did not
    parse as the line number or as the entry offset. *)
Theorem parseEntryLine_outcomes :
  ∀ s : string,
    match parseEntryLine s with
    | Ok (file, line, entry) =>
        countByte ":" s = 1%nat ∧ in_int64 line ∧ in_int64 entry
    | Fail e =>
        (countByte ":" s ≠ 1%nat ∧ e = Errorf "expected a colon: %q" [VInt 0])
        ∨ (countByte ":" s = 1%nat
           ∧ ∃ word, e = Errorf "error parsing line number: %s" [VStr word]
                     ∨ e = Errorf "error parsing entry offset: %s" [VStr word])
    | Panic _ => False
    end.
Proof.
  intros s. pose proof (Split_colon_length s) as Hlen.
  unfold parseEntryLine. unfold Split in *.
  destruct (split_aux ":" 0 "" s) as [|p0 [|p1 parts]] eqn:Hsp.
  - exfalso. exact (split_aux_not_nil _ _ _ _ Hsp).
  - cbn in Hlen |- *. left. split; [lia|reflexivity].
  - cbn [index lookup list_lookup mbind Exec_bind].
    destruct (Nat.eqb_spec (length (p0 :: p1 :: parts)) 2) as [H2|H2]; cbn [negb].
    2:{ left. split; [|reflexivity]. rewrite Hlen in H2. lia. }
    assert (countByte ":" s = 1%nat) as Hone by (rewrite Hlen in H2; lia).
    destruct (split_aux " " 0 "" p1) as [|le0 [|le1 les]] eqn:Hle;
      cbn [index lookup list_lookup mbind Exec_bind length Nat.ltb Nat.leb].
    + exfalso. exact (split_aux_not_nil _ _ _ _ Hle).
    + destruct (strconv.ParseInt le0 0) as [line|e] eqn:Hl.
      * split; [exact Hone|]. split; [eapply ParseInt_in_int64, Hl|].
        unfold in_int64, int64_min, int64_max. lia.
      * right. split; [exact Hone|]. exists le0. left. reflexivity.
    + destruct (strconv.ParseInt le0 0) as [line|e] eqn:Hl.
      * destruct (strconv.ParseInt le1 0) as [entry|e] eqn:He.
        -- split; [exact Hone|].
           split; [eapply ParseInt_in_int64, Hl|eapply ParseInt_in_int64, He].
        -- right. split; [exact Hone|]. exists le1. right. reflexivity.
      * right. split; [exact Hone|]. exists le0. left. reflexivity.
Qed.

(** ** Stack parser: the entry line of the creator *)

Lemma parseEntryLine_colons (s : string) :
  countByte ":" s ≠ 1%nat →
  parseEntryLine s = Fail (Errorf "expected a colon: %q" [VInt 0]).
Proof.
  intros Hc. unfold parseEntryLine.
  pose proof (Split_colon_length s) as Hlen.
  destruct (Split s ":") as [|p0 parts]; [discriminate|].
  cbn [index lookup list_lookup mbind Exec_bind].
  destruct (Nat.eqb_spec (length (p0 :: parts)) 2) as [H2|_]; [|reflexivity].
  rewrite H2 in Hlen. congruence.
Qed.

(** X16. The line that follows a "created by" line is handed to
    [parseEntryLine] as the scanner gives it: the line prefix that was
    stripped from the "created by" line is not stripped from it.  So
    with a prefix that holds a colon, which makes more than one colon
    in the line, the pass fails with "expected a colon". *)
Theorem creator_entry_line_keeps_prefix :
  ∀ (re : option Regexp) (st : ParserState) (raw line text : string),
    stripPrefix re raw = Ok line →
    lineKind line = CreatedByLine →
    processLine re st raw (Some text)
    = (S (lineNo st),
       '(file, ln, entry) ← parseEntryLine text;
       c ← withCur (cur st)
             (setCreatedBy (mkCreatedBy (TrimPrefix line "created by ") file ln entry));
       Ok (mkParserState (S (lineNo st)) c (stacks st) (frame st), SkipLine))
    ∧ (countByte ":" text ≠ 1%nat →
       processLine re st raw (Some text)
       = (S (lineNo st), Fail (Errorf "expected a colon: %q" [VInt 0]))).
Proof.
  intros re st raw line text Hs Hk.
  assert (processLine re st raw (Some text)
          = (S (lineNo st),
             '(file, ln, entry) ← parseEntryLine text;
             c ← withCur (cur st)
                   (setCreatedBy (mkCreatedBy (TrimPrefix line "created by ") file ln entry));
             Ok (mkParserState (S (lineNo st)) c (stacks st) (frame st), SkipLine))) as H.
  { unfold processLine, lineKind in *. rewrite Hs. cbn [mbind Exec_bind].
    destruct (HasPrefix line "goroutine"); [discriminate|].
    destruct (String.eqb line ""); [discriminate|].
    destruct (HasPrefix line "created by"); [reflexivity|discriminate]. }
  split; [exact H|].
  intros Hc. rewrite H, (parseEntryLine_colons text Hc). reflexivity.
Qed.

Lemma creator_entry_line_keeps_prefix_witness :
  let find : Regexp := λ l, if HasPrefix l "host: " then Some "host: " else None in
  let s := mkStack 1 "running" 0 [] false CreatedBy_zero in
  stripPrefix (Some find) "host: created by main.start" = Ok "created by main.start"
  ∧ processLine (Some find) (mkParserState 1 (Some s) [] None)
      "host: created by main.start" (Some ("host: " +:+ String tab "/src/a.go:3"))
    = (2%nat, Fail (Errorf "expected a colon: %q" [VInt 0]))
  ∧ ParseStacks (λ _, Some find) ""
      ["host: goroutine 1 [running]:"; "host: created by main.start";
       "host: " +:+ String tab "/src/a.go:3"] "host: "
    = ([], Some (Errorf "line %d: %w"
                   [VInt 2; VErr (Errorf "expected a colon: %q" [VInt 0])]))
  ∧ ParseStacks (λ _, Some find) ""
      ["goroutine 1 [running]:"; "created by main.start"; String tab "/src/a.go:3"] ""
    = ([mkStack 1 "running" 0 [] false (mkCreatedBy "main.start" "/src/a.go" 3 0)], None).
Proof.
  intros find s. split; [reflexivity|]. split; [|split; reflexivity].
  apply (creator_entry_line_keeps_prefix (Some find) (mkParserState 1 (Some s) [] None)
           "host: created by main.start" "created by main.start"
           ("host: " +:+ String tab "/src/a.go:3") eq_refl eq_refl).
  vm_compute. discriminate.
Defined.

(** ** Stack parser: the line counter *)

(** The counter goes up by one in every pass, and a pass on a "created
    by" line takes two lines. *)
Lemma finalState_lineNo (re : option Regexp) (k : nat) :
  ∀ (lines : list string) (st st' : ParserState),
    (length lines ≤ k)%nat →
    finalState re st lines = Some st' →
    (lineNo st' + creatorsRead re false lines = lineNo st + length lines)%nat.
Proof.
  induction k as [|k IH]; intros lines st st' Hlen Hfin.
  - destruct lines; [|cbn in Hlen; lia]. injection Hfin as <-. cbn. lia.
  - destruct lines as [|raw rest]; [injection Hfin as <-; cbn; lia|].
    cbn [length] in Hlen. cbn [finalState] in Hfin.
    destruct (processLine re st raw (head rest)) as [n [[st1 adv]|e|r]] eqn:Hp;
      try discriminate.
    apply processLine_Ok in Hp as (line & Hs & -> & Hn & Hk).
    cbn [creatorsRead length]. rewrite Hs.
    destruct (lineKind line).
    + destruct Hk as (c & _ & -> & _).
      specialize (IH rest st1 st' ltac:(lia) Hfin). lia.
    + destruct Hk as (-> & _).
      specialize (IH rest st1 st' ltac:(lia) Hfin). lia.
    + destruct Hk as (text & file & ln & entry & c & Hnext & _ & _ & -> & _).
      destruct rest as [|x rest']; [discriminate|].
      cbn [creatorsRead length]. cbn [length] in Hlen.
      specialize (IH rest' st1 st' ltac:(lia) Hfin). lia.
    + assert (adv = NextLine) as ->.
      { destruct (frame st).
        - destruct Hk as (file & ln & entry & c & _ & _ & -> & _). reflexivity.
        - destruct Hk as (f & _ & -> & _). reflexivity. }
      specialize (IH rest st1 st' ltac:(lia) Hfin). lia.
Qed.

(** X17. The line number of an error counts passes, not lines.  When
    the loop gets through the lines [good] and the pass on the next line
    fails, the error is annotated with the number of that line less the
    number of "created by" lines before it, each of which took its
    entry line without counting it. *)
Theorem ParseStacks_error_line_number :
  ∀ (regexp_Compile : string → option Regexp) (debug_Stack : string)
    (linePrefix : string) (re : option Regexp)
    (good rest : list string) (bad : string)
    (st1 : ParserState) (n : nat) (e : error),
    compilePrefix regexp_Compile linePrefix = inr re →
    finalState re initialState good = Some st1 →
    processLine re st1 bad (head rest) = (n, Fail e) →
    ParseStacks regexp_Compile debug_Stack (good ++ bad :: rest) linePrefix
    = ([], Some (Errorf "line %d: %w"
                   [VInt (Z.of_nat (length good + 1 - creatorsRead re false good));
                    VErr e])).
Proof.
  intros rc ds linePrefix re good rest bad st1 n e Hre Hfin Hbad.
  unfold ParseStacks. rewrite Hre.
  rewrite (scanLoop_app re (length good) good (bad :: rest) initialState st1 (le_n _) Hfin).
  cbn [scanLoop]. rewrite Hbad. cbn [recovered].
  pose proof (processLine_fst re st1 bad (head rest)) as Hn. rewrite Hbad in Hn.
  cbn [fst] in Hn. subst n.
  pose proof (finalState_lineNo re (length good) good initialState st1 (le_n _) Hfin) as Hc.
  cbn [lineNo initialState] in Hc.
  replace (length good + 1 - creatorsRead re false good)%nat with (S (lineNo st1)) by lia.
  reflexivity.
Qed.

Lemma ParseStacks_error_line_number_witness :
  let good :=
    ["goroutine 1 [running]:"; "main.f(0x1)"; String tab "/src/a.go:7";
     "created by main.start"; String tab "/src/a.go:3"; ""] in
  length good = 6%nat
  ∧ creatorsRead None false good = 1%nat
  ∧ ParseStacks (λ _, None) "" (good ++ "goroutine x [running]:" :: []) ""
    = ([], Some (Errorf "line %d: %w"
                   [VInt 6;
                    VErr (Errorf "unexpected formatting: %s"
                            [VStr "goroutine x [running]:"])])).
Proof.
  intros good. split; [reflexivity|]. split; [reflexivity|].
  apply (ParseStacks_error_line_number (λ _, None) "" "" None good []
           "goroutine x [running]:"
           (mkParserState 5 None
              [mkStack 1 "running" 0 [mkFrame "main.f" ["0x1"] "/src/a.go" 7 0] false
                 (mkCreatedBy "main.start" "/src/a.go" 3 0)] None) 6);
    reflexivity.
Defined.

(** ** Round trips: numbers *)

Lemma decimalValue_ge (d : Decimal.uint) : ∀ n, (n ≤ decimalValue d n)%N.
Proof.
  induction d; intros n; cbn [decimalValue]; try lia;
    match goal with |- (_ ≤ decimalValue _ ?m)%N => specialize (IHd m) end; lia.
Qed.

Lemma hexValue_ge (d : Hexadecimal.uint) : ∀ n, (n ≤ hexValue d n)%N.
Proof.
  induction d; intros n; cbn [hexValue]; try lia;
    match goal with |- (_ ≤ hexValue _ ?m)%N => specialize (IHd m) end; lia.
Qed.

(** One round of the digit loop on a digit that fits. *)
Lemma digits_step (base : N) (base0 : bool) (c : ascii) (s : string) (n v : N)
    (us : bool) :
  ((byteN c =? 95)%N && base0 = false) →
  (if between (byteN c) 48 57 then Some (byteN c - 48)%N
   else if between (strconv.lower (byteN c)) 97 122
        then Some (strconv.lower (byteN c) - 97 + 10)%N
        else None) = Some v →
  (v < base)%N → (n * base + v ≤ strconv.maxUint64)%N → (0 < base)%N →
  strconv.digits base base0 (String c s) n us
  = strconv.digits base base0 s (n * base + v)%N us.
Proof.
  intros Hu Hd Hv Hmax Hb. cbn [strconv.digits]. rewrite Hu, Hd.
  destruct (N.leb_spec base v); [lia|].
  destruct (N.leb_spec (strconv.maxUint64 / base + 1) n) as [Hn|_].
  { exfalso. assert (n ≤ strconv.maxUint64 / base)%N as Hle
      by (apply N.div_le_lower_bound; lia).
    lia. }
  destruct (N.ltb_spec strconv.maxUint64 (n * base + v)); [lia|]. reflexivity.
Qed.

Lemma digits_decimal (base0 : bool) (d : Decimal.uint) :
  ∀ (n : N) (us : bool),
    (decimalValue d n ≤ strconv.maxUint64)%N →
    strconv.digits 10 base0 (DecimalString.NilEmpty.string_of_uint d) n us
    = inl (decimalValue d n, us).
Proof.
  induction d; intros n us H; cbn [decimalValue DecimalString.NilEmpty.string_of_uint] in *;
    [reflexivity| ..];
    (erewrite digits_step;
     [apply IHd; exact H
     |reflexivity|reflexivity|reflexivity
     |etransitivity; [apply decimalValue_ge|exact H]
     |reflexivity]).
Qed.

Lemma digits_hex (base0 : bool) (d : Hexadecimal.uint) :
  ∀ (n : N) (us : bool),
    (hexValue d n ≤ strconv.maxUint64)%N →
    strconv.digits 16 base0 (HexadecimalString.NilEmpty.string_of_uint d) n us
    = inl (hexValue d n, us).
Proof.
  induction d; intros n us H;
    cbn [hexValue HexadecimalString.NilEmpty.string_of_uint] in *;
    [reflexivity| ..];
    (erewrite digits_step;
     [apply IHd; exact H
     |reflexivity|reflexivity|reflexivity
     |etransitivity; [apply hexValue_ge|exact H]
     |reflexivity]).
Qed.

Lemma decimalValue_acc (d : Decimal.uint) :
  ∀ acc : positive, decimalValue d (N.pos acc) = N.pos (Pos.of_uint_acc d acc).
Proof.
  induction d; intros acc; cbn [decimalValue Pos.of_uint_acc]; [reflexivity| ..];
    match goal with
    | |- decimalValue _ ?m = N.pos (Pos.of_uint_acc _ ?a) =>
        replace m with (N.pos a) by lia
    end; apply IHd.
Qed.

Lemma decimalValue_of_uint (d : Decimal.uint) : decimalValue d 0 = Pos.of_uint d.
Proof.
  induction d; cbn [decimalValue Pos.of_uint]; [reflexivity|exact IHd| ..];
    match goal with
    | |- decimalValue _ ?m = N.pos (Pos.of_uint_acc _ ?a) =>
        change m with (N.pos a)
    end; apply decimalValue_acc.
Qed.

Lemma hexValue_acc (d : Hexadecimal.uint) :
  ∀ acc : positive, hexValue d (N.pos acc) = N.pos (Pos.of_hex_uint_acc d acc).
Proof.
  induction d; intros acc; cbn [hexValue Pos.of_hex_uint_acc]; [reflexivity| ..];
    match goal with
    | |- hexValue _ ?m = N.pos (Pos.of_hex_uint_acc _ ?a) =>
        replace m with (N.pos a) by lia
    end; apply IHd.
Qed.

Lemma hexValue_of_uint (d : Hexadecimal.uint) : hexValue d 0 = Pos.of_hex_uint d.
Proof.
  induction d; cbn [hexValue Pos.of_hex_uint]; [reflexivity|exact IHd| ..];
    match goal with
    | |- hexValue _ ?m = N.pos (Pos.of_hex_uint_acc _ ?a) =>
        change m with (N.pos a)
    end; apply hexValue_acc.
Qed.

Lemma decimalValue_to_uint (p : positive) : decimalValue (Pos.to_uint p) 0 = N.pos p.
Proof. rewrite decimalValue_of_uint. apply DecimalPos.Unsigned.of_to. Qed.

Lemma hexValue_to_hex_uint (p : positive) : hexValue (Pos.to_hex_uint p) 0 = N.pos p.
Proof. rewrite hexValue_of_uint. apply HexadecimalPos.Unsigned.of_to. Qed.

(** The decimal numeral of a positive number does not start with 0. *)
Lemma to_uint_no_leading_zero (p : positive) (d : Decimal.uint) :
  Pos.to_uint p ≠ Decimal.D0 d.
Proof.
  intros E.
  assert (Decimal.unorm (Pos.to_uint p) = Pos.to_uint p) as Hn.
  { rewrite <- DecimalPos.Unsigned.to_of, DecimalPos.Unsigned.of_to. reflexivity. }
  rewrite E, DecimalFacts.unorm_D0 in Hn.
  assert (d = Decimal.Nil ∨ d ≠ Decimal.Nil) as [->|Hd]
    by (destruct d; [left; reflexivity|right; discriminate..]).
  - apply (DecimalPos.Unsigned.to_uint_nonzero p E).
  - pose proof (DecimalFacts.nb_digits_unorm d Hd) as Hle.
    rewrite Hn in Hle. cbn [Decimal.nb_digits] in Hle. lia.
Qed.

Lemma string_of_uint_decimal_nonnil (d : Decimal.uint) :
  d ≠ Decimal.Nil →
  DecimalString.NilZero.string_of_uint d = DecimalString.NilEmpty.string_of_uint d.
Proof. destruct d; [congruence|reflexivity..]. Qed.

Lemma string_of_uint_hex_nonnil (d : Hexadecimal.uint) :
  d ≠ Hexadecimal.Nil →
  HexadecimalString.NilZero.string_of_uint d
  = HexadecimalString.NilEmpty.string_of_uint d.
Proof. destruct d; [congruence|reflexivity..]. Qed.

(** [ParseUint] with base 0 on a numeral that does not start with 0,
    and with base 10 on any numeral, runs the digit loop in base 10. *)
Lemma ParseUint_decimal (base : N) (d : Decimal.uint) :
  d ≠ Decimal.Nil →
  (base = 10%N ∨ base = 0%N ∧ ∀ d', d ≠ Decimal.D0 d') →
  (decimalValue d 0 ≤ strconv.maxUint64)%N →
  strconv.ParseUint (DecimalString.NilEmpty.string_of_uint d) base
  = inl (decimalValue d 0).
Proof.
  intros Hnil Hbase Hmax.
  assert (∀ b0, strconv.digits 10 b0 (DecimalString.NilEmpty.string_of_uint d) 0 false
                = inl (decimalValue d 0, false)) as Hd
    by (intros b0; apply digits_decimal, Hmax).
  destruct Hbase as [->|[-> Hz]].
  - destruct d; [congruence| ..];
      cbn [DecimalString.NilEmpty.string_of_uint] in Hd |- *;
      unfold strconv.ParseUint; cbn [N.eqb]; rewrite Hd; reflexivity.
  - destruct d; [congruence|exfalso; eapply Hz; reflexivity| ..];
      cbn [DecimalString.NilEmpty.string_of_uint] in Hd |- *;
      unfold strconv.ParseUint; cbn [N.eqb];
      match goal with
      | |- context [(byteN ?c =? 48)%N] => change (byteN c =? 48)%N with false
      end; cbv iota; rewrite Hd; reflexivity.
Qed.

(** The text that %d makes of a 64-bit integer is read back by
    [strconv.Atoi], and by [strconv.ParseInt] with base 0, as that
    integer. *)
Lemma fmt_d_parses_back :
  ∀ z : Z,
    in_int64 z →
    strconv.Atoi (fmt_d z) = inl z ∧ strconv.ParseInt (fmt_d z) 0 = inl z.
Proof.
  intros z Hz. unfold in_int64, int64_min, int64_max in Hz.
  assert (∀ base, base = 10%N ∨ base = 0%N → strconv.ParseInt (fmt_d z) base = inl z)
    as H; [|split; [unfold strconv.Atoi; rewrite H by auto; reflexivity|apply H; auto]].
  intros base Hbase. destruct z as [|p|p].
  - destruct Hbase as [->| ->]; reflexivity.
  - unfold fmt_d, Z.to_int, DecimalString.NilZero.string_of_int.
    pose proof (DecimalPos.Unsigned.to_uint_nonnil p) as Hnil.
    rewrite string_of_uint_decimal_nonnil by exact Hnil.
    pose proof (ParseUint_decimal base (Pos.to_uint p) Hnil) as HU.
    rewrite decimalValue_to_uint in HU.
    specialize (HU ltac:(destruct Hbase as [->| ->]; [left; reflexivity|right; split;
                          [reflexivity|intros d'; apply to_uint_no_leading_zero]])
                   ltac:(unfold strconv.maxUint64; lia)).
    pose proof (to_uint_no_leading_zero p) as Hz0.
    destruct (Pos.to_uint p); [congruence|exfalso; eapply Hz0; reflexivity| ..];
      cbn [DecimalString.NilEmpty.string_of_uint] in HU |- *;
      unfold strconv.ParseInt;
      match goal with
      | |- context [(byteN ?c =? 43)%N] =>
          change (byteN c =? 43)%N with false; change (byteN c =? 45)%N with false
      end; cbv iota; rewrite HU; cbn [negb andb];
      (destruct (N.leb_spec (2 ^ 63) (N.pos p)); [lia|reflexivity]).
  - unfold fmt_d, Z.to_int, DecimalString.NilZero.string_of_int.
    pose proof (DecimalPos.Unsigned.to_uint_nonnil p) as Hnil.
    rewrite string_of_uint_decimal_nonnil by exact Hnil.
    pose proof (ParseUint_decimal base (Pos.to_uint p) Hnil) as HU.
    rewrite decimalValue_to_uint in HU.
    specialize (HU ltac:(destruct Hbase as [->| ->]; [left; reflexivity|right; split;
                          [reflexivity|intros d'; apply to_uint_no_leading_zero]])
                   ltac:(unfold strconv.maxUint64; lia)).
    unfold strconv.ParseInt.
    change (byteN "-" =? 43)%N with false. change (byteN "-" =? 45)%N with true.
    cbv iota. rewrite HU. cbn [negb andb].
    destruct (N.ltb_spec (2 ^ 63) (N.pos p)); [lia|reflexivity].
Qed.

Lemma ParseUint_0x (c1 c2 : ascii) (rest : string) :
  strconv.lower (byteN c1) = 120%N →
  strconv.ParseUint (String "0" (String c1 (String c2 rest))) 0
  = match strconv.digits 16 true (String c2 rest) 0 false with
    | inr e => inr e
    | inl (n, underscores) =>
        if underscores
           && negb (strconv.underscoreOK (String "0" (String c1 (String c2 rest))))
        then inr ErrSyntax else inl n
    end.
Proof.
  intros H. unfold strconv.ParseUint. cbn [N.eqb].
  change (byteN "0" =? 48)%N with true. cbv iota. rewrite H. reflexivity.
Qed.

Lemma ParseUint_hex (d : Hexadecimal.uint) :
  d ≠ Hexadecimal.Nil →
  (hexValue d 0 ≤ strconv.maxUint64)%N →
  strconv.ParseUint
    (String "0" (String "x" (HexadecimalString.NilEmpty.string_of_uint d))) 0
  = inl (hexValue d 0).
Proof.
  intros Hnil Hmax.
  pose proof (digits_hex true d 0 false Hmax) as Hd.
  destruct d; [congruence| ..];
    cbn [HexadecimalString.NilEmpty.string_of_uint] in Hd |- *;
    rewrite ParseUint_0x by reflexivity; rewrite Hd; reflexivity.
Qed.

(** The text that %+#x makes of a 64-bit integer (sign, "0x",
    hexadecimal digits) is read back by [strconv.ParseInt] with base 0
    as that integer. *)
Lemma fmt_plus_sharp_x_parses_back :
  ∀ z : Z, in_int64 z → strconv.ParseInt (fmt_plus_sharp_x z) 0 = inl z.
Proof.
  intros z Hz. unfold in_int64, int64_min, int64_max in Hz.
  destruct z as [|p|p]; [reflexivity| |].
  - unfold fmt_plus_sharp_x. cbn [Z.ltb Z.compare Z.abs_N N.to_hex_uint].
    pose proof (HexadecimalPos.Unsigned.to_uint_nonnil p) as Hnil.
    rewrite string_of_uint_hex_nonnil by exact Hnil.
    pose proof (ParseUint_hex (Pos.to_hex_uint p) Hnil) as HU.
    rewrite hexValue_to_hex_uint in HU.
    specialize (HU ltac:(unfold strconv.maxUint64; lia)).
    change ("+0x" +:+ ?x) with (String "+" (String "0" (String "x" x))).
    unfold strconv.ParseInt.
    change (byteN "+" =? 43)%N with true. cbv beta iota zeta. rewrite HU. cbn [negb andb].
    destruct (N.leb_spec (2 ^ 63) (N.pos p)); [lia|reflexivity].
  - unfold fmt_plus_sharp_x. cbn [Z.ltb Z.compare Z.abs_N N.to_hex_uint].
    pose proof (HexadecimalPos.Unsigned.to_uint_nonnil p) as Hnil.
    rewrite string_of_uint_hex_nonnil by exact Hnil.
    pose proof (ParseUint_hex (Pos.to_hex_uint p) Hnil) as HU.
    rewrite hexValue_to_hex_uint in HU.
    specialize (HU ltac:(unfold strconv.maxUint64; lia)).
    change ("-0x" +:+ ?x) with (String "-" (String "0" (String "x" x))).
    unfold strconv.ParseInt.
    change (byteN "-" =? 43)%N with false. change (byteN "-" =? 45)%N with true.
    cbv beta iota zeta. rewrite HU. cbn [negb andb].
    destruct (N.ltb_spec (2 ^ 63) (N.pos p)); [lia|reflexivity].
Qed.

(** ** Round trips: strings *)

Lemma append_nil_r (s : string) : s +:+ "" = s.
Proof.
  induction s as [|c s IH]; [reflexivity|].
  change (String c (s +:+ "") = String c s). rewrite IH. reflexivity.
Qed.

Lemma length_append (a b : string) :
  String.length (a +:+ b) = (String.length a + String.length b)%nat.
Proof.
  induction a as [|c a IH]; [reflexivity|].
  change (S (String.length (a +:+ b)) = S (String.length a + String.length b)).
  rewrite IH. reflexivity.
Qed.

Lemma prefix_empty (s : string) : String.prefix "" s = true.
Proof. destruct s; reflexivity. Qed.

Lemma countByte_cons (c d : ascii) (s : string) :
  countByte c (String d s) = 0%nat → d ≠ c ∧ countByte c s = 0%nat.
Proof.
  cbn [countByte]. destruct (Ascii.eqb_spec d c) as [->|Hne]; [discriminate|].
  intros H. split; [exact Hne|exact H].
Qed.

Lemma countByte_append (c : ascii) (a b : string) :
  countByte c (a +:+ b) = (countByte c a + countByte c b)%nat.
Proof.
  induction a as [|d a IH]; [reflexivity|].
  change (countByte c (String d (a +:+ b))
          = (countByte c (String d a) + countByte c b)%nat).
  cbn [countByte]. rewrite IH. lia.
Qed.

(** Splitting on a single byte: a piece that does not hold the byte
    runs up to the next occurrence, or to the end. *)
Lemma split_byte_next (c : ascii) (a : string) :
  ∀ (acc b : string),
    countByte c a = 0%nat →
    split_aux (String c "") 0 acc (a +:+ String c b)
    = (acc +:+ a) :: split_aux (String c "") 0 "" b.
Proof.
  induction a as [|d a IH]; intros acc b Hc.
  - change ("" +:+ String c b) with (String c b). cbn [split_aux String.prefix].
    destruct (ascii_dec c c) as [_|Hne]; [|congruence].
    rewrite prefix_empty, append_nil_r. reflexivity.
  - apply countByte_cons in Hc as [Hne Hc].
    change (String d a +:+ String c b) with (String d (a +:+ String c b)).
    cbn [split_aux String.prefix].
    destruct (ascii_dec c d) as [->|_]; [congruence|].
    rewrite IH by exact Hc. rewrite append_assoc. reflexivity.
Qed.

Lemma split_byte_last (c : ascii) (a : string) :
  ∀ acc : string,
    countByte c a = 0%nat →
    split_aux (String c "") 0 acc a = [acc +:+ a].
Proof.
  induction a as [|d a IH]; intros acc Hc.
  - rewrite append_nil_r. reflexivity.
  - apply countByte_cons in Hc as [Hne Hc]. cbn [split_aux String.prefix].
    destruct (ascii_dec c d) as [->|_]; [congruence|].
    rewrite IH by exact Hc. rewrite append_assoc. reflexivity.
Qed.

Lemma onlyBytes_append (set a b : string) :
  onlyBytes set (a +:+ b) = onlyBytes set a && onlyBytes set b.
Proof.
  induction a as [|c a IH]; [reflexivity|].
  change (onlyBytes set (String c (a +:+ b))
          = onlyBytes set (String c a) && onlyBytes set b).
  cbn [onlyBytes]. rewrite IH, andb_assoc. reflexivity.
Qed.

Lemma countByte_onlyBytes (c : ascii) (set s : string) :
  onlyBytes set s = true → mem c set = false → countByte c s = 0%nat.
Proof.
  intros Hs Hc. induction s as [|d s IH]; [reflexivity|].
  cbn [onlyBytes] in Hs. apply andb_true_iff in Hs as [Hd Hs].
  cbn [countByte]. rewrite (IH Hs).
  destruct (Ascii.eqb_spec d c) as [->|_]; [congruence|reflexivity].
Qed.

Lemma onlyBytes_decimal (d : Decimal.uint) :
  onlyBytes "-0123456789" (DecimalString.NilEmpty.string_of_uint d) = true.
Proof.
  induction d; cbn [DecimalString.NilEmpty.string_of_uint onlyBytes];
    [reflexivity|rewrite IHd; reflexivity..].
Qed.

Lemma onlyBytes_fmt_d (z : Z) : onlyBytes "-0123456789" (fmt_d z) = true.
Proof.
  assert (∀ d, onlyBytes "-0123456789" (DecimalString.NilZero.string_of_uint d) = true)
    as H.
  { intros d. destruct d; [reflexivity|apply (onlyBytes_decimal (_ d))..]. }
  unfold fmt_d. destruct (Z.to_int z) as [d|d];
    cbn [DecimalString.NilZero.string_of_int onlyBytes]; [apply H|].
  rewrite H. reflexivity.
Qed.

Lemma onlyBytes_hex (d : Hexadecimal.uint) :
  onlyBytes "+-x0123456789abcdef" (HexadecimalString.NilEmpty.string_of_uint d) = true.
Proof.
  induction d; cbn [HexadecimalString.NilEmpty.string_of_uint onlyBytes];
    [reflexivity|rewrite IHd; reflexivity..].
Qed.

Lemma onlyBytes_fmt_plus_sharp_x (z : Z) :
  onlyBytes "+-x0123456789abcdef" (fmt_plus_sharp_x z) = true.
Proof.
  assert (∀ d, onlyBytes "+-x0123456789abcdef"
                 (HexadecimalString.NilZero.string_of_uint d) = true) as H.
  { intros d. destruct d; [reflexivity|apply (onlyBytes_hex (_ d))..]. }
  unfold fmt_plus_sharp_x. rewrite onlyBytes_append, H.
  destruct (z <? 0); reflexivity.
Qed.

(** Trimming does away with a leading byte of the cutset. *)
Lemma Trim_cons (c : ascii) (s cutset : string) :
  mem c cutset = true → Trim (String c s) cutset = Trim s cutset.
Proof.
  intros Hc. unfold Trim. cbn [trimRightASCII].
  destruct (trimRightASCII cutset s) as [|d r].
  - rewrite Hc. reflexivity.
  - change (trimLeftASCII cutset (String c (String d r)))
      with (if mem c cutset then trimLeftASCII cutset (String d r)
            else String c (String d r)).
    rewrite Hc. reflexivity.
Qed.

(** ** Round trips: the entry line *)

Lemma parseEntryLine_entryText (file : string) (line entry : Z) :
  countByte ":" file = 0%nat →
  Trim file (String " " (String tab (String newline ""))) = file →
  in_int64 line → in_int64 entry →
  parseEntryLine (entryText file line entry) = Ok (file, line, entry).
Proof.
  intros Hcolon Htrim Hline Hentry.
  set (cutset := String " " (String tab (String newline ""))) in *.
  unfold entryText.
  set (tail := if negb (entry =? 0) then " " +:+ fmt_plus_sharp_x entry else "").
  change (String tab file +:+ ":" +:+ fmt_d line +:+ tail)
    with (String tab file +:+ String ":" (fmt_d line +:+ tail)).
  assert (countByte ":" (fmt_d line +:+ tail) = 0%nat) as Hrest.
  { rewrite countByte_append.
    rewrite (countByte_onlyBytes ":" _ _ (onlyBytes_fmt_d line) eq_refl).
    unfold tail. destruct (negb (entry =? 0)); [|reflexivity].
    change (" " +:+ fmt_plus_sharp_x entry) with (String " " (fmt_plus_sharp_x entry)).
    cbn [countByte]. change (Ascii.eqb " " ":") with false.
    rewrite (countByte_onlyBytes ":" _ _ (onlyBytes_fmt_plus_sharp_x entry) eq_refl).
    reflexivity. }
  unfold parseEntryLine, Split.
  rewrite (split_byte_next ":" (String tab file)).
  2:{ cbn [countByte]. change (Ascii.eqb tab ":") with false. exact Hcolon. }
  rewrite (split_byte_last ":" _ "" Hrest).
  cbn [index lookup list_lookup mbind Exec_bind length Nat.eqb negb].
  change ("" +:+ ?x) with x.
  fold cutset. rewrite (Trim_cons tab file cutset eq_refl), Htrim.
  unfold tail. destruct (Z.eqb_spec entry 0) as [->|Hne]; cbn [negb].
  - rewrite append_nil_r.
    rewrite (split_byte_last " " (fmt_d line) ""
               (countByte_onlyBytes " " _ _ (onlyBytes_fmt_d line) eq_refl)).
    cbn [index lookup list_lookup mbind Exec_bind length Nat.ltb Nat.leb].
    change ("" +:+ ?x) with x.
    rewrite (proj2 (fmt_d_parses_back line Hline)). reflexivity.
  - change (" " +:+ fmt_plus_sharp_x entry) with (String " " (fmt_plus_sharp_x entry)).
    rewrite (split_byte_next " " (fmt_d line) "" _
               (countByte_onlyBytes " " _ _ (onlyBytes_fmt_d line) eq_refl)).
    rewrite (split_byte_last " " (fmt_plus_sharp_x entry) ""
               (countByte_onlyBytes " " _ _ (onlyBytes_fmt_plus_sharp_x entry) eq_refl)).
    cbn [index lookup list_lookup mbind Exec_bind length Nat.ltb Nat.leb].
    change ("" +:+ ?x) with x.
    rewrite (proj2 (fmt_d_parses_back line Hline)).
    rewrite (fmt_plus_sharp_x_parses_back entry Hentry). reflexivity.
Qed.

(** X9. [parseEntryLine] reads back the entry line that [Frame.String]
    and [CreatedBy.String] write: for a file name without a colon and
    without blanks, tabs or newlines at its ends, and a line number and
    an entry offset that are 64-bit integers, the tab-indented
    "<file>:<line>", with " <entry>" in sign-and-hex form when the entry
    is not zero, parses to that file, line and entry. *)
Theorem parseEntryLine_reads_rendered_entry :
  ∀ (file : string) (line entry : Z),
    countByte ":" file = 0%nat →
    Trim file (String " " (String tab (String newline ""))) = file →
    in_int64 line → in_int64 entry →
    ∃ text,
      parseEntryLine text = Ok (file, line, entry)
      ∧ (∀ fn params,
           Frame_String (mkFrame fn params file line entry)
           = fn +:+ "(" +:+ Join params ", " +:+ ")" +:+ nl +:+ text)
      ∧ (∀ fn,
           CreatedBy_String (mkCreatedBy fn file line entry)
           = "created by " +:+ fn +:+ nl +:+ text).
Proof.
  intros file line entry Hcolon Htrim Hline Hentry.
  exists (entryText file line entry).
  split; [apply parseEntryLine_entryText; assumption|]. split.
  - intros fn params. unfold Frame_String, entryText.
    cbn [Function Params File Line Entry]. repeat rewrite append_assoc. reflexivity.
  - intros fn. unfold CreatedBy_String, entryText.
    cbn [cb_Function cb_File cb_Line cb_Entry]. repeat rewrite append_assoc. reflexivity.
Qed.

Lemma parseEntryLine_reads_rendered_entry_witness :
  ∃ text,
    parseEntryLine text = Ok ("/src/a.go", 7, 29)
    ∧ (∀ fn params,
         Frame_String (mkFrame fn params "/src/a.go" 7 29)
         = fn +:+ "(" +:+ Join params ", " +:+ ")" +:+ nl +:+ text)
    ∧ (∀ fn,
         CreatedBy_String (mkCreatedBy fn "/src/a.go" 7 29)
         = "created by " +:+ fn +:+ nl +:+ text).
Proof.
  apply (parseEntryLine_reads_rendered_entry "/src/a.go" 7 29);
    try reflexivity; unfold in_int64, int64_min, int64_max; lia.
Defined.

(** ** Round trips: the function line *)

Lemma firstn_s_append (a b : string) : firstn_s (String.length a) (a +:+ b) = a.
Proof.
  induction a as [|c a IH]; [destruct b; reflexivity|].
  change (String c (firstn_s (String.length a) (a +:+ b)) = String c a).
  rewrite IH. reflexivity.
Qed.

Lemma skipn_s_append (a b : string) : skipn_s (String.length a) (a +:+ b) = b.
Proof. induction a as [|c a IH]; [destruct b; reflexivity|exact IH]. Qed.

Lemma LastIndexByte_absent (c : ascii) (s : string) :
  countByte c s = 0%nat → LastIndexByte s c = None.
Proof.
  induction s as [|d s IH]; [reflexivity|]. intros H.
  apply countByte_cons in H as [Hne H]. cbn [LastIndexByte]. rewrite (IH H).
  destruct (Ascii.eqb_spec d c); [congruence|reflexivity].
Qed.

Lemma LastIndexByte_append (c : ascii) (a b : string) :
  countByte c b = 0%nat →
  LastIndexByte (a +:+ String c b) c = Some (String.length a).
Proof.
  intros Hb. induction a as [|d a IH].
  - change ("" +:+ String c b) with (String c b). cbn [LastIndexByte].
    rewrite (LastIndexByte_absent c b Hb), Ascii.eqb_refl. reflexivity.
  - change (String d a +:+ String c b) with (String d (a +:+ String c b)).
    cbn [LastIndexByte]. rewrite IH. reflexivity.
Qed.

(** Where a piece without ", " is followed by ", ", the separator is
    found first at the end of the piece. *)
Lemma prefix_comma_blank (d : ascii) (e rest : string) :
  String.prefix ", " (String d e) = false →
  String.prefix ", " (String d (e +:+ String "," (String " " rest))) = false.
Proof.
  cbn [String.prefix]. destruct (ascii_dec "," d) as [_|_]; [|reflexivity].
  destruct e as [|x e].
  - intros _. reflexivity.
  - change (String x e +:+ ?t) with (String x (e +:+ t)).
    intros H. cbn [String.prefix] in H |- *.
    destruct (ascii_dec " " x) as [_|_]; [|reflexivity].
    rewrite prefix_empty in H. discriminate.
Qed.

Lemma split_comma_next (e : string) :
  ∀ (acc rest : string),
    Contains e ", " = false →
    split_aux ", " 0 acc (e +:+ String "," (String " " rest))
    = (acc +:+ e) :: split_aux ", " 0 "" rest.
Proof.
  induction e as [|d e IH]; intros acc rest He.
  - change ("" +:+ ?t) with t. cbn [split_aux String.prefix String.length Nat.sub].
    destruct (ascii_dec "," ",") as [_|Hne]; [|congruence].
    destruct (ascii_dec " " " ") as [_|Hne]; [|congruence].
    rewrite prefix_empty, append_nil_r. reflexivity.
  - cbn [Contains] in He. apply orb_false_iff in He as [Hp He].
    change (String d e +:+ ?t) with (String d (e +:+ t)).
    cbn [split_aux]. rewrite (prefix_comma_blank d e rest Hp).
    rewrite IH by exact He. rewrite append_assoc. reflexivity.
Qed.

Lemma split_comma_last (e : string) :
  ∀ acc : string,
    Contains e ", " = false → split_aux ", " 0 acc e = [acc +:+ e].
Proof.
  induction e as [|d e IH]; intros acc He.
  - rewrite append_nil_r. reflexivity.
  - cbn [Contains] in He. apply orb_false_iff in He as [Hp He].
    cbn [split_aux]. rewrite Hp, IH by exact He. rewrite append_assoc. reflexivity.
Qed.

(** Joining with ", " and splitting on ", " gives the list back when the
    list is not empty and no element holds ", ". *)
Lemma Split_Join_comma (params : list string) :
  params ≠ [] →
  (∀ p, In p params → Contains p ", " = false) →
  Split (Join params ", ") ", " = params.
Proof.
  unfold Split. intros Hne Hp.
  induction params as [|p ps IH]; [congruence|].
  destruct ps as [|q ps].
  - cbn [Join]. rewrite split_comma_last by (apply Hp; left; reflexivity). reflexivity.
  - change (Join (p :: q :: ps) ", ")
      with (p +:+ String "," (String " " (Join (q :: ps) ", "))).
    rewrite split_comma_next by (apply Hp; left; reflexivity).
    rewrite IH; [reflexivity|discriminate|].
    intros p' Hin. apply Hp. right. exact Hin.
Qed.

Lemma countByte_Join (c : ascii) (params : list string) (sep : string) :
  countByte c sep = 0%nat →
  (∀ p, In p params → countByte c p = 0%nat) →
  countByte c (Join params sep) = 0%nat.
Proof.
  intros Hsep Hp. induction params as [|p ps IH]; [reflexivity|].
  destruct ps as [|q ps]; [apply Hp; left; reflexivity|].
  change (Join (p :: q :: ps) sep) with (p +:+ sep +:+ Join (q :: ps) sep).
  rewrite !countByte_append, Hsep, (Hp p (or_introl eq_refl)), IH; [reflexivity|].
  intros p' Hin. apply Hp. right. exact Hin.
Qed.

Lemma parseFunctionLine_rendered (fn : string) (params : list string) :
  params ≠ [] →
  (∀ p, In p params → countByte "(" p = 0%nat ∧ Contains p ", " = false) →
  parseFunctionLine (fn +:+ "(" +:+ Join params ", " +:+ ")")
  = Ok (mkFrame fn params "" 0 0).
Proof.
  intros Hne Hp.
  set (args := Join params ", ").
  assert (countByte "(" (args +:+ ")") = 0%nat) as Hargs.
  { rewrite countByte_append. unfold args.
    rewrite countByte_Join; [reflexivity|reflexivity|]. intros p Hin. apply Hp, Hin. }
  change (fn +:+ "(" +:+ args +:+ ")") with (fn +:+ String "(" (args +:+ ")")).
  unfold parseFunctionLine. rewrite (LastIndexByte_append "(" fn _ Hargs).
  unfold substr.
  rewrite !length_append.
  change (String.length (String "(" (args +:+ ")"))) with (S (String.length (args +:+ ")"))).
  rewrite length_append. change (String.length ")") with 1%nat.
  destruct (Nat.leb_spec (String.length fn)
              (String.length fn + S (String.length args + 1))); [|lia].
  cbn [Nat.leb andb mbind Exec_bind].
  replace (String.length fn + S (String.length args + 1) - 1)%nat
    with (String.length fn + 1 + String.length args)%nat by lia.
  destruct (Nat.leb_spec (String.length fn + 1 + String.length args)
              (String.length fn + S (String.length args + 1))); [|lia].
  destruct (Nat.leb_spec (String.length fn + 1)
              (String.length fn + 1 + String.length args)); [|lia].
  cbn [andb mbind Exec_bind]. unfold slice.
  rewrite Nat.sub_0_r. cbn [skipn_s]. rewrite firstn_s_append.
  replace (String.length fn + 1)%nat with (String.length (fn +:+ "("))
    by (rewrite length_append; reflexivity).
  replace (fn +:+ String "(" (args +:+ ")")) with ((fn +:+ "(") +:+ (args +:+ ")"))
    by (rewrite append_assoc; reflexivity).
  rewrite skipn_s_append.
  replace (String.length (fn +:+ "(") + String.length args - String.length (fn +:+ "("))%nat
    with (String.length args) by lia.
  rewrite firstn_s_append. unfold args.
  rewrite Split_Join_comma; [reflexivity|exact Hne|]. intros p Hin. apply Hp, Hin.
Qed.

(** X10. The function branch of the parser reads back the function line
    that [Frame.String] writes, "<function>(<params joined by ", ">)",
    when the parameter list is not empty and no parameter holds an
    opening parenthesis or the separator ", ".  (The function name may
    hold parentheses.) *)
Theorem parseFunctionLine_reads_rendered_function :
  ∀ (f : Frame),
    Params f ≠ [] →
    (∀ p, In p (Params f) → countByte "(" p = 0%nat ∧ Contains p ", " = false) →
    ∃ line rest,
      Frame_String f = line +:+ nl +:+ rest
      ∧ parseFunctionLine line = Ok (mkFrame (Function f) (Params f) "" 0 0).
Proof.
  intros f Hne Hp.
  exists (Function f +:+ "(" +:+ Join (Params f) ", " +:+ ")"),
         (String tab (File f) +:+ ":" +:+ fmt_d (Line f)
          +:+ (if negb (Entry f =? 0) then " " +:+ fmt_plus_sharp_x (Entry f) else "")).
  split.
  - unfold Frame_String. repeat rewrite append_assoc. reflexivity.
  - apply parseFunctionLine_rendered; assumption.
Qed.

Lemma parseFunctionLine_reads_rendered_function_witness :
  let f := mkFrame "main.(T).run" ["0x1"; "0xc000012345"] "/src/a.go" 7 29 in
  ∃ line rest,
    Frame_String f = line +:+ nl +:+ rest
    ∧ parseFunctionLine line = Ok (mkFrame "main.(T).run" ["0x1"; "0xc000012345"] "" 0 0).
Proof.
  intros f. apply (parseFunctionLine_reads_rendered_function f).
  - discriminate.
  - intros p [<-|[<-|[]]]; split; reflexivity.
Defined.

(** ** Round trips: the header line *)

Lemma Join_cons (e : string) (rest : list string) (sep : string) :
  rest ≠ [] → Join (e :: rest) sep = e +:+ sep +:+ Join rest sep.
Proof. destruct rest; [congruence|reflexivity]. Qed.

(** Joining what a split on one byte gives with that byte gives the
    text back. *)
Lemma Join_split_byte (c : ascii) (s : string) :
  ∀ acc : string,
    Join (split_aux (String c "") 0 acc s) (String c "") = acc +:+ s.
Proof.
  induction s as [|d s IH]; intros acc.
  - cbn [split_aux Join]. rewrite append_nil_r. reflexivity.
  - cbn [split_aux String.prefix String.length Nat.sub].
    destruct (ascii_dec c d) as [->|_].
    + rewrite prefix_empty, Join_cons by apply split_aux_not_nil.
      rewrite IH. reflexivity.
    + rewrite IH, append_assoc. reflexivity.
Qed.

Lemma trimLeftASCII_fixed (cutset s : string) :
  firstByteIn cutset s = false → trimLeftASCII cutset s = s.
Proof.
  destruct s as [|c s]; [reflexivity|]. cbn [firstByteIn trimLeftASCII].
  intros ->. reflexivity.
Qed.

Lemma trimRightASCII_fixed (cutset s : string) :
  lastByteIn cutset s = false → trimRightASCII cutset s = s.
Proof.
  induction s as [|c s IH]; [reflexivity|]. intros H.
  cbn [trimRightASCII]. destruct s as [|d s].
  - cbn [lastByteIn] in H. rewrite H. reflexivity.
  - rewrite IH by exact H. reflexivity.
Qed.

Lemma trimRightASCII_snoc (c : ascii) (s cutset : string) :
  mem c cutset = true →
  trimRightASCII cutset (s +:+ String c "") = trimRightASCII cutset s.
Proof.
  intros Hc. induction s as [|d s IH].
  - change ("" +:+ String c "") with (String c ""). cbn [trimRightASCII].
    rewrite Hc. reflexivity.
  - change (String d s +:+ String c "") with (String d (s +:+ String c "")).
    cbn [trimRightASCII]. rewrite IH. reflexivity.
Qed.

Lemma lastByteIn_append (set a b : string) :
  b ≠ "" → lastByteIn set (a +:+ b) = lastByteIn set b.
Proof.
  intros Hb. induction a as [|c a IH]; [reflexivity|].
  change (String c a +:+ b) with (String c (a +:+ b)).
  cbn [lastByteIn]. destruct (a +:+ b) as [|d r] eqn:E; [|exact IH].
  destruct a; [change ("" +:+ b) with b in E; congruence|discriminate].
Qed.

(** Trimming the brackets and the colon off "[<text>]:" leaves the text
    when it does not itself start or end with one of them. *)
Lemma Trim_brackets (text : string) :
  firstByteIn "[]:" text = false → lastByteIn "[]:" text = false →
  Trim ("[" +:+ text +:+ "]:") "[]:" = text.
Proof.
  intros Hf Hl.
  change ("[" +:+ text +:+ "]:") with (String "[" (text +:+ "]:")).
  rewrite Trim_cons by reflexivity. unfold Trim.
  replace (text +:+ "]:") with ((text +:+ "]") +:+ ":")
    by (rewrite append_assoc; reflexivity).
  rewrite !trimRightASCII_snoc by reflexivity.
  rewrite trimRightASCII_fixed by exact Hl. apply trimLeftASCII_fixed, Hf.
Qed.

Lemma fmt_d_not_empty (z : Z) : ∃ c rest, fmt_d z = String c rest.
Proof.
  unfold fmt_d. destruct z as [|p|p]; cbn [Z.to_int DecimalString.NilZero.string_of_int].
  - eexists _, _. reflexivity.
  - destruct (Pos.to_uint p); eexists _, _; reflexivity.
  - eexists _, _. reflexivity.
Qed.

(** A byte of a decimal numeral is read as a rune of one byte that is
    not a space. *)
Lemma decimal_byte_rune (c : ascii) (s : string) :
  mem c "-0123456789" = true →
  DecodeRuneInString (String c s) = (byteN c, 1%nat) ∧ IsSpace (byteN c) = false
  ∧ c ≠ "l"%char.
Proof.
  cbn [mem]. intros H.
  repeat (apply orb_true_iff in H as [H|H]; [apply Ascii.eqb_eq in H; subst c|]);
    try discriminate; repeat split; try reflexivity; discriminate.
Qed.

(** [strings.Fields] takes a decimal numeral as part of one field. *)
Lemma fields_aux_numeral (w : string) :
  ∀ (keep : bool) (cur : option string) (rest : string),
    w ≠ "" → onlyBytes "-0123456789" w = true →
    fields_aux 0 keep cur (w +:+ rest)
    = fields_aux 0 true (Some (default "" cur +:+ w)) rest.
Proof.
  induction w as [|c w IH]; intros keep cur rest Hne Hw; [congruence|].
  cbn [onlyBytes] in Hw. apply andb_true_iff in Hw as [Hc Hw].
  destruct (decimal_byte_rune c (w +:+ rest) Hc) as (Hrune & Hsp & _).
  change (String c w +:+ rest) with (String c (w +:+ rest)).
  cbn [fields_aux]. rewrite Hrune, Hsp. cbn [Nat.sub].
  destruct w as [|d w].
  - reflexivity.
  - rewrite IH by (discriminate || exact Hw). cbn [default]. unfold id.
    rewrite append_assoc. reflexivity.
Qed.

Lemma Fields_minutes (m : Z) :
  Fields (" " +:+ fmt_d m +:+ " minutes") = [fmt_d m; "minutes"].
Proof.
  destruct (fmt_d_not_empty m) as (c & rest & E).
  unfold Fields. change (" " +:+ ?t) with (String " " t).
  cbn [fields_aux]. change (DecodeRuneInString (String " " ?t)) with (32%N, 1%nat).
  cbv iota. change (IsSpace 32) with true. cbv iota. cbn [Nat.sub].
  rewrite fields_aux_numeral; [|rewrite E; discriminate|apply onlyBytes_fmt_d].
  reflexivity.
Qed.

Lemma minutes_not_locked (m : Z) :
  String.eqb (" " +:+ fmt_d m +:+ " minutes") " locked to thread" = false.
Proof.
  destruct (fmt_d_not_empty m) as (c & rest & E).
  pose proof (onlyBytes_fmt_d m) as Hb. rewrite E in Hb |- *.
  cbn [onlyBytes] in Hb. apply andb_true_iff in Hb as [Hc _].
  destruct (decimal_byte_rune c "" Hc) as (_ & _ & Hl).
  change (" " +:+ String c rest +:+ " minutes")
    with (String " " (String c (rest +:+ " minutes"))).
  cbn [String.eqb]. change (Ascii.eqb " " " ") with true. cbv iota.
  destruct (Ascii.eqb_spec c "l"); [congruence|reflexivity].
Qed.

(** The words of the header line "goroutine <n> [<text>]:" and what is
    left of the text between the brackets. *)
Lemma header_parts (n : Z) (text : string) :
  Split ("goroutine " +:+ fmt_d n +:+ " [" +:+ text +:+ "]:") " "
  = "goroutine" :: fmt_d n :: Split ("[" +:+ text +:+ "]:") " ".
Proof.
  unfold Split.
  change ("goroutine " +:+ fmt_d n +:+ " [" +:+ text +:+ "]:")
    with ("goroutine" +:+ String " " (fmt_d n +:+ " [" +:+ text +:+ "]:")).
  rewrite (split_byte_next " " "goroutine" "" _ eq_refl).
  change (fmt_d n +:+ " [" +:+ text +:+ "]:")
    with (fmt_d n +:+ String " " ("[" +:+ text +:+ "]:")).
  rewrite (split_byte_next " " (fmt_d n) "" _
             (countByte_onlyBytes " " _ _ (onlyBytes_fmt_d n) eq_refl)).
  reflexivity.
Qed.

Lemma sliceFrom_two {X : Type} (a b : X) (l : list X) :
  sliceFrom (a :: b :: l) 2 = Ok l.
Proof. reflexivity. Qed.

(** The header branch up to the list of the fields between the
    brackets. *)
Lemma parseHeader_fields (n : Z) (text : string) :
  in_int64 n →
  firstByteIn "[]:" text = false → lastByteIn "[]:" text = false →
  parseHeader ("goroutine " +:+ fmt_d n +:+ " [" +:+ text +:+ "]:")
  = (let state := Split text "," in
     segs ← sliceFrom state 1;
     '(timev, locked) ← headerSegments state segs 0 false;
     s0 ← index state 0;
     Ok (mkStack n s0 timev [] locked CreatedBy_zero)).
Proof.
  intros Hn Hf Hl. unfold parseHeader. rewrite header_parts.
  cbn [index lookup list_lookup mbind Exec_bind].
  rewrite (proj1 (fmt_d_parses_back n Hn)).
  rewrite sliceFrom_two. cbn [mbind Exec_bind].
  assert (Trim (Join (Split ("[" +:+ text +:+ "]:") " ") " ") "[]:" = text) as ->.
  { unfold Split. rewrite Join_split_byte. apply Trim_brackets; assumption. }
  reflexivity.
Qed.

(** The header branch on a header line as [Stack.String] writes it. *)
Lemma parseHeader_headerText (number : Z) (state : string) (minutes : Z) :
  in_int64 number → in_int64 minutes →
  countByte "," state = 0%nat →
  firstByteIn "[]:" state = false → lastByteIn "[]:" state = false →
  parseHeader (headerText number state minutes)
  = Ok (mkStack number state
          (if minutes =? 0 then 0 else wrap64 (minutes * Minute)) [] false CreatedBy_zero).
Proof.
  intros Hnum Hmr Hcomma Hfirst Hlast. unfold headerText.
  set (text := if negb (minutes =? 0)
               then state +:+ ", " +:+ (fmt_d minutes +:+ " minutes") else state).
  rewrite parseHeader_fields; [|exact Hnum| |].
  - unfold text. destruct (Z.eqb_spec minutes 0) as [H0|H0]; cbn [negb].
    + unfold Split. rewrite (split_byte_last "," state "" Hcomma).
      change ("" +:+ ?x) with x. reflexivity.
    + change (state +:+ ", " +:+ fmt_d minutes +:+ " minutes")
        with (state +:+ String "," (" " +:+ fmt_d minutes +:+ " minutes")).
      unfold Split. rewrite (split_byte_next "," state "" _ Hcomma).
      rewrite split_byte_last.
      2:{ change (" " +:+ fmt_d minutes +:+ " minutes")
            with (String " " (fmt_d minutes +:+ " minutes")).
          cbn [countByte]. change (Ascii.eqb " " ",") with false.
          rewrite countByte_append.
          rewrite (countByte_onlyBytes "," _ _ (onlyBytes_fmt_d minutes) eq_refl).
          reflexivity. }
      change ("" +:+ ?x) with x. cbv zeta.
      cbn [sliceFrom length Nat.leb drop mbind Exec_bind headerSegments].
      rewrite minutes_not_locked.
      cbn [index lookup list_lookup mbind Exec_bind].
      rewrite Fields_minutes.
      cbn [length Nat.eqb negb index lookup list_lookup mbind Exec_bind].
      rewrite (proj1 (fmt_d_parses_back minutes Hmr)). reflexivity.
  - unfold text. destruct (negb (minutes =? 0)); [|exact Hfirst].
    destruct state as [|c st]; [reflexivity|exact Hfirst].
  - unfold text. destruct (negb (minutes =? 0)); [|exact Hlast].
    replace (state +:+ ", " +:+ fmt_d minutes +:+ " minutes")
      with ((state +:+ ", " +:+ fmt_d minutes) +:+ " minutes")
      by (repeat rewrite append_assoc; reflexivity).
    rewrite lastByteIn_append by discriminate. reflexivity.
Qed.

(** A wait time that is a whole number of minutes is that number of
    minutes, which is a 64-bit integer when the wait time is. *)
Lemma whole_minutes (w : Z) :
  in_int64 w → Z.rem w Minute = 0 →
  in_int64 (Z.quot w Minute)
  ∧ (if Z.quot w Minute =? 0 then 0 else wrap64 (Z.quot w Minute * Minute)) = w.
Proof.
  intros Hw Hrem.
  assert (w = Minute * Z.quot w Minute) as Hm
    by (apply Z.quot_exact; [discriminate|exact Hrem]).
  split.
  - unfold in_int64, int64_min, int64_max, Minute in *. lia.
  - destruct (Z.eqb_spec (Z.quot w Minute) 0) as [H0|H0].
    + rewrite Hm, H0. reflexivity.
    + rewrite Z.mul_comm, <- Hm. apply wrap64_in_range, Hw.
Qed.

(** X11. The header branch of the parser reads back the header line
    that [Stack.String] writes.  For a stack whose number and wait time
    are 64-bit integers, whose wait time is a whole number of minutes,
    and whose state holds no comma and neither starts nor ends with a
    bracket or a colon, the first line of the rendering parses to a
    stack with that number, state and wait time (no frames, not locked,
    no creator). *)
Theorem parseHeader_reads_rendered_header :
  ∀ (inexact_minutes : Z → Z) (s : Stack),
    in_int64 (Number s) →
    in_int64 (WaitTime s) →
    Z.rem (WaitTime s) Minute = 0 →
    countByte "," (State s) = 0%nat →
    firstByteIn "[]:" (State s) = false →
    lastByteIn "[]:" (State s) = false →
    ∃ header body,
      Stack_String inexact_minutes s = header +:+ nl +:+ body
      ∧ parseHeader header
        = Ok (mkStack (Number s) (State s) (WaitTime s) [] false CreatedBy_zero).
Proof.
  intros inexact s Hnum Hwait Hrem Hcomma Hfirst Hlast.
  destruct (whole_minutes (WaitTime s) Hwait Hrem) as [Hmr Hw].
  exists (headerText (Number s) (State s) (Z.quot (WaitTime s) Minute)),
         (frames_String (Frames s) +:+ CreatedBy_String (Stack_CreatedBy s) +:+ nl).
  split.
  - unfold Stack_String, Duration_Minutes_int, headerText. rewrite Hrem. cbn [Z.eqb].
    repeat rewrite append_assoc. reflexivity.
  - rewrite parseHeader_headerText by assumption. rewrite Hw. reflexivity.
Qed.

Lemma parseHeader_reads_rendered_header_witness :
  let s := mkStack 7 "chan receive" (3 * Minute)
             [mkFrame "main.f" ["0x1"] "/src/a.go" 7 29] false CreatedBy_zero in
  ∃ header body,
    Stack_String (λ d, d) s = header +:+ nl +:+ body
    ∧ parseHeader header = Ok (mkStack 7 "chan receive" (3 * Minute) [] false CreatedBy_zero).
Proof.
  intros s.
  apply (parseHeader_reads_rendered_header (λ d, d) s); try reflexivity;
    vm_compute; split; discriminate.
Defined.

(** ** Round trips: a rendered stack *)

Lemma unlines_app (a b : list string) : unlines (a ++ b) = unlines a +:+ unlines b.
Proof.
  induction a as [|l a IH]; [reflexivity|].
  cbn [app unlines]. rewrite IH. repeat rewrite append_assoc. reflexivity.
Qed.

Lemma frames_String_unlines (fs : list Frame) :
  frames_String fs = unlines (flat_map frameLines fs).
Proof.
  induction fs as [|f fs IH]; [reflexivity|].
  cbn [frames_String flat_map frameLines app unlines]. rewrite IH.
  unfold Frame_String, functionText, entryText.
  repeat rewrite append_assoc. reflexivity.
Qed.

Lemma Stack_String_unlines (inexact_minutes : Z → Z) (s : Stack) :
  Z.rem (WaitTime s) Minute = 0 →
  Stack_String inexact_minutes s = unlines (stackLines s).
Proof.
  intros Hrem. unfold Stack_String, stackLines, Duration_Minutes_int.
  rewrite Hrem. cbn [Z.eqb unlines]. rewrite unlines_app, frames_String_unlines.
  cbn [unlines]. unfold CreatedBy_String, creatorText, entryText, headerText.
  repeat rewrite append_assoc. reflexivity.
Qed.

Lemma byteN_newline (c : ascii) : (byteN c =? 10)%N = Ascii.eqb c newline.
Proof.
  destruct (Ascii.eqb_spec c newline) as [->|Hne]; [reflexivity|].
  apply N.eqb_neq. intros H. apply Hne. unfold byteN in H.
  rewrite <- (ascii_N_embedding c), H. reflexivity.
Qed.

Lemma byteN_cr (c : ascii) : (byteN c =? 13)%N = Ascii.eqb c cr.
Proof.
  destruct (Ascii.eqb_spec c cr) as [->|Hne]; [reflexivity|].
  apply N.eqb_neq. intros H. apply Hne. unfold byteN in H.
  rewrite <- (ascii_N_embedding c), H. reflexivity.
Qed.

Lemma rev_app_rev_app (a : string) :
  ∀ b c : string, String.rev_app (String.rev_app a b) c = String.rev_app b (a +:+ c).
Proof.
  induction a as [|x a IH]; intros b c; [reflexivity|].
  cbn [String.rev_app]. rewrite IH. reflexivity.
Qed.

(** The scanner's buffer after a line that does not end in "\r" keeps
    its last byte. *)
Lemma dropCR_rev_app (line : string) :
  ∀ acc : string,
    lastByteIn (String cr "") line = false →
    (line = "" → dropCR acc = acc) →
    dropCR (String.rev_app line acc) = String.rev_app line acc.
Proof.
  induction line as [|c line IH]; intros acc Hl Hacc; [apply Hacc; reflexivity|].
  cbn [String.rev_app]. apply IH.
  - destruct line; [reflexivity|exact Hl].
  - intros ->. cbn [lastByteIn mem] in Hl. rewrite orb_false_r in Hl.
    cbn [dropCR]. rewrite byteN_cr, Hl. reflexivity.
Qed.

(** The line scanner takes a text made of lines that fit its buffer
    apart into its lines. *)
Lemma ScanLines_unlines (ls : list string) :
  (∀ l, In l ls → oneLine l = true) →
  (∀ l, In l ls → fitsScanner l = true) →
  ScanLines (unlines ls) = ls.
Proof.
  unfold ScanLines. induction ls as [|l ls IH]; intros H Hfit; [reflexivity|].
  cbn [unlines]. change (l +:+ nl +:+ unlines ls) with (l +:+ String newline (unlines ls)).
  specialize (H l (or_introl eq_refl)) as Hl.
  unfold oneLine, noNewline in Hl. apply andb_true_iff in Hl as [Hn Hc].
  apply Nat.eqb_eq in Hn. apply negb_true_iff in Hc.
  specialize (Hfit l (or_introl eq_refl)) as Hlen.
  unfold fitsScanner in Hlen. apply N.ltb_lt in Hlen.
  rewrite scanLines_aux_newline by (exact Hn || lia).
  rewrite dropCR_rev_app by (exact Hc || reflexivity).
  unfold String.rev. rewrite rev_app_rev_app. cbn [String.rev_app].
  rewrite append_nil_r, IH; [reflexivity| |].
  - intros l' Hin. apply H. right. exact Hin.
  - intros l' Hin. apply Hfit. right. exact Hin.
Qed.

Lemma int64b_in_int64 (z : Z) : int64b z = true → in_int64 z.
Proof.
  unfold int64b, in_int64. intros H. apply andb_true_iff in H as [H1 H2].
  split; [apply Z.leb_le, H1|apply Z.leb_le, H2].
Qed.

Lemma lastByteIn_onlyBytes (set other s : string) :
  onlyBytes set s = true →
  (∀ c, mem c set = true → mem c other = false) →
  lastByteIn other s = false.
Proof.
  intros Hs Hd. induction s as [|c s IH]; [reflexivity|].
  cbn [onlyBytes] in Hs. apply andb_true_iff in Hs as [Hc Hs].
  cbn [lastByteIn]. destruct s as [|d s]; [apply Hd, Hc|apply IH, Hs].
Qed.

Lemma not_cr (set : string) :
  mem cr set = false → ∀ c, mem c set = true → mem c (String cr "") = false.
Proof.
  intros Hset c Hc. cbn [mem]. rewrite orb_false_r.
  destruct (Ascii.eqb_spec c cr) as [->|_]; [congruence|reflexivity].
Qed.

Lemma fmt_plus_sharp_x_not_empty (z : Z) : fmt_plus_sharp_x z ≠ "".
Proof. unfold fmt_plus_sharp_x. destruct (z <? 0); discriminate. Qed.

Lemma fmt_d_nonempty (z : Z) : fmt_d z ≠ "".
Proof. destruct (fmt_d_not_empty z) as (c & rest & ->). discriminate. Qed.

(** The entry line stands on one line and is taken as a frame line. *)
Lemma entryText_oneLine (file : string) (line entry : Z) :
  noNewline file = true → oneLine (entryText file line entry) = true.
Proof.
  unfold noNewline. intros Hf. apply Nat.eqb_eq in Hf.
  unfold oneLine, noNewline, entryText. apply andb_true_iff. split.
  - apply Nat.eqb_eq.
    change (String tab file +:+ ?t) with (String tab (file +:+ t)).
    cbn [countByte]. change (Ascii.eqb tab newline) with false.
    rewrite !countByte_append, Hf.
    rewrite (countByte_onlyBytes newline _ _ (onlyBytes_fmt_d line) eq_refl).
    destruct (negb (entry =? 0)); [|reflexivity].
    change (" " +:+ ?t) with (String " " t). cbn [countByte].
    change (Ascii.eqb " " newline) with false.
    rewrite (countByte_onlyBytes newline _ _ (onlyBytes_fmt_plus_sharp_x entry) eq_refl).
    reflexivity.
  - apply negb_true_iff.
    destruct (negb (entry =? 0)).
    + replace (String tab file +:+ ":" +:+ fmt_d line +:+ " " +:+ fmt_plus_sharp_x entry)
        with ((String tab file +:+ ":" +:+ fmt_d line +:+ " ") +:+ fmt_plus_sharp_x entry)
        by (repeat rewrite append_assoc; reflexivity).
      rewrite lastByteIn_append by apply fmt_plus_sharp_x_not_empty.
      apply (lastByteIn_onlyBytes _ _ _ (onlyBytes_fmt_plus_sharp_x entry)).
      apply not_cr. reflexivity.
    + rewrite append_nil_r.
      replace (String tab file +:+ ":" +:+ fmt_d line)
        with ((String tab file +:+ ":") +:+ fmt_d line)
        by (repeat rewrite append_assoc; reflexivity).
      rewrite lastByteIn_append by apply fmt_d_nonempty.
      apply (lastByteIn_onlyBytes _ _ _ (onlyBytes_fmt_d line)).
      apply not_cr. reflexivity.
Qed.

Lemma entryText_kind (file : string) (line entry : Z) :
  lineKind (entryText file line entry) = FrameLine.
Proof. reflexivity. Qed.

Lemma entryRendersBack_spec (file : string) (line entry : Z) :
  entryRendersBack file line entry = true →
  parseEntryLine (entryText file line entry) = Ok (file, line, entry)
  ∧ oneLine (entryText file line entry) = true.
Proof.
  unfold entryRendersBack. intros H.
  apply andb_true_iff in H as [H He]. apply andb_true_iff in H as [H Hl].
  apply andb_true_iff in H as [H Ht]. apply andb_true_iff in H as [Hn Hc].
  split; [|apply entryText_oneLine, Hn].
  apply parseEntryLine_entryText.
  - apply Nat.eqb_eq, Hc.
  - apply String.eqb_eq, Ht.
  - apply int64b_in_int64, Hl.
  - apply int64b_in_int64, He.
Qed.

(** Whether [p] starts a text does not depend on what follows a byte
    that [p] does not hold. *)
Lemma prefix_append_byte (c : ascii) (p : string) :
  ∀ a b : string,
    countByte c p = 0%nat →
    String.prefix p (a +:+ String c b) = String.prefix p a.
Proof.
  induction p as [|x p IH]; intros a b Hp; [rewrite !prefix_empty; reflexivity|].
  apply countByte_cons in Hp as [Hne Hp].
  destruct a as [|y a].
  - change ("" +:+ ?t) with t. cbn [String.prefix].
    destruct (ascii_dec x c); [congruence|reflexivity].
  - change (String y a +:+ ?t) with (String y (a +:+ t)). cbn [String.prefix].
    destruct (ascii_dec x y); [apply IH, Hp|reflexivity].
Qed.

Lemma functionText_kind (f : Frame) :
  HasPrefix (Function f) "goroutine" = false →
  HasPrefix (Function f) "created by" = false →
  lineKind (functionText f) = FrameLine.
Proof.
  intros Hg Hc. unfold lineKind, functionText, HasPrefix in *.
  change (Function f +:+ "(" +:+ ?t) with (Function f +:+ String "(" t).
  rewrite !(prefix_append_byte "(") by reflexivity. rewrite Hg, Hc.
  destruct (Function f); reflexivity.
Qed.

Lemma functionText_oneLine (f : Frame) :
  noNewline (Function f) = true →
  (∀ p, In p (Params f) → noNewline p = true) →
  oneLine (functionText f) = true.
Proof.
  unfold noNewline. intros Hf Hp. apply Nat.eqb_eq in Hf.
  unfold oneLine, noNewline, functionText. apply andb_true_iff. split.
  - apply Nat.eqb_eq. rewrite !countByte_append, Hf.
    rewrite countByte_Join; [reflexivity|reflexivity|].
    intros p Hin. apply Nat.eqb_eq, Hp, Hin.
  - apply negb_true_iff.
    replace (Function f +:+ "(" +:+ Join (Params f) ", " +:+ ")")
      with ((Function f +:+ "(" +:+ Join (Params f) ", ") +:+ ")")
      by (repeat rewrite append_assoc; reflexivity).
    rewrite lastByteIn_append by discriminate. reflexivity.
Qed.

Lemma frameRendersBack_spec (f : Frame) :
  frameRendersBack f = true →
  lineKind (functionText f) = FrameLine
  ∧ parseFunctionLine (functionText f) = Ok (mkFrame (Function f) (Params f) "" 0 0)
  ∧ oneLine (functionText f) = true
  ∧ parseEntryLine (entryText (File f) (Line f) (Entry f))
    = Ok (File f, Line f, Entry f)
  ∧ oneLine (entryText (File f) (Line f) (Entry f)) = true.
Proof.
  unfold frameRendersBack. intros H.
  apply andb_true_iff in H as [H He]. apply andb_true_iff in H as [H Hps].
  apply andb_true_iff in H as [H Hne]. apply andb_true_iff in H as [H Hcb].
  apply andb_true_iff in H as [Hn Hg].
  apply negb_true_iff in Hg, Hcb, Hne. rewrite forallb_forall in Hps.
  destruct (entryRendersBack_spec _ _ _ He) as [Hpe Hoe].
  split; [apply functionText_kind; assumption|].
  split; [|split; [|split; assumption]].
  - apply parseFunctionLine_rendered.
    + intros E. rewrite E in Hne. discriminate.
    + intros p Hin. specialize (Hps p Hin).
      apply andb_true_iff in Hps as [Hps Hc]. apply andb_true_iff in Hps as [_ Hpar].
      split; [apply Nat.eqb_eq, Hpar|apply negb_true_iff, Hc].
  - apply functionText_oneLine; [exact Hn|].
    intros p Hin. specialize (Hps p Hin).
    apply andb_true_iff in Hps as [Hps _]. apply andb_true_iff in Hps as [Hnl _].
    exact Hnl.
Qed.

Lemma headerText_oneLine (number : Z) (state : string) (minutes : Z) :
  noNewline state = true → oneLine (headerText number state minutes) = true.
Proof.
  unfold noNewline. intros Hs. apply Nat.eqb_eq in Hs.
  unfold oneLine, noNewline, headerText. apply andb_true_iff. split.
  - apply Nat.eqb_eq. rewrite !countByte_append.
    rewrite (countByte_onlyBytes newline _ _ (onlyBytes_fmt_d number) eq_refl).
    destruct (negb (minutes =? 0)).
    + rewrite !countByte_append, Hs.
      rewrite (countByte_onlyBytes newline _ _ (onlyBytes_fmt_d minutes) eq_refl).
      reflexivity.
    + rewrite Hs. reflexivity.
  - apply negb_true_iff.
    match goal with
    | |- lastByteIn _ (?a +:+ ?b +:+ ?c +:+ ?d +:+ "]:") = false =>
        replace (a +:+ b +:+ c +:+ d +:+ "]:") with ((a +:+ b +:+ c +:+ d) +:+ "]:")
          by (repeat rewrite append_assoc; reflexivity)
    end.
    rewrite lastByteIn_append by discriminate. reflexivity.
Qed.

Lemma creatorText_oneLine (c : CreatedBy) :
  oneLine (cb_Function c) = true → oneLine (creatorText c) = true.
Proof.
  unfold oneLine, noNewline, creatorText. intros H.
  apply andb_true_iff in H as [Hn Hc]. apply Nat.eqb_eq in Hn.
  apply negb_true_iff in Hc. apply andb_true_iff. split.
  - apply Nat.eqb_eq. rewrite countByte_append, Hn. reflexivity.
  - apply negb_true_iff. destruct (cb_Function c) as [|x fn] eqn:E; [reflexivity|].
    rewrite lastByteIn_append by discriminate. exact Hc.
Qed.

(** *** The passes of the loop over the lines of a rendered stack *)

Lemma processLine_headerText (st : ParserState) (number : Z) (state : string)
    (minutes : Z) (c : Stack) (next : option string) :
  parseHeader (headerText number state minutes) = Ok c →
  processLine None st (headerText number state minutes) next
  = (S (lineNo st),
     Ok (mkParserState (S (lineNo st)) (Some c) (emit (cur st) (stacks st)) (frame st),
         NextLine)).
Proof.
  intros Hh. unfold processLine. cbn [stripPrefix mbind Exec_bind].
  change (HasPrefix (headerText number state minutes) "goroutine") with true.
  cbv iota. rewrite Hh. reflexivity.
Qed.

Lemma processLine_frame_line (st : ParserState) (line : string) (next : option string) :
  lineKind line = FrameLine →
  processLine None st line next
  = (S (lineNo st),
     match frame st with
     | None =>
         f ← parseFunctionLine line;
         Ok (mkParserState (S (lineNo st)) (cur st) (stacks st) (Some f), NextLine)
     | Some f =>
         '(file, ln, entry) ← parseEntryLine line;
         c ← withCur (cur st) (appendFrame (mkFrame (Function f) (Params f) file ln entry));
         Ok (mkParserState (S (lineNo st)) c (stacks st) None, NextLine)
     end).
Proof.
  unfold lineKind, processLine. cbn [stripPrefix mbind Exec_bind].
  destruct (HasPrefix line "goroutine"); [discriminate|].
  destruct (String.eqb line ""); [discriminate|].
  destruct (HasPrefix line "created by"); [discriminate|]. reflexivity.
Qed.

Lemma TrimPrefix_creatorText (cb : CreatedBy) :
  TrimPrefix (creatorText cb) "created by " = cb_Function cb.
Proof.
  unfold TrimPrefix, HasPrefix, creatorText.
  assert (String.prefix "created by " ("created by " +:+ cb_Function cb) = true) as ->
    by (apply prefix_spec; exists (cb_Function cb); reflexivity).
  reflexivity.
Qed.

Lemma processLine_creatorText (st : ParserState) (cb : CreatedBy) (c : Stack)
    (text : string) :
  cur st = Some c →
  parseEntryLine text = Ok (cb_File cb, cb_Line cb, cb_Entry cb) →
  processLine None st (creatorText cb) (Some text)
  = (S (lineNo st),
     Ok (mkParserState (S (lineNo st)) (Some (setCreatedBy cb c)) (stacks st) (frame st),
         SkipLine)).
Proof.
  intros Hc Ht. unfold processLine. cbn [stripPrefix mbind Exec_bind].
  change (HasPrefix (creatorText cb) "goroutine") with false.
  change (String.eqb (creatorText cb) "") with false.
  change (HasPrefix (creatorText cb) "created by") with true.
  cbv iota. rewrite Ht. cbn [mbind Exec_bind]. rewrite Hc.
  cbn [withCur mbind Exec_bind].
  rewrite TrimPrefix_creatorText. destruct cb; reflexivity.
Qed.

Lemma processLine_blank (st : ParserState) (next : option string) :
  processLine None st "" next
  = (S (lineNo st),
     Ok (mkParserState (S (lineNo st)) None (emit (cur st) (stacks st)) (frame st),
         NextLine)).
Proof. reflexivity. Qed.

(** The loop over the two lines of each frame of a list adds the frames
    to the open stack. *)
Lemma finalState_frames (fs : list Frame) :
  ∀ (n : nat) (c : Stack) (done : list Stack) (rest : list string),
    forallb frameRendersBack fs = true →
    ∃ n',
      finalState None (mkParserState n (Some c) done None)
        (flat_map frameLines fs ++ rest)
      = finalState None
          (mkParserState n'
             (Some (mkStack (Number c) (State c) (WaitTime c) (Frames c ++ fs)
                      (ThreadLocked c) (Stack_CreatedBy c)))
             done None) rest.
Proof.
  induction fs as [|f fs IH]; intros n c done rest Hfs.
  - exists n. cbn [flat_map app]. rewrite app_nil_r. destruct c; reflexivity.
  - cbn [forallb] in Hfs. apply andb_true_iff in Hfs as [Hf Hfs].
    destruct (frameRendersBack_spec f Hf) as (Hk & Hpf & _ & Hpe & _).
    cbn [flat_map frameLines app finalState].
    rewrite (processLine_frame_line _ _ _ Hk). cbn [lineNo cur stacks frame].
    rewrite Hpf. cbn [mbind Exec_bind finalState].
    rewrite (processLine_frame_line _ _ _ (entryText_kind _ _ _)).
    cbn [lineNo cur stacks frame]. rewrite Hpe.
    cbn [mbind Exec_bind withCur Function Params].
    destruct (IH (S (S n)) (appendFrame (mkFrame (Function f) (Params f) (File f) (Line f)
                                            (Entry f)) c) done rest Hfs) as [n' ->].
    exists n'. cbn [appendFrame Number State WaitTime Frames ThreadLocked Stack_CreatedBy].
    rewrite <- app_assoc. destruct f; reflexivity.
Qed.

Lemma stackRendersBack_spec (s : Stack) :
  stackRendersBack s = true →
  Z.rem (WaitTime s) Minute = 0
  ∧ parseHeader (headerText (Number s) (State s) (Z.quot (WaitTime s) Minute))
    = Ok (mkStack (Number s) (State s) (WaitTime s) [] false CreatedBy_zero)
  ∧ ThreadLocked s = false
  ∧ forallb frameRendersBack (Frames s) = true
  ∧ parseEntryLine (entryText (cb_File (Stack_CreatedBy s)) (cb_Line (Stack_CreatedBy s))
                      (cb_Entry (Stack_CreatedBy s)))
    = Ok (cb_File (Stack_CreatedBy s), cb_Line (Stack_CreatedBy s),
          cb_Entry (Stack_CreatedBy s))
  ∧ (∀ l, In l (stackLines s) → oneLine l = true).
Proof.
  unfold stackRendersBack. intros H.
  apply andb_true_iff in H as [H Hcbe]. apply andb_true_iff in H as [H Hcbf].
  apply andb_true_iff in H as [H Hfs]. apply andb_true_iff in H as [H Hlock].
  apply andb_true_iff in H as [H Hlast]. apply andb_true_iff in H as [H Hfirst].
  apply andb_true_iff in H as [H Hcomma]. apply andb_true_iff in H as [H Hnl].
  apply andb_true_iff in H as [H Hrem]. apply andb_true_iff in H as [Hnum Hwait].
  apply negb_true_iff in Hlock, Hlast, Hfirst.
  apply Z.eqb_eq in Hrem. apply Nat.eqb_eq in Hcomma.
  apply int64b_in_int64 in Hnum, Hwait.
  destruct (whole_minutes (WaitTime s) Hwait Hrem) as [Hmr Hw].
  destruct (entryRendersBack_spec _ _ _ Hcbe) as [Hpe Hoe].
  split; [exact Hrem|]. split.
  { rewrite parseHeader_headerText by assumption. rewrite Hw. reflexivity. }
  split; [exact Hlock|]. split; [exact Hfs|]. split; [exact Hpe|].
  intros l Hin. unfold stackLines in Hin. destruct Hin as [<-|Hin].
  { apply headerText_oneLine, Hnl. }
  apply in_app_or in Hin as [Hin|[<-|[<-|[]]]].
  - apply in_flat_map in Hin as (f & Hf & Hl).
    rewrite forallb_forall in Hfs. specialize (Hfs f Hf).
    destruct (frameRendersBack_spec f Hfs) as (_ & _ & Ho1 & _ & Ho2).
    destruct Hl as [<-|[<-|[]]]; assumption.
  - apply creatorText_oneLine, Hcbf.
  - exact Hoe.
Qed.

(** The loop over the lines of a rendered stack, entered with no stack
    open and no frame pending, ends with that stack open. *)
Lemma finalState_stackLines (s : Stack) (n : nat) (done : list Stack)
    (rest : list string) :
  stackRendersBack s = true →
  ∃ n',
    finalState None (mkParserState n None done None) (stackLines s ++ rest)
    = finalState None (mkParserState n' (Some s) done None) rest.
Proof.
  intros H. destruct (stackRendersBack_spec s H) as (_ & Hh & Hlock & Hfs & Hpe & _).
  unfold stackLines. cbn [app finalState].
  rewrite (processLine_headerText _ _ _ _ _ _ Hh). cbn [lineNo cur stacks emit frame].
  destruct (finalState_frames (Frames s) (S n)
              (mkStack (Number s) (State s) (WaitTime s) [] false CreatedBy_zero) done
              ([creatorText (Stack_CreatedBy s);
                entryText (cb_File (Stack_CreatedBy s)) (cb_Line (Stack_CreatedBy s))
                  (cb_Entry (Stack_CreatedBy s))] ++ rest) Hfs) as [n1 Hrun].
  cbn [Number State WaitTime Frames ThreadLocked Stack_CreatedBy app] in Hrun.
  rewrite <- app_assoc. cbn [app]. rewrite Hrun. cbn [finalState head].
  erewrite processLine_creatorText; [|reflexivity|exact Hpe].
  exists (S n1). cbn [Number State WaitTime Frames ThreadLocked Stack_CreatedBy app
                      setCreatedBy lineNo cur stacks frame].
  rewrite <- Hlock. destruct s; reflexivity.
Qed.

(** X12. Parsing the rendering of a stack gives the stack back.  For a
    stack that [stackRendersBack] accepts (64-bit number, wait time of
    whole minutes, a state and names free of the bytes that structure
    the text, at least one parameter in every frame, not locked to a
    thread) and whose rendered lines are each shorter than the 64 KiB of
    the scanner's buffer, [ParseStacks] over what the line scanner
    yields of [Stack.String] returns that stack alone and no error. *)
Theorem ParseStacks_reads_rendered_stack :
  ∀ (regexp_Compile : string → option Regexp) (debug_Stack : string)
    (inexact_minutes : Z → Z) (s : Stack),
    stackRendersBack s = true →
    forallb fitsScanner (stackLines s) = true →
    ParseStacks regexp_Compile debug_Stack
      (ScanLines (Stack_String inexact_minutes s)) ""
    = ([s], None).
Proof.
  intros rc ds inexact s H Hfit.
  destruct (stackRendersBack_spec s H) as (Hrem & _ & _ & _ & _ & Hlines).
  rewrite (Stack_String_unlines inexact s Hrem).
  rewrite (ScanLines_unlines _ Hlines) by (apply forallb_forall, Hfit).
  unfold ParseStacks. cbn [compilePrefix String.eqb negb].
  destruct (finalState_stackLines s 0 [] [] H) as [n' Hfin].
  rewrite app_nil_r in Hfin. cbn [finalState] in Hfin.
  pose proof (scanLoop_finalState None (length (stackLines s)) (stackLines s)
                initialState (le_n _)) as Hrun.
  change (mkParserState 0 None [] None) with initialState in Hfin.
  rewrite Hfin in Hrun. rewrite Hrun. reflexivity.
Qed.

Lemma ParseStacks_reads_rendered_stack_witness :
  let s := mkStack 7 "chan receive" (3 * Minute)
             [mkFrame "main.(T).run" ["0x1"; "0xc000012345"] "/src/a.go" 7 29;
              mkFrame "main.main" ["..."] "/src/main.go" 12 0]
             false (mkCreatedBy "main.start" "/src/a.go" 3 5) in
  stackRendersBack s = true
  ∧ forallb fitsScanner (stackLines s) = true
  ∧ ParseStacks (λ _, None) "" (ScanLines (Stack_String (λ d, d) s)) "" = ([s], None).
Proof.
  intros s. assert (stackRendersBack s = true) as H by reflexivity.
  assert (forallb fitsScanner (stackLines s) = true) as Hfit by reflexivity.
  split; [exact H|]. split; [exact Hfit|].
  exact (ParseStacks_reads_rendered_stack (λ _, None) "" (λ d, d) s H Hfit).
Defined.

(** ** Round trips: a formatted collection *)

Lemma formatStacks_unlines (inexact_minutes : Z → Z) (stacks : list Stack) :
  (∀ s, In s stacks → Z.rem (WaitTime s) Minute = 0) →
  formatStacks inexact_minutes stacks = unlines (dumpLines stacks).
Proof.
  induction stacks as [|s stacks IH]; intros H; [reflexivity|].
  cbn [formatStacks dumpLines flat_map].
  rewrite (Stack_String_unlines inexact_minutes s (H s (or_introl eq_refl))).
  rewrite IH by (intros s' Hs'; apply H; right; exact Hs').
  rewrite !unlines_app. cbn [unlines]. unfold dumpLines.
  repeat rewrite append_assoc. reflexivity.
Qed.

Lemma finalState_dumpLines (ss : list Stack) :
  forallb stackRendersBack ss = true →
  ∀ (n : nat) (done : list Stack) (rest : list string),
    ∃ n',
      finalState None (mkParserState n None done None) (dumpLines ss ++ rest)
      = finalState None (mkParserState n' None (done ++ ss) None) rest.
Proof.
  induction ss as [|s ss IH]; intros H n done rest.
  - exists n. cbn [dumpLines flat_map app]. rewrite app_nil_r. reflexivity.
  - cbn [forallb] in H. apply andb_true_iff in H as [Hs H].
    cbn [dumpLines flat_map]. fold (dumpLines ss).
    rewrite <- !app_assoc.
    destruct (finalState_stackLines s n done ([""] ++ dumpLines ss ++ rest) Hs)
      as [n1 ->].
    cbn [app finalState]. rewrite processLine_blank. cbn [lineNo cur stacks emit frame].
    destruct (IH H (S n1) (done ++ [s]) rest) as [n' ->].
    exists n'. rewrite <- app_assoc. reflexivity.
Qed.

(** X13. Parsing what [formatStacks] writes gives the collection back:
    for stacks that [stackRendersBack] accepts and whose rendered lines
    are each shorter than the 64 KiB of the scanner's buffer,
    [ParseStacks] over what the line scanner yields of the formatted
    text returns exactly those stacks, in order, and no error. *)
Theorem ParseStacks_reads_formatted_stacks :
  ∀ (regexp_Compile : string → option Regexp) (debug_Stack : string)
    (inexact_minutes : Z → Z) (stacks : list Stack),
    forallb stackRendersBack stacks = true →
    forallb fitsScanner (dumpLines stacks) = true →
    ParseStacks regexp_Compile debug_Stack
      (ScanLines (formatStacks inexact_minutes stacks)) ""
    = (stacks, None).
Proof.
  intros rc ds inexact stacks H Hfit.
  assert (∀ s, In s stacks → stackRendersBack s = true) as Hall
    by (apply forallb_forall, H).
  rewrite formatStacks_unlines
    by (intros s Hs; apply (stackRendersBack_spec s (Hall s Hs))).
  rewrite ScanLines_unlines.
  2:{ intros l Hl. unfold dumpLines in Hl. apply in_flat_map in Hl as (s & Hs & Hl).
      apply in_app_or in Hl as [Hl|[<-|[]]]; [|reflexivity].
      apply (stackRendersBack_spec s (Hall s Hs)), Hl. }
  2:{ apply forallb_forall, Hfit. }
  unfold ParseStacks. cbn [compilePrefix String.eqb negb].
  destruct (finalState_dumpLines stacks H 0 [] []) as [n' Hfin].
  rewrite app_nil_r in Hfin. cbn [finalState app] in Hfin.
  change (mkParserState 0 None [] None) with initialState in Hfin.
  pose proof (scanLoop_finalState None (length (dumpLines stacks)) (dumpLines stacks)
                initialState (le_n _)) as Hrun.
  rewrite Hfin in Hrun. rewrite Hrun. reflexivity.
Qed.

Lemma ParseStacks_reads_formatted_stacks_witness :
  let s1 := mkStack 7 "chan receive" (3 * Minute)
              [mkFrame "main.(T).run" ["0x1"; "0xc000012345"] "/src/a.go" 7 29]
              false (mkCreatedBy "main.start" "/src/a.go" 3 5) in
  let s2 := mkStack 9 "running" 0
              [mkFrame "main.main" ["..."] "/src/main.go" 12 0]
              false CreatedBy_zero in
  forallb stackRendersBack [s1; s2] = true
  ∧ forallb fitsScanner (dumpLines [s1; s2]) = true
  ∧ ParseStacks (λ _, None) "" (ScanLines (formatStacks (λ d, d) [s1; s2])) ""
    = ([s1; s2], None).
Proof.
  intros s1 s2. assert (forallb stackRendersBack [s1; s2] = true) as H by reflexivity.
  assert (forallb fitsScanner (dumpLines [s1; s2]) = true) as Hfit by reflexivity.
  split; [exact H|]. split; [exact Hfit|].
  exact (ParseStacks_reads_formatted_stacks (λ _, None) "" (λ d, d) [s1; s2] H Hfit).
Defined.

(** ** The pipeline of [main]: sorted and filtered *)

Lemma ascendingBy_cons (compfunc : StackCompFunc) (x : Stack) (l : list Stack) :
  ascendingBy compfunc (x :: l)
  ↔ compfunc x x = false ∧ (∀ y, In y l → compfunc y x = false) ∧ ascendingBy compfunc l.
Proof.
  unfold ascendingBy. split.
  - intros H. split; [|split].
    + apply (H 0%nat 0%nat x x); [lia|reflexivity|reflexivity].
    + intros y Hy. apply list_elem_of_In, list_elem_of_lookup in Hy as [j Hj].
      apply (H 0%nat (S j) x y); [lia|reflexivity|exact Hj].
    + intros i j a b Hij Ha Hb. apply (H (S i) (S j) a b); [lia|exact Ha|exact Hb].
  - intros (Hx & Hl & Ha) i j a b Hij Hi Hj.
    destruct i as [|i], j as [|j]; cbn in Hi, Hj.
    + injection Hi as <-. injection Hj as <-. exact Hx.
    + injection Hi as <-. apply Hl, list_elem_of_In. eapply list_elem_of_lookup_2, Hj.
    + lia.
    + apply (Ha i j a b); [lia|exact Hi|exact Hj].
Qed.

(** Filtering keeps an ascending collection ascending. *)
Lemma ascendingBy_filter (compfunc : StackCompFunc) (p : Stack → bool) (l : list Stack) :
  ascendingBy compfunc l → ascendingBy compfunc (List.filter p l).
Proof.
  induction l as [|x l IH]; intros H; [exact H|].
  apply ascendingBy_cons in H as (Hx & Hl & Ha). cbn [List.filter].
  destruct (p x); [|apply IH, Ha].
  apply ascendingBy_cons. split; [exact Hx|]. split; [|apply IH, Ha].
  intros y Hy. apply List.filter_In in Hy as [Hy _]. apply Hl, Hy.
Qed.

Lemma filter_Permutation' (p : Stack → bool) (l l' : list Stack) :
  l ≡ₚ l' → List.filter p l ≡ₚ List.filter p l'.
Proof.
  induction 1 as [|x l l' _ IH|x y l|l1 l2 l3 _ IH1 _ IH2]; cbn [List.filter].
  - reflexivity.
  - destruct (p x); [constructor|]; exact IH.
  - destruct (p x), (p y); try reflexivity. apply perm_swap.
  - etransitivity; eassumption.
Qed.

Lemma filter_twice (p : Stack → bool) (l : list Stack) :
  List.filter p (List.filter p l) = List.filter p l.
Proof.
  induction l as [|x l IH]; [reflexivity|]. cbn [List.filter].
  destruct (p x) eqn:Hp; [|exact IH]. cbn [List.filter]. rewrite Hp, IH. reflexivity.
Qed.

(** X19. What [main] prints is sorted and complete.  For each of the
    three comparators, sorting the parsed stacks and then filtering them
    returns, without panicking, the stacks that pass every filter (a
    rearrangement of what filtering the unsorted input gives), in
    ascending order of the sort key; filtering the result once more, as
    [main] does before the suspicious check and the interactive loop,
    changes nothing. *)
Theorem sortAndFilter_sorted_and_complete :
  ∀ (compfunc : StackCompFunc) (filters : list Filter) (stacks : list Stack),
    compfunc = CompWaitTime ∨ compfunc = CompDepth ∨ compfunc = CompGoroNum →
    ∃ out,
      sortAndFilter compfunc filters stacks = Ok out
      ∧ out ≡ₚ ApplyFilters stacks filters
      ∧ ascendingBy compfunc out
      ∧ (∀ s, In s out ↔ In s stacks ∧ ∀ f, In f filters → f s = true)
      ∧ ApplyFilters out filters = out.
Proof.
  intros compfunc filters stacks Hc.
  assert (∃ key : Stack → Z, ∀ a b, compfunc a b = (key a <? key b)) as [key Hkey].
  { destruct Hc as [->|[->| ->]].
    - exists WaitTime. reflexivity.
    - exists (λ s, Z.of_nat (length (Frames s))). apply CompDepth_key.
    - exists Number. reflexivity. }
  destruct (sortStacks_by_key compfunc key Hkey stacks) as (sorted & Hrun & HP & Hasc).
  exists (ApplyFilters sorted filters).
  split; [unfold sortAndFilter; rewrite Hrun; reflexivity|].
  rewrite !ApplyFilters_filter.
  split; [apply filter_Permutation'; symmetry; exact HP|].
  split; [apply ascendingBy_filter, Hasc|].
  split; [|apply filter_twice].
  intros s. rewrite List.filter_In, forallb_forall. split.
  - intros [Hin Hf]. split; [|exact Hf].
    eapply Permutation_in; [symmetry; exact HP|exact Hin].
  - intros [Hin Hf]. split; [|exact Hf]. eapply Permutation_in; [exact HP|exact Hin].
Qed.

Lemma sortAndFilter_sorted_and_complete_witness :
  let s (n w : Z) := mkStack n "select" (w * Minute) [] false CreatedBy_zero in
  ∃ out,
    sortAndFilter CompWaitTime [TimeGreaterThan (2 * Minute)] [s 1 5; s 2 1; s 3 2] = Ok out
    ∧ out ≡ₚ ApplyFilters [s 1 5; s 2 1; s 3 2] [TimeGreaterThan (2 * Minute)]
    ∧ ascendingBy CompWaitTime out
    ∧ (∀ x, In x out ↔ In x [s 1 5; s 2 1; s 3 2]
                       ∧ ∀ f, In f [TimeGreaterThan (2 * Minute)] → f x = true)
    ∧ ApplyFilters out [TimeGreaterThan (2 * Minute)] = out.
Proof.
  intros s.
  apply (sortAndFilter_sorted_and_complete CompWaitTime
           [TimeGreaterThan (2 * Minute)] [s 1 5; s 2 1; s 3 2]).
  left. reflexivity.
Defined.
(** ** The command line of [main] *)

Lemma split_byte_length (c : ascii) (acc s : string) :
  length (split_aux (String c "") 0 acc s) = S (countByte c s).
Proof.
  revert acc. induction s as [|d s IH]; intros acc; [reflexivity|].
  cbn [split_aux countByte String.prefix String.length].
  destruct (ascii_dec c d) as [<-|Hne].
  - assert (String.prefix "" s = true) as -> by (destruct s; reflexivity).
    cbn [Nat.sub length]. rewrite IH, Ascii.eqb_refl. reflexivity.
  - rewrite IH. destruct (Ascii.eqb_spec d c) as [->|_]; [congruence|].
    reflexivity.
Qed.

Lemma Split_key_value (key v : string) :
  countByte "=" key = 0%nat →
  Split (key +:+ "=" +:+ v) "=" = key :: Split v "=".
Proof.
  intros Hk. unfold Split.
  change ("=" +:+ v) with (String "=" v).
  rewrite (split_byte_next "=" key "" v Hk). reflexivity.
Qed.

Lemma Split_key (key : string) :
  countByte "=" key = 0%nat → Split key "=" = [key].
Proof. intros Hk. unfold Split. rewrite (split_byte_last "=" key "" Hk). reflexivity. Qed.

Lemma HasPrefix_append (s p rest : string) :
  HasPrefix s p = true → HasPrefix (s +:+ rest) p = true.
Proof.
  unfold HasPrefix. rewrite !prefix_spec. intros [r ->]. exists (r +:+ rest).
  rewrite append_assoc. reflexivity.
Qed.

Lemma keyIn_single (key name : string) :
  key ≠ name → keyIn key [name] = false.
Proof.
  intros Hne. unfold keyIn. cbn [existsb].
  destruct (String.eqb_spec key name); [congruence|reflexivity].
Qed.

Section FlagProofs.

Variable time_ParseDuration : string → option Z.

Lemma flagLoop_app (o : main.Options) (before after : list string) :
  main.flagLoop time_ParseDuration o (before ++ after)
  = match main.flagLoop time_ParseDuration o before with
    | main.Running o' => main.flagLoop time_ParseDuration o' after
    | main.Exited code => main.Exited code
    | main.Crashed r => main.Crashed r
    end.
Proof.
  revert o. induction before as [|a before IH]; intros o; [reflexivity|].
  cbn [app main.flagLoop]. destruct (main.setFlag time_ParseDuration o a); [apply IH|reflexivity..].
Qed.

Lemma keyIn_In (key : string) (names : list string) :
  keyIn key names = true → In key names.
Proof.
  unfold keyIn. rewrite existsb_exists. intros (x & Hin & Heq).
  apply String.eqb_eq in Heq as ->. exact Hin.
Qed.

Lemma setFlag_inRange (o o' : main.Options) (a : string) :
  inRange o → main.setFlag time_ParseDuration o a = main.Running o' → inRange o'.
Proof.
  intros (Hc & Ho & Hf). unfold main.setFlag, main.at_index.
  destruct (HasPrefix a "-"); [|intros [= <-]; repeat split; assumption].
  destruct (Split a "=" !! 0%nat) as [key|]; [|discriminate].
  repeat match goal with
  | |- (if keyIn ?k ?l then _ else _) = _ → _ =>
      let H := fresh "Hk" in destruct (keyIn k l) eqn:H
  | |- match time_ParseDuration ?v with _ => _ end = _ → _ =>
      destruct (time_ParseDuration v)
  | |- match ?l !! 1%nat with _ => _ end = _ → _ => destruct (l !! 1%nat)
  end;
  try discriminate;
  intros [= <-]; unfold inRange; cbn; repeat split; try assumption; auto 10.
  match goal with
  | H : keyIn _ ["full"; _; _] = true |- _ => apply keyIn_In in H; cbn in H; tauto
  end.
Qed.

Lemma flagLoop_inRange (args : list string) :
  ∀ o o', inRange o → main.flagLoop time_ParseDuration o args = main.Running o' → inRange o'.
Proof.
  induction args as [|a args IH]; intros o o' Ho; cbn [main.flagLoop].
  - intros [= <-]. exact Ho.
  - destruct (main.setFlag time_ParseDuration o a) as [o1| |] eqn:Hs; try discriminate.
    apply IH. eapply setFlag_inRange; eassumption.
Qed.

End FlagProofs.

Lemma setFlag_fname (tpd : string → option Z) (o o' : main.Options) (a : string) :
  main.setFlag tpd o a = main.Running o' →
  main.fname o' = (if HasPrefix a "-" then main.fname o else a).
Proof.
  unfold main.setFlag, main.at_index.
  destruct (HasPrefix a "-"); [|intros [= <-]; reflexivity].
  destruct (Split a "=" !! 0%nat) as [key|]; [|discriminate].
  repeat match goal with
  | |- (if keyIn ?k ?l then _ else _) = _ → _ => destruct (keyIn k l)
  | |- match tpd ?v with _ => _ end = _ → _ => destruct (tpd v)
  | |- match ?l !! 1%nat with _ => _ end = _ → _ => destruct (l !! 1%nat)
  end;
  try discriminate; intros [= <-]; reflexivity.
Qed.

Lemma flagLoop_fname (tpd : string → option Z) (args : list string) :
  ∀ o0 o,
    main.flagLoop tpd o0 args = main.Running o →
    (main.fname o = main.fname o0 ∧ Forall (λ a, HasPrefix a "-" = true) args)
    ∨ (∃ before after,
         args = before ++ main.fname o :: after
         ∧ HasPrefix (main.fname o) "-" = false
         ∧ Forall (λ a, HasPrefix a "-" = true) after).
Proof.
  induction args as [|a args IH]; intros o0 o; cbn [main.flagLoop].
  - intros [= <-]. left. split; [reflexivity|constructor].
  - destruct (main.setFlag tpd o0 a) as [o1| |] eqn:Hs; try discriminate.
    intros Hrun. apply setFlag_fname in Hs.
    destruct (IH o1 o Hrun) as [[Hf Hall]|(before & after & -> & Hp & Hall)].
    + destruct (HasPrefix a "-") eqn:Ha.
      * left. split; [congruence|]. constructor; assumption.
      * right. exists [], args. rewrite Hf, Hs. repeat split; assumption.
    + right. exists (a :: before), after. repeat split; assumption.
Qed.

(** X20. The options the flag loop of [main] hands on are always in
    range: whenever the arguments are read without an exit or a panic,
    the comparator is one of the three of package [stacks], the output
    type is one of full, top, summary and sus, and the format is default
    or json (so the formatter [main] picks from it is never nil). *)
Theorem readArgs_options_in_range :
  ∀ (time_ParseDuration : string → option Z) (osArgs : list string) (o : main.Options),
    main.readArgs time_ParseDuration osArgs = main.Running (Some o) →
    (main.compfunc o = CompWaitTime ∨ main.compfunc o = CompDepth
     ∨ main.compfunc o = CompGoroNum)
    ∧ In (main.outputType o) ["full"; "top"; "summary"; "sus"]
    ∧ In (main.formatType o) ["default"; "json"].
Proof.
  intros tpd osArgs o. unfold main.readArgs, main.at_index.
  destruct (length osArgs <? 2)%nat; [discriminate|].
  destruct (osArgs !! 1%nat) as [a1|]; [|discriminate].
  destruct (String.eqb a1 "-h" || String.eqb a1 "--help"); [discriminate|].
  destruct (main.flagLoop tpd main.defaults (drop 1 osArgs)) as [o1| |] eqn:Hrun;
    try discriminate.
  intros [= <-].
  apply (flagLoop_inRange tpd (drop 1 osArgs) main.defaults o1); [|exact Hrun].
  unfold inRange. cbn. tauto.
Qed.

Lemma readArgs_options_in_range_witness :
  ∃ o,
    main.readArgs (λ _, None) ["stackparse"; "--sort=goronum"; "-j"; "--sus"; "dump.txt"]
    = main.Running (Some o)
    ∧ (main.compfunc o = CompWaitTime ∨ main.compfunc o = CompDepth
       ∨ main.compfunc o = CompGoroNum)
    ∧ In (main.outputType o) ["full"; "top"; "summary"; "sus"]
    ∧ In (main.formatType o) ["default"; "json"].
Proof.
  eexists. split; [reflexivity|].
  eapply (readArgs_options_in_range (λ _, None)
            ["stackparse"; "--sort=goronum"; "-j"; "--sus"; "dump.txt"]).
  reflexivity.
Defined.

(** X21. A flag value that contains an equals sign is dropped as a
    whole.  For every flag other than --sort and --output, an argument
    [key=v] whose value [v] contains [=] has the same effect as the bare
    argument [key]: the flag is handled with the empty value. *)
Theorem setFlag_value_with_equals_is_dropped :
  ∀ (time_ParseDuration : string → option Z) (o : main.Options) (key v : string),
    HasPrefix key "-" = true →
    countByte "=" key = 0%nat →
    key ≠ "--sort" → key ≠ "--output" →
    (1 ≤ countByte "=" v)%nat →
    main.setFlag time_ParseDuration o (key +:+ "=" +:+ v)
    = main.setFlag time_ParseDuration o key.
Proof.
  intros tpd o key v Hp Hk Hsort Hout Hv. unfold main.setFlag.
  rewrite (HasPrefix_append _ _ _ Hp), Hp, (Split_key_value key v Hk), (Split_key key Hk).
  pose proof (split_byte_length "=" "" v) as Hlen. fold (Split v "=") in Hlen.
  destruct (Split v "=") as [|p1 [|p2 rest]]; cbn [length] in Hlen; try lia.
  unfold main.at_index. cbn [lookup list_lookup].
  rewrite (keyIn_single key "--sort" Hsort), (keyIn_single key "--output" Hout).
  reflexivity.
Qed.

Lemma setFlag_value_with_equals_is_dropped_witness :
  main.setFlag (λ _, None) main.defaults ("--line-prefix" +:+ "=" +:+ "^pid=[0-9]+ ")
  = main.setFlag (λ _, None) main.defaults "--line-prefix".
Proof.
  apply (setFlag_value_with_equals_is_dropped (λ _, None) main.defaults
           "--line-prefix" "^pid=[0-9]+ ").
  - reflexivity.
  - reflexivity.
  - discriminate.
  - discriminate.
  - vm_compute. lia.
Defined.

(** X22. The flags --sort and --output need an equals sign.  Given bare,
    either of them makes the flag loop panic with an index out of range
    (the code reads [parts[1]] of a one-element slice), whatever
    arguments come before, as long as those are read, or after. *)
Theorem flagLoop_bare_sort_or_output_panics :
  ∀ (time_ParseDuration : string → option Z) (o o' : main.Options)
    (before after : list string) (a : string),
    main.flagLoop time_ParseDuration o before = main.Running o' →
    a = "--sort" ∨ a = "--output" →
    main.flagLoop time_ParseDuration o (before ++ a :: after)
    = main.Crashed (IndexOutOfRange 1 1).
Proof.
  intros tpd o o' before after a Hrun Ha.
  rewrite flagLoop_app, Hrun. cbn [main.flagLoop].
  destruct Ha as [-> | ->]; reflexivity.
Qed.

Lemma flagLoop_bare_sort_or_output_panics_witness :
  main.flagLoop (λ _, None) main.defaults (["--fm=chan"] ++ "--sort" :: ["dump.txt"])
  = main.Crashed (IndexOutOfRange 1 1).
Proof.
  eapply (flagLoop_bare_sort_or_output_panics (λ _, None) main.defaults _
            ["--fm=chan"] ["dump.txt"] "--sort").
  - reflexivity.
  - left. reflexivity.
Defined.

(** X23. --sort reads the text up to the second equals sign.  Unlike the
    other flags it takes [parts[1]], so an argument [--sort=v=more] acts
    exactly as [--sort=v]. *)
Theorem setFlag_sort_reads_first_segment :
  ∀ (time_ParseDuration : string → option Z) (o : main.Options) (v more : string),
    countByte "=" v = 0%nat →
    main.setFlag time_ParseDuration o ("--sort=" +:+ v +:+ "=" +:+ more)
    = main.setFlag time_ParseDuration o ("--sort=" +:+ v).
Proof.
  intros tpd o v more Hv. unfold main.setFlag.
  change ("--sort=" +:+ v +:+ "=" +:+ more) with ("--sort" +:+ "=" +:+ (v +:+ "=" +:+ more)).
  change ("--sort=" +:+ v) with ("--sort" +:+ "=" +:+ v).
  rewrite !(HasPrefix_append "--sort" "-") by reflexivity.
  rewrite !Split_key_value by (try exact Hv; reflexivity).
  rewrite (Split_key v Hv).
  unfold main.at_index. cbn [lookup list_lookup].
  reflexivity.
Qed.

Lemma setFlag_sort_reads_first_segment_witness :
  main.setFlag (λ _, None) main.defaults ("--sort=" +:+ "stacksize" +:+ "=" +:+ "desc")
  = main.setFlag (λ _, None) main.defaults ("--sort=" +:+ "stacksize").
Proof.
  apply (setFlag_sort_reads_first_segment (λ _, None) main.defaults "stacksize" "desc").
  reflexivity.
Defined.

(** X24. The last file name wins.  When the flag loop reads its
    arguments, the file [main] opens is the last argument that does not
    start with a dash, and it stays [-] (standard input) when there is
    none. *)
Theorem flagLoop_last_file_name :
  ∀ (time_ParseDuration : string → option Z) (args : list string) (o : main.Options),
    main.flagLoop time_ParseDuration main.defaults args = main.Running o →
    (main.fname o = "-" ∧ Forall (λ a, HasPrefix a "-" = true) args)
    ∨ (∃ before after,
         args = before ++ main.fname o :: after
         ∧ HasPrefix (main.fname o) "-" = false
         ∧ Forall (λ a, HasPrefix a "-" = true) after).
Proof.
  intros tpd args o Hrun. apply (flagLoop_fname tpd args main.defaults o Hrun).
Qed.

Lemma flagLoop_last_file_name_witness :
  ∃ o,
    main.flagLoop (λ _, None) main.defaults ["a.txt"; "--json"; "b.txt"; "-s"]
    = main.Running o
    ∧ ((main.fname o = "-"
        ∧ Forall (λ a, HasPrefix a "-" = true) ["a.txt"; "--json"; "b.txt"; "-s"])
       ∨ (∃ before after,
            ["a.txt"; "--json"; "b.txt"; "-s"] = before ++ main.fname o :: after
            ∧ HasPrefix (main.fname o) "-" = false
            ∧ Forall (λ a, HasPrefix a "-" = true) after)).
Proof.
  eexists. split; [reflexivity|].
  apply (flagLoop_last_file_name (λ _, None) ["a.txt"; "--json"; "b.txt"; "-s"]).
  reflexivity.
Defined.

(** ** Grouping look-alike stacks *)

Lemma compWaitStats_returns (s0 : Stack) (stacks : list Stack) :
  ∃ ws, compWaitStats (s0 :: stacks) = Ok ws.
Proof.
  set (all := s0 :: stacks).
  destruct (waitLoop_any all [] 0 0 0) as (min & max & sum & Hloop & _ & _).
  { left. auto. }
  { intros s []. }
  cbn [app fmap list_fmap] in Hloop.
  destruct (durations_sort (WaitTime <$> all)) as (sorted & Hsort & HP & _).
  assert (length sorted = length all) as Hlen by (rewrite <- HP, length_fmap; reflexivity).
  assert (length all ≠ 0%nat) as Hn by discriminate.
  destruct (lookup_lt_is_Some_2 sorted (length all / 2)) as [median Hmed].
  { rewrite Hlen. apply half_in_range, Hn. }
  exists (mkWaitStats (Z.quot sum (Z.of_nat (length all))) max min median).
  unfold compWaitStats. rewrite Hloop, Hsort.
  cbn [mbind Exec_bind]. rewrite Hlen.
  destruct (Nat.eqb_spec (length all) 0) as [|_]; [congruence|].
  cbn [mbind Exec_bind]. unfold index. rewrite Hmed. reflexivity.
Qed.

Section UniqueProofs.

Variable Sameish : Stack → Stack → bool.

Lemma bucketOf_snoc (ft s : Stack) (b : list Stack) :
  bucketOf Sameish ft b → Sameish s ft = true → bucketOf Sameish ft (b ++ [s]).
Proof.
  intros (rest & -> & Hrest) Hs. exists (rest ++ [s]). split; [reflexivity|].
  intros s' Hin. apply in_app_or in Hin as [Hin|[<-|[]]]; [apply Hrest, Hin|exact Hs].
Qed.

Lemma bucketInner_run (s : Stack) (suf : list Stack) :
  ∀ (bpre bsuf : list (list Stack)) (found : bool),
    Forall2 (bucketOf Sameish) suf bsuf →
    ∃ bsuf',
      bucketInner Sameish s suf (length bpre) (bpre ++ bsuf) found
      = Ok (bpre ++ bsuf', found || existsb (Sameish s) suf)
      ∧ Forall2 (bucketOf Sameish) suf bsuf'
      ∧ (length (concat bsuf) ≤ length (concat bsuf'))%nat
      ∧ (existsb (Sameish s) suf = true
         → (length (concat bsuf) < length (concat bsuf'))%nat).
Proof.
  induction suf as [|ft suf IH]; intros bpre bsuf found HF.
  - apply Forall2_nil_inv_l in HF as ->. exists []. cbn [bucketInner existsb].
    rewrite orb_false_r. split; [reflexivity|]. split; [constructor|].
    split; [lia|discriminate].
  - apply Forall2_cons_inv_l in HF as (b & bsuf0 & Hb & HF & ->).
    cbn [bucketInner existsb]. destruct (Sameish s ft) eqn:Hs.
    + unfold index. rewrite lookup_app_r, Nat.sub_diag by lia.
      cbn [lookup list_lookup mbind Exec_bind].
      replace (<[length bpre := b ++ [s]]> (bpre ++ b :: bsuf0))
        with ((bpre ++ [b ++ [s]]) ++ bsuf0).
      2:{ rewrite insert_app_r_alt, Nat.sub_diag by lia. cbn.
          rewrite <- app_assoc. reflexivity. }
      replace (S (length bpre)) with (length (bpre ++ [b ++ [s]]))
        by (rewrite length_app; cbn; lia).
      destruct (IH (bpre ++ [b ++ [s]]) bsuf0 true HF) as (bsuf' & Hrun & HF' & Hle & _).
      exists ((b ++ [s]) :: bsuf'). rewrite Hrun, <- app_assoc, orb_true_r.
      split; [reflexivity|].
      split; [constructor; [apply bucketOf_snoc; assumption|exact HF']|].
      cbn [concat]. rewrite !length_app. cbn [length]. split; [lia|intros _; lia].
    + replace (S (length bpre)) with (length (bpre ++ [b]))
        by (rewrite length_app; cbn; lia).
      replace (bpre ++ b :: bsuf0) with ((bpre ++ [b]) ++ bsuf0)
        by (rewrite <- app_assoc; reflexivity).
      destruct (IH (bpre ++ [b]) bsuf0 found HF) as (bsuf' & Hrun & HF' & Hle & Hlt).
      exists (b :: bsuf'). rewrite Hrun, <- app_assoc. cbn [orb].
      split; [reflexivity|]. split; [constructor; assumption|].
      cbn [concat]. rewrite !length_app. split; [lia|].
      intros H. specialize (Hlt H). lia.
Qed.

Lemma apart_snoc (ftypes : list Stack) (s : Stack) :
  apart Sameish ftypes → existsb (Sameish s) ftypes = false →
  apart Sameish (ftypes ++ [s]).
Proof.
  intros Ha Hs i j fi fj Hij Hi Hj.
  destruct (Nat.lt_ge_cases j (length ftypes)) as [Hlt|Hge].
  - rewrite lookup_app_l in Hi, Hj by lia. apply (Ha i j); assumption.
  - rewrite lookup_app_r in Hj by lia.
    destruct (j - length ftypes)%nat as [|k] eqn:Hk; [|destruct k; discriminate].
    injection Hj as <-.
    assert (i < length ftypes)%nat as Hi' by lia.
    rewrite lookup_app_l in Hi by lia.
    destruct (Sameish s fi) eqn:Hsf; [|reflexivity].
    assert (existsb (Sameish s) ftypes = true) as Ht; [|congruence].
    apply existsb_exists. exists fi. split; [|exact Hsf].
    apply list_elem_of_In. eapply list_elem_of_lookup_2, Hi.
Qed.

Lemma bucketLoop_run (stacks : list Stack) :
  ∀ (done ftypes : list Stack) (bucketed : list (list Stack)),
    Forall2 (bucketOf Sameish) ftypes bucketed →
    ftypes `sublist_of` done →
    (length done ≤ length (concat bucketed))%nat →
    apart Sameish ftypes →
    ∃ ftypes' bucketed',
      bucketLoop Sameish stacks ftypes bucketed = Ok (ftypes', bucketed')
      ∧ Forall2 (bucketOf Sameish) ftypes' bucketed'
      ∧ ftypes' `sublist_of` (done ++ stacks)
      ∧ (length (done ++ stacks) ≤ length (concat bucketed'))%nat
      ∧ apart Sameish ftypes'.
Proof.
  induction stacks as [|s stacks IH]; intros done ftypes bucketed HF Hsub Hlen Ha.
  - exists ftypes, bucketed. rewrite app_nil_r. auto.
  - cbn [bucketLoop].
    destruct (bucketInner_run s ftypes [] bucketed false HF)
      as (bucketed1 & Hrun & HF1 & Hle & Hlt).
    cbn [length app orb] in Hrun. rewrite Hrun. cbn [mbind Exec_bind].
    replace (done ++ s :: stacks) with ((done ++ [s]) ++ stacks)
      by (rewrite <- app_assoc; reflexivity).
    destruct (existsb (Sameish s) ftypes) eqn:Hfound.
    + apply IH; [exact HF1| | |exact Ha].
      * apply sublist_inserts_r, Hsub.
      * specialize (Hlt eq_refl). rewrite length_app. cbn [length]. lia.
    + apply IH.
      * apply Forall2_app; [exact HF1|].
        constructor; [|constructor]. exists []. split; [reflexivity|intros ? []].
      * apply sublist_app; [exact Hsub|reflexivity].
      * rewrite concat_app, !length_app. cbn. lia.
      * apply apart_snoc; assumption.
Qed.

Lemma reportLoop_run (suf : list Stack) :
  ∀ (bpre bsuf : list (list Stack)),
    Forall2 (bucketOf Sameish) suf bsuf →
    ∃ report,
      reportLoop suf (length bpre) (bpre ++ bsuf) = Ok report
      ∧ ur_stack <$> report = suf
      ∧ (∀ r, In r report → (1 ≤ ur_count r)%nat)
      ∧ reportTotal report = length (concat bsuf).
Proof.
  induction suf as [|ft suf IH]; intros bpre bsuf HF.
  - apply Forall2_nil_inv_l in HF as ->. exists [].
    split; [reflexivity|]. split; [reflexivity|]. split; [intros ? []|reflexivity].
  - apply Forall2_cons_inv_l in HF as (b & bsuf0 & Hb & HF & ->).
    cbn [reportLoop]. unfold index. rewrite lookup_app_r, Nat.sub_diag by lia.
    cbn [lookup list_lookup mbind Exec_bind].
    destruct Hb as (rest & -> & _).
    destruct (compWaitStats_returns ft rest) as [ws ->]. cbn [mbind Exec_bind].
    replace (S (length bpre)) with (length (bpre ++ [ft :: rest]))
      by (rewrite length_app; cbn; lia).
    replace (bpre ++ (ft :: rest) :: bsuf0) with ((bpre ++ [ft :: rest]) ++ bsuf0)
      by (rewrite <- app_assoc; reflexivity).
    destruct (IH (bpre ++ [ft :: rest]) bsuf0 HF) as (report & -> & Hst & Hc & Ht).
    cbn [mbind Exec_bind]. eexists. split; [reflexivity|].
    cbn [fmap list_fmap ur_stack]. split; [f_equal; exact Hst|].
    split.
    + intros r [<-|Hin]; [cbn; lia|apply Hc, Hin].
    + cbn [reportTotal foldr ur_count concat]. fold (reportTotal report).
      rewrite Ht, length_app. reflexivity.
Qed.

End UniqueProofs.

(** X25. [printUnique] never panics and loses no stack.  Whatever
    [Sameish] answers, it reports one line per representative: the
    representatives are stacks of the input in their order, none looks
    like an earlier one, every count is at least one (so the wait
    statistics never divide by zero), and the counts add up to at least
    the number of stacks (a stack is counted in every bucket it looks
    like). *)
Theorem printUnique_reports_every_stack :
  ∀ (Sameish : Stack → Stack → bool) (stacks : list Stack),
    ∃ report,
      printUnique Sameish stacks = Ok report
      ∧ (ur_stack <$> report) `sublist_of` stacks
      ∧ apart Sameish (ur_stack <$> report)
      ∧ (∀ r, In r report → (1 ≤ ur_count r)%nat)
      ∧ (length stacks ≤ reportTotal report)%nat.
Proof.
  intros Sameish stacks.
  destruct (bucketLoop_run Sameish stacks [] [] [])
    as (ftypes & bucketed & Hrun & HF & Hsub & Hlen & Ha).
  { constructor. } { reflexivity. } { cbn. lia. }
  { intros i j fi fj _ Hi. discriminate. }
  destruct (reportLoop_run Sameish ftypes [] bucketed HF) as (report & Hrep & Hst & Hc & Ht).
  exists report. unfold printUnique. rewrite Hrun. cbn [mbind Exec_bind].
  cbn [length app] in Hrep. rewrite Hrep, Hst, Ht.
  split; [reflexivity|]. split; [exact Hsub|]. split; [exact Ha|].
  split; [exact Hc|exact Hlen].
Qed.

(** ** The interactive loop *)

Lemma summarize_returns (stacks : list Stack) :
  (∀ s, s ∈ stacks → Frames s ≠ []) → ∃ sums, summarize stacks = Ok sums.
Proof.
  intros Hfr.
  destruct (countLoop_run stacks Hfr [] ∅ [])
    as (counts & filtered & Hrun & Hc & Hsub & Hnd & Hcov).
  { intros fn. reflexivity. }
  { constructor. }
  { constructor. }
  { intros s Hs. inversion Hs. }
  cbn [app] in Hc, Hsub, Hcov.
  assert (∀ s, s ∈ filtered → Frames s ≠ []) as Hfrf
    by (intros s Hs; apply Hfr; eapply elem_of_sublist; eassumption).
  destruct (summarize_sort counts filtered Hfrf) as (sorted & Hsort & HP & Hasc).
  assert (∀ s, s ∈ sorted → Frames s ≠ []) as Hfrs
    by (intros s Hs; apply Hfrf; rewrite HP; exact Hs).
  exists (summaryOf counts <$> sorted).
  unfold summarize. rewrite Hrun. cbn [mbind Exec_bind]. rewrite Hsort.
  cbn [mbind Exec_bind]. rewrite summaryLoop_run by exact Hfrs. reflexivity.
Qed.

Lemma ApplyFilters_sublist (stacks : list Stack) (filters : list Filter) :
  ApplyFilters stacks filters `sublist_of` stacks.
Proof.
  rewrite ApplyFilters_filter. induction stacks as [|s stacks IH]; cbn [List.filter].
  - constructor.
  - destruct (forallb (λ f, f s) filters); [apply sublist_skip|apply sublist_cons]; exact IH.
Qed.

Lemma Split_cons (s sep : string) : ∃ p0 rest, Split s sep = p0 :: rest.
Proof.
  unfold Split. pose proof (split_aux_not_nil sep 0 "" s) as H.
  destruct (split_aux sep 0 "" s) as [|p0 rest]; [congruence|]. eauto.
Qed.

Lemma diffLoop_returns (ops : list string) :
  ∀ (pre suf : list (list Stack)),
    length suf = length ops →
    ∃ out, repl.diffLoop (pre ++ suf) ops (length pre) = Ok out.
Proof.
  induction ops as [|op ops IH]; intros pre suf Hlen; cbn [repl.diffLoop]; [eauto|].
  destruct suf as [|v suf]; [discriminate|]. injection Hlen as Hlen.
  unfold index. rewrite lookup_app_r, Nat.sub_diag by lia.
  cbn [lookup list_lookup mbind Exec_bind].
  replace (S (length pre)) with (length (pre ++ [v])) by (rewrite length_app; cbn; lia).
  replace (pre ++ v :: suf) with ((pre ++ [v]) ++ suf) by (rewrite <- app_assoc; reflexivity).
  destruct (IH (pre ++ [v]) suf Hlen) as [out ->]. cbn [mbind Exec_bind]. eauto.
Qed.

Lemma viewsKept_push (input : list Stack) (st : repl.State) (text : string)
    (view : list Stack) :
  viewsKept input st → view `sublist_of` repl.cur st →
  viewsKept input
    (repl.mkState (repl.bynumber st) (repl.stk st ++ [view]) (repl.ops st ++ [text]) view).
Proof.
  intros (Hlen & Hhd & Hlast & Hnar & Hby) Hsub. unfold viewsKept.
  cbn [repl.stk repl.ops repl.cur repl.bynumber].
  split; [rewrite !length_app, Hlen; reflexivity|].
  split; [destruct (repl.stk st); [discriminate|exact Hhd]|].
  split; [apply last_snoc|].
  split; [|exact Hby].
  intros i below above Hb Ha.
  destruct (Nat.lt_ge_cases (S i) (length (repl.stk st))) as [Hlt|Hge].
  - rewrite lookup_app_l in Hb, Ha by lia. apply (Hnar i); assumption.
  - assert (i < length (repl.stk st ++ [view]))%nat as Hi
      by (apply lookup_lt_is_Some; eauto).
    assert (S i < length (repl.stk st ++ [view]))%nat as HSi
      by (apply lookup_lt_is_Some; eauto).
    rewrite length_app in Hi, HSi. cbn [length] in Hi, HSi.
    rewrite lookup_app_l in Hb by lia. rewrite lookup_app_r in Ha by lia.
    replace (S i - length (repl.stk st))%nat with 0%nat in Ha by lia.
    injection Ha as <-.
    assert (last (repl.stk st) = Some below) as Hl.
    { rewrite last_lookup. rewrite <- Hb. f_equal. lia. }
    rewrite Hlast in Hl. injection Hl as <-. exact Hsub.
Qed.

Lemma viewsKept_pop (input : list Stack) (st : repl.State) :
  viewsKept input st → (1 < length (repl.stk st))%nat →
  ∃ view,
    index (take (length (repl.stk st) - 1) (repl.stk st))
          (length (take (length (repl.stk st) - 1) (repl.stk st)) - 1) = Ok view
    ∧ viewsKept input
        (repl.mkState (repl.bynumber st)
           (take (length (repl.stk st) - 1) (repl.stk st))
           (take (length (repl.ops st) - 1) (repl.ops st)) view).
Proof.
  intros (Hlen & Hhd & Hlast & Hnar & Hby) Hn.
  set (stk' := take (length (repl.stk st) - 1) (repl.stk st)).
  assert (length stk' = (length (repl.stk st) - 1)%nat) as Hlen'
    by (unfold stk'; rewrite length_take; lia).
  destruct (lookup_lt_is_Some_2 stk' (length stk' - 1)) as [view Hv]; [lia|].
  exists view. unfold index. rewrite Hv. split; [reflexivity|].
  unfold viewsKept. cbn [repl.stk repl.ops repl.cur repl.bynumber]. fold stk'.
  split; [rewrite Hlen', length_take; lia|].
  split.
  { unfold stk'. destruct (repl.stk st) as [|v0 [|v1 l]]; cbn in Hn |- *; try lia.
    exact Hhd. }
  split; [rewrite last_lookup; rewrite <- Hv; f_equal; lia|].
  split; [|exact Hby].
  intros i below above Hb Ha. unfold stk' in Hb, Ha.
  apply lookup_take_Some in Hb as [Hb _]. apply lookup_take_Some in Ha as [Ha _].
  apply (Hnar i); assumption.
Qed.

(** The views of a kept state are all cut out of the input. *)
Lemma viewsKept_cur (input : list Stack) (st : repl.State) :
  viewsKept input st → repl.cur st `sublist_of` input.
Proof.
  intros (Hlen & Hhd & Hlast & Hnar & Hby).
  assert (∀ i view, repl.stk st !! i = Some view → view `sublist_of` input) as H.
  { induction i as [|i IH]; intros view Hv.
    - rewrite <- head_lookup, Hhd in Hv. injection Hv as <-. reflexivity.
    - destruct (lookup_lt_is_Some_2 (repl.stk st) i) as [below Hb].
      { apply lookup_lt_Some in Hv. lia. }
      etransitivity; [apply (Hnar i below view Hb Hv)|apply IH, Hb]. }
  rewrite last_lookup in Hlast. apply (H _ _ Hlast).
Qed.

(** A round that returns keeps the views. *)
Lemma command_keeps (input : list Stack) (st st' : repl.State) (text : string)
    (out : list repl.Output) :
  viewsKept input st → repl.command st text = Ok (st', out) → viewsKept input st'.
Proof.
  intros Hk. unfold repl.command.
  destruct (Split_cons text " ") as (p0 & rest & ->).
  cbn [index lookup list_lookup mbind Exec_bind sliceFrom length Nat.leb drop].
  repeat match goal with
  | |- (if keyIn ?k ?l then _ else _) = _ → _ => destruct (keyIn k l)
  end;
  try (intros [= <- <-]; exact Hk);
  try (intros [= <- <-]; apply viewsKept_push; [exact Hk|apply ApplyFilters_sublist]).
  - destruct (summarize (repl.cur st)); cbn [mbind Exec_bind]; [|discriminate..].
    intros [= <- <-]. exact Hk.
  - destruct rest as [|p1 rest]; [intros [= <- <-]; exact Hk|].
    cbn [length Nat.ltb Nat.leb index lookup list_lookup mbind Exec_bind].
    destruct (strconv.Atoi p1) as [num|err]; [|intros [= <- <-]; exact Hk].
    destruct (repl.bynumber st !! num); intros [= <- <-]; exact Hk.
  - destruct (repl.diffLoop (repl.stk st) (repl.ops st) 0); cbn [mbind Exec_bind];
      [|discriminate..].
    intros [= <- <-]. exact Hk.
  - destruct (Nat.ltb_spec 1 (length (repl.stk st))) as [Hn|_];
      [|intros [= <- <-]; exact Hk].
    destruct (viewsKept_pop input st Hk Hn) as (view & Hv & Hk').
    unfold repl.dropLast.
    destruct Hk as (Hlen & _).
    destruct (Nat.eqb_spec (length (repl.stk st)) 0) as [|_]; [lia|].
    destruct (Nat.eqb_spec (length (repl.ops st)) 0) as [|_]; [lia|].
    cbn [mbind Exec_bind]. rewrite Hv. cbn [mbind Exec_bind].
    intros [= <- <-]. exact Hk'.
Qed.

(** With frames on every stack, a round returns. *)
Lemma command_returns (input : list Stack) (st : repl.State) (text : string) :
  (∀ s, s ∈ input → Frames s ≠ []) →
  viewsKept input st →
  ∃ st' out, repl.command st text = Ok (st', out).
Proof.
  intros Hfr Hk. unfold repl.command.
  destruct (Split_cons text " ") as (p0 & rest & ->).
  cbn [index lookup list_lookup mbind Exec_bind sliceFrom length Nat.leb drop].
  repeat match goal with
  | |- ∃ _ _, (if keyIn ?k ?l then _ else _) = _ => destruct (keyIn k l)
  end; eauto.
  - destruct (summarize_returns (repl.cur st)) as [sums ->]; [|cbn; eauto].
    intros s Hs. apply Hfr. eapply elem_of_sublist; [exact Hs|].
    apply (viewsKept_cur input st Hk).
  - destruct rest as [|p1 rest]; [cbn; eauto|].
    cbn [length Nat.ltb Nat.leb index lookup list_lookup mbind Exec_bind].
    destruct (strconv.Atoi p1) as [num|err]; [|eauto].
    destruct (repl.bynumber st !! num); eauto.
  - destruct Hk as (Hlen & _).
    destruct (diffLoop_returns (repl.ops st) [] (repl.stk st) Hlen) as [out Hout].
    cbn [app length] in Hout. rewrite Hout. cbn. eauto.
  - destruct (Nat.ltb_spec 1 (length (repl.stk st))) as [Hn|_]; [|eauto].
    destruct (viewsKept_pop input st Hk Hn) as (view & Hv & _).
    unfold repl.dropLast. destruct Hk as (Hlen & _).
    destruct (Nat.eqb_spec (length (repl.stk st)) 0) as [|_]; [lia|].
    destruct (Nat.eqb_spec (length (repl.ops st)) 0) as [|_]; [lia|].
    cbn [mbind Exec_bind]. rewrite Hv. cbn. eauto.
Qed.

Lemma rounds_keeps (input : list Stack) (lines : list string) :
  ∀ (st st' : repl.State) (out : list repl.Output),
    viewsKept input st → repl.rounds st lines = Ok (st', out) → viewsKept input st'.
Proof.
  induction lines as [|text lines IH]; intros st st' out Hk; cbn [repl.rounds].
  - intros [= <- <-]. exact Hk.
  - unfold repl.round.
    destruct (repl.command st text) as [[st1 out1]| |] eqn:Hc; cbn [mbind Exec_bind];
      [|discriminate..].
    cbn [fst snd].
    destruct (repl.rounds st1 lines) as [[st2 out2]| |] eqn:Hr; cbn [mbind Exec_bind];
      [|discriminate..].
    intros [= <- <-]. eapply IH; [|exact Hr]. eapply command_keeps; eassumption.
Qed.

Lemma rounds_returns (input : list Stack) (lines : list string) :
  (∀ s, s ∈ input → Frames s ≠ []) →
  ∀ st, viewsKept input st → ∃ st' out, repl.rounds st lines = Ok (st', out).
Proof.
  intros Hfr. induction lines as [|text lines IH]; intros st Hk; cbn [repl.rounds]; [eauto|].
  unfold repl.round.
  destruct (command_returns input st text Hfr Hk) as (st1 & out1 & Hc).
  rewrite Hc. cbn [mbind Exec_bind fst snd].
  destruct (IH st1) as (st2 & out2 & Hr); [eapply command_keeps; eassumption|].
  rewrite Hr. cbn. eauto.
Qed.

Lemma start_keeps (input : list Stack) : viewsKept input (repl.start input).
Proof.
  unfold viewsKept, repl.start. cbn.
  repeat split. intros [|i] below above Hb Ha; discriminate.
Qed.

Lemma runRepl_keeps (input : list Stack) (lines : list string) (st : repl.State)
    (out : list repl.Output) :
  repl.runRepl input lines = Ok (st, out) → viewsKept input st.
Proof.
  unfold repl.runRepl.
  destruct (repl.rounds (repl.start input) lines) as [[st1 out1]| |] eqn:Hr;
    cbn [mbind Exec_bind]; [|discriminate..].
  intros [= <- <-]. eapply rounds_keeps; [apply start_keeps|exact Hr].
Qed.

Lemma indexLoop_lookup (input : list Stack) :
  ∀ (m : gmap Z Stack) (num : Z),
    repl.indexLoop input m !! num
    = match last (List.filter (λ s, Number s =? num) input) with
      | Some s => Some s
      | None => m !! num
      end.
Proof.
  induction input as [|i input IH]; intros m num; cbn [repl.indexLoop List.filter];
    [reflexivity|].
  rewrite IH. destruct (Z.eqb_spec (Number i) num) as [Heq|Hne].
  - rewrite last_cons.
    destruct (last (List.filter (λ s, Number s =? num) input)); [reflexivity|].
    rewrite Heq. apply lookup_insert_eq.
  - destruct (last (List.filter (λ s, Number s =? num) input)); [reflexivity|].
    apply lookup_insert_ne, Hne.
Qed.

(** A round on a line that does not open with [sus] records no call of
    the suspicious check. *)
Lemma diffLoop_no_sus (ops : list string) :
  ∀ (stk : list (list Stack)) (i : nat) (out : list repl.Output),
    repl.diffLoop stk ops i = Ok out → ∀ stacks, ¬ In (repl.SuspiciousCheck stacks) out.
Proof.
  induction ops as [|op ops IH]; intros stk i out; cbn [repl.diffLoop].
  - intros [= <-] stacks [].
  - destruct (index stk i) as [view| |]; cbn [mbind Exec_bind]; [|discriminate..].
    destruct (repl.diffLoop stk ops (S i)) as [rest| |] eqn:Hr; cbn [mbind Exec_bind];
      [|discriminate..].
    intros [= <-] stacks [Hin|Hin]; [discriminate|]. exact (IH _ _ _ Hr stacks Hin).
Qed.

Lemma command_no_sus (st st' : repl.State) (text : string) (out : list repl.Output) :
  String.eqb (commandWord text) "sus" = false →
  repl.command st text = Ok (st', out) →
  ∀ stacks, ¬ In (repl.SuspiciousCheck stacks) out.
Proof.
  unfold commandWord, repl.command.
  destruct (Split_cons text " ") as (p0 & rest & ->).
  cbn [head default index lookup list_lookup mbind Exec_bind sliceFrom length Nat.leb drop].
  intros Hw. cbv [id] in Hw.
  assert (keyIn p0 ["sus"] = false) as Hsus
    by (unfold keyIn; cbn [existsb]; rewrite Hw; reflexivity).
  rewrite Hsus.
  repeat match goal with
  | |- (if keyIn ?k ?l then _ else _) = _ → _ => destruct (keyIn k l)
  end;
  try (intros [= <- <-] stacks [Hin|[]]; discriminate);
  try (intros [= <- <-] stacks []).
  - destruct (summarize (repl.cur st)); cbn [mbind Exec_bind]; [|discriminate..].
    intros [= <- <-] stacks [Hin|[]]; discriminate.
  - destruct rest as [|p1 rest]; [intros [= <- <-] stacks [Hin|[]]; discriminate|].
    cbn [length Nat.ltb Nat.leb index lookup list_lookup mbind Exec_bind].
    destruct (strconv.Atoi p1) as [num|err];
      [|intros [= <- <-] stacks [Hin|[]]; discriminate].
    destruct (repl.bynumber st !! num); intros [= <- <-] stacks [Hin|[]]; discriminate.
  - destruct (repl.diffLoop (repl.stk st) (repl.ops st) 0) as [o| |] eqn:Hd;
      cbn [mbind Exec_bind]; [|discriminate..].
    intros [= <- <-]. exact (diffLoop_no_sus _ _ _ _ Hd).
  - destruct (1 <? length (repl.stk st))%nat; [|intros [= <- <-] stacks []].
    destruct (repl.dropLast (repl.stk st)) as [stk'| |]; cbn [mbind Exec_bind];
      [|discriminate..].
    destruct (repl.dropLast (repl.ops st)) as [ops'| |]; cbn [mbind Exec_bind];
      [|discriminate..].
    destruct (index stk' (length stk' - 1)); cbn [mbind Exec_bind]; [|discriminate..].
    intros [= <- <-] stacks [].
Qed.

Lemma rounds_no_sus (lines : list string) :
  ∀ (st st' : repl.State) (out : list repl.Output),
    noSuspiciousCheck lines = true →
    repl.rounds st lines = Ok (st', out) →
    ∀ stacks, ¬ In (repl.SuspiciousCheck stacks) out.
Proof.
  induction lines as [|text lines IH]; intros st st' out Hsus; cbn [repl.rounds].
  - intros [= <- <-] stacks [].
  - cbn [noSuspiciousCheck forallb] in Hsus. apply andb_true_iff in Hsus as [Hw Hsus].
    apply negb_true_iff in Hw.
    unfold repl.round.
    destruct (repl.command st text) as [[st1 out1]| |] eqn:Hc; cbn [mbind Exec_bind];
      [|discriminate..].
    cbn [fst snd].
    destruct (repl.rounds st1 lines) as [[st2 out2]| |] eqn:Hr; cbn [mbind Exec_bind];
      [|discriminate..].
    cbn [fst snd]. intros [= <- <-] stacks Hin.
    apply in_app_or in Hin as [Hin|Hin].
    + apply in_app_or in Hin as [Hin|[Hin|[]]]; [|discriminate].
      exact (command_no_sus st st1 text out1 Hw Hc stacks Hin).
    + exact (IH st1 st2 out2 Hsus Hr stacks Hin).
Qed.

(** X26. The interactive loop keeps its views in step and, on stacks
    that all have frames, runs every command line other than [sus] to
    the end.  Whatever lines are typed, as long as none opens with the
    word [sus] (the suspicious check, which panics on few frame keys),
    [runRepl] returns; then there is one view per recorded command, the
    input is the bottom view, the current view is the top one, and every
    view is cut out of the view below it (so [diff] never indexes past
    the views, and [pop] never empties them). *)
Theorem runRepl_returns_and_keeps_views :
  ∀ (input : list Stack) (lines : list string),
    (∀ s, In s input → Frames s ≠ []) →
    noSuspiciousCheck lines = true →
    ∃ st out,
      repl.runRepl input lines = Ok (st, out)
      ∧ (∀ stacks, ¬ In (repl.SuspiciousCheck stacks) out)
      ∧ length (repl.stk st) = length (repl.ops st)
      ∧ head (repl.stk st) = Some input
      ∧ last (repl.stk st) = Some (repl.cur st)
      ∧ (∀ (i : nat) (below above : list Stack),
           repl.stk st !! i = Some below → repl.stk st !! S i = Some above →
           above `sublist_of` below).
Proof.
  intros input lines Hfr Hsus.
  assert (∀ s, s ∈ input → Frames s ≠ []) as Hfr'
    by (intros s Hs; apply Hfr, list_elem_of_In, Hs).
  destruct (rounds_returns input lines Hfr' (repl.start input) (start_keeps input))
    as (st & out & Hr).
  exists st, (repl.Prompt :: out).
  assert (repl.runRepl input lines = Ok (st, repl.Prompt :: out)) as Hrun
    by (unfold repl.runRepl; rewrite Hr; reflexivity).
  split; [exact Hrun|].
  split.
  { intros stacks [Hin|Hin]; [discriminate|].
    exact (rounds_no_sus lines (repl.start input) st out Hsus Hr stacks Hin). }
  destruct (runRepl_keeps input lines st _ Hrun) as (H1 & H2 & H3 & H4 & _).
  auto.
Qed.

Lemma runRepl_returns_and_keeps_views_witness :
  let s := mkStack 1 "chan receive" 0 [mkFrame "main.run" [] "/a/main.go" 10 0]
                   false CreatedBy_zero in
  ∃ st out,
    repl.runRepl [s] ["fm main"; "fnm run"; "s"; "diff"; "pop"; "pop"; "pop"] = Ok (st, out)
    ∧ (∀ stacks, ¬ In (repl.SuspiciousCheck stacks) out)
    ∧ length (repl.stk st) = length (repl.ops st)
    ∧ head (repl.stk st) = Some [s]
    ∧ last (repl.stk st) = Some (repl.cur st)
    ∧ (∀ (i : nat) (below above : list Stack),
         repl.stk st !! i = Some below → repl.stk st !! S i = Some above →
         above `sublist_of` below).
Proof.
  intros s.
  apply (runRepl_returns_and_keeps_views [s]
           ["fm main"; "fnm run"; "s"; "diff"; "pop"; "pop"; "pop"]).
  - intros x [<-|[]]. discriminate.
  - reflexivity.
Defined.

(** X27. [pop] undoes a filter command.  In any state the loop reaches,
    a frame-match or frame-not-match command followed by [pop] leaves
    the state exactly as it was: views, recorded commands and current
    view. *)
Theorem pop_undoes_filter_command :
  ∀ (input : list Stack) (lines : list string) (st : repl.State)
    (out : list repl.Output) (text p0 : string) (rest : list string),
    repl.runRepl input lines = Ok (st, out) →
    Split text " " = p0 :: rest →
    In p0 ["fm"; "frame-match"; "fnm"; "frame-not-match"] →
    ∃ st1,
      repl.round st text = Ok (st1, [repl.Prompt])
      ∧ repl.stk st1 = repl.stk st ++ [repl.cur st1]
      ∧ repl.round st1 "pop" = Ok (st, [repl.Prompt]).
Proof.
  intros input lines st out text p0 rest Hrun Hsplit Hp0.
  destruct (runRepl_keeps input lines st out Hrun) as (Hlen & Hhd & Hlast & _ & _).
  assert (∃ filters,
            repl.command st text
            = Ok (repl.mkState (repl.bynumber st)
                    (repl.stk st ++ [ApplyFilters (repl.cur st) filters])
                    (repl.ops st ++ [text]) (ApplyFilters (repl.cur st) filters), []))
    as [filters Hc].
  { unfold repl.command. rewrite Hsplit.
    cbn [index lookup list_lookup mbind Exec_bind sliceFrom length Nat.leb drop].
    destruct Hp0 as [<-|[<-|[<-|[<-|[]]]]]; eexists; reflexivity. }
  eexists. unfold repl.round at 1. rewrite Hc. cbn [mbind Exec_bind fst snd app].
  split; [reflexivity|]. cbn [repl.stk repl.cur]. split; [reflexivity|].
  set (view := ApplyFilters (repl.cur st) filters).
  unfold repl.round, repl.command.
  change (Split "pop" " ") with ["pop"].
  cbn [index lookup list_lookup mbind Exec_bind keyIn existsb String.eqb Ascii.eqb
       Bool.eqb orb andb repl.stk repl.ops repl.bynumber repl.cur].
  rewrite length_app. cbn [length].
  destruct (Nat.ltb_spec 1 (length (repl.stk st) + 1)) as [_|Hn].
  2:{ destruct (repl.stk st); [discriminate|cbn in Hn; lia]. }
  unfold repl.dropLast. rewrite !length_app. cbn [length].
  destruct (Nat.eqb_spec (length (repl.stk st) + 1) 0) as [|_]; [lia|].
  destruct (Nat.eqb_spec (length (repl.ops st) + 1) 0) as [|_]; [lia|].
  cbn [mbind Exec_bind].
  replace (length (repl.stk st) + 1 - 1)%nat with (length (repl.stk st)) by lia.
  replace (length (repl.ops st) + 1 - 1)%nat with (length (repl.ops st)) by lia.
  rewrite !take_app_length. unfold index.
  rewrite last_lookup in Hlast.
  replace (length (repl.stk st) - 1)%nat with (Nat.pred (length (repl.stk st))) by lia.
  rewrite Hlast. cbn [mbind Exec_bind fst snd app].
  destruct st; reflexivity.
Qed.

Lemma pop_undoes_filter_command_witness :
  let s := mkStack 1 "chan receive" 0 [mkFrame "main.run" [] "/a/main.go" 10 0]
                   false CreatedBy_zero in
  ∃ st out st1,
    repl.runRepl [s] ["fm main"] = Ok (st, out)
    ∧ repl.round st "fnm run walk" = Ok (st1, [repl.Prompt])
    ∧ repl.stk st1 = repl.stk st ++ [repl.cur st1]
    ∧ repl.round st1 "pop" = Ok (st, [repl.Prompt]).
Proof.
  intros s.
  destruct (pop_undoes_filter_command [s] ["fm main"]
              (repl.mkState (repl.indexLoop [s] ∅) [[s]; [s]] ["."; "fm main"] [s])
              [repl.Prompt; repl.Prompt] "fnm run walk" "fnm" ["run"; "walk"])
    as (st1 & H1 & H2 & H3).
  - reflexivity.
  - reflexivity.
  - right. right. left. reflexivity.
  - eexists _, _, st1. split; [reflexivity|]. split; [exact H1|]. split; [exact H2|exact H3].
Defined.

(** X28. [show] looks a stack up in the input, not in the current view.
    In any state the loop reaches, [show n] (also [p n] and [print n])
    prints the last stack of the input whose goroutine number is [n],
    whether or not the filters in force have removed it, reports that
    there is none when the input has none, and leaves the state as it
    is. *)
Theorem show_looks_up_the_input :
  ∀ (input : list Stack) (lines : list string) (st : repl.State)
    (out : list repl.Output) (text cmd arg : string) (more : list string) (num : Z),
    repl.runRepl input lines = Ok (st, out) →
    Split text " " = cmd :: arg :: more →
    In cmd ["show"; "p"; "print"] →
    strconv.Atoi arg = inl num →
    repl.round st text
    = Ok (st, [match last (List.filter (λ s, Number s =? num) input) with
               | Some s => repl.Stacks [s]
               | None => repl.NotFound
               end; repl.Prompt]).
Proof.
  intros input lines st out text cmd arg more num Hrun Hsplit Hcmd Harg.
  destruct (runRepl_keeps input lines st out Hrun) as (_ & _ & _ & _ & Hby).
  pose proof (indexLoop_lookup input ∅ num) as Hl. rewrite <- Hby in Hl.
  unfold repl.round, repl.command. rewrite Hsplit.
  cbn [index lookup list_lookup mbind Exec_bind length Nat.ltb Nat.leb].
  assert (keyIn cmd ["fm"; "frame-match"] = false
          ∧ keyIn cmd ["fnm"; "frame-not-match"] = false
          ∧ keyIn cmd ["s"; "summary"; "sum"] = false
          ∧ keyIn cmd ["show"; "p"; "print"] = true) as (-> & -> & -> & ->).
  { destruct Hcmd as [<-|[<-|[<-|[]]]]; repeat split; reflexivity. }
  rewrite Harg, Hl.
  destruct (last (List.filter (λ s, Number s =? num) input)); reflexivity.
Qed.

Lemma show_looks_up_the_input_witness :
  let s (n : Z) (fn : string) :=
    mkStack n "chan receive" 0 [mkFrame fn [] "/a/main.go" 10 0] false CreatedBy_zero in
  ∃ st out,
    repl.runRepl [s 7 "main.run"; s 8 "main.walk"] ["fm walk"] = Ok (st, out)
    ∧ repl.cur st = [s 8 "main.walk"]
    ∧ repl.round st "show 7"
      = Ok (st, [match last (List.filter (λ x, Number x =? 7)
                               [s 7 "main.run"; s 8 "main.walk"]) with
                 | Some x => repl.Stacks [x]
                 | None => repl.NotFound
                 end; repl.Prompt]).
Proof.
  intros s. eexists _, _. split; [reflexivity|]. split; [reflexivity|].
  eapply (show_looks_up_the_input [s 7 "main.run"; s 8 "main.walk"] ["fm walk"]
            _ _ "show 7" "show" "7" [] 7).
  - reflexivity.
  - reflexivity.
  - left. reflexivity.
  - reflexivity.
Defined.
